(** * Folder synchronisation: a shallow embedding of [folder_sync.py]

    The program mirrors a source folder into a replica folder: one cycle
    ([synchronize_folders]) first copies every source file that is missing
    or has a different hash in the replica ([copy_files]) and then removes
    every replica file whose path does not exist in the source
    ([remove_files]).  [main] validates the two folders and repeats the
    cycle forever, sleeping in between.

    Modelling choices.
    - A folder is a tree of named entries, in the order the file system
      lists them ([os.walk] follows that order).  A [filesystem] is made of
      two trees and a [path] names one of them and the components below
      its root, so the same primitive can address either tree.  In the first
      part of the development the program is given the roots of the two
      trees as its source and replica folder.  In the last part it is given
      any two paths, in the same tree or not ([Anywhere]): [main] lets one
      folder lie inside the other, and the program then changes the source.
    - Only regular files and directories exist (no symbolic links), file
      metadata is not part of the state, and nobody else changes the trees
      while the program runs.
    - Library calls fail for structural reasons (missing entry, directory
      where a file is expected, file where a directory is expected) and for
      environmental ones, given by a [faults] record: files that cannot be
      opened, a byte offset at which reading fails, files that cannot be
      unlinked.
    - In the first part neither folder lies inside the other, every
      directory can be listed and every write to the replica succeeds unless
      the trees themselves forbid it.  The log file lies in neither folder:
      [print] and [logging] append to the list of outputs of the state and
      leave the trees alone.
    - [hashlib] is a parameter: any incremental hasher.  MD5, the default
      [hash_algorithm], is defined for running the program on contents that
      collide.
    - [os.walk] is a generator.  In the first part it is modelled by the
      list of its triples on the tree at the time of the call: the program
      never changes the directory structure of the tree it is walking (the
      copy phase walks the source and writes to the replica, the delete
      phase only unlinks files of the directory whose listing has already
      been taken).  In the last part it lists a directory when the loop
      reaches it and skips a directory that cannot be listed; on two
      folders that lie apart and can be listed the two models are proved to
      agree ([run_cycle_seen], [run_main_seen]).
    - The endless loop of [main] is observed for a given number of
      iterations. *)

From Stdlib Require Import Strings.String Strings.Byte Strings.Ascii.
From Stdlib Require Import Bool Arith NArith Lia List.
Import ListNotations.
Local Open Scope list_scope.

Set Implicit Arguments.

(** ** Paths and trees *)

Definition name := string.
Definition relpath := list name.

Inductive folder := Source | Replica.

Definition path : Type := folder * relpath.

#[local] Unset Elimination Schemes.
Inductive node :=
| File (data : list byte)
| Dir (entries : list (name * node)).
#[local] Set Elimination Schemes.

Record filesystem := {
  source_root : option node;
  replica_root : option node
}.

Definition root_of (fs : filesystem) (f : folder) : option node :=
  match f with
  | Source => source_root fs
  | Replica => replica_root fs
  end.

Definition set_root (fs : filesystem) (f : folder) (o : option node) : filesystem :=
  match f with
  | Source => {| source_root := o; replica_root := replica_root fs |}
  | Replica => {| source_root := source_root fs; replica_root := o |}
  end.

(** Directory entries: an association list in listing order. *)

Fixpoint entry (x : name) (es : list (name * node)) : option node :=
  match es with
  | [] => None
  | (y, c) :: es' => if String.eqb x y then Some c else entry x es'
  end.

(** Replace the entry named [x], or add it at the end of the listing. *)
Fixpoint set_entry (x : name) (c : node) (es : list (name * node)) : list (name * node) :=
  match es with
  | [] => [(x, c)]
  | (y, c0) :: es' =>
      if String.eqb x y then (x, c) :: es' else (y, c0) :: set_entry x c es'
  end.

Fixpoint del_entry (x : name) (es : list (name * node)) : list (name * node) :=
  match es with
  | [] => []
  | (y, c0) :: es' =>
      if String.eqb x y then es' else (y, c0) :: del_entry x es'
  end.

Fixpoint lookup (n : node) (p : relpath) : option node :=
  match p with
  | [] => Some n
  | x :: q =>
      match n with
      | File _ => None
      | Dir es =>
          match entry x es with
          | Some c => lookup c q
          | None => None
          end
      end
  end.

Definition stat (fs : filesystem) (p : path) : option node :=
  match root_of fs (fst p) with
  | Some n => lookup n (snd p)
  | None => None
  end.

(** Names are unique within a directory. *)
Fixpoint wf_node (n : node) : bool :=
  match n with
  | File _ => true
  | Dir es =>
      (fix wf_entries (l : list (name * node)) : bool :=
         match l with
         | [] => true
         | (x, c) :: l' =>
             match entry x l' with Some _ => false | None => true end
             && wf_node c && wf_entries l'
         end) es
  end.

Definition wf_root (o : option node) : bool :=
  match o with
  | Some n => wf_node n
  | None => true
  end.

Definition wf_fs (fs : filesystem) : bool :=
  wf_root (source_root fs) && wf_root (replica_root fs).

(** ** Exceptions and results *)

(** Every exception the library calls raise is an [OSError] (alias
    [IOError]); Python picks the subclass from the error number:
    [FileNotFoundError], [NotADirectoryError], [IsADirectoryError],
    [FileExistsError], [PermissionError], plain [OSError].  The exception
    carries the path given to the failing call. *)
Inductive errno := ENOENT | ENOTDIR | EISDIR | EEXIST | EACCES | EIO.

Inductive exn :=
| OSError (code : errno) (filename : path).

Inductive result (A : Type) :=
| Ok (a : A)
| Raise (e : exn).

Arguments Ok {A} a.
Arguments Raise {A} e.

(** Environmental failures. *)
Record faults := {
  open_denied : path -> bool;
  bad_offset : path -> option nat;
  unlink_denied : path -> bool
}.

Definition no_faults : faults :=
  {| open_denied := fun _ => false;
     bad_offset := fun _ => None;
     unlink_denied := fun _ => false |}.

(** ** Path functions of [os.path] *)

Definition os_path_join (p : path) (file : name) : path :=
  (fst p, snd p ++ [file]).

Definition os_path_relpath (p : path) (start : folder) : relpath := snd p.

Definition os_path_join_rel (start : folder) (rel : relpath) : path := (start, rel).

Definition os_path_dirname (p : path) : path := (fst p, removelast (snd p)).

Definition os_path_basename (p : path) : name := last (snd p) EmptyString.

Definition exists_b (fs : filesystem) (p : path) : bool :=
  match stat fs p with
  | Some _ => true
  | None => false
  end.

Definition isdir_b (fs : filesystem) (p : path) : bool :=
  match stat fs p with
  | Some (Dir _) => true
  | _ => false
  end.

Definition isfile_b (fs : filesystem) (p : path) : bool :=
  match stat fs p with
  | Some (File _) => true
  | _ => false
  end.

(** ** Library primitives on the file system *)

(** [os.makedirs(name, exist_ok=True)]: the missing directories of [name]
    are created; an existing directory is accepted; a regular file on the
    way raises, and nothing has been created then. *)
Fixpoint fresh_dirs (p : relpath) : node :=
  match p with
  | [] => Dir []
  | x :: q => Dir [(x, fresh_dirs q)]
  end.

Fixpoint mkdirs (who : path) (n : node) (p : relpath) : result node :=
  match p with
  | [] =>
      match n with
      | Dir _ => Ok n
      | File _ => Raise (OSError EEXIST who)
      end
  | x :: q =>
      match n with
      | File _ => Raise (OSError ENOTDIR who)
      | Dir es =>
          match entry x es with
          | Some c =>
              match mkdirs who c q with
              | Ok c' => Ok (Dir (set_entry x c' es))
              | Raise e => Raise e
              end
          | None => Ok (Dir (set_entry x (fresh_dirs q) es))
          end
      end
  end.

Definition makedirs (fs : filesystem) (p : path) : result filesystem :=
  match root_of fs (fst p) with
  | None => Ok (set_root fs (fst p) (Some (fresh_dirs (snd p))))
  | Some n =>
      match mkdirs p n (snd p) with
      | Ok n' => Ok (set_root fs (fst p) (Some n'))
      | Raise e => Raise e
      end
  end.

(** File objects opened with [open(path, 'rb')]. *)
Record file_object := {
  fo_name : path;
  fo_data : list byte;
  fo_pos : nat
}.

Definition open_rb (F : faults) (fs : filesystem) (p : path) : result file_object :=
  match stat fs p with
  | None => Raise (OSError ENOENT p)
  | Some (Dir _) => Raise (OSError EISDIR p)
  | Some (File d) =>
      if open_denied F p then Raise (OSError EACCES p)
      else Ok {| fo_name := p; fo_data := d; fo_pos := 0 |}
  end.

(** [file.read(size)]: at most [size] bytes from the current position, the
    empty string at the end of the file; the call fails when the bytes it
    has to fetch include the bad offset of the file. *)
Definition file_read (F : faults) (size : nat) (f : file_object)
  : result (list byte * file_object) :=
  let data := firstn size (skipn (fo_pos f) (fo_data f)) in
  let f' := {| fo_name := fo_name f; fo_data := fo_data f;
               fo_pos := fo_pos f + length data |} in
  match bad_offset F (fo_name f) with
  | Some o =>
      if (fo_pos f <=? o) && (o <? fo_pos f + length data)
      then Raise (OSError EIO (fo_name f))
      else Ok (data, f')
  | None => Ok (data, f')
  end.

(** Writing a regular file: the parent directory must exist, the target
    must not be a directory; the file is created or replaced. *)
Fixpoint write_node (who : path) (n : node) (p : relpath) (d : list byte) : result node :=
  match p with
  | [] =>
      match n with
      | File _ => Ok (File d)
      | Dir _ => Raise (OSError EISDIR who)
      end
  | x :: q =>
      match n with
      | File _ => Raise (OSError ENOTDIR who)
      | Dir es =>
          match entry x es with
          | Some c =>
              match write_node who c q d with
              | Ok c' => Ok (Dir (set_entry x c' es))
              | Raise e => Raise e
              end
          | None =>
              match q with
              | [] => Ok (Dir (set_entry x (File d) es))
              | _ :: _ => Raise (OSError ENOENT who)
              end
          end
      end
  end.

Definition write_file (fs : filesystem) (p : path) (d : list byte) : result filesystem :=
  match root_of fs (fst p) with
  | None =>
      match snd p with
      | [] => Ok (set_root fs (fst p) (Some (File d)))
      | _ :: _ => Raise (OSError ENOENT p)
      end
  | Some n =>
      match write_node p n (snd p) d with
      | Ok n' => Ok (set_root fs (fst p) (Some n'))
      | Raise e => Raise e
      end
  end.

(** The buffer of [shutil.copyfileobj]. *)
Definition COPY_BUFSIZE : nat := 64 * 1024.

(** The read loop of [shutil.copyfileobj]: the bytes fetched before the
    end of the file or before the first failing read. *)
Fixpoint read_all (F : faults) (fuel : nat) (f : file_object) (acc : list byte)
  : list byte * option exn :=
  match fuel with
  | 0 => (acc, None)
  | S fuel' =>
      match file_read F COPY_BUFSIZE f with
      | Raise e => (acc, Some e)
      | Ok (buf, f') =>
          match buf with
          | [] => (acc, None)
          | _ :: _ => read_all F fuel' f' (acc ++ buf)
          end
      end
  end.

(** [shutil.copy2(src, dst)]: a directory as [dst] receives the file under
    the base name of [src]; the source is opened, the target created or
    truncated, and the content copied; a read failing on the way leaves
    the bytes copied so far in the target. *)
Definition copy2 (F : faults) (fs : filesystem) (src dst : path)
  : filesystem * result unit :=
  let dst := if isdir_b fs dst then os_path_join dst (os_path_basename src) else dst in
  match open_rb F fs src with
  | Raise e => (fs, Raise e)
  | Ok fsrc =>
      let '(copied, failure) := read_all F (S (length (fo_data fsrc))) fsrc [] in
      match write_file fs dst copied with
      | Raise e => (fs, Raise e)
      | Ok fs' =>
          (fs', match failure with
                | None => Ok tt
                | Some e => Raise e
                end)
      end
  end.

(** [os.remove(path)]. *)
Fixpoint remove_at (n : node) (p : relpath) : node :=
  match p with
  | [] => n
  | x :: q =>
      match n with
      | File _ => n
      | Dir es =>
          match q with
          | [] => Dir (del_entry x es)
          | _ :: _ =>
              match entry x es with
              | Some c => Dir (set_entry x (remove_at c q) es)
              | None => n
              end
          end
      end
  end.

Definition remove (F : faults) (fs : filesystem) (p : path) : result filesystem :=
  match stat fs p with
  | None => Raise (OSError ENOENT p)
  | Some (Dir _) => Raise (OSError EISDIR p)
  | Some (File _) =>
      if unlink_denied F p then Raise (OSError EACCES p)
      else
        match root_of fs (fst p), snd p with
        | Some n, _ :: _ => Ok (set_root fs (fst p) (Some (remove_at n (snd p))))
        | _, _ => Ok (set_root fs (fst p) None)
        end
  end.

(** [os.walk(top)], top-down: the directory, its sub-directories, its
    files; then the sub-directories in listing order.  A [top] that is
    missing or not a directory yields nothing. *)
Fixpoint dirnames (es : list (name * node)) : list name :=
  match es with
  | [] => []
  | (x, Dir _) :: es' => x :: dirnames es'
  | (_, File _) :: es' => dirnames es'
  end.

Fixpoint filenames (es : list (name * node)) : list name :=
  match es with
  | [] => []
  | (x, File _) :: es' => x :: filenames es'
  | (_, Dir _) :: es' => filenames es'
  end.

Fixpoint walk_node (top : path) (n : node) : list (path * list name * list name) :=
  match n with
  | File _ => []
  | Dir es =>
      (top, dirnames es, filenames es)
      :: (fix walk_entries (l : list (name * node)) :=
            match l with
            | [] => []
            | (x, c) :: l' => walk_node (os_path_join top x) c ++ walk_entries l'
            end) es
  end.

Definition walk (fs : filesystem) (top : path) : list (path * list name * list name) :=
  match stat fs top with
  | Some n => walk_node top n
  | None => []
  end.

(** ** Program state and effects *)

(** The texts the program prints and logs. *)
Inductive message :=
| FileCopied (relative_path : relpath)
| FileDeleted (relative_path : relpath)
| SyncCompleted
| CopyFailed (e : exn)
| RemoveFailed (e : exn)
| SyncFailed (e : exn)
| SourceMissing
| ReplicaMissing.

(** [print] writes to the console; once [setup_logging] has run, a logging
    call writes one record to the log file and to the console. *)
Inductive output :=
| Print (m : message)
| LogInfo (m : message)
| LogError (m : message).

(** The calls that change the world, in the order the program makes them. *)
Inductive call :=
| Makedirs (p : path)
| Copy2 (src dst : path)
| Remove (p : path)
| SetupLogging
| Sleep (seconds : nat).

Record state := {
  st_fs : filesystem;
  st_out : list output;
  st_calls : list call
}.

Definition with_fs (s : state) (fs : filesystem) : state :=
  {| st_fs := fs; st_out := st_out s; st_calls := st_calls s |}.

Definition emit (o : output) (s : state) : state :=
  {| st_fs := st_fs s; st_out := st_out s ++ [o]; st_calls := st_calls s |}.

Definition note (c : call) (s : state) : state :=
  {| st_fs := st_fs s; st_out := st_out s; st_calls := st_calls s ++ [c] |}.

(** Computations: they read and change the state and return or raise. *)
Definition M (A : Type) : Type := state -> state * result A.

Definition ret {A : Type} (a : A) : M A := fun s => (s, Ok a).

Definition bind {A B : Type} (m : M A) (k : A -> M B) : M B :=
  fun s =>
    match m s with
    | (s', Ok a) => k a s'
    | (s', Raise e) => (s', Raise e)
    end.

Definition try_except {A : Type} (m : M A) (handler : exn -> M A) : M A :=
  fun s =>
    match m s with
    | (s', Ok a) => (s', Ok a)
    | (s', Raise e) => handler e s'
    end.

Declare Scope prog_scope.
Delimit Scope prog_scope with prog.
Notation "x <- c1 ;; c2" := (bind c1 (fun x => c2))
  (at level 61, c1 at next level, right associativity) : prog_scope.
Notation "c1 ;; c2" := (bind c1 (fun _ => c2))
  (at level 61, right associativity) : prog_scope.
Local Open Scope prog_scope.

Fixpoint for_each {A : Type} (l : list A) (body : A -> M unit) : M unit :=
  match l with
  | [] => ret tt
  | x :: l' => body x ;; for_each l' body
  end.

(** [while True: body], observed for [n] iterations. *)
Fixpoint while_true (n : nat) (body : M unit) : M unit :=
  match n with
  | 0 => ret tt
  | S n' => body ;; while_true n' body
  end.

Definition print (m : message) : M unit :=
  fun s => (emit (Print m) s, Ok tt).

Definition logging_info (m : message) : M unit :=
  fun s => (emit (LogInfo m) s, Ok tt).

Definition logging_error (m : message) : M unit :=
  fun s => (emit (LogError m) s, Ok tt).

Definition setup_logging : M unit :=
  fun s => (note SetupLogging s, Ok tt).

Definition time_sleep (seconds : nat) : M unit :=
  fun s => (note (Sleep seconds) s, Ok tt).

Definition os_path_exists (p : path) : M bool :=
  fun s => (s, Ok (exists_b (st_fs s) p)).

Definition os_walk (top : path) : M (list (path * list name * list name)) :=
  fun s => (s, Ok (walk (st_fs s) top)).

Definition os_makedirs (p : path) : M unit :=
  fun s =>
    let s := note (Makedirs p) s in
    match makedirs (st_fs s) p with
    | Ok fs' => (with_fs s fs', Ok tt)
    | Raise e => (s, Raise e)
    end.

#[local] Set Warnings "-abstract-large-number".
Definition chunk_size : nat := 65536.
#[local] Set Warnings "abstract-large-number".

Section Program.

(** [hashlib.new(hash_algorithm)]: an incremental hasher. *)
Variable hasher : Type.
Variable hash_new : hasher.
Variable hash_update : hasher -> list byte -> hasher.
Variable hexdigest : hasher -> string.

Variable F : faults.

Definition open_ (p : path) : M file_object :=
  fun s => (s, open_rb F (st_fs s) p).

Definition read_ (file : file_object) (size : nat) : M (list byte * file_object) :=
  fun s => (s, file_read F size file).

Definition shutil_copy2 (src dst : path) : M unit :=
  fun s =>
    let s := note (Copy2 src dst) s in
    let '(fs', r) := copy2 F (st_fs s) src dst in
    (with_fs s fs', r).

Definition os_remove (p : path) : M unit :=
  fun s =>
    let s := note (Remove p) s in
    match remove F (st_fs s) p with
    | Ok fs' => (with_fs s fs', Ok tt)
    | Raise e => (s, Raise e)
    end.

(** The loop of [calculate_hash]; it ends on the empty read, which comes
    after at most [length data] non-empty ones. *)
Fixpoint hash_loop (fuel : nat) (h : hasher) (file : file_object) : M hasher :=
  match fuel with
  | 0 => ret h
  | S fuel' =>
      r <- read_ file chunk_size ;;
      match fst r with
      | [] => ret h
      | _ :: _ => hash_loop fuel' (hash_update h (fst r)) (snd r)
      end
  end.

Definition calculate_hash (file_path : path) : M string :=
  let h := hash_new in
  file <- open_ file_path ;;
  h <- hash_loop (S (length (fo_data file))) h file ;;
  ret (hexdigest h).

Definition are_files_different (source_file replica_file : path) : M bool :=
  source_hash <- calculate_hash source_file ;;
  replica_hash <- calculate_hash replica_file ;;
  ret (negb (String.eqb source_hash replica_hash)).

Definition copy_files (source_folder replica_folder : folder) : M unit :=
  try_except
    (triples <- os_walk (source_folder, []) ;;
     for_each triples (fun '(root, _, files) =>
       for_each files (fun file =>
         let source_path := os_path_join root file in
         let relative_path := os_path_relpath source_path source_folder in
         let replica_path := os_path_join_rel replica_folder relative_path in
         os_makedirs (os_path_dirname replica_path) ;;
         present <- os_path_exists replica_path ;;
         needed <- (if negb present then ret true
                    else are_files_different source_path replica_path) ;;
         if needed : bool then
           shutil_copy2 source_path replica_path ;;
           logging_info (FileCopied relative_path)
         else ret tt)))
    (fun e =>
       print (CopyFailed e) ;;
       logging_error (CopyFailed e)).

Definition remove_files (replica_folder source_folder : folder) : M unit :=
  try_except
    (triples <- os_walk (replica_folder, []) ;;
     for_each triples (fun '(root, _, files) =>
       for_each files (fun file =>
         let replica_path := os_path_join root file in
         let relative_path := os_path_relpath replica_path replica_folder in
         let source_path := os_path_join_rel source_folder relative_path in
         present <- os_path_exists source_path ;;
         if negb present then
           os_remove replica_path ;;
           logging_info (FileDeleted relative_path)
         else ret tt)))
    (fun e =>
       print (RemoveFailed e) ;;
       logging_error (RemoveFailed e)).

Definition synchronize_folders (source_folder replica_folder : folder) : M unit :=
  try_except
    (copy_files source_folder replica_folder ;;
     remove_files replica_folder source_folder ;;
     logging_info SyncCompleted)
    (fun e =>
       print (SyncFailed e) ;;
       logging_error (SyncFailed e)).

(** [main]: [args.source] and [args.replica] are the two folders,
    [interval] is [args.interval]; the result tells whether the function
    returned or is still in its loop after [cycles] iterations. *)
Inductive status := Returned | Looping.

Definition main (interval cycles : nat) : M status :=
  present <- os_path_exists (Source, []) ;;
  if negb present then
    print SourceMissing ;; ret Returned
  else
    present <- os_path_exists (Replica, []) ;;
    if negb present then
      print ReplicaMissing ;; ret Returned
    else
      setup_logging ;;
      while_true cycles
        (synchronize_folders Source Replica ;;
         time_sleep (interval * 60)) ;;
      ret Looping.

End Program.

(** ** Observations used in the statements *)

(** What a path denotes: nothing, a regular file with its content, or a
    directory. *)
Inductive kind :=
| KNone
| KFile (d : list byte)
| KDir.

Definition kind_of (o : option node) : kind :=
  match o with
  | None => KNone
  | Some (File d) => KFile d
  | Some (Dir _) => KDir
  end.

Definition kind_at (fs : filesystem) (p : path) : kind := kind_of (stat fs p).

Definition data_at (fs : filesystem) (p : path) : list byte :=
  match kind_at fs p with
  | KFile d => d
  | _ => []
  end.

(** A replica path is an orphan when nothing exists at that path in the
    source: the test of [remove_files]. *)
Definition orphan (fs : filesystem) (rel : relpath) : bool :=
  negb (exists_b fs (Source, rel)).

Definition folder_eqb (f g : folder) : bool :=
  match f, g with
  | Source, Source => true
  | Replica, Replica => true
  | _, _ => false
  end.

Fixpoint relpath_eqb (p q : relpath) : bool :=
  match p, q with
  | [], [] => true
  | x :: p', y :: q' => String.eqb x y && relpath_eqb p' q'
  | _, _ => false
  end.

(** [prefixb q p]: [q] is [p] or one of its ancestors. *)
Fixpoint prefixb (q p : relpath) : bool :=
  match q, p with
  | [], _ => true
  | y :: q', x :: p' => String.eqb y x && prefixb q' p'
  | _ :: _, [] => false
  end.

(** The relative paths of the regular files of a tree, in the order
    [os.walk] meets them. *)
Fixpoint file_paths (n : node) : list relpath :=
  match n with
  | File _ => []
  | Dir es =>
      map (fun x => [x]) (filenames es)
      ++ (fix sub_paths (l : list (name * node)) : list relpath :=
            match l with
            | [] => []
            | (x, c) :: l' => map (cons x) (file_paths c) ++ sub_paths l'
            end) es
  end.

(** The paths [os.path.join(root, file)] over the triples of a walk, in
    the order the two nested loops of the program meet them. *)
Definition walk_items (w : list (path * list name * list name)) : list path :=
  flat_map (fun t => map (os_path_join (fst (fst t))) (snd t)) w.

Definition files_under (fs : filesystem) (f : folder) : list relpath :=
  match root_of fs f with
  | Some n => file_paths n
  | None => []
  end.

(** The pieces in which a content is read with a given buffer size. *)
Fixpoint chunks (fuel size : nat) (d : list byte) : list (list byte) :=
  match fuel with
  | 0 => []
  | S fuel' =>
      match firstn size d with
      | [] => []
      | _ :: _ => firstn size d :: chunks fuel' size (skipn size d)
      end
  end.

(** A file can be read to its end: it can be opened and its bad offset, if
    any, lies beyond its content. *)
Definition readable (F : faults) (p : path) (d : list byte) : bool :=
  negb (open_denied F p)
  && match bad_offset F p with
     | Some o => length d <=? o
     | None => true
     end.

Definition is_error (o : output) : bool :=
  match o with
  | LogError _ => true
  | _ => false
  end.


Definition is_deleted (rel : relpath) (o : output) : bool :=
  match o with
  | LogInfo (FileDeleted r) => relpath_eqb r rel
  | _ => false
  end.

Definition is_copy_event (o : output) : bool :=
  match o with
  | LogInfo (FileCopied _) => true
  | _ => false
  end.

Definition is_delete_event (o : output) : bool :=
  match o with
  | LogInfo (FileDeleted _) => true
  | _ => false
  end.

Definition count (f : output -> bool) (out : list output) : nat :=
  length (filter f out).

Definition no_error (out : list output) : bool :=
  forallb (fun o => negb (is_error o)) out.

(** What a handler of the program prints and logs for an exception. *)
Definition report (mk : exn -> message) (err : option exn) : list output :=
  match err with
  | None => []
  | Some e => [Print (mk e); LogError (mk e)]
  end.

(** A run starts with an empty console and log. *)
Definition initial (fs : filesystem) : state :=
  {| st_fs := fs; st_out := []; st_calls := [] |}.

Definition target (c : call) : option path :=
  match c with
  | Makedirs p => Some p
  | Copy2 _ dst => Some dst
  | Remove p => Some p
  | SetupLogging => None
  | Sleep _ => None
  end.

Definition is_copy_call (c : call) : bool :=
  match c with
  | Makedirs _ => true
  | Copy2 _ _ => true
  | _ => false
  end.

Definition is_remove_call (c : call) : bool :=
  match c with
  | Remove _ => true
  | _ => false
  end.


Section Fingerprint.

Variable hasher : Type.
Variable hash_new : hasher.
Variable hash_update : hasher -> list byte -> hasher.
Variable hexdigest : hasher -> string.

(** The digest [calculate_hash] computes for a content. *)
Definition fingerprint (d : list byte) : string :=
  hexdigest (fold_left hash_update (chunks (S (length d)) chunk_size d) hash_new).

(** The test of [copy_files] on what the replica holds at the path of a
    source file with content [d]. *)
Definition needs_copy (k : kind) (d : list byte) : bool :=
  match k with
  | KNone => true
  | KFile d' => negb (String.eqb (fingerprint d) (fingerprint d'))
  | KDir => false
  end.

(** A source file is stale when the replica holds nothing at its path or a
    file with another fingerprint. *)
Definition stale (fs : filesystem) (rel : relpath) : bool :=
  needs_copy (kind_at fs (Replica, rel)) (data_at fs (Source, rel)).

End Fingerprint.

Section Iterations.

Variable hasher : Type.
Variable hash_new : hasher.
Variable hash_update : hasher -> list byte -> hasher.
Variable hexdigest : hasher -> string.
Variable F : faults.

(** One iteration of the inner loop of [copy_files], for the path
    [os.path.join(root, file)]. *)
Definition copy_one (source_folder replica_folder : folder) (source_path : path)
  : M unit :=
  let relative_path := os_path_relpath source_path source_folder in
  let replica_path := os_path_join_rel replica_folder relative_path in
  os_makedirs (os_path_dirname replica_path) ;;
  present <- os_path_exists replica_path ;;
  needed <- (if negb present then ret true
             else are_files_different hash_new hash_update hexdigest F
                    source_path replica_path) ;;
  if needed : bool then
    shutil_copy2 F source_path replica_path ;;
    logging_info (FileCopied relative_path)
  else ret tt.

(** One iteration of the inner loop of [remove_files]. *)
Definition remove_one (replica_folder source_folder : folder) (replica_path : path)
  : M unit :=
  let relative_path := os_path_relpath replica_path replica_folder in
  let source_path := os_path_join_rel source_folder relative_path in
  present <- os_path_exists source_path ;;
  if negb present then
    os_remove F replica_path ;;
    logging_info (FileDeleted relative_path)
  else ret tt.

(** The handlers of the two phases. *)
Definition copy_handler (e : exn) : M unit :=
  print (CopyFailed e) ;; logging_error (CopyFailed e).

Definition remove_handler (e : exn) : M unit :=
  print (RemoveFailed e) ;; logging_error (RemoveFailed e).

End Iterations.

Fixpoint bytes_eqb (a b : list byte) : bool :=
  match a, b with
  | [], [] => true
  | x :: a', y :: b' => Byte.eqb x y && bytes_eqb a' b'
  | _, _ => false
  end.

Definition is_completed (o : output) : bool :=
  match o with
  | LogInfo SyncCompleted => true
  | _ => false
  end.



(** No regular file of the replica sits at the path of a source
    directory. *)
Definition clear_of_dirs (fs : filesystem) : bool :=
  forallb (fun p => negb (isdir_b fs (Source, p))) (files_under fs Replica).

(** The source tree is the same in two file systems. *)
Definition same_source (fs fs' : filesystem) : Prop :=
  root_of fs' Source = root_of fs Source.

(** A call that changes the file system changes it below the replica
    folder. *)
Definition on_replica (c : call) : Prop :=
  match target c with
  | Some p => fst p = Replica
  | None => True
  end.

(** A computation is confined by a relation on file systems, a property
    of calls and a property of outputs when, whether it returns or raises,
    the file system it leaves is related to the one it found and it has
    only added calls and outputs with these properties. *)
Definition confined {A : Type} (I : filesystem -> filesystem -> Prop)
    (P : call -> Prop) (Q : output -> Prop) (m : M A) : Prop :=
  forall s s' r,
    m s = (s', r) ->
    I (st_fs s) (st_fs s')
    /\ exists cs os,
         st_calls s' = st_calls s ++ cs /\ Forall P cs
         /\ st_out s' = st_out s ++ os /\ Forall Q os.

Section Runs.

Variable hasher : Type.
Variable hash_new : hasher.
Variable hash_update : hasher -> list byte -> hasher.
Variable hexdigest : hasher -> string.
Variable F : faults.

(** The state after the copy phase, after one cycle, and after a number
    of cycles of the loop of [main], from a file system and an empty
    console and log. *)
Definition run_copy (fs : filesystem) : state :=
  fst (copy_files hash_new hash_update hexdigest F Source Replica (initial fs)).

Definition run_cycle (fs : filesystem) : state :=
  fst (synchronize_folders hash_new hash_update hexdigest F Source Replica
         (initial fs)).

Definition run_main (interval cycles : nat) (fs : filesystem) : state :=
  fst (main hash_new hash_update hexdigest F interval cycles (initial fs)).

(** Where the replica holds a file at the path of a source file, equal
    fingerprints mean equal contents. *)
Definition collision_free (fs : filesystem) : bool :=
  forallb
    (fun p =>
       match kind_at fs (Replica, p) with
       | KFile b =>
           implb (String.eqb
                    (fingerprint hash_new hash_update hexdigest
                       (data_at fs (Source, p)))
                    (fingerprint hash_new hash_update hexdigest b))
                 (bytes_eqb (data_at fs (Source, p)) b)
       | _ => true
       end)
    (files_under fs Source).

End Runs.

(** The folder [f] holds a regular file with content [d] at the relative
    path [p]. *)
Definition file_at (fs : filesystem) (f : folder) (p : relpath) (d : list byte)
  : Prop :=
  p <> [] /\ kind_at fs (f, p) = KFile d.



(** The environment in which one path cannot be unlinked. *)
Definition deny_unlink (q : path) : faults :=
  {| open_denied := fun _ => false;
     bad_offset := fun _ => None;
     unlink_denied :=
       fun p => folder_eqb (fst p) (fst q) && relpath_eqb (snd p) (snd q) |}.

(** A hasher without collisions, for running the model: the digest is the
    content itself. *)
Definition plain_update (h d : list byte) : list byte := h ++ d.

Definition plain_digest (h : list byte) : string := string_of_list_byte h.


(** ** What can make an iteration fail *)

(** The directories above a relative path, the folder itself first: the
    directories [os.makedirs] is asked for. *)
Fixpoint ancestors (p : relpath) : list relpath :=
  match p with
  | [] => []
  | x :: q => [] :: map (cons x) (ancestors q)
  end.

(** The replica stands in the way of a source file when it holds a
    directory at the path of the file, or a regular file at the path of one
    of the directories above it. *)
Definition in_the_way (fs : filesystem) (p : relpath) : bool :=
  isdir_b fs (Replica, p)
  || existsb (fun q => isfile_b fs (Replica, q)) (ancestors p).

(** The iteration of [copy_files] on the source file [p] meets no
    obstacle: nothing stands in the way, the source file can be read to its
    end and so can the replica file it is compared with, if there is one. *)
Definition copy_unhindered (F : faults) (fs : filesystem) (p : relpath) : bool :=
  negb (in_the_way fs p)
  && readable F (Source, p) (data_at fs (Source, p))
  && match kind_at fs (Replica, p) with
     | KFile d' => readable F (Replica, p) d'
     | _ => true
     end.

(** The iteration of [remove_files] on the replica file [q] meets no
    obstacle: the file is kept, or it can be unlinked. *)
Definition remove_unhindered (F : faults) (fs : filesystem) (q : relpath) : bool :=
  negb (orphan fs q && unlink_denied F (Replica, q)).

Definition cycle_unhindered (F : faults) (fs : filesystem) : bool :=
  forallb (copy_unhindered F fs) (files_under fs Source)
  && forallb (remove_unhindered F fs) (files_under fs Replica).

(** No source file finds the replica in its way. *)
Definition conflict_free (fs : filesystem) : bool :=
  forallb (fun p => negb (in_the_way fs p)) (files_under fs Source).

Definition is_ok {A : Type} (r : result A) : bool :=
  match r with
  | Ok _ => true
  | Raise _ => false
  end.

Definition is_setup_or_sleep (c : call) : bool :=
  match c with
  | SetupLogging => true
  | Sleep _ => true
  | _ => false
  end.

(** A record of the handler of [synchronize_folders]. *)
Definition is_sync_failed (o : output) : bool :=
  match o with
  | Print (SyncFailed _) => true
  | LogError (SyncFailed _) => true
  | _ => false
  end.

(** The state [s'] that a computation reaches from the empty console and
    log, seen as reached from the state [s]: its records and calls follow
    those of [s]. *)
Definition rebase (s s' : state) : state :=
  {| st_fs := st_fs s';
     st_out := st_out s ++ st_out s';
     st_calls := st_calls s ++ st_calls s' |}.

(** A computation that neither reads the console, the log nor the list of
    calls: from any state it does what it does from the same file system
    and an empty console and log. *)
Definition oblivious {A : Type} (m : M A) : Prop :=
  forall s,
    m s = (rebase s (fst (m (initial (st_fs s)))), snd (m (initial (st_fs s)))).

(** What the program may have made of a file system.  The source is the
    same.  A regular file of the replica is a file the replica held, with
    the same content, or holds the first bytes of the source file at its
    path.  A directory of the replica is a directory the replica held or
    lies above a source file.  The directories of the replica are still
    there, and so are its files whose path exists in the source. *)
Definition evolved (fs fs' : filesystem) : Prop :=
  wf_fs fs = true ->
  wf_fs fs' = true
  /\ same_source fs fs'
  /\ (forall q d, kind_at fs' (Replica, q) = KFile d ->
        kind_at fs (Replica, q) = KFile d
        \/ exists rest, kind_at fs (Source, q) = KFile (d ++ rest))
  /\ (forall q, kind_at fs' (Replica, q) = KDir ->
        kind_at fs (Replica, q) = KDir
        \/ exists p, In p (files_under fs Source) /\ In q (ancestors p))
  /\ (forall q, kind_at fs (Replica, q) = KDir -> kind_at fs' (Replica, q) = KDir)
  /\ (forall q d, kind_at fs (Replica, q) = KFile d -> orphan fs q = false ->
        exists d', kind_at fs' (Replica, q) = KFile d').

(** ** MD5, the default [hash_algorithm] (RFC 1321) *)

Definition word := N.

Definition wrap (x : N) : word := N.land x 4294967295%N.

Definition rotl (x : word) (c : N) : word :=
  wrap (N.lor (N.shiftl x c) (N.shiftr x (32 - c))).

Definition wnot (x : word) : word := N.lxor x 4294967295%N.

(** The sixty-four additive constants [floor (2^32 * abs (sin (i + 1)))]
    and the shift amounts of the four rounds. *)
Definition md5_K : list word :=
  [
     3614090360; 3905402710; 606105819; 3250441966; 4118548399; 1200080426; 2821735955; 4249261313;
     1770035416; 2336552879; 4294925233; 2304563134; 1804603682; 4254626195; 2792965006; 1236535329;
     4129170786; 3225465664; 643717713; 3921069994; 3593408605; 38016083; 3634488961; 3889429448;
     568446438; 3275163606; 4107603335; 1163531501; 2850285829; 4243563512; 1735328473; 2368359562;
     4294588738; 2272392833; 1839030562; 4259657740; 2763975236; 1272893353; 4139469664; 3200236656;
     681279174; 3936430074; 3572445317; 76029189; 3654602809; 3873151461; 530742520; 3299628645;
     4096336452; 1126891415; 2878612391; 4237533241; 1700485571; 2399980690; 4293915773; 2240044497;
     1873313359; 4264355552; 2734768916; 1309151649; 4149444226; 3174756917; 718787259; 3951481745
  ]%N.

Definition md5_S : list N :=
  [
     7; 12; 17; 22; 7; 12; 17; 22;
     7; 12; 17; 22; 7; 12; 17; 22;
     5; 9; 14; 20; 5; 9; 14; 20;
     5; 9; 14; 20; 5; 9; 14; 20;
     4; 11; 16; 23; 4; 11; 16; 23;
     4; 11; 16; 23; 4; 11; 16; 23;
     6; 10; 15; 21; 6; 10; 15; 21;
     6; 10; 15; 21; 6; 10; 15; 21
  ]%N.

Definition word_of_bytes (b : list byte) : word :=
  fold_right (fun x acc => (Byte.to_N x + 256 * acc)%N) 0%N b.

Fixpoint bytes_of_word (n : nat) (w : N) : list byte :=
  match n with
  | 0 => []
  | S n' =>
      match Byte.of_N (w mod 256) with
      | Some b => b
      | None => x00
      end :: bytes_of_word n' (w / 256)
  end.

(** Padding: the bit [1], zero bits up to 56 modulo 64 bytes, and the
    length of the message in bits on 64 bits, low-order byte first. *)
Definition md5_pad (m : list byte) : list byte :=
  let l := length m in
  m ++ x80 :: repeat x00 ((119 - l mod 64) mod 64)
    ++ bytes_of_word 8 (8 * N.of_nat l).

Fixpoint md5_words (n : nat) (block : list byte) : list word :=
  match n with
  | 0 => []
  | S n' => word_of_bytes (firstn 4 block) :: md5_words n' (skipn 4 block)
  end.

Definition md5_step (M : list word) (i : nat) (st : word * word * word * word)
  : word * word * word * word :=
  let '(a, b, c, d) := st in
  let f :=
    match i / 16 with
    | 0 => N.lor (N.land b c) (N.land (wnot b) d)
    | 1 => N.lor (N.land d b) (N.land (wnot d) c)
    | 2 => N.lxor b (N.lxor c d)
    | _ => N.lxor c (N.lor b (wnot d))
    end in
  let g :=
    match i / 16 with
    | 0 => i
    | 1 => (5 * i + 1) mod 16
    | 2 => (3 * i + 5) mod 16
    | _ => (7 * i) mod 16
    end in
  let x := wrap (f + a + nth i md5_K 0 + nth g M 0)%N in
  (d, wrap (b + rotl x (nth i md5_S 0))%N, b, c).

Definition md5_block (st : word * word * word * word) (block : list byte)
  : word * word * word * word :=
  let M := md5_words 16 block in
  let '(a, b, c, d) := st in
  let '(a', b', c', d') := fold_left (fun st i => md5_step M i st) (seq 0 64) st in
  (wrap (a + a'), wrap (b + b'), wrap (c + c'), wrap (d + d'))%N.

Fixpoint md5_blocks (n : nat) (st : word * word * word * word) (m : list byte)
  : word * word * word * word :=
  match n with
  | 0 => st
  | S n' => md5_blocks n' (md5_block st (firstn 64 m)) (skipn 64 m)
  end.

Definition md5 (m : list byte) : list byte :=
  let p := md5_pad m in
  let '(a, b, c, d) :=
    md5_blocks (length p / 64)
      (1732584193, 4023233417, 2562383102, 271733878)%N p in
  bytes_of_word 4 a ++ bytes_of_word 4 b ++ bytes_of_word 4 c ++ bytes_of_word 4 d.

Definition hex_digit (n : N) : ascii :=
  nth (N.to_nat n)
    ["0"; "1"; "2"; "3"; "4"; "5"; "6"; "7"; "8"; "9"; "a"; "b"; "c"; "d"; "e"; "f"]%char
    "0"%char.

Fixpoint hex (b : list byte) : string :=
  match b with
  | [] => EmptyString
  | x :: b' =>
      String (hex_digit (Byte.to_N x / 16))
        (String (hex_digit (Byte.to_N x mod 16)) (hex b'))
  end.

(** [hashlib.new('md5')]: the object holds the bytes it has been fed. *)
Definition md5_new : list byte := [].

Definition md5_update (h d : list byte) : list byte := h ++ d.

Definition md5_hexdigest (h : list byte) : string := hex (md5 h).

(** Two contents of 128 bytes with the same MD5 digest (Wang and Yu,
    2005). *)
Definition collision_a : list byte :=
  [
     xd1; x31; xdd; x02; xc5; xe6; xee; xc4; x69; x3d; x9a; x06; x98; xaf; xf9; x5c;
     x2f; xca; xb5; x87; x12; x46; x7e; xab; x40; x04; x58; x3e; xb8; xfb; x7f; x89;
     x55; xad; x34; x06; x09; xf4; xb3; x02; x83; xe4; x88; x83; x25; x71; x41; x5a;
     x08; x51; x25; xe8; xf7; xcd; xc9; x9f; xd9; x1d; xbd; xf2; x80; x37; x3c; x5b;
     xd8; x82; x3e; x31; x56; x34; x8f; x5b; xae; x6d; xac; xd4; x36; xc9; x19; xc6;
     xdd; x53; xe2; xb4; x87; xda; x03; xfd; x02; x39; x63; x06; xd2; x48; xcd; xa0;
     xe9; x9f; x33; x42; x0f; x57; x7e; xe8; xce; x54; xb6; x70; x80; xa8; x0d; x1e;
     xc6; x98; x21; xbc; xb6; xa8; x83; x93; x96; xf9; x65; x2b; x6f; xf7; x2a; x70
  ].

Definition collision_b : list byte :=
  [
     xd1; x31; xdd; x02; xc5; xe6; xee; xc4; x69; x3d; x9a; x06; x98; xaf; xf9; x5c;
     x2f; xca; xb5; x07; x12; x46; x7e; xab; x40; x04; x58; x3e; xb8; xfb; x7f; x89;
     x55; xad; x34; x06; x09; xf4; xb3; x02; x83; xe4; x88; x83; x25; xf1; x41; x5a;
     x08; x51; x25; xe8; xf7; xcd; xc9; x9f; xd9; x1d; xbd; x72; x80; x37; x3c; x5b;
     xd8; x82; x3e; x31; x56; x34; x8f; x5b; xae; x6d; xac; xd4; x36; xc9; x19; xc6;
     xdd; x53; xe2; x34; x87; xda; x03; xfd; x02; x39; x63; x06; xd2; x48; xcd; xa0;
     xe9; x9f; x33; x42; x0f; x57; x7e; xe8; xce; x54; xb6; x70; x80; x28; x0d; x1e;
     xc6; x98; x21; xbc; xb6; xa8; x83; x93; x96; xf9; x65; xab; x6f; xf7; x2a; x70
  ].


(** ** The program on any two folders *)

(** [args.source] and [args.replica] are any two paths of the file system:
    nothing in [main] keeps one folder from lying inside the other.  The
    functions of the program are modelled a second time, for any two
    paths, with [os.walk] as the generator it is: a directory is listed
    when the loop reaches it, on the file system as the iterations so far
    have left it, and a directory that cannot be listed is skipped in
    silence ([os.walk] is called without [onerror]). *)

(** Two paths are comparable when one is the other or lies below it. *)
Definition crossing (p q : relpath) : bool := prefixb p q || prefixb q p.

Definition comparable (a b : path) : bool :=
  folder_eqb (fst a) (fst b) && crossing (snd a) (snd b).

(** [below top p]: [p] is [top] or lies below it. *)
Definition below (top p : path) : bool :=
  folder_eqb (fst top) (fst p) && prefixb (snd top) (snd p).

Module Anywhere.

(** [os.path.join(start, rel)] and [os.path.relpath(p, start)] for a path
    [p] below [start], the only case in the program. *)
Definition os_path_join_rel (start : path) (rel : relpath) : path :=
  (fst start, snd start ++ rel).

Definition os_path_relpath (p start : path) : relpath :=
  skipn (length (snd start)) (snd p).

Section Program.

Variable hasher : Type.
Variable hash_new : hasher.
Variable hash_update : hasher -> list byte -> hasher.
Variable hexdigest : hasher -> string.

Variable F : faults.

(** The directories that cannot be listed. *)
Variable unlistable : path -> bool.

(** [os.scandir(top)], sorted into directories and other entries as
    [os.walk] does. *)
Definition scandir (fs : filesystem) (top : path) : option (list name * list name) :=
  match stat fs top with
  | Some (Dir es) =>
      if unlistable top then None else Some (dirnames es, filenames es)
  | _ => None
  end.

(** [for root, dirs, files in os.walk(top): body], top-down and to a
    depth: [top] is listed, a failure to list it ends the walk of [top]
    without an exception, the body runs on the triple, and then the
    sub-directories of the listing are walked in turn. *)
Fixpoint for_os_walk (depth : nat) (top : path)
    (body : path * list name * list name -> M unit) : M unit :=
  fun s =>
    match scandir (st_fs s) top with
    | None => (s, Ok tt)
    | Some (dirs, nondirs) =>
        (body (top, dirs, nondirs) ;;
         match depth with
         | 0 => ret tt
         | S depth' =>
             for_each dirs (fun d => for_os_walk depth' (os_path_join top d) body)
         end) s
    end.

Definition copy_files (depth : nat) (source_folder replica_folder : path) : M unit :=
  try_except
    (for_os_walk depth source_folder (fun '(root, _, files) =>
       for_each files (fun file =>
         let source_path := os_path_join root file in
         let relative_path := os_path_relpath source_path source_folder in
         let replica_path := os_path_join_rel replica_folder relative_path in
         os_makedirs (os_path_dirname replica_path) ;;
         present <- os_path_exists replica_path ;;
         needed <- (if negb present then ret true
                    else are_files_different hash_new hash_update hexdigest F
                           source_path replica_path) ;;
         if needed : bool then
           shutil_copy2 F source_path replica_path ;;
           logging_info (FileCopied relative_path)
         else ret tt)))
    (fun e =>
       print (CopyFailed e) ;;
       logging_error (CopyFailed e)).

Definition remove_files (depth : nat) (replica_folder source_folder : path) : M unit :=
  try_except
    (for_os_walk depth replica_folder (fun '(root, _, files) =>
       for_each files (fun file =>
         let replica_path := os_path_join root file in
         let relative_path := os_path_relpath replica_path replica_folder in
         let source_path := os_path_join_rel source_folder relative_path in
         present <- os_path_exists source_path ;;
         if negb present then
           os_remove F replica_path ;;
           logging_info (FileDeleted relative_path)
         else ret tt)))
    (fun e =>
       print (RemoveFailed e) ;;
       logging_error (RemoveFailed e)).

Definition synchronize_folders (depth : nat) (source_folder replica_folder : path)
  : M unit :=
  try_except
    (copy_files depth source_folder replica_folder ;;
     remove_files depth replica_folder source_folder ;;
     logging_info SyncCompleted)
    (fun e =>
       print (SyncFailed e) ;;
       logging_error (SyncFailed e)).

(** [main]; [source] and [replica] are [args.source] and [args.replica]. *)
Definition main (source replica : path) (interval cycles depth : nat) : M status :=
  present <- os_path_exists source ;;
  if negb present then
    print SourceMissing ;; ret Returned
  else
    present <- os_path_exists replica ;;
    if negb present then
      print ReplicaMissing ;; ret Returned
    else
      setup_logging ;;
      while_true cycles
        (synchronize_folders depth source replica ;;
         time_sleep (interval * 60)) ;;
      ret Looping.

Definition run_cycle (source replica : path) (depth : nat) (fs : filesystem) : state :=
  fst (synchronize_folders depth source replica (initial fs)).

Definition run_main (source replica : path) (interval cycles depth : nat)
    (fs : filesystem) : state :=
  fst (main source replica interval cycles depth (initial fs)).

End Program.

End Anywhere.


(** ** The two folders seen as two trees *)

Section Located.

Variable source replica : path.

(** The file system made of the tree at [source] and the tree at
    [replica]. *)
Definition seen (fs : filesystem) : filesystem :=
  {| source_root := stat fs source; replica_root := stat fs replica |}.

(** Where a path of that file system lies. *)
Definition located (p : path) : path :=
  match fst p with
  | Source => Anywhere.os_path_join_rel source (snd p)
  | Replica => Anywhere.os_path_join_rel replica (snd p)
  end.

Definition located_exn (e : exn) : exn :=
  match e with
  | OSError code filename => OSError code (located filename)
  end.

Definition located_message (m : message) : message :=
  match m with
  | CopyFailed e => CopyFailed (located_exn e)
  | RemoveFailed e => RemoveFailed (located_exn e)
  | SyncFailed e => SyncFailed (located_exn e)
  | _ => m
  end.

Definition located_output (o : output) : output :=
  match o with
  | Print m => Print (located_message m)
  | LogInfo m => LogInfo (located_message m)
  | LogError m => LogError (located_message m)
  end.

Definition located_call (c : call) : call :=
  match c with
  | Makedirs p => Makedirs (located p)
  | Copy2 src dst => Copy2 (located src) (located dst)
  | Remove p => Remove (located p)
  | _ => c
  end.

(** The failures of the environment, told of these two trees. *)
Definition seen_faults (F : faults) : faults :=
  {| open_denied := fun p => open_denied F (located p);
     bad_offset := fun p => bad_offset F (located p);
     unlink_denied := fun p => unlink_denied F (located p) |}.

(** A state of the program on the two trees stands for a state of the
    program on the whole file system. *)
Definition stands_for (sB sG : state) : Prop :=
  st_fs sB = seen (st_fs sG)
  /\ st_out sG = map located_output (st_out sB)
  /\ st_calls sG = map located_call (st_calls sB)
  /\ replica_root (st_fs sB) <> None.

Definition file_object_at (f' f : file_object) : Prop :=
  fo_name f = located (fo_name f') /\ fo_data f = fo_data f' /\ fo_pos f = fo_pos f'.

(** The computation [m] on the whole file system does what [m'] does on
    the two trees. *)
Definition simulates {A B : Type} (R : A -> B -> Prop) (m : M A) (m' : M B) : Prop :=
  forall sG sB, stands_for sB sG ->
    stands_for (fst (m' sB)) (fst (m sG))
    /\ match snd (m sG), snd (m' sB) with
       | Ok a, Ok b => R a b
       | Raise e, Raise e' => e = located_exn e'
       | _, _ => False
       end.

End Located.

(** The length of the longest chain of directories below a node. *)
Fixpoint height (n : node) : nat :=
  match n with
  | File _ => 0
  | Dir es =>
      (fix heights (l : list (name * node)) : nat :=
         match l with
         | [] => 0
         | (_, c) :: l' =>
             Nat.max (match c with File _ => 0 | Dir _ => S (height c) end)
                     (heights l')
         end) es
  end.

Definition height_at (fs : filesystem) (p : path) : nat :=
  match stat fs p with
  | Some n => height n
  | None => 0
  end.

(** No directory is unlistable. *)
Definition all_listable (p : path) : bool := false.

(** One directory is unlistable. *)
Definition unlistable_at (q p : path) : bool :=
  folder_eqb (fst p) (fst q) && relpath_eqb (snd p) (snd q).


(** ** What the general program is compared with *)

(** A call that changes the file system is given a path below a folder. *)
Definition targets_below (top : path) (c : call) : Prop :=
  match target c with
  | Some p => below top p = true
  | None => True
  end.

(** Whatever is neither the folder, nor below it, nor above it is left
    alone. *)
Definition same_outside (top : path) (fs fs' : filesystem) : Prop :=
  forall q, comparable top q = false -> stat fs' q = stat fs q.

Definition raised_by (who : path) {A : Type} (r : result A) : result A :=
  match r with
  | Ok a => Ok a
  | Raise (OSError code _) => Raise (OSError code who)
  end.

(** The walk of the tree [n] found at [top], to a depth that is at least
    the height of the tree, runs the body on the triples of the tree. *)
Definition walk_is_eager (unlistable : path -> bool)
    (body : path * list name * list name -> M unit) (top0 : path) (n : node)
  : Prop :=
  forall depth top s,
    below top0 top = true -> stat (st_fs s) top = Some n ->
    wf_node n = true -> height n <= depth ->
    Anywhere.for_os_walk unlistable depth top body s
    = for_each (walk_node top n) body s.

(** Every directory lies at most [depth] levels below its folder. *)
Definition shallow (depth : nat) (fs : filesystem) : Prop :=
  forall f q, kind_at fs (f, q) = KDir -> length q <= depth.

(** What the program does on the whole file system is what the program of
    the first part does on the two folders. *)
Definition as_seen (source replica : path) (sB sG : state) : Prop :=
  st_fs sB = seen source replica (st_fs sG)
  /\ st_out sG = map (located_output source replica) (st_out sB)
  /\ st_calls sG = map (located_call source replica) (st_calls sB).

(** * Properties *)

(** ** Directory entries *)

Lemma entry_set_entry_same (x : name) (c : node) (es : list (name * node)) :
  entry x (set_entry x c es) = Some c.
Proof.
  induction es as [|[y c0] es IH]; simpl.
  - now rewrite String.eqb_refl.
  - destruct (String.eqb x y) eqn:E; simpl.
    + now rewrite String.eqb_refl.
    + now rewrite E.
Qed.

Lemma entry_set_entry_other (x y : name) (c : node) (es : list (name * node)) :
  x <> y -> entry y (set_entry x c es) = entry y es.
Proof.
  intros Hxy. induction es as [|[z c0] es IH]; simpl.
  - destruct (String.eqb_spec y x); congruence.
  - destruct (String.eqb_spec x z) as [->|Hxz]; simpl.
    + destruct (String.eqb_spec y z); congruence.
    + now rewrite IH.
Qed.

Lemma entry_del_entry_other (x y : name) (es : list (name * node)) :
  x <> y -> entry y (del_entry x es) = entry y es.
Proof.
  intros Hxy. induction es as [|[z c0] es IH]; simpl; trivial.
  destruct (String.eqb_spec x z) as [->|Hxz]; simpl.
  - destruct (String.eqb_spec y z); congruence.
  - now rewrite IH.
Qed.

Lemma entry_del_entry_other_none (x y : name) (es : list (name * node)) :
  entry y es = None -> entry y (del_entry x es) = None.
Proof.
  induction es as [|[z c0] es IH]; simpl; trivial.
  destruct (String.eqb_spec y z) as [->|Hyz]; [discriminate|].
  intros H. destruct (String.eqb_spec x z); simpl; trivial.
  destruct (String.eqb_spec y z); [congruence|auto].
Qed.

(** ** Well-formed trees *)

Lemma wf_node_cons (x : name) (c : node) (l : list (name * node)) :
  wf_node (Dir ((x, c) :: l))
  = match entry x l with Some _ => false | None => true end
    && wf_node c && wf_node (Dir l).
Proof. reflexivity. Qed.

Lemma wf_node_cons_inv (x : name) (c : node) (l : list (name * node)) :
  wf_node (Dir ((x, c) :: l)) = true ->
  entry x l = None /\ wf_node c = true /\ wf_node (Dir l) = true.
Proof.
  rewrite wf_node_cons. intros H.
  apply andb_prop in H as [H H3]. apply andb_prop in H as [H1 H2].
  destruct (entry x l); [discriminate|]. auto.
Qed.

Lemma wf_node_cons_intro (x : name) (c : node) (l : list (name * node)) :
  entry x l = None -> wf_node c = true -> wf_node (Dir l) = true ->
  wf_node (Dir ((x, c) :: l)) = true.
Proof.
  intros H1 H2 H3. rewrite wf_node_cons, H1, H2, H3. reflexivity.
Qed.

Lemma wf_entry (x : name) (c : node) (es : list (name * node)) :
  wf_node (Dir es) = true -> entry x es = Some c -> wf_node c = true.
Proof.
  induction es as [|[y c0] es IH]; simpl entry; [discriminate|].
  intros Hwf. apply wf_node_cons_inv in Hwf as (_ & Hc & Hes).
  destruct (String.eqb x y); [intros [= <-]; exact Hc | auto].
Qed.

Lemma wf_set_entry (x : name) (c : node) (es : list (name * node)) :
  wf_node (Dir es) = true -> wf_node c = true ->
  wf_node (Dir (set_entry x c es)) = true.
Proof.
  intros Hes Hc. induction es as [|[y c0] es IH]; simpl set_entry.
  - now apply wf_node_cons_intro.
  - apply wf_node_cons_inv in Hes as (Hy & Hc0 & Hes).
    destruct (String.eqb_spec x y) as [->|Hxy].
    + now apply wf_node_cons_intro.
    + apply wf_node_cons_intro; auto.
      rewrite entry_set_entry_other; auto.
Qed.

Lemma wf_del_entry (x : name) (es : list (name * node)) :
  wf_node (Dir es) = true -> wf_node (Dir (del_entry x es)) = true.
Proof.
  induction es as [|[y c0] es IH]; simpl del_entry; trivial.
  intros Hes. apply wf_node_cons_inv in Hes as (Hy & Hc0 & Hes).
  destruct (String.eqb x y); trivial.
  apply wf_node_cons_intro; auto using entry_del_entry_other_none.
Qed.

Lemma entry_del_entry_same (x : name) (es : list (name * node)) :
  wf_node (Dir es) = true -> entry x (del_entry x es) = None.
Proof.
  induction es as [|[y c0] es IH]; simpl del_entry; trivial.
  intros Hes. apply wf_node_cons_inv in Hes as (Hy & Hc0 & Hes).
  destruct (String.eqb_spec x y) as [->|Hxy]; trivial.
  simpl. destruct (String.eqb_spec x y); [congruence|auto].
Qed.

Lemma wf_fresh_dirs (p : relpath) : wf_node (fresh_dirs p) = true.
Proof.
  induction p as [|x p IH]; simpl fresh_dirs; trivial.
  now apply wf_node_cons_intro.
Qed.

(** ** Paths *)

Lemma relpath_eqb_spec (p q : relpath) : reflect (p = q) (relpath_eqb p q).
Proof.
  revert q. induction p as [|x p IH]; intros [|y q]; simpl;
    try (constructor; congruence).
  destruct (String.eqb_spec x y) as [->|Hxy]; simpl.
  - destruct (IH q); constructor; congruence.
  - constructor; congruence.
Qed.

Lemma relpath_eqb_refl (p : relpath) : relpath_eqb p p = true.
Proof. now destruct (relpath_eqb_spec p p). Qed.

Lemma prefixb_spec (q p : relpath) :
  prefixb q p = true <-> exists r, p = q ++ r.
Proof.
  revert p. induction q as [|y q IH]; intros p; simpl.
  - split; eauto.
  - destruct p as [|x p].
    + split; [discriminate|]. intros [r Hr]. discriminate.
    + destruct (String.eqb_spec y x) as [->|Hyx]; simpl.
      * rewrite IH. split; intros [r Hr]; exists r; congruence.
      * split; [discriminate|]. intros [r Hr]. congruence.
Qed.

Lemma prefixb_refl (p : relpath) : prefixb p p = true.
Proof. apply prefixb_spec. exists []. now rewrite app_nil_r. Qed.

Lemma prefixb_snoc_longer (p : relpath) (x : name) :
  prefixb (p ++ [x]) p = false.
Proof.
  destruct (prefixb (p ++ [x]) p) eqn:E; trivial.
  apply prefixb_spec in E as [r Hr].
  apply (f_equal (@length _)) in Hr. rewrite !length_app in Hr. simpl in Hr. lia.
Qed.

(** ** What the tree operations do to lookups *)

Lemma lookup_app (n : node) (p q : relpath) :
  lookup n (p ++ q)
  = match lookup n p with Some c => lookup c q | None => None end.
Proof.
  revert n. induction p as [|x p IH]; intros n; simpl; trivial.
  destruct n as [d|es]; trivial.
  destruct (entry x es); trivial.
Qed.

Lemma lookup_file_below (n : node) (p q : relpath) (d : list byte) :
  lookup n p = Some (File d) -> q <> [] -> lookup n (p ++ q) = None.
Proof.
  intros H Hq. rewrite lookup_app, H. destruct q; [congruence|reflexivity].
Qed.

Lemma kind_fresh_dirs (p q : relpath) :
  kind_of (lookup (fresh_dirs p) q) = if prefixb q p then KDir else KNone.
Proof.
  revert q. induction p as [|x p IH]; intros [|y q]; simpl; trivial.
  rewrite (String.eqb_sym y x).
  destruct (String.eqb x y); simpl; [apply IH|trivial].
Qed.

Lemma kind_mkdirs (who : path) (p : relpath) :
  forall (n n' : node),
    mkdirs who n p = Ok n' ->
    forall q, kind_of (lookup n' q)
              = if prefixb q p then KDir else kind_of (lookup n q).
Proof.
  induction p as [|x p IH]; intros n n' H q.
  - simpl in H. destruct n as [d|es]; [discriminate|]. injection H as <-.
    destruct q; reflexivity.
  - simpl in H. destruct n as [d|es]; [discriminate|].
    destruct (entry x es) as [c|] eqn:Ex.
    + destruct (mkdirs who c p) as [c'|e] eqn:Hc; [|discriminate].
      injection H as <-. destruct q as [|y q]; trivial. simpl.
      destruct (String.eqb_spec y x) as [->|Hyx]; simpl.
      * rewrite entry_set_entry_same, Ex. now apply IH.
      * rewrite entry_set_entry_other by congruence. reflexivity.
    + injection H as <-. destruct q as [|y q]; trivial. simpl.
      destruct (String.eqb_spec y x) as [->|Hyx]; simpl.
      * rewrite entry_set_entry_same, Ex. apply kind_fresh_dirs.
      * rewrite entry_set_entry_other by congruence. reflexivity.
Qed.

Lemma wf_mkdirs (who : path) (p : relpath) :
  forall (n n' : node),
    mkdirs who n p = Ok n' -> wf_node n = true -> wf_node n' = true.
Proof.
  induction p as [|x p IH]; intros n n' H Hwf; simpl in H;
    destruct n as [d|es]; try discriminate.
  - now injection H as <-.
  - destruct (entry x es) as [c|] eqn:Ex.
    + destruct (mkdirs who c p) as [c'|e] eqn:Hc; [|discriminate].
      injection H as <-. apply wf_set_entry; trivial.
      eapply IH; eauto using wf_entry.
    + injection H as <-. apply wf_set_entry; trivial. apply wf_fresh_dirs.
Qed.

(** A failing [mkdirs] met a regular file at the directory or above it. *)
Lemma mkdirs_raise (who : path) (p : relpath) :
  forall (n : node) (e : exn),
    mkdirs who n p = Raise e ->
    exists q d, prefixb q p = true /\ lookup n q = Some (File d).
Proof.
  induction p as [|x p IH]; intros n e H; simpl in H.
  - destruct n as [d|es]; [|discriminate]. exists [], d. auto.
  - destruct n as [d|es]; [exists [], d; auto|].
    destruct (entry x es) as [c|] eqn:Ex; [|discriminate].
    destruct (mkdirs who c p) as [c'|e'] eqn:Hc; [discriminate|].
    apply IH in Hc as (q & d & Hq & Hl).
    exists (x :: q), d. simpl. now rewrite String.eqb_refl, Ex.
Qed.

Lemma kind_write_node (who : path) (d : list byte) (p : relpath) :
  forall (n n' : node),
    write_node who n p d = Ok n' ->
    forall q, kind_of (lookup n' q)
              = if relpath_eqb q p then KFile d else kind_of (lookup n q).
Proof.
  induction p as [|x p IH]; intros n n' H q.
  - simpl in H. destruct n as [d0|es]; [|discriminate]. injection H as <-.
    destruct q; reflexivity.
  - simpl in H. destruct n as [d0|es]; [discriminate|].
    destruct (entry x es) as [c|] eqn:Ex.
    + destruct (write_node who c p d) as [c'|e] eqn:Hc; [|discriminate].
      injection H as <-. destruct q as [|y q]; trivial. simpl.
      destruct (String.eqb_spec y x) as [->|Hyx]; simpl.
      * rewrite entry_set_entry_same, Ex. now apply IH.
      * rewrite entry_set_entry_other by congruence. reflexivity.
    + destruct p as [|z p]; [|discriminate]. injection H as <-.
      destruct q as [|y q]; trivial. simpl.
      destruct (String.eqb_spec y x) as [->|Hyx]; simpl.
      * rewrite entry_set_entry_same, Ex. destruct q; reflexivity.
      * rewrite entry_set_entry_other by congruence. reflexivity.
Qed.

Lemma wf_write_node (who : path) (d : list byte) (p : relpath) :
  forall (n n' : node),
    write_node who n p d = Ok n' -> wf_node n = true -> wf_node n' = true.
Proof.
  induction p as [|x p IH]; intros n n' H Hwf; simpl in H;
    destruct n as [d0|es]; try discriminate.
  - now injection H as <-.
  - destruct (entry x es) as [c|] eqn:Ex.
    + destruct (write_node who c p d) as [c'|e] eqn:Hc; [|discriminate].
      injection H as <-. apply wf_set_entry; trivial.
      eapply IH; eauto using wf_entry.
    + destruct p; [|discriminate]. injection H as <-.
      now apply wf_set_entry.
Qed.

(** Writing succeeds below an existing directory when the target is not
    itself a directory. *)
Lemma write_node_ok (who : path) (d : list byte) (p : relpath) (x : name) :
  forall (n : node),
    kind_of (lookup n p) = KDir ->
    kind_of (lookup n (p ++ [x])) <> KDir ->
    exists n', write_node who n (p ++ [x]) d = Ok n'.
Proof.
  induction p as [|y p IH]; intros n Hp Hx; simpl in *.
  - destruct n as [d0|es]; [discriminate|].
    destruct (entry x es) as [[d1|es1]|]; simpl in *; eauto. congruence.
  - destruct n as [d0|es]; [discriminate|].
    destruct (entry y es) as [c|]; [|discriminate].
    destruct (IH c Hp Hx) as [c' ->]. eauto.
Qed.

Lemma kind_remove_at (p : relpath) :
  forall (x : name) (n : node) (d : list byte),
    wf_node n = true ->
    lookup n (x :: p) = Some (File d) ->
    forall q, kind_of (lookup (remove_at n (x :: p)) q)
              = if relpath_eqb q (x :: p) then KNone else kind_of (lookup n q).
Proof.
  induction p as [|z p IH]; intros x n d Hwf H q.
  - simpl in H. destruct n as [d0|es]; [discriminate|].
    destruct (entry x es) as [c|] eqn:Ex; [|discriminate].
    injection H as ->. simpl remove_at.
    destruct q as [|y q]; trivial. simpl.
    destruct (String.eqb_spec y x) as [->|Hyx]; simpl.
    + rewrite entry_del_entry_same, Ex by trivial. destruct q; reflexivity.
    + rewrite entry_del_entry_other by congruence. reflexivity.
  - cbn [lookup] in H. destruct n as [d0|es]; [discriminate|].
    destruct (entry x es) as [c|] eqn:Ex; [|discriminate].
    cbn [remove_at]. rewrite Ex. destruct q as [|y q]; trivial.
    cbn [lookup relpath_eqb].
    destruct (String.eqb_spec y x) as [->|Hyx]; cbn [andb].
    + rewrite entry_set_entry_same, Ex.
      eapply (IH z c); eauto using wf_entry.
    + rewrite entry_set_entry_other by congruence. reflexivity.
Qed.

Lemma wf_remove_at (p : relpath) :
  forall (n : node), wf_node n = true -> wf_node (remove_at n p) = true.
Proof.
  induction p as [|x p IH]; intros n Hwf; simpl; trivial.
  destruct n as [d0|es]; trivial.
  destruct p as [|z p]; [now apply wf_del_entry|].
  destruct (entry x es) as [c|] eqn:Ex; trivial.
  apply wf_set_entry; trivial. apply IH. eauto using wf_entry.
Qed.

(** ** The primitives on the file system *)

Lemma folder_eqb_spec (f g : folder) : reflect (f = g) (folder_eqb f g).
Proof. destruct f, g; constructor; congruence. Qed.

Lemma root_of_set_root (fs : filesystem) (f g : folder) (o : option node) :
  root_of (set_root fs f o) g = if folder_eqb g f then o else root_of fs g.
Proof. destruct f, g; reflexivity. Qed.

Lemma wf_set_root (fs : filesystem) (f : folder) (o : option node) :
  wf_fs fs = true -> wf_root o = true -> wf_fs (set_root fs f o) = true.
Proof.
  unfold wf_fs. intros H Ho. apply andb_prop in H as [H1 H2].
  destruct f; simpl; rewrite ?H1, ?H2, Ho; reflexivity.
Qed.

Lemma wf_root_of (fs : filesystem) (f : folder) (n : node) :
  wf_fs fs = true -> root_of fs f = Some n -> wf_node n = true.
Proof.
  unfold wf_fs. intros H Hn. apply andb_prop in H as [H1 H2].
  destruct f; simpl in Hn; rewrite Hn in *; assumption.
Qed.

Lemma kind_at_set_root_other (fs : filesystem) (f g : folder) (o : option node)
      (q : relpath) :
  g <> f -> kind_at (set_root fs f o) (g, q) = kind_at fs (g, q).
Proof.
  intros H. unfold kind_at, stat. simpl. rewrite root_of_set_root.
  destruct (folder_eqb_spec g f); congruence.
Qed.

Lemma kind_at_makedirs (fs fs' : filesystem) (f : folder) (p : relpath) :
  makedirs fs (f, p) = Ok fs' ->
  forall g q, kind_at fs' (g, q)
              = if folder_eqb g f && prefixb q p then KDir else kind_at fs (g, q).
Proof.
  unfold makedirs. simpl. intros H g q.
  destruct (folder_eqb_spec g f) as [->|Hgf]; simpl.
  - unfold kind_at, stat. simpl.
    destruct (root_of fs f) as [n|] eqn:Hn.
    + destruct (mkdirs (f, p) n p) as [n'|e] eqn:Hm; [|discriminate].
      injection H as <-. rewrite root_of_set_root.
      destruct (folder_eqb_spec f f); [|congruence].
      eapply kind_mkdirs; eauto.
    + injection H as <-. rewrite root_of_set_root.
      destruct (folder_eqb_spec f f); [|congruence].
      apply kind_fresh_dirs.
  - destruct (root_of fs f) as [n|].
    + destruct (mkdirs (f, p) n p) as [n'|e]; [|discriminate].
      injection H as <-. now apply kind_at_set_root_other.
    + injection H as <-. now apply kind_at_set_root_other.
Qed.

Lemma makedirs_raise (fs : filesystem) (f : folder) (p : relpath) (e : exn) :
  makedirs fs (f, p) = Raise e ->
  exists q d, prefixb q p = true /\ kind_at fs (f, q) = KFile d.
Proof.
  unfold makedirs, kind_at, stat. simpl.
  destruct (root_of fs f) as [n|]; [|discriminate].
  destruct (mkdirs (f, p) n p) as [n'|e'] eqn:Hm; [discriminate|]. intros _.
  apply mkdirs_raise in Hm as (q & d & Hq & Hl).
  exists q, d. now rewrite Hl.
Qed.

Lemma wf_makedirs (fs fs' : filesystem) (p : path) :
  makedirs fs p = Ok fs' -> wf_fs fs = true -> wf_fs fs' = true.
Proof.
  unfold makedirs. intros H Hwf.
  destruct (root_of fs (fst p)) as [n|] eqn:Hn.
  - destruct (mkdirs p n (snd p)) as [n'|e] eqn:Hm; [|discriminate].
    injection H as <-. apply wf_set_root; trivial. simpl.
    eapply wf_mkdirs; eauto using wf_root_of.
  - injection H as <-. apply wf_set_root; trivial. apply wf_fresh_dirs.
Qed.

Lemma kind_at_write_file (fs fs' : filesystem) (f : folder) (p : relpath)
      (d : list byte) :
  write_file fs (f, p) d = Ok fs' ->
  forall g q, kind_at fs' (g, q)
              = if folder_eqb g f && relpath_eqb q p then KFile d
                else kind_at fs (g, q).
Proof.
  unfold write_file. simpl. intros H g q.
  destruct (folder_eqb_spec g f) as [->|Hgf]; simpl.
  - unfold kind_at, stat. simpl.
    destruct (root_of fs f) as [n|] eqn:Hn.
    + destruct (write_node (f, p) n p d) as [n'|e] eqn:Hm; [|discriminate].
      injection H as <-. rewrite root_of_set_root.
      destruct (folder_eqb_spec f f); [|congruence].
      eapply kind_write_node; eauto.
    + destruct p; [|discriminate]. injection H as <-. rewrite root_of_set_root.
      destruct (folder_eqb_spec f f); [|congruence].
      destruct q; reflexivity.
  - destruct (root_of fs f) as [n|].
    + destruct (write_node (f, p) n p d) as [n'|e]; [|discriminate].
      injection H as <-. now apply kind_at_set_root_other.
    + destruct p; [|discriminate].
      injection H as <-. now apply kind_at_set_root_other.
Qed.

Lemma write_file_ok (fs : filesystem) (f : folder) (p : relpath) (x : name)
      (d : list byte) :
  kind_at fs (f, p) = KDir ->
  kind_at fs (f, p ++ [x]) <> KDir ->
  exists fs', write_file fs (f, p ++ [x]) d = Ok fs'.
Proof.
  unfold kind_at, stat, write_file. simpl.
  destruct (root_of fs f) as [n|]; [|discriminate]. intros Hp Hx.
  destruct (write_node_ok (f, p ++ [x]) d p x n Hp Hx) as [n' ->]. eauto.
Qed.

Lemma wf_write_file (fs fs' : filesystem) (p : path) (d : list byte) :
  write_file fs p d = Ok fs' -> wf_fs fs = true -> wf_fs fs' = true.
Proof.
  unfold write_file. intros H Hwf.
  destruct (root_of fs (fst p)) as [n|] eqn:Hn.
  - destruct (write_node p n (snd p) d) as [n'|e] eqn:Hm; [|discriminate].
    injection H as <-. apply wf_set_root; trivial. simpl.
    eapply wf_write_node; eauto using wf_root_of.
  - destruct (snd p); [|discriminate]. injection H as <-.
    now apply wf_set_root.
Qed.

Lemma kind_at_remove (F : faults) (fs fs' : filesystem) (f : folder) (p : relpath) :
  wf_fs fs = true ->
  remove F fs (f, p) = Ok fs' ->
  forall g q, kind_at fs' (g, q)
              = if folder_eqb g f && relpath_eqb q p then KNone
                else kind_at fs (g, q).
Proof.
  unfold remove, stat. simpl. intros Hwf H g q.
  destruct (root_of fs f) as [n|] eqn:Hn; [|discriminate].
  destruct (lookup n p) as [[d|es]|] eqn:Hl; try discriminate.
  destruct (unlink_denied F (f, p)); [discriminate|].
  destruct (folder_eqb_spec g f) as [->|Hgf]; simpl.
  - unfold kind_at, stat. simpl. rewrite Hn.
    destruct p as [|x p]; injection H as <-; rewrite root_of_set_root;
      destruct (folder_eqb_spec f f); try congruence.
    + simpl in Hl. injection Hl as ->. destruct q; reflexivity.
    + eapply kind_remove_at; eauto using wf_root_of.
  - destruct p; injection H as <-; now apply kind_at_set_root_other.
Qed.

Lemma remove_ok (F : faults) (fs : filesystem) (p : path) (d : list byte) :
  kind_at fs p = KFile d -> unlink_denied F p = false ->
  exists fs', remove F fs p = Ok fs'.
Proof.
  unfold kind_at, remove. intros Hk Hu.
  destruct (stat fs p) as [[d0|es]|]; try discriminate. rewrite Hu.
  destruct (root_of fs (fst p)), (snd p); eauto.
Qed.

Lemma remove_denied (F : faults) (fs : filesystem) (p : path) (d : list byte) :
  kind_at fs p = KFile d -> unlink_denied F p = true ->
  remove F fs p = Raise (OSError EACCES p).
Proof.
  unfold kind_at, remove. intros Hk Hu.
  destruct (stat fs p) as [[d0|es]|]; try discriminate. now rewrite Hu.
Qed.

Lemma wf_remove (F : faults) (fs fs' : filesystem) (p : path) :
  remove F fs p = Ok fs' -> wf_fs fs = true -> wf_fs fs' = true.
Proof.
  unfold remove. intros H Hwf.
  destruct (stat fs p) as [[d|es]|]; try discriminate.
  destruct (unlink_denied F p); [discriminate|].
  destruct (root_of fs (fst p)) as [n|] eqn:Hn.
  - destruct (snd p) as [|x q]; injection H as <-; apply wf_set_root; trivial.
    apply (wf_remove_at (x :: q)). eauto using wf_root_of.
  - injection H as <-. now apply wf_set_root.
Qed.

(** ** Reading files *)

Lemma chunk_size_pos : 0 < chunk_size.
Proof. apply Nat.ltb_lt. vm_compute. reflexivity. Qed.

Lemma COPY_BUFSIZE_pos : 0 < COPY_BUFSIZE.
Proof. apply Nat.ltb_lt. vm_compute. reflexivity. Qed.

#[local] Opaque chunk_size COPY_BUFSIZE.

Lemma skipn_firstn_length {A : Type} (n : nat) (l : list A) :
  skipn (length (firstn n l)) l = skipn n l.
Proof.
  rewrite length_firstn. destruct (Nat.le_ge_cases n (length l)) as [H|H].
  - now rewrite Nat.min_l.
  - rewrite Nat.min_r by trivial. now rewrite !skipn_all2 by lia.
Qed.

Lemma firstn_nil_inv {A : Type} (n : nat) (l : list A) :
  0 < n -> firstn n l = [] -> l = [].
Proof. destruct n, l; simpl; intros; try lia; congruence. Qed.

Lemma chunks_bounded (size : nat) (fuel : nat) :
  forall d, Forall (fun c => 0 < length c <= size) (chunks fuel size d).
Proof.
  induction fuel as [|fuel IH]; intros d; simpl; [constructor|].
  destruct (firstn size d) as [|b c] eqn:E; constructor; auto.
  assert (length (b :: c) <= size) by (rewrite <- E, length_firstn; lia).
  simpl in *. lia.
Qed.

Lemma chunks_concat (size : nat) (fuel : nat) :
  0 < size ->
  forall d, length d < fuel -> concat (chunks fuel size d) = d.
Proof.
  intros Hs. induction fuel as [|fuel IH]; intros d Hf; [lia|]. simpl.
  destruct (firstn size d) as [|b c] eqn:E.
  - symmetry. eapply firstn_nil_inv; eauto.
  - rewrite <- E. cbn [concat]. rewrite IH; [apply firstn_skipn|].
    destruct d as [|b0 d]; [destruct size; discriminate|].
    rewrite length_skipn. cbn [length] in Hf |- *. lia.
Qed.

Lemma file_read_ok (F : faults) (size : nat) (f : file_object) :
  (forall o, bad_offset F (fo_name f) = Some o -> length (fo_data f) <= o) ->
  file_read F size f
  = Ok (firstn size (skipn (fo_pos f) (fo_data f)),
        {| fo_name := fo_name f; fo_data := fo_data f;
           fo_pos := fo_pos f
                     + length (firstn size (skipn (fo_pos f) (fo_data f))) |}).
Proof.
  intros H. unfold file_read.
  destruct (bad_offset F (fo_name f)) as [o|]; trivial.
  specialize (H o eq_refl).
  assert (Hl : length (firstn size (skipn (fo_pos f) (fo_data f)))
               <= length (fo_data f) - fo_pos f).
  { rewrite length_firstn, length_skipn. lia. }
  destruct (Nat.leb_spec (fo_pos f) o); simpl; trivial.
  destruct (Nat.ltb_spec o
              (fo_pos f + length (firstn size (skipn (fo_pos f) (fo_data f)))));
    trivial.
  lia.
Qed.

Section Reading.

Variable hasher : Type.
Variable hash_new : hasher.
Variable hash_update : hasher -> list byte -> hasher.
Variable hexdigest : hasher -> string.
Variable F : faults.

Local Abbreviation hash_loop := (hash_loop hash_update F).
Local Abbreviation calculate_hash := (calculate_hash hash_new hash_update hexdigest F).
Local Abbreviation fingerprint := (fingerprint hash_new hash_update hexdigest).

Lemma hash_loop_ok (p : path) (d : list byte) (s : state) :
  (forall o, bad_offset F p = Some o -> length d <= o) ->
  forall fuel h pos,
    hash_loop fuel h {| fo_name := p; fo_data := d; fo_pos := pos |} s
    = (s, Ok (fold_left hash_update (chunks fuel chunk_size (skipn pos d)) h)).
Proof.
  intros Hbad. induction fuel as [|fuel IH]; intros h pos; trivial.
  cbn [hash_loop chunks]. unfold bind, read_.
  rewrite file_read_ok by exact Hbad. cbn [fst snd fo_pos fo_data fo_name].
  destruct (firstn chunk_size (skipn pos d)) as [|b c] eqn:E; trivial.
  rewrite IH. rewrite <- E, Nat.add_comm, <- skipn_skipn, skipn_firstn_length.
  reflexivity.
Qed.

Lemma hash_loop_bad (p : path) (d : list byte) (s : state) (o : nat) :
  bad_offset F p = Some o -> o < length d ->
  forall fuel h pos,
    pos <= o -> length d - pos < fuel ->
    hash_loop fuel h {| fo_name := p; fo_data := d; fo_pos := pos |} s
    = (s, Raise (OSError EIO p)).
Proof.
  intros Hbad Ho. induction fuel as [|fuel IH]; intros h pos Hpos Hfuel; [lia|].
  cbn [hash_loop]. unfold bind, read_, file_read.
  cbn [fo_pos fo_data fo_name]. rewrite Hbad.
  assert (Hl : length (firstn chunk_size (skipn pos d))
               = Nat.min chunk_size (length d - pos)).
  { now rewrite length_firstn, length_skipn. }
  pose proof chunk_size_pos as Hc.
  destruct (Nat.leb_spec pos o); [|lia]. simpl andb.
  destruct (Nat.ltb_spec o (pos + length (firstn chunk_size (skipn pos d))));
    trivial.
  cbn [fst snd].
  destruct (firstn chunk_size (skipn pos d)) as [|b c] eqn:E.
  - simpl in Hl. lia.
  - apply IH; lia.
Qed.

(** [calculate_hash] leaves the state alone; it returns the fingerprint of
    a file that can be read to its end and raises otherwise. *)
Lemma calculate_hash_ok (p : path) (d : list byte) (s : state) :
  kind_at (st_fs s) p = KFile d -> readable F p d = true ->
  calculate_hash p s = (s, Ok (fingerprint d)).
Proof.
  unfold kind_at, readable, calculate_hash, bind, open_, open_rb.
  intros Hk Hr. apply andb_prop in Hr as [Hopen Hbad].
  destruct (stat (st_fs s) p) as [[d0|es]|]; try discriminate.
  injection Hk as ->. apply negb_true_iff in Hopen. rewrite Hopen.
  cbn [fo_data]. rewrite hash_loop_ok; trivial.
  intros o Ho. rewrite Ho in Hbad. now apply Nat.leb_le.
Qed.

Lemma calculate_hash_raise (p : path) (s : state) :
  (forall d, kind_at (st_fs s) p = KFile d -> readable F p d = false) ->
  exists e, calculate_hash p s = (s, Raise e).
Proof.
  unfold kind_at, readable, calculate_hash, bind, open_, open_rb.
  intros H. destruct (stat (st_fs s) p) as [[d|es]|]; eauto.
  specialize (H d eq_refl).
  destruct (open_denied F p); eauto. simpl in H.
  destruct (bad_offset F p) as [o|] eqn:Ho; [|discriminate].
  apply Nat.leb_gt in H. cbn [fo_data].
  rewrite (@hash_loop_bad p d s o Ho H); eauto; lia.
Qed.

Lemma calculate_hash_state (p : path) (s : state) :
  fst (calculate_hash p s) = s.
Proof.
  destruct (kind_at (st_fs s) p) as [|d|] eqn:Hk.
  - destruct (calculate_hash_raise p s) as [e ->]; trivial. congruence.
  - destruct (readable F p d) eqn:Hr.
    + now rewrite (@calculate_hash_ok p d s Hk Hr).
    + destruct (calculate_hash_raise p s) as [e ->]; trivial. congruence.
  - destruct (calculate_hash_raise p s) as [e ->]; trivial. congruence.
Qed.

Lemma read_all_ok (p : path) (d : list byte) :
  (forall o, bad_offset F p = Some o -> length d <= o) ->
  forall fuel pos acc,
    length d - pos < fuel ->
    read_all F fuel {| fo_name := p; fo_data := d; fo_pos := pos |} acc
    = (acc ++ skipn pos d, None).
Proof.
  intros Hbad. induction fuel as [|fuel IH]; intros pos acc Hfuel; [lia|].
  cbn [read_all]. rewrite file_read_ok by exact Hbad.
  cbn [fo_pos fo_data fo_name]. pose proof COPY_BUFSIZE_pos as Hc.
  destruct (firstn COPY_BUFSIZE (skipn pos d)) as [|b c] eqn:E.
  - apply firstn_nil_inv in E; trivial. now rewrite E, app_nil_r.
  - assert (Hl : length (b :: c) = Nat.min COPY_BUFSIZE (length d - pos)).
    { now rewrite <- E, length_firstn, length_skipn. }
    rewrite IH by (simpl in Hl |- *; lia).
    rewrite <- E, <- app_assoc.
    rewrite Nat.add_comm, <- skipn_skipn, skipn_firstn_length.
    now rewrite firstn_skipn.
Qed.

Lemma read_all_bad (p : path) (d : list byte) (o : nat) :
  bad_offset F p = Some o -> o < length d ->
  forall fuel pos acc,
    pos <= o -> length d - pos < fuel ->
    exists part,
      read_all F fuel {| fo_name := p; fo_data := d; fo_pos := pos |} acc
      = (part, Some (OSError EIO p)).
Proof.
  intros Hbad Ho. induction fuel as [|fuel IH]; intros pos acc Hpos Hfuel; [lia|].
  cbn [read_all]. unfold file_read. cbn [fo_pos fo_data fo_name]. rewrite Hbad.
  assert (Hl : length (firstn COPY_BUFSIZE (skipn pos d))
               = Nat.min COPY_BUFSIZE (length d - pos)).
  { now rewrite length_firstn, length_skipn. }
  pose proof COPY_BUFSIZE_pos as Hc.
  destruct (Nat.leb_spec pos o); [|lia]. simpl andb.
  destruct (Nat.ltb_spec o (pos + length (firstn COPY_BUFSIZE (skipn pos d))));
    eauto.
  destruct (firstn COPY_BUFSIZE (skipn pos d)) as [|b c] eqn:E.
  - simpl in Hl. lia.
  - apply IH; simpl in *; lia.
Qed.

End Reading.

(** ** Walking a tree *)

Lemma node_induction (P : node -> Prop)
    (HFile : forall d, P (File d))
    (HDir : forall es, Forall (fun e => P (snd e)) es -> P (Dir es)) :
  forall n, P n.
Proof.
  exact
    (fix go (n : node) : P n :=
       match n with
       | File d => HFile d
       | Dir es =>
           HDir es
             ((fix go_entries (l : list (name * node))
                 : Forall (fun e => P (snd e)) l :=
                 match l with
                 | [] => Forall_nil _
                 | e :: l' => Forall_cons e (go (snd e)) (go_entries l')
                 end) es)
       end).
Qed.

Lemma file_paths_Dir (es : list (name * node)) :
  file_paths (Dir es)
  = map (fun x => [x]) (filenames es)
    ++ flat_map (fun e => map (cons (fst e)) (file_paths (snd e))) es.
Proof.
  cbn [file_paths]. f_equal.
  induction es as [|[x c] es IH]; [reflexivity|].
  cbn [flat_map fst snd]. now rewrite <- IH.
Qed.

Lemma walk_node_Dir (top : path) (es : list (name * node)) :
  walk_node top (Dir es)
  = (top, dirnames es, filenames es)
    :: flat_map (fun e => walk_node (os_path_join top (fst e)) (snd e)) es.
Proof.
  cbn [walk_node]. f_equal.
  induction es as [|[x c] es IH]; [reflexivity|].
  cbn [flat_map fst snd]. now rewrite <- IH.
Qed.

Lemma entry_In (x : name) (c : node) (es : list (name * node)) :
  entry x es = Some c -> In (x, c) es.
Proof.
  induction es as [|[y c0] es IH]; simpl; [discriminate|].
  destruct (String.eqb_spec x y) as [->|Hxy]; [intros [= ->]|]; auto.
Qed.

Lemma entry_None_notin (x : name) (c : node) (es : list (name * node)) :
  entry x es = None -> ~ In (x, c) es.
Proof.
  induction es as [|[y c0] es IH]; simpl; auto.
  destruct (String.eqb_spec x y) as [->|Hxy]; [discriminate|].
  intros H [[= ]|Hin]; [congruence|]. now apply IH.
Qed.

Lemma In_entry (x : name) (c : node) (es : list (name * node)) :
  wf_node (Dir es) = true -> In (x, c) es -> entry x es = Some c.
Proof.
  induction es as [|[y c0] es IH]; [contradiction|].
  intros Hwf. apply wf_node_cons_inv in Hwf as (Hy & Hc & Hes). simpl.
  intros [[= -> ->]|Hin].
  - now rewrite String.eqb_refl.
  - destruct (String.eqb_spec x y) as [->|Hxy]; auto.
    now apply entry_None_notin with (c := c) in Hy.
Qed.

Lemma wf_In (x : name) (c : node) (es : list (name * node)) :
  wf_node (Dir es) = true -> In (x, c) es -> wf_node c = true.
Proof. intros Hwf Hin. eapply wf_entry; eauto using In_entry. Qed.

Lemma In_filenames (x : name) (es : list (name * node)) :
  In x (filenames es) <-> exists d, In (x, File d) es.
Proof.
  induction es as [|[y [d|es0]] es IH]; simpl.
  - split; [contradiction|]. intros [d []].
  - rewrite IH. split.
    + intros [->|[d' H]]; eauto.
    + intros [d' [[= -> ->]|H]]; eauto.
  - rewrite IH. split.
    + intros [d' H]; eauto.
    + intros [d' [[= ]|H]]; eauto.
Qed.

Lemma NoDup_filenames (es : list (name * node)) :
  wf_node (Dir es) = true -> NoDup (filenames es).
Proof.
  induction es as [|[y c] es IH]; [constructor|].
  intros Hwf. apply wf_node_cons_inv in Hwf as (Hy & Hc & Hes).
  destruct c as [d|es0]; simpl; auto.
  constructor; auto. rewrite In_filenames. intros [d' Hin].
  now apply entry_None_notin with (c := File d') in Hy.
Qed.

Lemma file_paths_nonempty (n : node) : ~ In [] (file_paths n).
Proof.
  destruct n as [d|es]; [auto|]. rewrite file_paths_Dir, in_app_iff.
  intros [H|H].
  - apply in_map_iff in H as (x & [=] & _).
  - apply in_flat_map in H as (e & _ & H).
    apply in_map_iff in H as (p & [=] & _).
Qed.

(** The walk lists exactly the paths of the regular files. *)
Lemma file_paths_lookup (n : node) :
  wf_node n = true ->
  forall p, In p (file_paths n) -> exists d, lookup n p = Some (File d).
Proof.
  induction n as [d|es IH] using node_induction; [contradiction|].
  intros Hwf p. rewrite file_paths_Dir, in_app_iff. intros [H|H].
  - apply in_map_iff in H as (x & <- & Hx).
    apply In_filenames in Hx as [d Hd]. exists d. simpl.
    now rewrite (In_entry _ _ _ Hwf Hd).
  - apply in_flat_map in H as ([x c] & He & H).
    apply in_map_iff in H as (q & <- & Hq). simpl.
    rewrite (In_entry _ _ _ Hwf He).
    rewrite Forall_forall in IH. apply (IH (x, c) He); eauto using wf_In.
Qed.

Lemma lookup_file_paths (n : node) :
  forall p d, p <> [] -> lookup n p = Some (File d) -> In p (file_paths n).
Proof.
  induction n as [d|es IH] using node_induction; intros p d0 Hp H.
  - destruct p; [congruence|discriminate].
  - destruct p as [|x p]; [congruence|]. simpl in H.
    destruct (entry x es) as [c|] eqn:Ex; [|discriminate].
    apply entry_In in Ex. rewrite file_paths_Dir, in_app_iff.
    destruct p as [|y p].
    + left. simpl in H. injection H as ->.
      apply (in_map (fun y => [y]) _ x). apply In_filenames. eauto.
    + right. apply in_flat_map. exists (x, c). split; trivial.
      apply in_map. rewrite Forall_forall in IH.
      apply (IH (x, c) Ex) with (d := d0); [discriminate|exact H].
Qed.

Lemma NoDup_map_injective {A B : Type} (f : A -> B) (l : list A) :
  (forall x y, f x = f y -> x = y) -> NoDup l -> NoDup (map f l).
Proof.
  intros Hf. induction 1 as [|x l Hx Hl IH]; simpl; constructor; trivial.
  intros Hin. apply in_map_iff in Hin as (y & Hy & Hin).
  apply Hf in Hy as ->. contradiction.
Qed.

Lemma NoDup_file_paths (n : node) :
  wf_node n = true -> NoDup (file_paths n).
Proof.
  induction n as [d|es IH] using node_induction; [constructor|].
  intros Hwf. rewrite file_paths_Dir. apply NoDup_app.
  - apply NoDup_map_injective; [|now apply NoDup_filenames].
    intros x y [=]. trivial.
  - clear - IH Hwf. induction es as [|[x c] es IHes]; [constructor|].
    apply wf_node_cons_inv in Hwf as (Hx & Hc & Hes).
    apply Forall_cons_iff in IH as [IHc IH]. simpl. apply NoDup_app.
    + apply NoDup_map_injective; [|auto].
      intros p q [=]. trivial.
    + auto.
    + intros p Hp Hq. apply in_map_iff in Hp as (p' & <- & Hp').
      apply in_flat_map in Hq as ([y c'] & He & Hq).
      apply in_map_iff in Hq as (q' & [= -> ->] & Hq').
      now apply entry_None_notin with (c := c') in Hx.
  - intros p Hp Hq. apply in_map_iff in Hp as (x & <- & Hx).
    apply in_flat_map in Hq as ([y c'] & He & Hq).
    apply in_map_iff in Hq as (q' & [= -> ->] & Hq').
    now apply file_paths_nonempty in Hq'.
Qed.

Lemma walk_items_app (a b : list (path * list name * list name)) :
  walk_items (a ++ b) = walk_items a ++ walk_items b.
Proof. apply flat_map_app. Qed.

Lemma walk_items_cons (t : path * list name * list name)
      (w : list (path * list name * list name)) :
  walk_items (t :: w) = map (os_path_join (fst (fst t))) (snd t) ++ walk_items w.
Proof. reflexivity. Qed.

Lemma walk_items_node (f : folder) (n : node) :
  forall pre, walk_items (walk_node (f, pre) n)
              = map (fun r => (f, pre ++ r)) (file_paths n).
Proof.
  induction n as [d|es IH] using node_induction; intros pre; trivial.
  rewrite walk_node_Dir, file_paths_Dir, map_app, map_map, walk_items_cons.
  cbn [fst snd]. f_equal.
  induction es as [|[x c] es IHes]; trivial.
  apply Forall_cons_iff in IH as [IHc IH]. cbn [snd] in IHc.
  cbn [flat_map fst snd]. rewrite walk_items_app, map_app.
  f_equal; [|apply IHes, IH].
  change (os_path_join (f, pre) x) with (f, pre ++ [x]).
  rewrite IHc, map_map.
  apply map_ext. intros r. now rewrite <- app_assoc.
Qed.

Lemma walk_items_walk (fs : filesystem) (f : folder) :
  walk_items (walk fs (f, [])) = map (fun r => (f, r)) (files_under fs f).
Proof.
  unfold walk, stat, files_under. simpl.
  destruct (root_of fs f) as [n|]; trivial. apply walk_items_node.
Qed.

(** ** Loops and handlers *)

Lemma for_each_app {A : Type} (l1 l2 : list A) (body : A -> M unit) (s : state) :
  for_each (l1 ++ l2) body s
  = (for_each l1 body ;; for_each l2 body) s.
Proof.
  revert s. induction l1 as [|x l1 IH]; intros s; simpl; trivial.
  unfold bind in *. destruct (body x s) as [s1 [[]|e]]; trivial.
Qed.

Lemma for_each_map {A B : Type} (g : A -> B) (l : list A) (body : B -> M unit)
      (s : state) :
  for_each (map g l) body s = for_each l (fun x => body (g x)) s.
Proof.
  revert s. induction l as [|x l IH]; intros s; simpl; trivial.
  unfold bind. destruct (body (g x) s) as [s1 [[]|e]]; trivial.
Qed.

(** The two nested loops over the triples of a walk visit the joined
    paths in order. *)
Lemma for_each_walk (w : list (path * list name * list name))
      (body : path -> M unit) (s : state) :
  for_each w (fun '(root, _, files) =>
    for_each files (fun file => body (os_path_join root file))) s
  = for_each (walk_items w) body s.
Proof.
  revert s. induction w as [|[[root dirs] files] w IH]; intros s; trivial.
  rewrite walk_items_cons, for_each_app. cbn [for_each fst snd].
  unfold bind. rewrite for_each_map.
  destruct (for_each files _ s) as [s1 [[]|e]]; trivial.
Qed.

(** ** One iteration of each phase *)

Section Phases.

Variable hasher : Type.
Variable hash_new : hasher.
Variable hash_update : hasher -> list byte -> hasher.
Variable hexdigest : hasher -> string.
Variable F : faults.

Local Abbreviation calc_hash := (calculate_hash hash_new hash_update hexdigest F).
Local Abbreviation files_differ :=
  (are_files_different hash_new hash_update hexdigest F).
Local Abbreviation fp := (fingerprint hash_new hash_update hexdigest).
Local Abbreviation needs := (needs_copy hash_new hash_update hexdigest).
Local Abbreviation copy1 := (copy_one hash_new hash_update hexdigest F).
Local Abbreviation remove1 := (remove_one F).
Local Abbreviation copy_phase := (copy_files hash_new hash_update hexdigest F).
Local Abbreviation remove_phase := (remove_files F).
Local Abbreviation cycle :=
  (synchronize_folders hash_new hash_update hexdigest F).
Local Abbreviation stale_ := (stale hash_new hash_update hexdigest).

Lemma are_files_different_cases (a b : path) (s : state) :
  (exists da db,
      kind_at (st_fs s) a = KFile da /\ kind_at (st_fs s) b = KFile db
      /\ readable F a da = true /\ readable F b db = true
      /\ files_differ a b s
         = (s, Ok (negb (String.eqb (fp da) (fp db)))))
  \/ (exists e, files_differ a b s = (s, Raise e)).
Proof.
  unfold are_files_different, bind.
  destruct (kind_at (st_fs s) a) as [|da|] eqn:Ka;
    try (right; destruct (calculate_hash_raise hash_new hash_update hexdigest F a s)
           as [e ->]; [congruence|eauto]).
  destruct (readable F a da) eqn:Ra;
    [|right; destruct (calculate_hash_raise hash_new hash_update hexdigest F a s)
        as [e ->]; [congruence|eauto]].
  rewrite (calculate_hash_ok hash_new hash_update hexdigest F a s Ka Ra).
  destruct (kind_at (st_fs s) b) as [|db|] eqn:Kb;
    try (right; destruct (calculate_hash_raise hash_new hash_update hexdigest F b s)
           as [e ->]; [congruence|eauto]).
  destruct (readable F b db) eqn:Rb;
    [|right; destruct (calculate_hash_raise hash_new hash_update hexdigest F b s)
        as [e ->]; [congruence|eauto]].
  rewrite (calculate_hash_ok hash_new hash_update hexdigest F b s Kb Rb).
  left. exists da, db. auto.
Qed.

Lemma copy2_spec (fs : filesystem) (src : path) (g : folder) (pp : relpath)
      (x : name) (d : list byte) :
  kind_at fs src = KFile d ->
  kind_at fs (g, pp) = KDir ->
  kind_at fs (g, pp ++ [x]) <> KDir ->
  (readable F src d = true
   /\ exists fs', copy2 F fs src (g, pp ++ [x]) = (fs', Ok tt)
                  /\ write_file fs (g, pp ++ [x]) d = Ok fs')
  \/ (readable F src d = false
      /\ exists e, copy2 F fs src (g, pp ++ [x]) = (fs, Raise e))
  \/ (readable F src d = false
      /\ exists e part fs', copy2 F fs src (g, pp ++ [x]) = (fs', Raise e)
                            /\ write_file fs (g, pp ++ [x]) part = Ok fs').
Proof.
  intros Ksrc Kdir Kdst. unfold copy2.
  assert (Hnd : isdir_b fs (g, pp ++ [x]) = false).
  { unfold isdir_b. unfold kind_at in Kdst.
    destruct (stat fs (g, pp ++ [x])) as [[d0|es]|]; trivial. now elim Kdst. }
  rewrite Hnd. unfold open_rb, readable. unfold kind_at in Ksrc.
  destruct (stat fs src) as [[d0|es]|]; try discriminate. injection Ksrc as ->.
  destruct (open_denied F src); [right; left; eauto|]. cbn [fo_data negb andb].
  assert (Hok : (forall o, bad_offset F src = Some o -> length d <= o) ->
                read_all F (S (length d))
                  {| fo_name := src; fo_data := d; fo_pos := 0 |} [] = (d, None)).
  { intros H. rewrite read_all_ok by (trivial; lia). reflexivity. }
  destruct (bad_offset F src) as [o|] eqn:Ho.
  - destruct (Nat.leb_spec (length d) o) as [Hle|Hlt].
    + rewrite Hok by (intros o' [= <-]; trivial).
      destruct (write_file_ok fs g pp x d Kdir Kdst) as [fs' Hw].
      rewrite Hw. left. eauto.
    + destruct (@read_all_bad F src d o Ho Hlt (S (length d)) 0 [])
        as [part ->]; try lia.
      destruct (write_file_ok fs g pp x part Kdir Kdst) as [fs' Hw].
      rewrite Hw. right; right. split; trivial. eauto.
  - rewrite Hok by discriminate.
    destruct (write_file_ok fs g pp x d Kdir Kdst) as [fs' Hw].
    rewrite Hw. left. eauto.
Qed.

Lemma exists_b_kind (fs : filesystem) (p : path) :
  exists_b fs p = match kind_at fs p with KNone => false | _ => true end.
Proof. unfold exists_b, kind_at. now destruct (stat fs p) as [[d|es]|]. Qed.

Lemma mkdirs_ok_inv (who : path) (p : relpath) :
  forall (n n' : node),
    mkdirs who n p = Ok n' ->
    forall q d, prefixb q p = true -> lookup n q <> Some (File d).
Proof.
  induction p as [|x p IH]; intros n n' H q d Hq Hl.
  - destruct q; [|discriminate]. simpl in *. injection Hl as ->. discriminate.
  - simpl in H. destruct n as [d0|es]; [discriminate|].
    destruct q as [|y q]; [discriminate|]. simpl in Hq, Hl.
    apply andb_prop in Hq as [Hyx Hq]. apply String.eqb_eq in Hyx as ->.
    destruct (entry x es) as [c|] eqn:Ex; [|discriminate].
    destruct (mkdirs who c p) as [c'|e] eqn:Hc; [|discriminate].
    eapply IH; eauto.
Qed.

Lemma makedirs_frame (fs fs' : filesystem) (f : folder) (p : relpath) :
  makedirs fs (f, p) = Ok fs' ->
  forall q, kind_at fs' (f, q) = kind_at fs (f, q)
            \/ (kind_at fs (f, q) = KNone /\ kind_at fs' (f, q) = KDir
                /\ prefixb q p = true).
Proof.
  intros H q. rewrite (kind_at_makedirs _ _ _ H).
  destruct (folder_eqb_spec f f) as [_|Hff]; [|congruence]. simpl.
  destruct (prefixb q p) eqn:Hq; auto.
  destruct (kind_at fs (f, q)) as [|d|] eqn:Hk; auto.
  exfalso. revert H Hk. unfold makedirs, kind_at, stat. simpl.
  destruct (root_of fs f) as [n|]; [|discriminate].
  destruct (mkdirs (f, p) n p) as [n'|e] eqn:Hm; [|discriminate]. intros _.
  destruct (lookup n q) as [[d0|es]|] eqn:Hl; try discriminate. intros _.
  exact (@mkdirs_ok_inv (f, p) p n n' Hm q d0 Hq Hl).
Qed.

Lemma set_root_other (fs : filesystem) (f g : folder) (o : option node) :
  g <> f -> root_of (set_root fs f o) g = root_of fs g.
Proof.
  intros H. rewrite root_of_set_root. destruct (folder_eqb_spec g f); congruence.
Qed.

Lemma makedirs_root_other (fs fs' : filesystem) (p : path) (g : folder) :
  makedirs fs p = Ok fs' -> g <> fst p -> root_of fs' g = root_of fs g.
Proof.
  unfold makedirs. intros H Hg. destruct (root_of fs (fst p)) as [n|].
  - destruct (mkdirs p n (snd p)); [|discriminate].
    injection H as <-. now apply set_root_other.
  - injection H as <-. now apply set_root_other.
Qed.

Lemma write_file_root_other (fs fs' : filesystem) (p : path) (d : list byte)
      (g : folder) :
  write_file fs p d = Ok fs' -> g <> fst p -> root_of fs' g = root_of fs g.
Proof.
  unfold write_file. intros H Hg. destruct (root_of fs (fst p)) as [n|].
  - destruct (write_node p n (snd p) d); [|discriminate].
    injection H as <-. now apply set_root_other.
  - destruct (snd p); [|discriminate].
    injection H as <-. now apply set_root_other.
Qed.

Lemma remove_root_other (fs fs' : filesystem) (p : path) (g : folder) :
  remove F fs p = Ok fs' -> g <> fst p -> root_of fs' g = root_of fs g.
Proof.
  unfold remove. intros H Hg.
  destruct (stat fs p) as [[d|es]|]; try discriminate.
  destruct (unlink_denied F p); [discriminate|].
  destruct (root_of fs (fst p)) as [n|], (snd p);
    injection H as <-; now apply set_root_other.
Qed.

(** The copy itself, once the directory exists and the target is not a
    directory: it writes the source content and logs the copy, or leaves
    part of the content (or nothing) and raises. *)
Lemma copy_step_spec (s1 s2 : state) (pp : relpath) (x : name) (d : list byte)
      (r : result unit) :
  kind_at (st_fs s1) (Source, pp ++ [x]) = KFile d ->
  kind_at (st_fs s1) (Replica, pp) = KDir ->
  kind_at (st_fs s1) (Replica, pp ++ [x]) <> KDir ->
  (shutil_copy2 F (Source, pp ++ [x]) (Replica, pp ++ [x]) ;;
   logging_info (FileCopied (pp ++ [x]))) s1 = (s2, r) ->
  st_calls s2 = st_calls s1 ++ [Copy2 (Source, pp ++ [x]) (Replica, pp ++ [x])]
  /\ root_of (st_fs s2) Source = root_of (st_fs s1) Source
  /\ (wf_fs (st_fs s1) = true -> wf_fs (st_fs s2) = true)
  /\ ((r = Ok tt
       /\ st_out s2 = st_out s1 ++ [LogInfo (FileCopied (pp ++ [x]))]
       /\ write_file (st_fs s1) (Replica, pp ++ [x]) d = Ok (st_fs s2))
      \/ (exists e, r = Raise e /\ st_out s2 = st_out s1
                    /\ (st_fs s2 = st_fs s1
                        \/ exists part,
                             write_file (st_fs s1) (Replica, pp ++ [x]) part
                             = Ok (st_fs s2)))).
Proof.
  intros Ks Kd Kr. unfold bind, shutil_copy2, logging_info.
  cbn [st_fs note].
  destruct (copy2_spec (st_fs s1) (Source, pp ++ [x]) Replica pp x Ks Kd Kr)
    as [(_ & fs' & -> & Hw)|[(_ & e & ->)|(_ & e & part & fs' & -> & Hw)]];
    intros [= <- <-]; cbn [st_fs st_out st_calls with_fs note emit].
  - repeat split; trivial.
    + eapply write_file_root_other; eauto. discriminate.
    + intros Hwf. eapply wf_write_file; eauto.
    + left. auto.
  - repeat split; trivial. right. exists e. auto.
  - repeat split; trivial.
    + eapply write_file_root_other; eauto. discriminate.
    + intros Hwf. eapply wf_write_file; eauto.
    + right. exists e. repeat split; trivial. right. eauto.
Qed.

(** One iteration of the copy loop on a source file: what may change in
    the replica besides the file itself is that missing directories above
    it appear; the file is skipped, copied, or the iteration raises before
    or during the copy. *)
Lemma copy_one_spec (s s' : state) (p : relpath) (d : list byte) (r : result unit) :
  kind_at (st_fs s) (Source, p) = KFile d -> p <> [] ->
  copy1 Source Replica (Source, p) s = (s', r) ->
  root_of (st_fs s') Source = root_of (st_fs s) Source
  /\ (wf_fs (st_fs s) = true -> wf_fs (st_fs s') = true)
  /\ (forall q, q <> p ->
        kind_at (st_fs s') (Replica, q) = kind_at (st_fs s) (Replica, q)
        \/ (kind_at (st_fs s) (Replica, q) = KNone
            /\ kind_at (st_fs s') (Replica, q) = KDir
            /\ prefixb q (removelast p) = true))
  /\ ((r = Ok tt
       /\ (exists d', kind_at (st_fs s) (Replica, p) = KFile d')
       /\ needs (kind_at (st_fs s) (Replica, p)) d = false
       /\ kind_at (st_fs s') (Replica, p) = kind_at (st_fs s) (Replica, p)
       /\ st_out s' = st_out s
       /\ st_calls s' = st_calls s ++ [Makedirs (Replica, removelast p)])
      \/ (r = Ok tt
          /\ needs (kind_at (st_fs s) (Replica, p)) d = true
          /\ kind_at (st_fs s') (Replica, p) = KFile d
          /\ st_out s' = st_out s ++ [LogInfo (FileCopied p)]
          /\ st_calls s' = st_calls s ++ [Makedirs (Replica, removelast p);
                                          Copy2 (Source, p) (Replica, p)])
      \/ ((exists e, r = Raise e)
          /\ kind_at (st_fs s') (Replica, p) = kind_at (st_fs s) (Replica, p)
          /\ st_out s' = st_out s
          /\ st_calls s' = st_calls s ++ [Makedirs (Replica, removelast p)])
      \/ ((exists e, r = Raise e)
          /\ needs (kind_at (st_fs s) (Replica, p)) d = true
          /\ (kind_at (st_fs s') (Replica, p) = kind_at (st_fs s) (Replica, p)
              \/ exists part, kind_at (st_fs s') (Replica, p) = KFile part)
          /\ st_out s' = st_out s
          /\ st_calls s' = st_calls s ++ [Makedirs (Replica, removelast p);
                                          Copy2 (Source, p) (Replica, p)])).
Proof.
  intros Ks Hp H.
  destruct (exists_last Hp) as (pp & x & ->). rewrite removelast_last.
  unfold copy_one, os_path_relpath, os_path_join_rel,
    os_path_dirname in H.
  cbn [fst snd] in H. rewrite removelast_last in H.
  unfold bind at 1 in H. unfold os_makedirs in H. cbn [st_fs note] in H.
  destruct (makedirs (st_fs s) (Replica, pp)) as [fs1|e] eqn:Hmk.
  2: { injection H as <- <-. cbn [st_fs st_out st_calls note].
       repeat split; auto. right; right; left. eauto. }
  pose proof (kind_at_makedirs _ _ _ Hmk) as K1.
  pose proof (makedirs_frame _ _ _ Hmk) as Fr1.
  set (s1 := with_fs (note (Makedirs (Replica, pp)) s) fs1) in H.
  assert (Ks1 : kind_at (st_fs s1) (Source, pp ++ [x]) = KFile d).
  { cbn [s1 st_fs with_fs]. rewrite K1. exact Ks. }
  assert (Kd1 : kind_at (st_fs s1) (Replica, pp) = KDir).
  { cbn [s1 st_fs with_fs]. rewrite K1, prefixb_refl. reflexivity. }
  assert (Kp1 : kind_at (st_fs s1) (Replica, pp ++ [x])
                = kind_at (st_fs s) (Replica, pp ++ [x])).
  { cbn [s1 st_fs with_fs]. rewrite K1, prefixb_snoc_longer. reflexivity. }
  assert (Hroot1 : root_of (st_fs s1) Source = root_of (st_fs s) Source).
  { cbn [s1 st_fs with_fs]. eapply makedirs_root_other; eauto. discriminate. }
  assert (Hwf1 : wf_fs (st_fs s) = true -> wf_fs (st_fs s1) = true).
  { cbn [s1 st_fs with_fs]. eauto using wf_makedirs. }
  assert (Hcopy :
    forall s2 r2,
      kind_at (st_fs s) (Replica, pp ++ [x]) <> KDir ->
      (shutil_copy2 F (Source, pp ++ [x]) (Replica, pp ++ [x]) ;;
       logging_info (FileCopied (pp ++ [x]))) s1 = (s2, r2) ->
      root_of (st_fs s2) Source = root_of (st_fs s) Source
      /\ (wf_fs (st_fs s) = true -> wf_fs (st_fs s2) = true)
      /\ (forall q, q <> pp ++ [x] ->
            kind_at (st_fs s2) (Replica, q) = kind_at (st_fs s1) (Replica, q))
      /\ st_calls s2 = st_calls s ++ [Makedirs (Replica, pp);
                                      Copy2 (Source, pp ++ [x]) (Replica, pp ++ [x])]
      /\ ((r2 = Ok tt /\ kind_at (st_fs s2) (Replica, pp ++ [x]) = KFile d
           /\ st_out s2 = st_out s ++ [LogInfo (FileCopied (pp ++ [x]))])
          \/ ((exists e, r2 = Raise e)
              /\ (kind_at (st_fs s2) (Replica, pp ++ [x])
                  = kind_at (st_fs s) (Replica, pp ++ [x])
                  \/ exists part, kind_at (st_fs s2) (Replica, pp ++ [x])
                                  = KFile part)
              /\ st_out s2 = st_out s))).
  { intros s2 r2 Hnd Hc. rewrite <- Kp1 in Hnd.
    destruct (copy_step_spec s1 pp x Ks1 Kd1 Hnd Hc)
      as (Hcalls & Hroot & Hwf & Hcase).
    split; [congruence|]. split; [auto|].
    assert (Hw : forall part,
               write_file (st_fs s1) (Replica, pp ++ [x]) part = Ok (st_fs s2) ->
               (forall q, q <> pp ++ [x] ->
                  kind_at (st_fs s2) (Replica, q) = kind_at (st_fs s1) (Replica, q))
               /\ kind_at (st_fs s2) (Replica, pp ++ [x]) = KFile part).
    { intros part Hw. pose proof (kind_at_write_file _ _ _ _ Hw) as K2. split.
      - intros q Hq. rewrite K2. cbn [folder_eqb andb].
        destruct (relpath_eqb_spec q (pp ++ [x])) as [E|E];
          [now elim Hq|reflexivity].
      - rewrite K2. cbn [folder_eqb andb]. now rewrite relpath_eqb_refl. }
    split; [|split].
    - destruct Hcase as [(_ & _ & Hwr)|(e & _ & _ & [Heq|[part Hwr]])].
      + apply (Hw _ Hwr).
      + intros q _. now rewrite Heq.
      + apply (Hw _ Hwr).
    - rewrite Hcalls. cbn [s1 st_calls with_fs note]. now rewrite <- app_assoc.
    - destruct Hcase as [(-> & Hout & Hwr)|(e & -> & Hout & [Heq|[part Hwr]])].
      + left. repeat split; [apply (Hw _ Hwr)|exact Hout].
      + right. split; [eauto|]. split; [|exact Hout]. left.
        now rewrite Heq.
      + right. split; [eauto|]. split; [|exact Hout]. right.
        exists part. apply (Hw _ Hwr). }
  assert (Hframe :
    forall s2,
      (forall q, q <> pp ++ [x] ->
         kind_at (st_fs s2) (Replica, q) = kind_at (st_fs s1) (Replica, q)) ->
      forall q, q <> pp ++ [x] ->
        kind_at (st_fs s2) (Replica, q) = kind_at (st_fs s) (Replica, q)
        \/ (kind_at (st_fs s) (Replica, q) = KNone
            /\ kind_at (st_fs s2) (Replica, q) = KDir
            /\ prefixb q pp = true)).
  { intros s2 H2 q Hq. rewrite (H2 q Hq). apply Fr1. }
  unfold bind at 1 in H. unfold os_path_exists in H. unfold relpath in *.
  rewrite exists_b_kind, Kp1 in H.
  destruct (kind_at (st_fs s) (Replica, pp ++ [x])) as [|d'|] eqn:Kr.
  - (* nothing at the replica path: copy *)
    cbn [negb] in H. unfold bind at 1 in H. unfold ret at 1 in H.
    destruct (Hcopy s' r) as (Hroot & Hwf & Hfr & Hcalls & Hcase);
      [discriminate|exact H|].
    split; [exact Hroot|]. split; [exact Hwf|]. split; [now apply Hframe|].
    destruct Hcase as [(-> & Hk & Hout)|(He & Hk & Hout)].
    + right; left. auto.
    + right; right; right. repeat split; auto.
  - (* a file at the replica path: compare the hashes *)
    cbn [negb] in H. unfold bind at 1 in H.
    destruct (are_files_different_cases (Source, pp ++ [x]) (Replica, pp ++ [x]) s1)
      as [(da & db & Ka & Kb & _ & _ & Hd)|[e Hd]]; rewrite Hd in H.
    + rewrite Ks1 in Ka. injection Ka as <-.
      rewrite Kp1 in Kb. injection Kb as <-.
      destruct (negb (String.eqb (fp d) (fp d'))) eqn:Hneed.
      * destruct (Hcopy s' r) as (Hroot & Hwf & Hfr & Hcalls & Hcase);
          [discriminate|exact H|].
        split; [exact Hroot|]. split; [exact Hwf|]. split; [now apply Hframe|].
        destruct Hcase as [(-> & Hk & Hout)|(He & Hk & Hout)].
        -- right; left. auto.
        -- right; right; right. repeat split; auto.
      * injection H as <- <-.
        split; [exact Hroot1|]. split; [exact Hwf1|].
        split; [intros q _; apply Fr1|].
        left. rewrite Kp1. repeat split; eauto.
    + injection H as <- <-.
      split; [exact Hroot1|]. split; [exact Hwf1|].
      split; [intros q _; apply Fr1|].
      right; right; left. rewrite Kp1. repeat split; eauto.
  - (* a directory at the replica path: hashing it raises *)
    cbn [negb] in H. unfold bind at 1 in H.
    destruct (are_files_different_cases (Source, pp ++ [x]) (Replica, pp ++ [x]) s1)
      as [(da & db & Ka & Kb & _)|[e Hd]].
    + rewrite Kp1 in Kb. discriminate.
    + rewrite Hd in H. injection H as <- <-.
      split; [exact Hroot1|]. split; [exact Hwf1|].
      split; [intros q _; apply Fr1|].
      right; right; left. rewrite Kp1. repeat split; eauto.
Qed.

(** One iteration of the delete loop on a replica file: it is kept,
    unlinked, or the unlinking raises. *)
Lemma remove_one_spec (s s' : state) (p : relpath) (d : list byte) (r : result unit) :
  kind_at (st_fs s) (Replica, p) = KFile d ->
  remove1 Replica Source (Replica, p) s = (s', r) ->
  (orphan (st_fs s) p = false /\ s' = s /\ r = Ok tt)
  \/ (orphan (st_fs s) p = true /\ unlink_denied F (Replica, p) = false
      /\ r = Ok tt
      /\ remove F (st_fs s) (Replica, p) = Ok (st_fs s')
      /\ st_out s' = st_out s ++ [LogInfo (FileDeleted p)]
      /\ st_calls s' = st_calls s ++ [Remove (Replica, p)])
  \/ (orphan (st_fs s) p = true /\ unlink_denied F (Replica, p) = true
      /\ r = Raise (OSError EACCES (Replica, p))
      /\ s' = note (Remove (Replica, p)) s).
Proof.
  intros Kr H.
  unfold remove_one, os_path_relpath, os_path_join_rel in H. cbn [fst snd] in H.
  unfold bind at 1 in H. unfold os_path_exists in H. unfold orphan.
  destruct (exists_b (st_fs s) (Source, p)); cbn [negb] in H |- *.
  - injection H as <- <-. auto.
  - unfold bind, os_remove, logging_info in H. cbn [st_fs note] in H.
    destruct (unlink_denied F (Replica, p)) eqn:Hu.
    + rewrite (remove_denied F _ _ Kr Hu) in H. injection H as <- <-.
      right; right. auto.
    + destruct (remove_ok F _ _ Kr Hu) as [fs' Hrm]. rewrite Hrm in H.
      injection H as <- <-. right; left.
      cbn [st_fs st_out st_calls with_fs note emit]. repeat split; trivial.
Qed.

(** ** The two loops *)

Lemma kind_at_same_root (fs fs' : filesystem) (f : folder) (q : relpath) :
  root_of fs' f = root_of fs f -> kind_at fs' (f, q) = kind_at fs (f, q).
Proof. unfold kind_at, stat. simpl. now intros ->. Qed.

Lemma data_at_same_root (fs fs' : filesystem) (f : folder) (q : relpath) :
  root_of fs' f = root_of fs f -> data_at fs' (f, q) = data_at fs (f, q).
Proof. unfold data_at. intros H. now rewrite (kind_at_same_root _ _ _ q H). Qed.

Lemma orphan_same_root (fs fs' : filesystem) (q : relpath) :
  root_of fs' Source = root_of fs Source -> orphan fs' q = orphan fs q.
Proof.
  unfold orphan. intros H.
  now rewrite !exists_b_kind, (kind_at_same_root _ _ _ q H).
Qed.

(** No regular file lies above another one. *)
Lemma files_prefix_free (fs : filesystem) (f : folder) (p p' : relpath)
      (d d' : list byte) :
  kind_at fs (f, p') = KFile d' -> kind_at fs (f, p) = KFile d -> p <> [] ->
  prefixb p' (removelast p) = false.
Proof.
  intros Hp' Hp Hne. destruct (prefixb p' (removelast p)) eqn:E; trivial.
  apply prefixb_spec in E as [t Ht].
  assert (Hpp : exists u, u <> [] /\ p = p' ++ u).
  { exists (t ++ [last p EmptyString]). split; [now destruct t|].
    rewrite app_assoc, <- Ht. now apply app_removelast_last. }
  destruct Hpp as (u & Hu & ->). clear Ht Hne.
  revert Hp' Hp. unfold kind_at, stat. simpl.
  destruct (root_of fs f) as [n|]; [|discriminate].
  destruct (lookup n p') as [[d0|es]|] eqn:Hl; try discriminate. intros _.
  rewrite (@lookup_file_below n p' u d0 Hl Hu). discriminate.
Qed.

(** The copy loop over the source files [l]: it handles a first part [l1]
    of them and stops before the rest [l2], which is empty unless an
    iteration raised. *)
Lemma copy_loop_spec (l : list relpath) :
  forall (s s' : state) (r : result unit),
    NoDup l ->
    (forall p, In p l ->
       p <> [] /\ exists d, kind_at (st_fs s) (Source, p) = KFile d) ->
    for_each (map (fun p => (Source, p)) l) (copy1 Source Replica) s = (s', r) ->
    exists l1 l2 cs,
      l = l1 ++ l2
      /\ (r = Ok tt -> l2 = [])
      /\ ((exists e, r = Raise e) -> l2 <> [])
      /\ root_of (st_fs s') Source = root_of (st_fs s) Source
      /\ (wf_fs (st_fs s) = true -> wf_fs (st_fs s') = true)
      /\ st_out s'
         = st_out s ++ map (fun p => LogInfo (FileCopied p))
                          (filter (stale_ (st_fs s)) l1)
      /\ (forall p, In p l1 ->
            kind_at (st_fs s) (Replica, p) <> KDir
            /\ kind_at (st_fs s') (Replica, p)
               = if stale_ (st_fs s) p
                 then KFile (data_at (st_fs s) (Source, p))
                 else kind_at (st_fs s) (Replica, p))
      /\ (forall q, ~ In q l1 ->
            kind_at (st_fs s') (Replica, q) = kind_at (st_fs s) (Replica, q)
            \/ (kind_at (st_fs s) (Replica, q) = KNone
                /\ kind_at (st_fs s') (Replica, q) = KDir
                /\ exists p, In p l /\ prefixb q (removelast p) = true)
            \/ (hd_error l2 = Some q /\ stale_ (st_fs s) q = true
                /\ exists part, kind_at (st_fs s') (Replica, q) = KFile part))
      /\ st_calls s' = st_calls s ++ cs
      /\ Forall (fun c => is_copy_call c = true
                          /\ exists q, target c = Some (Replica, q)) cs
      /\ (forall a b, In (Copy2 a b) cs ->
            exists p, In p l /\ a = (Source, p) /\ b = (Replica, p)
                      /\ stale_ (st_fs s) p = true).
Proof.
  induction l as [|p l IH]; intros s s' r Hnd Hsrc H.
  - injection H as <- <-. exists [], [], []. cbn [filter map app].
    rewrite !app_nil_r. repeat split; auto; try contradiction.
    intros [e He]. discriminate.
  - cbn [map for_each] in H. unfold bind in H.
    destruct (copy1 Source Replica (Source, p) s) as [s1 r1] eqn:Hb.
    destruct (Hsrc p (or_introl eq_refl)) as (Hp & d & Kp).
    assert (Hd : data_at (st_fs s) (Source, p) = d)
      by (unfold data_at; now rewrite Kp).
    destruct (@copy_one_spec s s1 p d r1 Kp Hp Hb) as (Hroot1 & Hwf1 & Hfr1 & Hcase).
    apply NoDup_cons_iff in Hnd as [Hpl Hnd].
    assert (Hframe : forall q, q <> p ->
              kind_at (st_fs s1) (Replica, q) = kind_at (st_fs s) (Replica, q)
              \/ (kind_at (st_fs s) (Replica, q) = KNone
                  /\ kind_at (st_fs s1) (Replica, q) = KDir
                  /\ exists p0, In p0 (p :: l)
                                /\ prefixb q (removelast p0) = true)).
    { intros q Hq. destruct (Hfr1 q Hq) as [E|(E1 & E2 & E3)]; auto.
      right. repeat split; trivial. exists p. split; [now left|trivial]. }
    assert (Hrk1 : forall q, In q l ->
              kind_at (st_fs s1) (Replica, q) = kind_at (st_fs s) (Replica, q)).
    { intros q Hq. destruct (Hfr1 q) as [E|(_ & _ & E)]; trivial.
      - intros ->. contradiction.
      - destruct (Hsrc q (or_intror Hq)) as (_ & dq & Kq).
        now rewrite (@files_prefix_free (st_fs s) Source p q d dq Kq Kp Hp) in E. }
    assert (Hst1 : forall q, In q l ->
              stale_ (st_fs s1) q = stale_ (st_fs s) q).
    { intros q Hq. unfold stale.
      now rewrite (Hrk1 q Hq), (data_at_same_root _ _ _ q Hroot1). }
    assert (Hstale_p : stale_ (st_fs s) p = needs (kind_at (st_fs s) (Replica, p)) d).
    { unfold stale. now rewrite Hd. }
    destruct r1 as [[]|e1].
    + (* the iteration returned: go on with the rest *)
      destruct (IH s1 s' r Hnd) as (l1 & l2 & cs & -> & Hok & Hraise & Hroot & Hwf
                                     & Hout & Hdone & Hrest & Hcalls & Hcs & Hcp);
        [|exact H|].
      { intros q Hq. destruct (Hsrc q (or_intror Hq)) as (Hq1 & dq & Kq).
        split; trivial. exists dq.
        now rewrite (kind_at_same_root _ _ _ q Hroot1). }
      assert (Hin1 : forall q, In q l1 -> In q (l1 ++ l2))
        by (intros; apply in_or_app; auto).
      assert (Hp1 : ~ In p l1) by (intros Hin; apply Hpl; auto).
      assert (Hfilter : filter (stale_ (st_fs s1)) l1 = filter (stale_ (st_fs s)) l1).
      { apply filter_ext_in. intros q Hq. apply Hst1; auto. }
      assert (Hkeep : kind_at (st_fs s') (Replica, p) = kind_at (st_fs s1) (Replica, p)
                      \/ False).
      { destruct (Hrest p Hp1) as [E|[(E1 & E2 & _)|(E1 & _)]]; auto.
        - destruct Hcase as [(_ & (d' & Kd') & _ & E & _)
                            |[(_ & _ & E & _)
                             |[([e He] & _)|([e He] & _)]]];
            try discriminate; rewrite E in E1; [rewrite Kd' in E1|]; discriminate.
        - exfalso. apply Hpl. apply in_or_app. right.
          destruct l2; [discriminate|]. injection E1 as ->. now left. }
      destruct Hkeep as [Hkeep|[]].
      destruct Hcase as [(_ & (d' & Kd') & Hneed & Ek & Eout & Ecalls)
                        |[(_ & Hneed & Ek & Eout & Ecalls)
                         |[([e He] & _)|([e He] & _)]]]; try discriminate.
      * (* skipped *)
        exists (p :: l1), l2, (Makedirs (Replica, removelast p) :: cs).
        cbn [filter]. rewrite Hstale_p, Hneed.
        split; [reflexivity|]. split; [exact Hok|]. split; [exact Hraise|].
        split; [congruence|]. split; [auto|].
        split; [now rewrite Hout, Eout, Hfilter|].
        split.
        { intros q [<-|Hq].
          - rewrite Hstale_p, Hneed, Kd'. split; [discriminate|].
            now rewrite Hkeep, Ek.
          - destruct (Hdone q Hq) as [Hq1 Hq2].
            rewrite <- (Hrk1 q (Hin1 q Hq)), <- (Hst1 q (Hin1 q Hq)).
            now rewrite <- (data_at_same_root _ _ _ q Hroot1). }
        split.
        { intros q Hq. assert (Hqp : q <> p) by (intros ->; apply Hq; now left).
          assert (Hq1 : ~ In q l1) by (intros Hin; apply Hq; now right).
          destruct (Hrest q Hq1) as [E|[(E1 & E2 & p0 & Hp0 & E3)|(E1 & E2 & E3)]].
          - rewrite E. destruct (Hframe q Hqp) as [E'|(E1 & E2 & E3)]; auto.
          - destruct (Hframe q Hqp) as [E'|(E1' & E2' & E3')];
              [|rewrite E1 in E2'; discriminate].
            right; left. rewrite <- E'. repeat split; trivial.
            exists p0. split; [now right|trivial].
          - assert (Hql : In q (l1 ++ l2)).
            { apply in_or_app. right. destruct l2; [discriminate|].
              injection E1 as ->. now left. }
            right; right. now rewrite <- (Hst1 q Hql). }
        split; [rewrite Hcalls, Ecalls, <- app_assoc; reflexivity|].
        split.
        { constructor; [split; [reflexivity|eexists; reflexivity]|trivial]. }
        intros a b [Hab|Hab]; [discriminate|].
        destruct (Hcp a b Hab) as (p0 & Hp0 & -> & -> & Hs0).
        exists p0. rewrite <- (Hst1 p0 Hp0). auto using in_cons.
      * (* copied *)
        exists (p :: l1), l2,
          (Makedirs (Replica, removelast p)
           :: Copy2 (Source, p) (Replica, p) :: cs).
        cbn [filter]. rewrite Hstale_p, Hneed. cbn [map].
        split; [reflexivity|]. split; [exact Hok|]. split; [exact Hraise|].
        split; [congruence|]. split; [auto|].
        split; [rewrite Hout, Eout, Hfilter, <- app_assoc; reflexivity|].
        split.
        { intros q [<-|Hq].
          - rewrite Hstale_p, Hneed, Hd. split; [|now rewrite Hkeep, Ek].
            intros E. rewrite E in Hneed. discriminate.
          - destruct (Hdone q Hq) as [Hq1 Hq2].
            rewrite <- (Hrk1 q (Hin1 q Hq)), <- (Hst1 q (Hin1 q Hq)).
            now rewrite <- (data_at_same_root _ _ _ q Hroot1). }
        split.
        { intros q Hq. assert (Hqp : q <> p) by (intros ->; apply Hq; now left).
          assert (Hq1 : ~ In q l1) by (intros Hin; apply Hq; now right).
          destruct (Hrest q Hq1) as [E|[(E1 & E2 & p0 & Hp0 & E3)|(E1 & E2 & E3)]].
          - rewrite E. destruct (Hframe q Hqp) as [E'|(E1 & E2 & E3)]; auto.
          - destruct (Hframe q Hqp) as [E'|(E1' & E2' & E3')];
              [|rewrite E1 in E2'; discriminate].
            right; left. rewrite <- E'. repeat split; trivial.
            exists p0. split; [now right|trivial].
          - assert (Hql : In q (l1 ++ l2)).
            { apply in_or_app. right. destruct l2; [discriminate|].
              injection E1 as ->. now left. }
            right; right. now rewrite <- (Hst1 q Hql). }
        split; [rewrite Hcalls, Ecalls, <- app_assoc; reflexivity|].
        split.
        { constructor; [split; [reflexivity|eexists; reflexivity]|].
          constructor; [split; [reflexivity|eexists; reflexivity]|trivial]. }
        intros a b [Hab|[Hab|Hab]]; [discriminate| |].
        { injection Hab as <- <-. exists p.
          rewrite Hstale_p. auto using in_eq. }
        destruct (Hcp a b Hab) as (p0 & Hp0 & -> & -> & Hs0).
        exists p0. rewrite <- (Hst1 p0 Hp0). auto using in_cons.
    + (* the iteration raised: the loop stops *)
      injection H as <- <-.
      destruct Hcase as [(He & _)|[(He & _)
                        |[(_ & Ek & Eout & Ecalls)
                         |(_ & Hneed & Ek & Eout & Ecalls)]]]; try discriminate.
      * exists [], (p :: l), [Makedirs (Replica, removelast p)].
        cbn [filter map app]. rewrite app_nil_r.
        split; [reflexivity|]. split; [discriminate|].
        split; [discriminate|].
        split; [trivial|]. split; [trivial|]. split; [trivial|].
        split; [contradiction|].
        split.
        { intros q _. destruct (relpath_eqb_spec q p) as [->|Hqp]; auto.
          destruct (Hframe q Hqp) as [E|E]; auto. }
        split; [trivial|]. split; [|intros a b [Hab|[]]; discriminate].
        constructor; [split; [reflexivity|eexists; reflexivity]|trivial].
      * exists [], (p :: l),
          [Makedirs (Replica, removelast p); Copy2 (Source, p) (Replica, p)].
        cbn [filter map app]. rewrite app_nil_r.
        split; [reflexivity|]. split; [discriminate|].
        split; [discriminate|].
        split; [trivial|]. split; [trivial|]. split; [trivial|].
        split; [contradiction|].
        split.
        { intros q _. destruct (relpath_eqb_spec q p) as [->|Hqp].
          - destruct Ek as [Ek|Ek]; auto.
            right; right. rewrite Hstale_p. auto.
          - destruct (Hframe q Hqp) as [E|E]; auto. }
        split; [trivial|]. split.
        { constructor; [split; [reflexivity|eexists; reflexivity]|].
          constructor; [split; [reflexivity|eexists; reflexivity]|trivial]. }
        intros a b [Hab|[Hab|[]]]; [discriminate|].
        injection Hab as <- <-. exists p. rewrite Hstale_p. auto using in_eq.
Qed.

(** The delete loop over the replica files [l]: it handles a first part
    [l1] of them, unlinking the orphans, and stops before the rest [l2],
    which is empty unless an unlinking raised. *)
Lemma remove_loop_spec (l : list relpath) :
  forall (s s' : state) (r : result unit),
    NoDup l -> wf_fs (st_fs s) = true ->
    (forall p, In p l -> exists d, kind_at (st_fs s) (Replica, p) = KFile d) ->
    for_each (map (fun p => (Replica, p)) l) (remove1 Replica Source) s = (s', r) ->
    exists l1 l2,
      l = l1 ++ l2
      /\ (r = Ok tt -> l2 = [])
      /\ (forall e, r = Raise e ->
            exists q, hd_error l2 = Some q /\ orphan (st_fs s) q = true
                      /\ unlink_denied F (Replica, q) = true
                      /\ e = OSError EACCES (Replica, q))
      /\ root_of (st_fs s') Source = root_of (st_fs s) Source
      /\ wf_fs (st_fs s') = true
      /\ st_out s'
         = st_out s ++ map (fun p => LogInfo (FileDeleted p))
                          (filter (orphan (st_fs s)) l1)
      /\ st_calls s'
         = st_calls s
           ++ map (fun p => Remove (Replica, p)) (filter (orphan (st_fs s)) l1)
           ++ match r with
              | Ok _ => []
              | Raise _ => map (fun p => Remove (Replica, p)) (firstn 1 l2)
              end
      /\ (forall q, In q l1 -> orphan (st_fs s) q = true ->
                    kind_at (st_fs s') (Replica, q) = KNone)
      /\ (forall q, ~ (In q l1 /\ orphan (st_fs s) q = true) ->
                    kind_at (st_fs s') (Replica, q) = kind_at (st_fs s) (Replica, q)).
Proof.
  induction l as [|p l IH]; intros s s' r Hnd Hwf Hrep H.
  - injection H as <- <-. exists [], []. cbn [filter map app].
    rewrite !app_nil_r. repeat split; auto; try discriminate. contradiction.
  - cbn [map for_each] in H. unfold bind in H.
    destruct (remove1 Replica Source (Replica, p) s) as [s1 r1] eqn:Hb.
    destruct (Hrep p (or_introl eq_refl)) as (d & Kp).
    apply NoDup_cons_iff in Hnd as [Hpl Hnd].
    destruct (@remove_one_spec s s1 p d r1 Kp Hb)
      as [(Ho & -> & ->)
         |[(Ho & Hu & -> & Hrm & Eout & Ecalls)|(Ho & Hu & -> & ->)]].
    + (* kept *)
      destruct (IH s s' r Hnd Hwf) as (l1 & l2 & -> & Hok & Hraise & Hroot & Hwf'
                                       & Hout & Hcalls & Hgone & Hkept);
        [intros q Hq; apply Hrep; now right|exact H|].
      exists (p :: l1), l2. cbn [filter]. rewrite Ho.
      repeat split; trivial.
      * intros q [<-|Hq] Hoq; [congruence|auto].
      * intros q Hq. apply Hkept. intros [Hq1 Hq2]. apply Hq. auto using in_cons.
    + (* unlinked *)
      pose proof (@kind_at_remove F (st_fs s) (st_fs s1) Replica p Hwf Hrm) as K1.
      assert (Hroot1 : root_of (st_fs s1) Source = root_of (st_fs s) Source).
      { eapply remove_root_other; eauto. discriminate. }
      assert (Hwf1 : wf_fs (st_fs s1) = true) by eauto using wf_remove.
      assert (Hrk1 : forall q, q <> p ->
                kind_at (st_fs s1) (Replica, q) = kind_at (st_fs s) (Replica, q)).
      { intros q Hq. rewrite K1. cbn [folder_eqb andb].
        destruct (relpath_eqb_spec q p); [contradiction|reflexivity]. }
      assert (Hp1 : kind_at (st_fs s1) (Replica, p) = KNone).
      { rewrite K1. cbn [folder_eqb andb]. now rewrite relpath_eqb_refl. }
      assert (Hor1 : forall q, orphan (st_fs s1) q = orphan (st_fs s) q)
        by (intros q; now apply orphan_same_root).
      destruct (IH s1 s' r Hnd Hwf1) as (l1 & l2 & -> & Hok & Hraise & Hroot & Hwf'
                                        & Hout & Hcalls & Hgone & Hkept);
        [|exact H|].
      { intros q Hq. destruct (Hrep q (or_intror Hq)) as [dq Kq]. exists dq.
        rewrite Hrk1; trivial. intros ->. contradiction. }
      assert (Hfilter : filter (orphan (st_fs s1)) l1 = filter (orphan (st_fs s)) l1)
        by (apply filter_ext; exact Hor1).
      exists (p :: l1), l2. cbn [filter]. rewrite Ho. cbn [map].
      split; [reflexivity|]. split; [exact Hok|].
      split.
      { intros e He. destruct (Hraise e He) as (q & Hq1 & Hq2 & Hq3).
        exists q. now rewrite <- Hor1. }
      split; [congruence|]. split; [exact Hwf'|].
      split; [rewrite Hout, Eout, Hfilter, <- app_assoc; reflexivity|].
      split; [rewrite Hcalls, Ecalls, Hfilter, <- app_assoc; reflexivity|].
      split.
      * intros q [<-|Hq] Hoq.
        -- rewrite Hkept; trivial. intros [Hin _]. apply Hpl.
           apply in_or_app. auto.
        -- apply Hgone; trivial. now rewrite Hor1.
      * intros q Hq. assert (Hqp : q <> p) by (intros ->; apply Hq; auto using in_eq).
        rewrite Hkept, Hrk1; trivial.
        intros [Hq1 Hq2]. apply Hq. rewrite <- Hor1. auto using in_cons.
    + (* the unlinking raised *)
      injection H as <- <-. exists [], (p :: l). cbn [filter map app firstn].
      rewrite app_nil_r. cbn [st_fs st_out st_calls note].
      repeat split; trivial.
      * discriminate.
      * intros e [= <-]. exists p. auto.
      * contradiction.
Qed.

(** ** The two phases *)

Lemma files_under_kind (fs : filesystem) (f : folder) (p : relpath) :
  wf_fs fs = true -> In p (files_under fs f) ->
  p <> [] /\ exists d, kind_at fs (f, p) = KFile d.
Proof.
  unfold files_under, kind_at, stat. simpl. intros Hwf Hin.
  destruct (root_of fs f) as [n|] eqn:Hn; [|contradiction]. split.
  - intros ->. now apply file_paths_nonempty in Hin.
  - destruct (file_paths_lookup n (wf_root_of _ _ Hwf Hn) p Hin) as [d Hd].
    exists d. now rewrite Hd.
Qed.

Lemma kind_files_under (fs : filesystem) (f : folder) (p : relpath) (d : list byte) :
  p <> [] -> kind_at fs (f, p) = KFile d -> In p (files_under fs f).
Proof.
  unfold files_under, kind_at, stat. simpl. intros Hp.
  destruct (root_of fs f) as [n|]; [|discriminate].
  destruct (lookup n p) as [[d0|es]|] eqn:Hl; try discriminate. intros _.
  eapply lookup_file_paths; eauto.
Qed.

Lemma NoDup_files_under (fs : filesystem) (f : folder) :
  wf_fs fs = true -> NoDup (files_under fs f).
Proof.
  unfold files_under. intros Hwf.
  destruct (root_of fs f) as [n|] eqn:Hn; [|constructor].
  apply NoDup_file_paths. eauto using wf_root_of.
Qed.

Lemma copy_files_unfold (sf rf : folder) (s : state) :
  copy_phase sf rf s
  = try_except
      (for_each (map (fun p => (sf, p)) (files_under (st_fs s) sf)) (copy1 sf rf))
      (copy_handler) s.
Proof.
  unfold try_except. rewrite <- walk_items_walk, <- for_each_walk.
  reflexivity.
Qed.

Lemma remove_files_unfold (rf sf : folder) (s : state) :
  remove_phase rf sf s
  = try_except
      (for_each (map (fun p => (rf, p)) (files_under (st_fs s) rf)) (remove1 rf sf))
      (remove_handler) s.
Proof.
  unfold try_except. rewrite <- walk_items_walk, <- for_each_walk.
  reflexivity.
Qed.

(** The copy phase never raises: it handles the first part [l1] of the
    source files and reports the exception, if any, that stopped it before
    the rest [l2]. *)
Lemma copy_files_spec (s : state) :
  wf_fs (st_fs s) = true ->
  exists s' l1 l2 cs err,
    copy_phase Source Replica s = (s', Ok tt)
    /\ files_under (st_fs s) Source = l1 ++ l2
    /\ (err = None <-> l2 = [])
    /\ root_of (st_fs s') Source = root_of (st_fs s) Source
    /\ wf_fs (st_fs s') = true
    /\ st_out s'
       = st_out s ++ map (fun p => LogInfo (FileCopied p))
                        (filter (stale_ (st_fs s)) l1)
                  ++ report CopyFailed err
    /\ (forall p, In p l1 ->
          kind_at (st_fs s) (Replica, p) <> KDir
          /\ kind_at (st_fs s') (Replica, p)
             = if stale_ (st_fs s) p
               then KFile (data_at (st_fs s) (Source, p))
               else kind_at (st_fs s) (Replica, p))
    /\ (forall q, ~ In q l1 ->
          kind_at (st_fs s') (Replica, q) = kind_at (st_fs s) (Replica, q)
          \/ (kind_at (st_fs s) (Replica, q) = KNone
              /\ kind_at (st_fs s') (Replica, q) = KDir
              /\ exists p, In p (l1 ++ l2) /\ prefixb q (removelast p) = true)
          \/ (hd_error l2 = Some q /\ stale_ (st_fs s) q = true
              /\ exists part, kind_at (st_fs s') (Replica, q) = KFile part))
    /\ st_calls s' = st_calls s ++ cs
    /\ Forall (fun c => is_copy_call c = true
                        /\ exists q, target c = Some (Replica, q)) cs
    /\ (forall a b, In (Copy2 a b) cs ->
          exists p, In p (l1 ++ l2) /\ a = (Source, p) /\ b = (Replica, p)
                    /\ stale_ (st_fs s) p = true).
Proof.
  intros Hwf. rewrite copy_files_unfold. unfold try_except.
  destruct (for_each (map (fun p => (Source, p)) (files_under (st_fs s) Source))
              (copy1 Source Replica) s) as [s1 r] eqn:Hloop.
  destruct (@copy_loop_spec _ s s1 r (NoDup_files_under _ Source Hwf)
              (fun p => files_under_kind _ Source p Hwf) Hloop)
    as (l1 & l2 & cs & Hl & Hok & Hraise & Hroot & Hwf' & Hout & Hdone & Hrest
        & Hcalls & Hcs & Hcp).
  rewrite Hl in Hrest, Hcp.
  destruct r as [[]|e].
  - exists s1, l1, l2, cs, None. cbn [report]. rewrite app_nil_r.
    split; [reflexivity|]. split; [exact Hl|]. split; [split; auto|].
    split; [exact Hroot|]. split; [auto|]. split; [exact Hout|].
    split; [exact Hdone|]. split; [exact Hrest|]. auto.
  - exists (emit (LogError (CopyFailed e)) (emit (Print (CopyFailed e)) s1)),
      l1, l2, cs, (Some e).
    cbn [report st_fs st_out st_calls emit].
    split; [reflexivity|]. split; [exact Hl|].
    split; [split; [discriminate|intros E; elim (Hraise (ex_intro _ e eq_refl) E)]|].
    split; [exact Hroot|]. split; [auto|].
    split; [rewrite Hout, <- !app_assoc; reflexivity|].
    split; [exact Hdone|]. split; [exact Hrest|]. auto.
Qed.

(** The delete phase never raises either. *)
Lemma remove_files_spec (s : state) :
  wf_fs (st_fs s) = true ->
  exists s' l1 l2 err,
    remove_phase Replica Source s = (s', Ok tt)
    /\ files_under (st_fs s) Replica = l1 ++ l2
    /\ (err = None <-> l2 = [])
    /\ (forall e, err = Some e ->
          exists q, hd_error l2 = Some q /\ orphan (st_fs s) q = true
                    /\ unlink_denied F (Replica, q) = true
                    /\ e = OSError EACCES (Replica, q))
    /\ root_of (st_fs s') Source = root_of (st_fs s) Source
    /\ wf_fs (st_fs s') = true
    /\ st_out s'
       = st_out s ++ map (fun p => LogInfo (FileDeleted p))
                        (filter (orphan (st_fs s)) l1)
                  ++ report RemoveFailed err
    /\ st_calls s'
       = st_calls s
         ++ map (fun p => Remove (Replica, p)) (filter (orphan (st_fs s)) l1)
         ++ match err with
            | None => []
            | Some _ => map (fun p => Remove (Replica, p)) (firstn 1 l2)
            end
    /\ (forall q, In q l1 -> orphan (st_fs s) q = true ->
                  kind_at (st_fs s') (Replica, q) = KNone)
    /\ (forall q, ~ (In q l1 /\ orphan (st_fs s) q = true) ->
                  kind_at (st_fs s') (Replica, q) = kind_at (st_fs s) (Replica, q)).
Proof.
  intros Hwf. rewrite remove_files_unfold. unfold try_except.
  destruct (for_each (map (fun p => (Replica, p)) (files_under (st_fs s) Replica))
              (remove1 Replica Source) s) as [s1 r] eqn:Hloop.
  destruct (@remove_loop_spec _ s s1 r (NoDup_files_under _ Replica Hwf) Hwf
              (fun p Hp => proj2 (files_under_kind _ Replica p Hwf Hp)) Hloop)
    as (l1 & l2 & Hl & Hok & Hraise & Hroot & Hwf' & Hout & Hcalls & Hgone & Hkept).
  destruct r as [[]|e].
  - exists s1, l1, l2, None. cbn [report]. rewrite app_nil_r.
    split; [reflexivity|]. split; [exact Hl|]. split; [split; auto|].
    split; [discriminate|]. split; [exact Hroot|]. split; [exact Hwf'|].
    split; [exact Hout|]. split; [exact Hcalls|]. auto.
  - exists (emit (LogError (RemoveFailed e)) (emit (Print (RemoveFailed e)) s1)),
      l1, l2, (Some e).
    cbn [report st_fs st_out st_calls emit].
    split; [reflexivity|]. split; [exact Hl|].
    split.
    { split; [discriminate|]. intros ->.
      destruct (Hraise e eq_refl) as (q & Hq & _). discriminate. }
    split; [intros e' [= <-]; now apply Hraise|].
    split; [exact Hroot|]. split; [exact Hwf'|].
    split; [rewrite Hout, <- !app_assoc; reflexivity|].
    split; [exact Hcalls|]. auto.
Qed.

End Phases.

(** ** Confinement *)

Section Confined.

Variable I : filesystem -> filesystem -> Prop.
Variable P : call -> Prop.
Variable Q : output -> Prop.
Hypothesis I_refl : forall fs, I fs fs.
Hypothesis I_trans : forall a b c, I a b -> I b c -> I a c.

Lemma confined_unchanged {A : Type} (m : M A) :
  (forall s, fst (m s) = s) -> confined I P Q m.
Proof.
  intros H s s' r Hm. specialize (H s). rewrite Hm in H. simpl in H. subst s'.
  split; [apply I_refl|]. exists [], []. rewrite !app_nil_r. auto.
Qed.

Lemma confined_ret {A : Type} (a : A) : confined I P Q (ret a).
Proof. now apply confined_unchanged. Qed.

Lemma confined_bind {A B : Type} (m : M A) (k : A -> M B) :
  confined I P Q m -> (forall a, confined I P Q (k a)) ->
  confined I P Q (bind m k).
Proof.
  intros Hm Hk s s' r H. unfold bind in H.
  destruct (m s) as [s1 [a|e]] eqn:E.
  - destruct (Hm _ _ _ E) as (HI1 & cs1 & os1 & Hc1 & HP1 & Ho1 & HQ1).
    destruct (Hk a _ _ _ H) as (HI2 & cs2 & os2 & Hc2 & HP2 & Ho2 & HQ2).
    split; [eauto|]. exists (cs1 ++ cs2), (os1 ++ os2).
    rewrite Hc2, Hc1, Ho2, Ho1, <- !app_assoc.
    repeat split; trivial; apply Forall_app; auto.
  - injection H as <- <-. eauto.
Qed.

Lemma confined_try_except {A : Type} (m : M A) (handler : exn -> M A) :
  confined I P Q m -> (forall e, confined I P Q (handler e)) ->
  confined I P Q (try_except m handler).
Proof.
  intros Hm Hh s s' r H. unfold try_except in H.
  destruct (m s) as [s1 [a|e]] eqn:E.
  - injection H as <- <-. eauto.
  - destruct (Hm _ _ _ E) as (HI1 & cs1 & os1 & Hc1 & HP1 & Ho1 & HQ1).
    destruct (Hh e _ _ _ H) as (HI2 & cs2 & os2 & Hc2 & HP2 & Ho2 & HQ2).
    split; [eauto|]. exists (cs1 ++ cs2), (os1 ++ os2).
    rewrite Hc2, Hc1, Ho2, Ho1, <- !app_assoc.
    repeat split; trivial; apply Forall_app; auto.
Qed.

Lemma confined_for_each {A : Type} (l : list A) (body : A -> M unit) :
  (forall x, In x l -> confined I P Q (body x)) ->
  confined I P Q (for_each l body).
Proof.
  induction l as [|x l IH]; intros H; cbn [for_each].
  - apply confined_ret.
  - apply confined_bind; [apply H; now left|].
    intros _. apply IH. intros y Hy. apply H. now right.
Qed.

Lemma confined_while_true (n : nat) (body : M unit) :
  confined I P Q body -> confined I P Q (while_true n body).
Proof.
  intros H. induction n as [|n IH]; cbn [while_true].
  - apply confined_ret.
  - apply confined_bind; auto.
Qed.

Lemma confined_emit (o : output) :
  Q o -> confined I P Q (fun s => (emit o s, Ok tt)).
Proof.
  intros Ho s s' r [= <- <-]. split; [apply I_refl|].
  exists [], [o]. cbn [emit st_calls st_out]. rewrite app_nil_r. auto.
Qed.

Lemma confined_note (c : call) :
  P c -> confined I P Q (fun s => (note c s, Ok tt)).
Proof.
  intros Hc s s' r [= <- <-]. split; [apply I_refl|].
  exists [c], []. cbn [note st_calls st_out]. rewrite app_nil_r. auto.
Qed.

Lemma confined_os_makedirs (p : path) :
  P (Makedirs p) -> (forall fs fs', makedirs fs p = Ok fs' -> I fs fs') ->
  confined I P Q (os_makedirs p).
Proof.
  intros Hc HI s s' r H. unfold os_makedirs in H. cbn [note st_fs] in H.
  destruct (makedirs (st_fs s) p) as [fs'|e] eqn:E; injection H as <- <-;
    cbn [st_fs st_calls st_out with_fs note];
    (split; [auto|]); exists [Makedirs p], []; rewrite app_nil_r; auto.
Qed.

Lemma confined_shutil_copy2 (F : faults) (src dst : path) :
  P (Copy2 src dst) ->
  (forall fs fs' r, copy2 F fs src dst = (fs', r) -> I fs fs') ->
  confined I P Q (shutil_copy2 F src dst).
Proof.
  intros Hc HI s s' r H. unfold shutil_copy2 in H. cbn [note st_fs] in H.
  destruct (copy2 F (st_fs s) src dst) as [fs' r'] eqn:E. injection H as <- <-.
  cbn [st_fs st_calls st_out with_fs note].
  split; [eauto|]. exists [Copy2 src dst], []. rewrite app_nil_r. auto.
Qed.

Lemma confined_os_remove (F : faults) (p : path) :
  P (Remove p) -> (forall fs fs', remove F fs p = Ok fs' -> I fs fs') ->
  confined I P Q (os_remove F p).
Proof.
  intros Hc HI s s' r H. unfold os_remove in H. cbn [note st_fs] in H.
  destruct (remove F (st_fs s) p) as [fs'|e] eqn:E; injection H as <- <-;
    cbn [st_fs st_calls st_out with_fs note];
    (split; [auto|]); exists [Remove p], []; rewrite app_nil_r; auto.
Qed.

End Confined.

Lemma copy2_root_other (F : faults) (fs fs' : filesystem) (r : result unit)
      (src dst : path) (g : folder) :
  copy2 F fs src dst = (fs', r) -> g <> fst dst -> root_of fs' g = root_of fs g.
Proof.
  unfold copy2. intros H Hg.
  set (dst' := if isdir_b fs dst then os_path_join dst (os_path_basename src)
               else dst) in H.
  assert (Hd : fst dst' = fst dst) by (unfold dst'; now destruct (isdir_b fs dst)).
  destruct (open_rb F fs src) as [fsrc|e]; [|now injection H as <- <-].
  destruct (read_all F (S (length (fo_data fsrc))) fsrc []) as [copied failure].
  destruct (write_file fs dst' copied) as [fs1|e] eqn:Hw;
    [|now injection H as <- <-].
  injection H as <- <-. eapply write_file_root_other; eauto. congruence.
Qed.

Section ConfinedProgram.

Variable hasher : Type.
Variable hash_new : hasher.
Variable hash_update : hasher -> list byte -> hasher.
Variable hexdigest : hasher -> string.
Variable F : faults.

Variable I : filesystem -> filesystem -> Prop.
Variable P : call -> Prop.
Variable Q : output -> Prop.
Hypothesis I_refl : forall fs, I fs fs.
Hypothesis I_trans : forall a b c, I a b -> I b c -> I a c.

Lemma confined_calculate_hash (p : path) :
  confined I P Q (calculate_hash hash_new hash_update hexdigest F p).
Proof. apply confined_unchanged; trivial. apply calculate_hash_state. Qed.

Lemma confined_are_files_different (a b : path) :
  confined I P Q (are_files_different hash_new hash_update hexdigest F a b).
Proof.
  unfold are_files_different.
  apply confined_bind; trivial; [apply confined_calculate_hash|]. intros ha.
  apply confined_bind; trivial; [apply confined_calculate_hash|]. intros hb.
  now apply confined_ret.
Qed.

Section CopyPhase.

Hypothesis P_makedirs : forall p, P (Makedirs (Replica, p)).
Hypothesis P_copy2 : forall a p, P (Copy2 a (Replica, p)).
Hypothesis Q_copied : forall p, Q (LogInfo (FileCopied p)).
Hypothesis Q_copy_failed :
  forall e, Q (Print (CopyFailed e)) /\ Q (LogError (CopyFailed e)).
Hypothesis I_makedirs :
  forall fs fs' p, makedirs fs (Replica, p) = Ok fs' -> I fs fs'.
Hypothesis I_copy2 :
  forall fs fs' r a p, copy2 F fs a (Replica, p) = (fs', r) -> I fs fs'.

Lemma confined_copy_one (sf : folder) (sp : path) :
  confined I P Q (copy_one hash_new hash_update hexdigest F sf Replica sp).
Proof.
  unfold copy_one, os_path_join_rel, os_path_dirname. cbn [fst snd].
  apply confined_bind; trivial.
  { apply confined_os_makedirs; eauto. }
  intros _. apply confined_bind; trivial.
  { now apply confined_unchanged. }
  intros present. apply confined_bind; trivial.
  { destruct (negb present); [now apply confined_ret|].
    apply confined_are_files_different. }
  intros [|]; [|now apply confined_ret].
  apply confined_bind; trivial.
  { apply confined_shutil_copy2; eauto. }
  intros _. now apply (confined_emit I P Q I_refl).
Qed.

Lemma confined_copy_files :
  confined I P Q (copy_files hash_new hash_update hexdigest F Source Replica).
Proof.
  intros s s' r H. rewrite copy_files_unfold in H. revert H.
  apply confined_try_except; trivial.
  - apply confined_for_each; trivial. intros sp _. apply confined_copy_one.
  - intros e. unfold copy_handler. apply confined_bind; trivial.
    + apply (confined_emit I P Q I_refl). apply Q_copy_failed.
    + intros _. apply (confined_emit I P Q I_refl). apply Q_copy_failed.
Qed.

End CopyPhase.

Section RemovePhase.

Hypothesis P_remove : forall p, P (Remove (Replica, p)).
Hypothesis Q_deleted : forall p, Q (LogInfo (FileDeleted p)).
Hypothesis Q_remove_failed :
  forall e, Q (Print (RemoveFailed e)) /\ Q (LogError (RemoveFailed e)).
Hypothesis I_remove :
  forall fs fs' p, remove F fs (Replica, p) = Ok fs' -> I fs fs'.

Lemma confined_remove_one (sf : folder) (rp : path) :
  fst rp = Replica -> confined I P Q (remove_one F Replica sf rp).
Proof.
  destruct rp as [g p]. cbn [fst]. intros ->.
  unfold remove_one, os_path_join_rel, os_path_relpath. cbn [fst snd].
  apply confined_bind; trivial.
  { now apply confined_unchanged. }
  intros present. destruct (negb present); [|now apply confined_ret].
  apply confined_bind; trivial.
  { apply confined_os_remove; eauto. }
  intros _. now apply (confined_emit I P Q I_refl).
Qed.

Lemma confined_remove_files :
  confined I P Q (remove_files F Replica Source).
Proof.
  intros s s' r H. rewrite remove_files_unfold in H. revert H.
  apply confined_try_except; trivial.
  - apply confined_for_each; trivial. intros rp Hrp.
    apply in_map_iff in Hrp as (p & <- & _). now apply confined_remove_one.
  - intros e. unfold remove_handler. apply confined_bind; trivial.
    + apply (confined_emit I P Q I_refl). apply Q_remove_failed.
    + intros _. apply (confined_emit I P Q I_refl). apply Q_remove_failed.
Qed.

End RemovePhase.

End ConfinedProgram.

(** ** One cycle *)

Section Cycle.

Variable hasher : Type.
Variable hash_new : hasher.
Variable hash_update : hasher -> list byte -> hasher.
Variable hexdigest : hasher -> string.
Variable F : faults.

Lemma copy_files_returns (sf rf : folder) (s : state) :
  snd (copy_files hash_new hash_update hexdigest F sf rf s) = Ok tt.
Proof.
  rewrite copy_files_unfold. unfold try_except.
  destruct (for_each _ _ s) as [s1 [[]|e]]; reflexivity.
Qed.

Lemma remove_files_returns (rf sf : folder) (s : state) :
  snd (remove_files F rf sf s) = Ok tt.
Proof.
  rewrite remove_files_unfold. unfold try_except.
  destruct (for_each _ _ s) as [s1 [[]|e]]; reflexivity.
Qed.

(** A cycle is the copy phase, then the delete phase from the state the
    copy phase left, then the completion record; its handler never runs. *)
Lemma synchronize_folders_run (sf rf : folder) (s : state) :
  synchronize_folders hash_new hash_update hexdigest F sf rf s
  = (emit (LogInfo SyncCompleted)
       (fst (remove_files F rf sf
               (fst (copy_files hash_new hash_update hexdigest F sf rf s)))),
     Ok tt).
Proof.
  unfold synchronize_folders, try_except, bind.
  pose proof (copy_files_returns sf rf s) as Hc.
  destruct (copy_files hash_new hash_update hexdigest F sf rf s) as [s1 r1].
  cbn [fst snd] in *. subst r1.
  pose proof (remove_files_returns rf sf s1) as Hr.
  destruct (remove_files F rf sf s1) as [s2 r2].
  cbn [fst snd] in *. subst r2. reflexivity.
Qed.

Lemma same_source_refl (fs : filesystem) : same_source fs fs.
Proof. reflexivity. Qed.

Lemma same_source_trans (a b c : filesystem) :
  same_source a b -> same_source b c -> same_source a c.
Proof. unfold same_source. congruence. Qed.

(** Everything the program changes lies below the replica folder. *)
Lemma synchronize_folders_confined :
  confined same_source on_replica (fun _ => True)
    (synchronize_folders hash_new hash_update hexdigest F Source Replica).
Proof.
  assert (Hemit : forall o, confined same_source on_replica (fun _ => True)
                              (fun s => (emit o s, Ok tt))).
  { intros o. now apply confined_emit. }
  unfold synchronize_folders.
  apply confined_try_except; try exact same_source_trans.
  - apply confined_bind; try exact same_source_trans.
    { apply confined_copy_files;
        try exact same_source_refl; try exact same_source_trans;
        try reflexivity; auto.
      - intros fs fs' p H. eapply makedirs_root_other; eauto. discriminate.
      - intros fs fs' r a p H. eapply copy2_root_other; eauto. discriminate. }
    intros _. apply confined_bind; try exact same_source_trans.
    { apply confined_remove_files;
        try exact same_source_refl; try exact same_source_trans;
        try reflexivity; auto.
      intros fs fs' p H. eapply remove_root_other; eauto. discriminate. }
    intros _. apply Hemit.
  - intros e. apply confined_bind; try exact same_source_trans.
    + apply Hemit.
    + intros _. apply Hemit.
Qed.

End Cycle.

(** * The claims *)

(** C7. In every cycle the copy phase is over before the delete phase
    begins: the cycle is the delete phase run from the state the copy
    phase left, followed by the completion record; the calls of the cycle
    are the copy calls ([os.makedirs], [shutil.copy2]) followed by the
    [os.remove] calls, and its output is an output without any deletion
    record followed by one without any copy record. *)
Theorem copies_precede_deletes (hasher : Type) (hash_new : hasher)
    (hash_update : hasher -> list byte -> hasher) (hexdigest : hasher -> string)
    (F : faults) (fs : filesystem) :
  run_cycle hash_new hash_update hexdigest F fs
  = emit (LogInfo SyncCompleted)
      (fst (remove_files F Replica Source
              (run_copy hash_new hash_update hexdigest F fs)))
  /\ exists cs2 os2,
       st_calls (run_cycle hash_new hash_update hexdigest F fs)
       = st_calls (run_copy hash_new hash_update hexdigest F fs) ++ cs2
       /\ Forall (fun c => is_copy_call c = true)
                 (st_calls (run_copy hash_new hash_update hexdigest F fs))
       /\ Forall (fun c => is_remove_call c = true) cs2
       /\ st_out (run_cycle hash_new hash_update hexdigest F fs)
          = st_out (run_copy hash_new hash_update hexdigest F fs)
            ++ os2 ++ [LogInfo SyncCompleted]
       /\ Forall (fun o => is_delete_event o = false)
                 (st_out (run_copy hash_new hash_update hexdigest F fs))
       /\ Forall (fun o => is_copy_event o = false) os2.
Proof.
  unfold run_cycle, run_copy. rewrite synchronize_folders_run. cbn [fst].
  split; [reflexivity|].
  destruct (copy_files hash_new hash_update hexdigest F Source Replica (initial fs))
    as [s1 r1] eqn:H1.
  cbn [fst].
  destruct (remove_files F Replica Source s1) as [s2 r2] eqn:H2. cbn [fst].
  assert (C1 : confined (fun _ _ => True) (fun c => is_copy_call c = true)
                 (fun o => is_delete_event o = false)
                 (copy_files hash_new hash_update hexdigest F Source Replica)).
  { apply confined_copy_files; auto. }
  assert (C2 : confined (fun _ _ => True) (fun c => is_remove_call c = true)
                 (fun o => is_copy_event o = false)
                 (remove_files F Replica Source)).
  { apply confined_remove_files; auto. }
  destruct (C1 _ _ _ H1) as (_ & cs1 & os1 & Hc1 & HP1 & Ho1 & HQ1).
  destruct (C2 _ _ _ H2) as (_ & cs2 & os2 & Hc2 & HP2 & Ho2 & HQ2).
  cbn [initial st_calls st_out app] in Hc1, Ho1.
  exists cs2, os2. cbn [emit st_calls st_out].
  rewrite Hc2, Ho2, Hc1, Ho1, <- app_assoc. repeat split; trivial.
Qed.

(** Every piece but the last one fills the buffer. *)
Lemma chunks_full (size : nat) (fuel : nat) :
  forall d, Forall (fun c => length c = size) (removelast (chunks fuel size d)).
Proof.
  induction fuel as [|fuel IH]; intros d; cbn [chunks]; [constructor|].
  destruct (firstn size d) as [|b c] eqn:E; [constructor|].
  specialize (IH (skipn size d)).
  destruct (chunks fuel size (skipn size d)) as [|c' cs] eqn:Ec; [constructor|].
  cbn [removelast] in *. constructor; [|exact IH].
  rewrite <- E, length_firstn. apply Nat.min_l.
  destruct (Nat.le_gt_cases size (length d)) as [Hle|Hgt]; trivial.
  rewrite skipn_all2 in Ec by lia. destruct fuel; [discriminate|].
  cbn [chunks] in Ec. rewrite firstn_nil in Ec. discriminate.
Qed.

(** C8. [calculate_hash] raises the [IOError] of a file that cannot be
    opened (missing, a directory, access denied) and of a read that fails
    before the end of the file; it does not handle it, so that its caller
    [are_files_different] raises the same exception, whichever of the two
    files it comes from.  When it returns, the digest is the one of a
    hasher fed with the content in pieces of at most [chunk_size] = 64 KiB,
    all full but the last one. *)
Theorem calculate_hash_raises_and_streams (hasher : Type) (hash_new : hasher)
    (hash_update : hasher -> list byte -> hasher) (hexdigest : hasher -> string)
    (F : faults) (s : state) (p q : path) :
  (forall e, open_rb F (st_fs s) p = Raise e ->
     calculate_hash hash_new hash_update hexdigest F p s = (s, Raise e))
  /\ (forall f o, open_rb F (st_fs s) p = Ok f ->
        bad_offset F p = Some o -> o < length (fo_data f) ->
        calculate_hash hash_new hash_update hexdigest F p s
        = (s, Raise (OSError EIO p)))
  /\ (forall e,
        calculate_hash hash_new hash_update hexdigest F p s = (s, Raise e) ->
        are_files_different hash_new hash_update hexdigest F p q s = (s, Raise e)
        /\ forall h,
             calculate_hash hash_new hash_update hexdigest F q s = (s, Ok h) ->
             are_files_different hash_new hash_update hexdigest F q p s
             = (s, Raise e))
  /\ (forall h,
        calculate_hash hash_new hash_update hexdigest F p s = (s, Ok h) ->
        exists d pieces,
          kind_at (st_fs s) p = KFile d
          /\ concat pieces = d
          /\ Forall (fun c => 0 < length c <= chunk_size) pieces
          /\ Forall (fun c => length c = chunk_size) (removelast pieces)
          /\ h = hexdigest (fold_left hash_update pieces hash_new))
  /\ N.of_nat chunk_size = (64 * 1024)%N.
Proof.
  split; [|split; [|split; [|split]]].
  - intros e He. unfold calculate_hash, bind, open_. now rewrite He.
  - intros f o Hf Ho Hlt. unfold calculate_hash, bind, open_. rewrite Hf.
    unfold open_rb in Hf.
    destruct (stat (st_fs s) p) as [[d|es]|]; try discriminate.
    destruct (open_denied F p); [discriminate|]. injection Hf as <-.
    cbn [fo_data] in *.
    rewrite (@hash_loop_bad hasher hash_update F p d s o Ho Hlt); trivial; lia.
  - intros e He. split.
    + unfold are_files_different, bind. now rewrite He.
    + intros h Hq. unfold are_files_different, bind. now rewrite Hq, He.
  - intros h Hh.
    destruct (kind_at (st_fs s) p) as [|d|] eqn:Hk;
      try (destruct (calculate_hash_raise hash_new hash_update hexdigest F p s)
             as [e He]; [congruence|rewrite He in Hh; discriminate]).
    destruct (readable F p d) eqn:Hr;
      [|destruct (calculate_hash_raise hash_new hash_update hexdigest F p s)
          as [e He]; [congruence|rewrite He in Hh; discriminate]].
    rewrite (calculate_hash_ok hash_new hash_update hexdigest F p s Hk Hr) in Hh.
    injection Hh as <-.
    exists d, (chunks (S (length d)) chunk_size d).
    split; [reflexivity|]. split; [apply chunks_concat; [apply chunk_size_pos|lia]|].
    split; [apply chunks_bounded|]. split; [apply chunks_full|reflexivity].
  - vm_compute. reflexivity.
Qed.

(** The source is a regular file, not a directory: [main] starts its loop
    all the same, and the first cycle empties the replica. *)
Lemma main_accepts_a_file_as_source :
  let fs := {| source_root := Some (File []);
               replica_root := Some (Dir [("old.txt"%string, File [x00])]) |} in
  isdir_b fs (Source, []) = false
  /\ main [] plain_update plain_digest no_faults 1 1 (initial fs)
     = ({| st_fs := {| source_root := Some (File []);
                       replica_root := Some (Dir []) |};
           st_out := [LogInfo (FileDeleted ["old.txt"%string]);
                      LogInfo SyncCompleted];
           st_calls := [SetupLogging;
                        Remove (Replica, ["old.txt"%string]);
                        Sleep 60] |},
        Ok Looping).
Proof. split; vm_compute; reflexivity. Qed.

(** ** Counting records *)

Lemma count_app (f : output -> bool) (a b : list output) :
  count f (a ++ b) = count f a + count f b.
Proof. unfold count. now rewrite filter_app, length_app. Qed.

Lemma count_none (f : output -> bool) (l : list output) :
  Forall (fun o => f o = false) l -> count f l = 0.
Proof.
  unfold count. induction 1 as [|o l Ho Hl IH]; simpl; trivial. now rewrite Ho.
Qed.

Section Loop.

Variable hasher : Type.
Variable hash_new : hasher.
Variable hash_update : hasher -> list byte -> hasher.
Variable hexdigest : hasher -> string.
Variable F : faults.

Lemma cycle_completes (s : state) :
  exists os,
    st_out (fst (synchronize_folders hash_new hash_update hexdigest F
                   Source Replica s))
    = st_out s ++ os ++ [LogInfo SyncCompleted]
    /\ Forall (fun o => is_completed o = false) os.
Proof.
  rewrite synchronize_folders_run. cbn [fst emit st_out].
  destruct (copy_files hash_new hash_update hexdigest F Source Replica s)
    as [s1 r1] eqn:H1.
  cbn [fst].
  destruct (remove_files F Replica Source s1) as [s2 r2] eqn:H2. cbn [fst].
  assert (C1 : confined (fun _ _ => True) (fun _ => True)
                 (fun o => is_completed o = false)
                 (copy_files hash_new hash_update hexdigest F Source Replica)).
  { apply confined_copy_files; auto. }
  assert (C2 : confined (fun _ _ => True) (fun _ => True)
                 (fun o => is_completed o = false)
                 (remove_files F Replica Source)).
  { apply confined_remove_files; auto. }
  destruct (C1 _ _ _ H1) as (_ & cs1 & os1 & _ & _ & Ho1 & HQ1).
  destruct (C2 _ _ _ H2) as (_ & cs2 & os2 & _ & _ & Ho2 & HQ2).
  exists (os1 ++ os2). rewrite Ho2, Ho1, <- !app_assoc.
  split; [reflexivity|]. now apply Forall_app.
Qed.

(** [cycles] iterations of the loop of [main] complete [cycles] cycles. *)
Lemma loop_completes (interval cycles : nat) :
  forall s,
    exists s' cs,
      while_true cycles
        (synchronize_folders hash_new hash_update hexdigest F Source Replica ;;
         time_sleep (interval * 60)) s = (s', Ok tt)
      /\ st_calls s' = st_calls s ++ cs
      /\ count is_completed (st_out s') = cycles + count is_completed (st_out s).
Proof.
  induction cycles as [|n IH]; intros s.
  - exists s, []. rewrite app_nil_r. auto.
  - destruct (cycle_completes s) as (os & Hos & Hno).
    destruct (@synchronize_folders_confined hasher hash_new hash_update hexdigest F
                s _ _ (surjective_pairing _))
      as (_ & cs1 & _ & Hc1 & _).
    assert (Hs1 : synchronize_folders hash_new hash_update hexdigest F
                    Source Replica s
                  = (fst (synchronize_folders hash_new hash_update hexdigest F
                            Source Replica s), Ok tt)).
    { now rewrite synchronize_folders_run. }
    set (s1 := fst (synchronize_folders hash_new hash_update hexdigest F
                      Source Replica s)) in *.
    cbn [while_true]. unfold bind at 1. unfold bind at 1. rewrite Hs1.
    unfold time_sleep.
    destruct (IH (note (Sleep (interval * 60)) s1)) as (s' & cs & Hrun & Hcs & Hcount).
    exists s', (cs1 ++ Sleep (interval * 60) :: cs).
    split; [exact Hrun|]. split.
    + rewrite Hcs. cbn [note st_calls]. rewrite Hc1, <- !app_assoc. reflexivity.
    + rewrite Hcount. cbn [note st_out]. rewrite Hos, !count_app.
      rewrite (count_none _ Hno). cbn. lia.
Qed.

End Loop.

(** C9 (amended). At startup each of the source and the replica path must
    exist; when one of them does not, [main] prints its message and returns
    without any call and without any cycle.  When both exist, whatever they
    are, [main] sets up logging and runs its loop: after [cycles] iterations
    it has completed [cycles] cycles and has not returned. *)
Theorem main_checks_that_the_folders_exist (hasher : Type) (hash_new : hasher)
    (hash_update : hasher -> list byte -> hasher) (hexdigest : hasher -> string)
    (F : faults) (interval cycles : nat) (fs : filesystem) :
  (exists_b fs (Source, []) = false ->
   main hash_new hash_update hexdigest F interval cycles (initial fs)
   = ({| st_fs := fs; st_out := [Print SourceMissing]; st_calls := [] |},
      Ok Returned))
  /\ (exists_b fs (Source, []) = true -> exists_b fs (Replica, []) = false ->
      main hash_new hash_update hexdigest F interval cycles (initial fs)
      = ({| st_fs := fs; st_out := [Print ReplicaMissing]; st_calls := [] |},
         Ok Returned))
  /\ (exists_b fs (Source, []) = true -> exists_b fs (Replica, []) = true ->
      snd (main hash_new hash_update hexdigest F interval cycles (initial fs))
      = Ok Looping
      /\ hd_error (st_calls (run_main hash_new hash_update hexdigest F
                               interval cycles fs)) = Some SetupLogging
      /\ count is_completed
           (st_out (run_main hash_new hash_update hexdigest F interval cycles fs))
         = cycles).
Proof.
  unfold run_main, main, bind, os_path_exists, print, setup_logging, ret.
  cbn [initial st_fs].
  split; [|split].
  - intros ->. reflexivity.
  - intros H1 H2. rewrite H1. cbn [negb st_fs initial]. rewrite H2. reflexivity.
  - intros H1 H2. rewrite H1. cbn [negb st_fs initial]. rewrite H2. cbn [negb].
    destruct (loop_completes hash_new hash_update hexdigest F interval cycles
                (note SetupLogging (initial fs)))
      as (s' & cs & Hrun & Hcs & Hcount).
    unfold bind in Hrun. rewrite Hrun. cbn [fst snd].
    split; [reflexivity|]. split.
    + rewrite Hcs. reflexivity.
    + rewrite Hcount. cbn. lia.
Qed.

Lemma count_map_in (f : output -> bool) (g : relpath -> output) (p : relpath)
      (l : list relpath) :
  (forall q, f (g q) = relpath_eqb q p) ->
  (~ In p l -> count f (map g l) = 0)
  /\ (NoDup l -> In p l -> count f (map g l) = 1).
Proof.
  intros Hf. unfold count.
  assert (H0 : forall l, ~ In p l -> length (filter f (map g l)) = 0).
  { clear l. induction l as [|q l IH]; intros Hp; trivial. cbn [map filter].
    rewrite Hf. destruct (relpath_eqb_spec q p) as [->|Hq].
    - elim Hp. now left.
    - apply IH. intros Hin. apply Hp. now right. }
  split; [apply H0|].
  induction l as [|q l IH]; intros Hnd Hp; [contradiction|].
  apply NoDup_cons_iff in Hnd as [Hq Hnd]. cbn [map filter]. rewrite Hf.
  destruct (relpath_eqb_spec q p) as [->|Hqp].
  - cbn [length]. now rewrite H0.
  - destruct Hp as [->|Hp]; [congruence|auto].
Qed.

Lemma count_map_none (f : output -> bool) (g : relpath -> output)
      (l : list relpath) :
  (forall q, f (g q) = false) -> count f (map g l) = 0.
Proof.
  intros Hf. apply count_none. apply Forall_forall. intros o Ho.
  apply in_map_iff in Ho as (q & <- & _). apply Hf.
Qed.

Lemma count_report (f : output -> bool) (mk : exn -> message) (err : option exn) :
  (forall m, f (Print m) = false) -> (forall e, f (LogError (mk e)) = false) ->
  count f (report mk err) = 0.
Proof.
  intros H1 H2. destruct err as [e|]; trivial. unfold count. cbn [report filter].
  now rewrite H1, H2.
Qed.

Lemma kind_at_exists_root (fs : filesystem) (f : folder) (p : relpath) :
  kind_at fs (f, p) <> KNone -> exists_b fs (f, []) = true.
Proof.
  unfold kind_at, exists_b, stat. simpl.
  destruct (root_of fs f); trivial. intros H. now elim H.
Qed.

Section Survival.

Variable hasher : Type.
Variable hash_new : hasher.
Variable hash_update : hasher -> list byte -> hasher.
Variable hexdigest : hasher -> string.
Variable F : faults.

(** A replica file whose path exists in the source is still a file after
    the cycle, with its old content when the source path is not a regular
    file, and the cycle logs no deletion of it. *)
Lemma replica_file_kept (s : state) (p : relpath) (d : list byte) :
  wf_fs (st_fs s) = true ->
  kind_at (st_fs s) (Replica, p) = KFile d ->
  orphan (st_fs s) p = false ->
  wf_fs (st_fs (fst (synchronize_folders hash_new hash_update hexdigest F
                       Source Replica s))) = true
  /\ root_of (st_fs (fst (synchronize_folders hash_new hash_update hexdigest F
                            Source Replica s))) Source
     = root_of (st_fs s) Source
  /\ (exists d',
        kind_at (st_fs (fst (synchronize_folders hash_new hash_update hexdigest F
                               Source Replica s))) (Replica, p) = KFile d'
        /\ ((forall a, kind_at (st_fs s) (Source, p) <> KFile a) -> d' = d))
  /\ count (is_deleted p)
       (st_out (fst (synchronize_folders hash_new hash_update hexdigest F
                       Source Replica s)))
     = count (is_deleted p) (st_out s).
Proof.
  intros Hwf Kp Hor. rewrite synchronize_folders_run. cbn [fst emit st_fs st_out].
  destruct (copy_files_spec hash_new hash_update hexdigest F s Hwf)
    as (s1 & l1 & l2 & cs & ec & Hrun1 & Hl & Hec & Hroot1 & Hwf1 & Hout1
        & Hdone & Hrest & _).
  rewrite Hrun1. cbn [fst].
  destruct (remove_files_spec F s1 Hwf1)
    as (s2 & m1 & m2 & er & Hrun2 & Hm & Her & _ & Hroot2 & Hwf2 & Hout2
        & _ & _ & Hkept).
  rewrite Hrun2. cbn [fst].
  assert (Hor1 : orphan (st_fs s1) p = false)
    by (now rewrite (orphan_same_root _ _ p Hroot1)).
  assert (K2 : kind_at (st_fs s2) (Replica, p) = kind_at (st_fs s1) (Replica, p)).
  { apply Hkept. intros [_ H]. congruence. }
  assert (K1 : exists d', kind_at (st_fs s1) (Replica, p) = KFile d'
                          /\ ((forall a, kind_at (st_fs s) (Source, p) <> KFile a)
                              -> d' = d)).
  { destruct (in_dec (list_eq_dec string_dec) p l1) as [Hin|Hnin].
    - destruct (files_under_kind _ Source p Hwf) as (_ & a & Ka).
      { rewrite Hl. apply in_or_app. now left. }
      destruct (Hdone p Hin) as (_ & E). rewrite E.
      destruct (stale hash_new hash_update hexdigest (st_fs s) p).
      + eexists. split; [reflexivity|]. intros H. now elim (H a).
      + exists d. split; [exact Kp|trivial].
    - destruct (Hrest p Hnin) as [E|[(E & _)|(E & _ & part & Epart)]].
      + exists d. split; [congruence|trivial].
      + congruence.
      + exists part. split; [exact Epart|]. intros H.
        destruct (files_under_kind _ Source p Hwf) as (_ & a & Ka).
        { rewrite Hl. apply in_or_app. right. destruct l2; [discriminate|].
          injection E as ->. now left. }
        now elim (H a). }
  split; [exact Hwf2|]. split; [congruence|]. split.
  { destruct K1 as (d' & E & Hd'). exists d'. split; [congruence|exact Hd']. }
  rewrite Hout2, Hout1, !count_app.
  rewrite (count_map_none (is_deleted p)) by reflexivity.
  rewrite (count_report (is_deleted p)) by reflexivity.
  rewrite (count_report (is_deleted p)) by reflexivity.
  rewrite (proj1 (count_map_in (is_deleted p)
                    (fun q => LogInfo (FileDeleted q)) p
                    (filter (orphan (st_fs s1)) m1) (fun q => eq_refl))).
  - cbn. lia.
  - intros Hin. apply filter_In in Hin as [_ Hin]. congruence.
Qed.

End Survival.

Section SurvivalLoop.

Variable hasher : Type.
Variable hash_new : hasher.
Variable hash_update : hasher -> list byte -> hasher.
Variable hexdigest : hasher -> string.
Variable F : faults.

Lemma orphan_of_dir (fs : filesystem) (p : relpath) :
  kind_at fs (Source, p) = KDir -> orphan fs p = false.
Proof. unfold orphan. rewrite exists_b_kind. now intros ->. Qed.

Lemma loop_keeps_shadowed (interval : nat) (p : relpath) (d : list byte)
      (cycles : nat) :
  forall s,
    wf_fs (st_fs s) = true ->
    kind_at (st_fs s) (Replica, p) = KFile d ->
    kind_at (st_fs s) (Source, p) = KDir ->
    exists s',
      while_true cycles
        (synchronize_folders hash_new hash_update hexdigest F Source Replica ;;
         time_sleep (interval * 60)) s = (s', Ok tt)
      /\ kind_at (st_fs s') (Replica, p) = KFile d
      /\ count (is_deleted p) (st_out s') = count (is_deleted p) (st_out s).
Proof.
  induction cycles as [|n IH]; intros s Hwf Kr Ks.
  - exists s. auto.
  - destruct (replica_file_kept hash_new hash_update hexdigest F s p Hwf Kr
                (orphan_of_dir _ _ Ks))
      as (Hwf1 & Hroot1 & (d' & Kr1 & Hd') & Hcount1).
    rewrite Hd' in Kr1 by (intros a; congruence).
    assert (Hs1 : synchronize_folders hash_new hash_update hexdigest F
                    Source Replica s
                  = (fst (synchronize_folders hash_new hash_update hexdigest F
                            Source Replica s), Ok tt)).
    { now rewrite synchronize_folders_run. }
    set (s1 := fst (synchronize_folders hash_new hash_update hexdigest F
                      Source Replica s)) in *.
    destruct (IH (note (Sleep (interval * 60)) s1)) as (s' & Hrun & Kr' & Hcount');
      trivial.
    { cbn [note st_fs]. now rewrite (kind_at_same_root _ _ _ p Hroot1). }
    exists s'. cbn [while_true]. unfold bind at 1. unfold bind at 1.
    rewrite Hs1. unfold time_sleep. split; [exact Hrun|]. split; [exact Kr'|].
    rewrite Hcount'. exact Hcount1.
Qed.

End SurvivalLoop.

(** C10. A replica file at whose relative path the source holds a
    directory is not an orphan for [remove_files], whose test is
    [os.path.exists]: it is still there, with its content, after any number
    of cycles of [main], and no deletion of it is ever logged. *)
Theorem shadowed_replica_file_survives (hasher : Type) (hash_new : hasher)
    (hash_update : hasher -> list byte -> hasher) (hexdigest : hasher -> string)
    (F : faults) (interval cycles : nat) (fs : filesystem) (p : relpath)
    (d : list byte) :
  wf_fs fs = true ->
  kind_at fs (Replica, p) = KFile d ->
  kind_at fs (Source, p) = KDir ->
  orphan fs p = false
  /\ snd (main hash_new hash_update hexdigest F interval cycles (initial fs))
     = Ok Looping
  /\ kind_at (st_fs (run_main hash_new hash_update hexdigest F interval cycles fs))
       (Replica, p) = KFile d
  /\ count (is_deleted p)
       (st_out (run_main hash_new hash_update hexdigest F interval cycles fs)) = 0.
Proof.
  intros Hwf Kr Ks. split; [now apply orphan_of_dir|].
  unfold run_main, main, bind, os_path_exists, setup_logging, ret.
  cbn [initial st_fs].
  rewrite (kind_at_exists_root fs Source p) by congruence.
  cbn [negb st_fs initial].
  rewrite (kind_at_exists_root fs Replica p) by congruence.
  cbn [negb].
  destruct (@loop_keeps_shadowed hasher hash_new hash_update hexdigest F interval
              p d cycles (note SetupLogging (initial fs)) Hwf Kr Ks)
    as (s' & Hrun & Kr' & Hcount).
  unfold bind in Hrun. rewrite Hrun. cbn [fst snd]. auto.
Qed.

Lemma shadowed_replica_file_survives_witness :
  let fs := {| source_root := Some (Dir [("keep"%string, Dir [])]);
               replica_root := Some (Dir [("keep"%string, File [x01; x02])]) |} in
  orphan fs ["keep"%string] = false
  /\ snd (main [] plain_update plain_digest no_faults 1 3 (initial fs))
     = Ok Looping
  /\ kind_at (st_fs (run_main [] plain_update plain_digest no_faults 1 3 fs))
       (Replica, ["keep"%string]) = KFile [x01; x02]
  /\ count (is_deleted ["keep"%string])
       (st_out (run_main [] plain_update plain_digest no_faults 1 3 fs)) = 0.
Proof.
  intros fs.
  apply (@shadowed_replica_file_survives (list byte) [] plain_update plain_digest
           no_faults 1 3 fs ["keep"%string] [x01; x02]);
    vm_compute; reflexivity.
Defined.





(** ** A cycle without error *)

Lemma no_error_app (a b : list output) :
  no_error (a ++ b) = no_error a && no_error b.
Proof. apply forallb_app. Qed.

Lemma no_error_report (mk : exn -> message) (err : option exn) :
  no_error (report mk err) = true -> err = None.
Proof. destruct err; [discriminate|reflexivity]. Qed.

Section CleanCycle.

Variable hasher : Type.
Variable hash_new : hasher.
Variable hash_update : hasher -> list byte -> hasher.
Variable hexdigest : hasher -> string.
Variable F : faults.

Local Abbreviation stale_ := (stale hash_new hash_update hexdigest).
Local Abbreviation cycle_ := (run_cycle hash_new hash_update hexdigest F).

(** After a cycle without error the replica holds, at the path of each
    source file, the source content if the file was stale and what it held
    otherwise; elsewhere it holds the files it held, except the orphans. *)
Lemma clean_cycle (fs : filesystem) :
  wf_fs fs = true ->
  no_error (st_out (cycle_ fs)) = true ->
  wf_fs (st_fs (cycle_ fs)) = true
  /\ same_source fs (st_fs (cycle_ fs))
  /\ (forall p, In p (files_under fs Source) ->
        kind_at fs (Replica, p) <> KDir
        /\ kind_at (st_fs (cycle_ fs)) (Replica, p)
           = if stale_ fs p then KFile (data_at fs (Source, p))
             else kind_at fs (Replica, p))
  /\ (forall q d, ~ In q (files_under fs Source) -> q <> [] ->
        (kind_at (st_fs (cycle_ fs)) (Replica, q) = KFile d
         <-> kind_at fs (Replica, q) = KFile d /\ orphan fs q = false)).
Proof.
  intros Hwf. unfold run_cycle. rewrite synchronize_folders_run.
  cbn [fst emit st_fs st_out].
  destruct (copy_files_spec hash_new hash_update hexdigest F (initial fs) Hwf)
    as (s1 & l1 & l2 & cs & ec & Hrun1 & Hl & Hec & Hroot1 & Hwf1 & Hout1
        & Hdone & Hrest & _).
  rewrite Hrun1. cbn [fst].
  destruct (remove_files_spec F s1 Hwf1)
    as (s2 & m1 & m2 & er & Hrun2 & Hm & Her & _ & Hroot2 & Hwf2 & Hout2
        & _ & Hgone & Hkept).
  rewrite Hrun2. cbn [fst]. cbn [initial st_fs st_out app] in *.
  rewrite Hout2, Hout1, !no_error_app. intros Hne.
  apply andb_prop in Hne as [Hne _]. apply andb_prop in Hne as [Ha Hb].
  apply andb_prop in Ha as [_ Ha]. apply andb_prop in Hb as [_ Hb].
  apply no_error_report in Ha, Hb. subst ec er.
  assert (l2 = []) by now apply Hec.
  assert (m2 = []) by now apply Her.
  subst l2 m2. rewrite app_nil_r in *.
  assert (Hor1 : forall q, orphan (st_fs s1) q = orphan fs q)
    by (intros q; now apply orphan_same_root).
  split; [exact Hwf2|]. split; [unfold same_source; congruence|]. split.
  - intros p Hp. rewrite Hl in Hp. destruct (Hdone p Hp) as [Hnd E].
    split; [exact Hnd|]. rewrite <- E. apply Hkept. intros [_ Ho].
    rewrite Hor1 in Ho. rewrite <- Hl in Hp.
    destruct (files_under_kind fs Source p Hwf Hp) as (_ & a & Ka).
    revert Ho. unfold orphan. rewrite exists_b_kind, Ka. discriminate.
  - intros q d Hq Hne'. rewrite Hl in Hq.
    assert (K1 : kind_at (st_fs s1) (Replica, q) = KFile d
                 <-> kind_at fs (Replica, q) = KFile d).
    { destruct (Hrest q Hq) as [E|[(E1 & E2 & _)|(E & _)]].
      - now rewrite E.
      - rewrite E1, E2. split; discriminate.
      - discriminate. }
    split.
    + intros K2. destruct (orphan fs q) eqn:Ho.
      * assert (Hk : kind_at (st_fs s1) (Replica, q) = KFile d).
        { rewrite <- Hkept; trivial. intros [Hin _].
          rewrite (Hgone q Hin) in K2 by now rewrite Hor1. discriminate. }
        exfalso. rewrite (Hgone q) in K2; [discriminate| |now rewrite Hor1].
        rewrite <- Hm. eapply kind_files_under; eauto.
      * split; trivial. apply K1. rewrite <- Hkept; trivial.
        intros [_ Ho']. rewrite Hor1 in Ho'. congruence.
    + intros [K0 Ho]. rewrite Hkept; [now apply K1|].
      intros [_ Ho']. rewrite Hor1 in Ho'. congruence.
Qed.

End CleanCycle.

Lemma bytes_eqb_eq (a b : list byte) : bytes_eqb a b = true -> a = b.
Proof.
  revert b. induction a as [|x a IH]; intros [|y b]; simpl; try discriminate;
    trivial.
  intros H. apply andb_prop in H as [Hx Hab].
  apply Byte.byte_dec_bl in Hx as ->. f_equal. auto.
Qed.

Lemma clear_of_dirs_spec (fs : filesystem) (p : relpath) :
  clear_of_dirs fs = true -> In p (files_under fs Replica) ->
  kind_at fs (Source, p) <> KDir.
Proof.
  unfold clear_of_dirs. rewrite forallb_forall. intros H Hp.
  specialize (H p Hp). unfold isdir_b, kind_at in *.
  destruct (stat fs (Source, p)) as [[d|es]|]; discriminate.
Qed.

Section Convergence.

Variable hasher : Type.
Variable hash_new : hasher.
Variable hash_update : hasher -> list byte -> hasher.
Variable hexdigest : hasher -> string.
Variable F : faults.

Lemma collision_free_spec (fs : filesystem) (p : relpath) (b : list byte) :
  collision_free hash_new hash_update hexdigest fs = true ->
  In p (files_under fs Source) ->
  kind_at fs (Replica, p) = KFile b ->
  stale hash_new hash_update hexdigest fs p = false ->
  data_at fs (Source, p) = b.
Proof.
  unfold collision_free, stale. rewrite forallb_forall. intros H Hp Kb.
  specialize (H p Hp). rewrite Kb in H |- *. cbn [needs_copy].
  intros Hs. apply negb_false_iff in Hs. rewrite Hs in H.
  now apply bytes_eqb_eq.
Qed.

End Convergence.




(** ** A cycle with nothing to do *)

Lemma files_under_same_root (fs fs' : filesystem) (f : folder) :
  root_of fs' f = root_of fs f -> files_under fs' f = files_under fs f.
Proof. unfold files_under. now intros ->. Qed.

Lemma filter_none {A : Type} (f : A -> bool) (l : list A) :
  (forall x, In x l -> f x = false) -> filter f l = [].
Proof.
  induction l as [|x l IH]; intros H; trivial. cbn [filter].
  rewrite (H x (or_introl eq_refl)). apply IH. intros y Hy. apply H. now right.
Qed.

Section Idempotence.

Variable hasher : Type.
Variable hash_new : hasher.
Variable hash_update : hasher -> list byte -> hasher.
Variable hexdigest : hasher -> string.
Variable F : faults.

Local Abbreviation stale_ := (stale hash_new hash_update hexdigest).
Local Abbreviation cycle_ := (run_cycle hash_new hash_update hexdigest F).


End Idempotence.



(** ** A failing file *)




(** * Further properties of the program *)

Lemma filter_all {A : Type} (f : A -> bool) (l : list A) :
  (forall x, In x l -> f x = true) -> filter f l = l.
Proof.
  induction l as [|a l IH]; intros H; cbn [filter]; trivial.
  rewrite (H a (or_introl eq_refl)), IH; trivial. intros x Hx. apply H. now right.
Qed.

(** ** The listing of the replica during the copy phase *)

Lemma filter_map_cons (P : relpath -> bool) (x : name) (l : list relpath) :
  filter P (map (cons x) l) = map (cons x) (filter (fun q => P (x :: q)) l).
Proof.
  induction l as [|q l IH]; cbn [map filter]; trivial.
  destruct (P (x :: q)); cbn [map]; now rewrite IH.
Qed.

Lemma set_entry_new (x : name) (c : node) (es : list (name * node)) :
  entry x es = None -> set_entry x c es = es ++ [(x, c)].
Proof.
  induction es as [|[y c0] es IH]; cbn [entry set_entry app]; trivial.
  destruct (String.eqb x y); [discriminate|]. intros H. now rewrite IH.
Qed.

Lemma filenames_app (a b : list (name * node)) :
  filenames (a ++ b) = filenames a ++ filenames b.
Proof.
  induction a as [|[y [d|es0]] a IH]; cbn [app filenames]; trivial.
  now rewrite IH.
Qed.

Lemma file_paths_fresh_dirs (p : relpath) : file_paths (fresh_dirs p) = [].
Proof.
  induction p as [|x p IH]; [reflexivity|].
  cbn [fresh_dirs]. rewrite file_paths_Dir.
  assert (Hf : filenames [(x, fresh_dirs p)] = []) by (now destruct p).
  rewrite Hf. cbn [map flat_map fst snd app]. now rewrite IH.
Qed.

(** Replacing an entry by a node of the same sort leaves the names of the
    files of the directory as they were. *)
Lemma filenames_set_entry (x : name) (c c' : node) (es : list (name * node)) :
  entry x es = Some c ->
  match c, c' with
  | File _, File _ => True
  | Dir _, Dir _ => True
  | _, _ => False
  end ->
  filenames (set_entry x c' es) = filenames es.
Proof.
  induction es as [|[y c0] es IH]; cbn [entry set_entry]; [discriminate|].
  destruct (String.eqb_spec x y) as [->|Hxy].
  - intros [= ->] Hs. cbn [filenames]. now destruct c, c'.
  - intros H Hs. cbn [filenames]. now rewrite (IH H Hs).
Qed.

Lemma sub_paths_set_entry (P : relpath -> bool) (x : name) (c c' : node)
      (es : list (name * node)) :
  entry x es = Some c ->
  filter P (map (cons x) (file_paths c'))
  = filter P (map (cons x) (file_paths c)) ->
  filter P (flat_map (fun e => map (cons (fst e)) (file_paths (snd e)))
              (set_entry x c' es))
  = filter P (flat_map (fun e => map (cons (fst e)) (file_paths (snd e))) es).
Proof.
  induction es as [|[y c0] es IH]; cbn [entry set_entry]; [discriminate|].
  destruct (String.eqb_spec x y) as [->|Hxy].
  - intros [= ->] Hc. cbn [flat_map fst snd]. rewrite !filter_app.
    f_equal. exact Hc.
  - intros H Hc. cbn [flat_map fst snd]. rewrite !filter_app.
    f_equal. exact (IH H Hc).
Qed.

(** [os.makedirs] adds no regular file and moves none in the listing. *)
Lemma file_paths_mkdirs (who : path) (p : relpath) :
  forall (n n' : node), mkdirs who n p = Ok n' -> file_paths n' = file_paths n.
Proof.
  induction p as [|x p IH]; intros n n' H; cbn [mkdirs] in H.
  - destruct n; [discriminate|]. now injection H as <-.
  - destruct n as [d|es]; [discriminate|].
    destruct (entry x es) as [c|] eqn:Ex.
    + destruct (mkdirs who c p) as [c'|e] eqn:Hc; [|discriminate].
      injection H as <-. pose proof (IH c c' Hc) as Hfp.
      assert (Hsort : match c, c' with
                      | File _, File _ => True
                      | Dir _, Dir _ => True
                      | _, _ => False
                      end).
      { destruct p; cbn [mkdirs] in Hc; destruct c as [d|es0];
          try discriminate.
        - now injection Hc as <-.
        - destruct (entry n es0) as [c1|];
            [destruct (mkdirs who c1 p); [|discriminate]|];
            now injection Hc as <-. }
      rewrite !file_paths_Dir, (@filenames_set_entry x c c' es Ex Hsort).
      f_equal.
      pose proof (@sub_paths_set_entry (fun _ => true) x c c' es Ex) as Hsub.
      rewrite !filter_all in Hsub by reflexivity.
      apply Hsub. now rewrite Hfp.
    + injection H as <-. rewrite (@set_entry_new x _ es Ex), !file_paths_Dir.
      rewrite filenames_app, flat_map_app.
      assert (Hf : filenames [(x, fresh_dirs p)] = [])
        by (now destruct p).
      rewrite Hf. cbn [flat_map fst snd]. rewrite file_paths_fresh_dirs.
      cbn [map app]. now rewrite !app_nil_r.
Qed.

Lemma files_under_makedirs (fs fs' : filesystem) (f g : folder) (p : relpath) :
  makedirs fs (f, p) = Ok fs' -> files_under fs' g = files_under fs g.
Proof.
  intros H. unfold files_under.
  destruct (folder_eqb_spec g f) as [->|Hgf].
  - revert H. unfold makedirs. cbn [fst snd].
    destruct (root_of fs f) as [n|] eqn:Hr.
    + destruct (mkdirs (f, p) n p) as [n'|e] eqn:Hm; [|discriminate].
      intros [= <-]. rewrite root_of_set_root.
      destruct (folder_eqb_spec f f) as [_|Hff]; [|congruence].
      eapply file_paths_mkdirs; eauto.
    + intros [= <-]. rewrite root_of_set_root.
      destruct (folder_eqb_spec f f) as [_|Hff]; [|congruence].
      apply file_paths_fresh_dirs.
  - now rewrite (@makedirs_root_other fs fs' (f, p) g H Hgf).
Qed.

(** Writing a regular file moves no other file in the listing: the file
    is replaced in place, or it is added to its directory. *)
Lemma file_paths_write_node (who : path) (d : list byte) (p : relpath) :
  forall (n n' : node) (P : relpath -> bool),
    write_node who n p d = Ok n' -> P p = false ->
    filter P (file_paths n') = filter P (file_paths n).
Proof.
  induction p as [|x p IH]; intros n n' P H HP; cbn [write_node] in H.
  - destruct n; [|discriminate]. now injection H as <-.
  - destruct n as [d0|es]; [discriminate|].
    destruct (entry x es) as [c|] eqn:Ex.
    + destruct (write_node who c p d) as [c'|e] eqn:Hc; [|discriminate].
      injection H as <-.
      assert (Hsort : match c, c' with
                      | File _, File _ => True
                      | Dir _, Dir _ => True
                      | _, _ => False
                      end).
      { destruct p; cbn [write_node] in Hc; destruct c as [d1|es0];
          try discriminate.
        - now injection Hc as <-.
        - destruct (entry n es0) as [c1|];
            [destruct (write_node who c1 p d); [|discriminate]
            |destruct p; [|discriminate]];
            now injection Hc as <-. }
      rewrite !file_paths_Dir, (@filenames_set_entry x c c' es Ex Hsort).
      rewrite !filter_app. f_equal.
      apply (@sub_paths_set_entry P x c c' es Ex).
      rewrite !filter_map_cons. f_equal.
      now apply (IH c c' (fun q => P (x :: q)) Hc).
    + destruct p; [|discriminate]. injection H as <-.
      rewrite (@set_entry_new x _ es Ex), !file_paths_Dir.
      rewrite filenames_app, flat_map_app. cbn [filenames flat_map fst snd file_paths].
      cbn [map app]. rewrite !app_nil_r, map_app, !filter_app.
      cbn [map filter]. rewrite HP. cbn [app]. now rewrite app_nil_r.
Qed.

Lemma files_under_write_file (fs fs' : filesystem) (f g : folder) (p : relpath)
      (d : list byte) (P : relpath -> bool) :
  write_file fs (f, p) d = Ok fs' -> P p = false ->
  filter P (files_under fs' g) = filter P (files_under fs g).
Proof.
  intros H HP. unfold files_under.
  destruct (folder_eqb_spec g f) as [->|Hgf].
  - revert H. unfold write_file. cbn [fst snd].
    destruct (root_of fs f) as [n|] eqn:Hr.
    + destruct (write_node (f, p) n p d) as [n'|e] eqn:Hm; [|discriminate].
      intros [= <-]. rewrite root_of_set_root.
      destruct (folder_eqb_spec f f) as [_|Hff]; [|congruence].
      eapply file_paths_write_node; eauto.
    + destruct p; [|discriminate]. intros [= <-]. rewrite root_of_set_root.
      destruct (folder_eqb_spec f f) as [_|Hff]; [|congruence]. reflexivity.
  - now rewrite (@write_file_root_other fs fs' (f, p) d g H Hgf).
Qed.

(** ** What stands in the way of a copy *)

Lemma ancestors_snoc (pp : relpath) (x : name) :
  forall q, In q (ancestors (pp ++ [x])) <-> prefixb q pp = true.
Proof.
  induction pp as [|a pp IH]; intros q; cbn [app ancestors map In].
  - destruct q; cbn [prefixb]; split; auto; try discriminate.
    intros [H|[]]. discriminate.
  - destruct q as [|y q]; cbn [prefixb]; [split; auto|].
    rewrite in_map_iff. split.
    + intros [H|(q' & [= <- <-] & Hq')]; [discriminate|].
      rewrite String.eqb_refl. now apply IH.
    + intros H. apply andb_prop in H as [Hy Hq].
      apply String.eqb_eq in Hy as ->. right. exists q. split; trivial.
      now apply IH.
Qed.

Lemma isfile_b_kind (fs : filesystem) (p : path) :
  isfile_b fs p = match kind_at fs p with KFile _ => true | _ => false end.
Proof. unfold isfile_b, kind_at. now destruct (stat fs p) as [[d|es]|]. Qed.

Lemma isdir_b_kind (fs : filesystem) (p : path) :
  isdir_b fs p = match kind_at fs p with KDir => true | _ => false end.
Proof. unfold isdir_b, kind_at. now destruct (stat fs p) as [[d|es]|]. Qed.

(** [os.makedirs] succeeds unless a regular file sits at the directory or
    above it. *)
Lemma makedirs_is_ok (fs : filesystem) (f : folder) (pp : relpath) (x : name) :
  is_ok (makedirs fs (f, pp))
  = negb (existsb (fun q => isfile_b fs (f, q)) (ancestors (pp ++ [x]))).
Proof.
  destruct (makedirs fs (f, pp)) as [fs1|e] eqn:Hmk; cbn [is_ok].
  - symmetry. apply negb_true_iff.
    destruct (existsb _ _) eqn:E; trivial. exfalso.
    apply existsb_exists in E as (q & Hq & Hf). apply ancestors_snoc in Hq.
    rewrite isfile_b_kind in Hf.
    pose proof (kind_at_makedirs _ _ _ Hmk f q) as K1.
    destruct (folder_eqb_spec f f) as [_|Hff]; [|congruence].
    rewrite Hq in K1. cbn [andb] in K1.
    destruct (makedirs_frame _ _ _ Hmk q) as [E1|(E1 & _)];
      rewrite E1 in *; [rewrite K1 in Hf|]; discriminate.
  - symmetry. apply negb_false_iff. apply existsb_exists.
    destruct (makedirs_raise _ _ _ Hmk) as (q & d & Hq & Kq).
    exists q. split; [now apply ancestors_snoc|].
    rewrite isfile_b_kind, Kq. reflexivity.
Qed.

(** ** What a copy leaves in the target *)

Lemma read_all_prefix (F : faults) (p : path) (d : list byte) :
  forall fuel pos acc out e,
    read_all F fuel {| fo_name := p; fo_data := d; fo_pos := pos |} acc = (out, e) ->
    exists rest, acc ++ skipn pos d = out ++ rest.
Proof.
  induction fuel as [|fuel IH]; intros pos acc out e H; cbn [read_all] in H.
  - injection H as <- <-. eauto.
  - unfold file_read in H. cbn [fo_name fo_data fo_pos] in H.
    set (buf := firstn COPY_BUFSIZE (skipn pos d)) in *.
    assert (Hsplit : acc ++ skipn pos d
                     = (acc ++ buf) ++ skipn (pos + length buf) d).
    { rewrite <- app_assoc. f_equal. unfold buf.
      rewrite Nat.add_comm, <- skipn_skipn, skipn_firstn_length.
      symmetry. apply firstn_skipn. }
    assert (Hok : match buf with
                  | [] => (acc, None)
                  | _ :: _ =>
                      read_all F fuel
                        {| fo_name := p; fo_data := d; fo_pos := pos + length buf |}
                        (acc ++ buf)
                  end = (out, e) ->
                  exists rest, acc ++ skipn pos d = out ++ rest).
    { destruct buf as [|b buf'] eqn:Eb.
      - intros [= <- <-]. eauto.
      - intros H'. apply IH in H' as [rest Hrest]. exists rest.
        now rewrite Hsplit. }
    destruct (bad_offset F p) as [o|]; [|now apply Hok].
    destruct ((pos <=? o) && (o <? pos + length buf)); [|now apply Hok].
    injection H as <- <-. eauto.
Qed.

(** [shutil.copy2] on a target that is not a directory and whose directory
    exists: the whole content is written, or the copy raises and leaves the
    target as it was or holding the first bytes of the content. *)
Lemma copy2_cases (F : faults) (fs : filesystem) (src : path) (g : folder)
      (pp : relpath) (x : name) (d : list byte) :
  kind_at fs src = KFile d ->
  kind_at fs (g, pp) = KDir ->
  kind_at fs (g, pp ++ [x]) <> KDir ->
  (readable F src d = true
   /\ exists fs', copy2 F fs src (g, pp ++ [x]) = (fs', Ok tt)
                  /\ write_file fs (g, pp ++ [x]) d = Ok fs')
  \/ (readable F src d = false
      /\ exists e, copy2 F fs src (g, pp ++ [x]) = (fs, Raise e))
  \/ (readable F src d = false
      /\ exists e part rest fs',
           d = part ++ rest
           /\ copy2 F fs src (g, pp ++ [x]) = (fs', Raise e)
           /\ write_file fs (g, pp ++ [x]) part = Ok fs').
Proof.
  intros Ksrc Kdir Kdst. unfold copy2.
  assert (Hnd : isdir_b fs (g, pp ++ [x]) = false).
  { rewrite isdir_b_kind. now destruct (kind_at fs (g, pp ++ [x])). }
  rewrite Hnd. unfold open_rb, readable. unfold kind_at in Ksrc.
  destruct (stat fs src) as [[d0|es]|]; try discriminate. injection Ksrc as ->.
  destruct (open_denied F src); [right; left; eauto|]. cbn [fo_data negb andb].
  assert (Hok : (forall o, bad_offset F src = Some o -> length d <= o) ->
                read_all F (S (length d))
                  {| fo_name := src; fo_data := d; fo_pos := 0 |} [] = (d, None)).
  { intros H. rewrite read_all_ok by (trivial; lia). reflexivity. }
  destruct (bad_offset F src) as [o|] eqn:Ho.
  - destruct (Nat.leb_spec (length d) o) as [Hle|Hlt].
    + rewrite Hok by (intros o' [= <-]; trivial).
      destruct (write_file_ok fs g pp x d Kdir Kdst) as [fs' Hw].
      rewrite Hw. left. eauto.
    + destruct (@read_all_bad F src d o Ho Hlt (S (length d)) 0 [])
        as [part Hra]; try lia.
      rewrite Hra. apply read_all_prefix in Hra as [rest Hrest].
      cbn [app skipn] in Hrest.
      destruct (write_file_ok fs g pp x part Kdir Kdst) as [fs' Hw].
      rewrite Hw. right; right. split; trivial.
      exists (OSError EIO src), part, rest, fs'. auto.
  - rewrite Hok by discriminate.
    destruct (write_file_ok fs g pp x d Kdir Kdst) as [fs' Hw].
    rewrite Hw. left. eauto.
Qed.

Lemma parent_is_dir (fs : filesystem) (f : folder) (pp : relpath) (x : name)
      (d : list byte) :
  kind_at fs (f, pp ++ [x]) = KFile d -> kind_at fs (f, pp) = KDir.
Proof.
  unfold kind_at, stat. cbn [fst snd].
  destruct (root_of fs f) as [n|]; [|discriminate].
  rewrite lookup_app. destruct (lookup n pp) as [[d0|es]|]; try discriminate.
  reflexivity.
Qed.

Lemma mkdirs_existing (who : path) (p : relpath) :
  forall (n : node), kind_of (lookup n p) = KDir -> mkdirs who n p = Ok n.
Proof.
  assert (Hset : forall x c es, entry x es = Some c -> set_entry x c es = es).
  { intros x c es. induction es as [|[y c0] es IH]; cbn [entry set_entry];
      [discriminate|].
    destruct (String.eqb_spec x y) as [->|Hxy].
    - now intros [= ->].
    - intros H. now rewrite IH. }
  induction p as [|x p IH]; intros n H; cbn [mkdirs lookup] in *.
  - destruct n; [discriminate|reflexivity].
  - destruct n as [d|es]; [discriminate|].
    destruct (entry x es) as [c|] eqn:Ex; [|discriminate].
    rewrite (IH c H). now rewrite Hset.
Qed.

(** [os.makedirs] with [exist_ok=True] on a directory that exists changes
    nothing. *)
Lemma makedirs_existing (fs : filesystem) (f : folder) (p : relpath) :
  kind_at fs (f, p) = KDir -> makedirs fs (f, p) = Ok fs.
Proof.
  unfold kind_at, stat, makedirs. cbn [fst snd]. intros H.
  destruct (root_of fs f) as [n|] eqn:Hr; [|discriminate].
  rewrite (mkdirs_existing (f, p) p n H).
  destruct fs, f; cbn [root_of] in Hr; cbn [set_root]; now rewrite <- Hr.
Qed.

Lemma snoc_not_self {A : Type} (l : list A) (x : A) : l ++ [x] <> l.
Proof.
  intros H. apply (f_equal (@length _)) in H. rewrite length_app in H.
  cbn [length] in H. lia.
Qed.

Section Obstacles.

Variable hasher : Type.
Variable hash_new : hasher.
Variable hash_update : hasher -> list byte -> hasher.
Variable hexdigest : hasher -> string.
Variable F : faults.

Local Abbreviation files_differ :=
  (are_files_different hash_new hash_update hexdigest F).
Local Abbreviation fp := (fingerprint hash_new hash_update hexdigest).
Local Abbreviation copy1 := (copy_one hash_new hash_update hexdigest F).
Local Abbreviation remove1 := (remove_one F).

(** [are_files_different] on two regular files: it returns whether the
    digests differ when both files can be read to their end, and raises
    otherwise. *)
Lemma are_files_different_run (a b : path) (da db : list byte) (s : state) :
  kind_at (st_fs s) a = KFile da -> kind_at (st_fs s) b = KFile db ->
  (readable F a da && readable F b db = true ->
   files_differ a b s = (s, Ok (negb (String.eqb (fp da) (fp db)))))
  /\ (readable F a da && readable F b db = false ->
      exists e, files_differ a b s = (s, Raise e)).
Proof.
  intros Ka Kb. unfold are_files_different, bind.
  destruct (readable F a da) eqn:Ra.
  - rewrite (calculate_hash_ok hash_new hash_update hexdigest F a s Ka Ra).
    destruct (readable F b db) eqn:Rb; cbn [andb].
    + rewrite (calculate_hash_ok hash_new hash_update hexdigest F b s Kb Rb).
      split; [reflexivity|discriminate].
    + split; [discriminate|]. intros _.
      destruct (calculate_hash_raise hash_new hash_update hexdigest F b s)
        as [e ->]; [congruence|eauto].
  - cbn [andb]. split; [discriminate|]. intros _.
    destruct (calculate_hash_raise hash_new hash_update hexdigest F a s)
      as [e ->]; [congruence|eauto].
Qed.

(** One iteration of the copy loop on a source file, in more detail: it
    returns exactly when it meets no obstacle; the replica file at the path
    is afterwards the file it was or holds the first bytes of the source
    content; an iteration that returns without a record has left the
    file system as it was; and no other regular file of the replica has
    moved in the listing. *)
Lemma copy_one_more (s s' : state) (pp : relpath) (x : name) (d : list byte)
      (r : result unit) :
  kind_at (st_fs s) (Source, pp ++ [x]) = KFile d ->
  copy1 Source Replica (Source, pp ++ [x]) s = (s', r) ->
  is_ok r = copy_unhindered F (st_fs s) (pp ++ [x])
  /\ (forall d1, kind_at (st_fs s') (Replica, pp ++ [x]) = KFile d1 ->
        kind_at (st_fs s) (Replica, pp ++ [x]) = KFile d1
        \/ exists rest, d = d1 ++ rest)
  /\ (r = Ok tt -> st_out s' = st_out s -> st_fs s' = st_fs s)
  /\ (forall P : relpath -> bool,
        P (pp ++ [x]) = false ->
        filter P (files_under (st_fs s') Replica)
        = filter P (files_under (st_fs s) Replica)).
Proof.
  intros Ks H.
  unfold copy_one, os_path_relpath, os_path_join_rel, os_path_dirname in H.
  cbn [fst snd] in H. rewrite removelast_last in H.
  unfold bind at 1 in H. unfold os_makedirs in H. cbn [st_fs note] in H.
  unfold copy_unhindered, in_the_way, data_at. unfold relpath in *.
  rewrite Ks, negb_orb.
  pose proof (makedirs_is_ok (st_fs s) Replica pp x) as Hmkok.
  unfold relpath in Hmkok. rewrite <- Hmkok. clear Hmkok.
  destruct (makedirs (st_fs s) (Replica, pp)) as [fs1|e] eqn:Hmk; cbn [is_ok].
  2: { injection H as <- <-. cbn [st_fs st_out st_calls note is_ok].
       rewrite andb_false_r. cbn [andb]. split; [reflexivity|].
       split; [auto|]. split; [discriminate|reflexivity]. }
  rewrite andb_true_r.
  pose proof (kind_at_makedirs _ _ _ Hmk) as K1.
  set (s1 := with_fs (note (Makedirs (Replica, pp)) s) fs1) in H.
  assert (Hlist1 : forall P : list name -> bool,
            filter P (files_under (st_fs s1) Replica)
            = filter P (files_under (st_fs s) Replica)).
  { intros P. cbn [s1 st_fs with_fs].
    now rewrite (@files_under_makedirs (st_fs s) fs1 Replica Replica pp Hmk). }
  assert (Ks1 : kind_at (st_fs s1) (Source, pp ++ [x]) = KFile d).
  { cbn [s1 st_fs with_fs]. rewrite K1. exact Ks. }
  assert (Kd1 : kind_at (st_fs s1) (Replica, pp) = KDir).
  { cbn [s1 st_fs with_fs]. rewrite K1, prefixb_refl. reflexivity. }
  assert (Kp1 : kind_at (st_fs s1) (Replica, pp ++ [x])
                = kind_at (st_fs s) (Replica, pp ++ [x])).
  { cbn [s1 st_fs with_fs]. rewrite K1, prefixb_snoc_longer. reflexivity. }
  assert (Hcopy :
    forall s2 r2,
      kind_at (st_fs s) (Replica, pp ++ [x]) <> KDir ->
      (shutil_copy2 F (Source, pp ++ [x]) (Replica, pp ++ [x]) ;;
       logging_info (FileCopied (pp ++ [x]))) s1 = (s2, r2) ->
      is_ok r2 = readable F (Source, pp ++ [x]) d
      /\ (forall d1, kind_at (st_fs s2) (Replica, pp ++ [x]) = KFile d1 ->
            kind_at (st_fs s) (Replica, pp ++ [x]) = KFile d1
            \/ exists rest, d = d1 ++ rest)
      /\ (r2 = Ok tt -> st_out s2 = st_out s -> st_fs s2 = st_fs s)
      /\ (forall P : list name -> bool,
            P (pp ++ [x]) = false ->
            filter P (files_under (st_fs s2) Replica)
            = filter P (files_under (st_fs s) Replica))).
  { intros s2 r2 Hnd. rewrite <- Kp1 in Hnd.
    unfold bind, shutil_copy2, logging_info. cbn [st_fs note].
    assert (Hw : forall part fs2 d1,
               write_file (st_fs s1) (Replica, pp ++ [x]) part = Ok fs2 ->
               kind_at fs2 (Replica, pp ++ [x]) = KFile d1 -> d1 = part).
    { intros part fs2 d1 Hw. rewrite (kind_at_write_file _ _ _ _ Hw).
      cbn [folder_eqb andb]. rewrite relpath_eqb_refl. congruence. }
    destruct (copy2_cases F (st_fs s1) (Source, pp ++ [x]) Replica pp x Ks1 Kd1 Hnd)
      as [(Hr & fs' & -> & Hwr)|[(Hr & e & ->)|(Hr & e & part & rest & fs' & Hd
                                                & -> & Hwr)]];
      intros [= <- <-]; cbn [st_fs st_out st_calls with_fs note emit is_ok];
      rewrite Hr; (split; [reflexivity|]).
    - split; [|split].
      + intros d1 Hd1. right. exists []. rewrite app_nil_r.
        symmetry. eapply Hw; eauto.
      + intros _ Hout. cbn [s1 st_out with_fs note] in Hout.
        now apply snoc_not_self in Hout.
      + intros P HP. rewrite <- Hlist1.
        apply (@files_under_write_file (st_fs s1) fs' Replica Replica
                 (pp ++ [x]) d P Hwr HP).
    - split; [|split; [discriminate|]].
      + intros d1 Hd1. left. now rewrite <- Kp1.
      + intros P _. apply Hlist1.
    - split; [|split; [discriminate|]].
      + intros d1 Hd1. right. exists rest. now rewrite (Hw _ _ _ Hwr Hd1).
      + intros P HP. rewrite <- Hlist1.
        apply (@files_under_write_file (st_fs s1) fs' Replica Replica
                 (pp ++ [x]) part P Hwr HP). }
  unfold bind at 1 in H. unfold os_path_exists in H. unfold relpath in *.
  rewrite exists_b_kind, Kp1 in H. rewrite isdir_b_kind.
  destruct (kind_at (st_fs s) (Replica, pp ++ [x])) as [|d'|] eqn:Kr.
  - (* nothing at the replica path: copy *)
    cbn [negb] in H. unfold bind at 1 in H. unfold ret at 1 in H.
    destruct (Hcopy s' r) as (Hok & Hcontent & Hsame & Hlist);
      [discriminate|exact H|].
    rewrite Hok. cbn [negb andb]. rewrite andb_true_r. auto.
  - (* a file at the replica path: compare the hashes *)
    cbn [negb andb] in H |- *. unfold bind at 1 in H.
    destruct (are_files_different_run (Source, pp ++ [x]) (Replica, pp ++ [x])
                s1 Ks1 Kp1) as [Hboth Hnot].
    destruct (readable F (Source, pp ++ [x]) d
              && readable F (Replica, pp ++ [x]) d') eqn:Hrd.
    + rewrite (Hboth eq_refl) in H.
      destruct (negb (String.eqb (fp d) (fp d'))) eqn:Hneed.
      * destruct (Hcopy s' r) as (Hok & Hcontent & Hsame & Hlist);
          [discriminate|exact H|].
        apply andb_prop in Hrd as [Hrs _]. rewrite Hok, Hrs. auto.
      * injection H as <- <-. cbn [is_ok]. split; [reflexivity|].
        split; [intros d1 Hd1; left; congruence|].
        split; [|intros P _; apply Hlist1].
        intros _ _. cbn [s1 st_fs with_fs].
        assert (E : Ok fs1 = Ok (st_fs s)).
        { rewrite <- Hmk. apply makedirs_existing.
          eapply parent_is_dir. exact Kr. }
        now injection E as ->.
    + destruct (Hnot eq_refl) as [e He]. rewrite He in H.
      injection H as <- <-. cbn [is_ok]. split; [reflexivity|].
      split; [|split; [discriminate|intros P _; apply Hlist1]].
      intros d1 Hd1. left. congruence.
  - (* a directory at the replica path: hashing it raises *)
    cbn [negb andb] in H |- *. unfold bind at 1 in H.
    destruct (are_files_different_cases hash_new hash_update hexdigest F
                (Source, pp ++ [x]) (Replica, pp ++ [x]) s1)
      as [(da & db & Ka & Kb & _)|[e Hd]].
    + rewrite Kp1 in Kb. discriminate.
    + rewrite Hd in H. injection H as <- <-. cbn [is_ok].
      split; [reflexivity|].
      split; [|split; [discriminate|intros P _; apply Hlist1]].
      intros d1 Hd1. rewrite Kp1 in Hd1. discriminate.
Qed.

Lemma forallb_ext_in {A : Type} (f g : A -> bool) (l : list A) :
  (forall x, In x l -> f x = g x) -> forallb f l = forallb g l.
Proof.
  induction l as [|a l IH]; intros H; cbn [forallb]; trivial.
  rewrite (H a (or_introl eq_refl)), IH; trivial. intros x Hx. apply H. now right.
Qed.

Lemma flat_map_ext_in {A B : Type} (f g : A -> list B) (l : list A) :
  (forall x, In x l -> f x = g x) -> flat_map f l = flat_map g l.
Proof.
  induction l as [|a l IH]; intros H; cbn [flat_map]; trivial.
  rewrite (H a (or_introl eq_refl)), IH; trivial. intros x Hx. apply H. now right.
Qed.

Lemma existsb_ext_in {A : Type} (f g : A -> bool) (l : list A) :
  (forall x, In x l -> f x = g x) -> existsb f l = existsb g l.
Proof.
  induction l as [|a l IH]; intros H; cbn [existsb]; trivial.
  rewrite (H a (or_introl eq_refl)), IH; trivial. intros x Hx. apply H. now right.
Qed.

Lemma copy_one_out_grows (sp : path) (s s' : state) (r : result unit) :
  copy1 Source Replica sp s = (s', r) -> exists os, st_out s' = st_out s ++ os.
Proof.
  intros H.
  assert (C : confined (fun _ _ => True) (fun _ => True) (fun _ => True)
                (copy1 Source Replica sp)) by (apply confined_copy_one; auto).
  destruct (C _ _ _ H) as (_ & cs & os & _ & _ & Ho & _). eauto.
Qed.

Lemma copy_loop_out_grows (l : list path) (s s' : state) (r : result unit) :
  for_each l (copy1 Source Replica) s = (s', r) ->
  exists os, st_out s' = st_out s ++ os.
Proof.
  intros H.
  assert (C : confined (fun _ _ => True) (fun _ => True) (fun _ => True)
                (for_each l (copy1 Source Replica))).
  { apply confined_for_each; auto. intros sp _. apply confined_copy_one; auto. }
  destruct (C _ _ _ H) as (_ & cs & os & _ & _ & Ho & _). eauto.
Qed.

(** What stands in the way of a source file, and whether the files of its
    iteration can be read, is not changed by the iteration on another
    source file. *)
Lemma copy_unhindered_frame (fs fs1 : filesystem) (p p' : relpath)
      (d d' : list byte) :
  kind_at fs (Source, p) = KFile d -> kind_at fs (Source, p') = KFile d' ->
  p <> [] -> p' <> [] -> p' <> p ->
  root_of fs1 Source = root_of fs Source ->
  (forall q, q <> p ->
     kind_at fs1 (Replica, q) = kind_at fs (Replica, q)
     \/ (kind_at fs (Replica, q) = KNone /\ kind_at fs1 (Replica, q) = KDir
         /\ prefixb q (removelast p) = true)) ->
  copy_unhindered F fs1 p' = copy_unhindered F fs p'.
Proof.
  intros Kp Kp' Hp Hp' Hne Hroot Hfr.
  assert (Hk : kind_at fs1 (Replica, p') = kind_at fs (Replica, p')).
  { destruct (Hfr p' Hne) as [E|(_ & _ & Hpre)]; trivial.
    rewrite (@files_prefix_free _ _ _ _ _ _ Kp' Kp Hp) in Hpre. discriminate. }
  unfold copy_unhindered, in_the_way.
  rewrite (data_at_same_root _ _ _ p' Hroot), Hk, !isdir_b_kind, Hk.
  do 2 f_equal. f_equal. f_equal. apply existsb_ext_in. intros q Hq.
  destruct (exists_last Hp') as (pp' & x' & ->).
  apply ancestors_snoc in Hq.
  assert (Hqp : q <> p).
  { intros ->.
    pose proof (@files_prefix_free _ _ _ _ _ _ Kp Kp' Hp') as Hpre.
    rewrite removelast_last in Hpre. congruence. }
  rewrite !isfile_b_kind.
  destruct (Hfr q Hqp) as [->|(-> & -> & _)]; reflexivity.
Qed.

(** The copy loop over source files returns exactly when no iteration
    meets an obstacle, as the file system stood before the loop; a regular
    file of the replica is afterwards the file it was, or holds the first
    bytes of the source file at its path; and a loop that returns without
    any record has left the file system as it was. *)
Lemma copy_loop_more (l : list relpath) :
  forall (s s' : state) (r : result unit),
    NoDup l ->
    (forall p, In p l ->
       p <> [] /\ exists d, kind_at (st_fs s) (Source, p) = KFile d) ->
    for_each (map (fun p => (Source, p)) l) (copy1 Source Replica) s = (s', r) ->
    is_ok r = forallb (copy_unhindered F (st_fs s)) l
    /\ (forall q d1, kind_at (st_fs s') (Replica, q) = KFile d1 ->
          kind_at (st_fs s) (Replica, q) = KFile d1
          \/ (In q l /\ exists rest, data_at (st_fs s) (Source, q) = d1 ++ rest))
    /\ (r = Ok tt -> st_out s' = st_out s -> st_fs s' = st_fs s).
Proof.
  induction l as [|p l IH]; intros s s' r Hnd Hsrc H.
  - injection H as <- <-. cbn [forallb is_ok]. auto.
  - cbn [map for_each] in H. unfold bind in H.
    destruct (copy1 Source Replica (Source, p) s) as [s1 r1] eqn:Hb.
    destruct (Hsrc p (or_introl eq_refl)) as (Hp & d & Ks).
    apply NoDup_cons_iff in Hnd as [Hpl Hnd].
    destruct (@copy_one_spec hasher hash_new hash_update hexdigest F
                s s1 p d r1 Ks Hp Hb) as (Hroot1 & _ & Hfr1 & _).
    destruct (exists_last Hp) as (pp & x & Epp).
    pose proof Hb as Hb'. rewrite Epp in Hb', Ks.
    destruct (@copy_one_more s s1 pp x d r1 Ks Hb')
      as (Hok1 & Hcontent1 & Hsame1 & Hlist1).
    rewrite <- Epp in Hok1, Hcontent1, Ks.
    assert (Hd : data_at (st_fs s) (Source, p) = d)
      by (unfold data_at; now rewrite Ks).
    assert (Hfile1 : forall q d1,
              kind_at (st_fs s1) (Replica, q) = KFile d1 ->
              kind_at (st_fs s) (Replica, q) = KFile d1
              \/ (In q (p :: l)
                  /\ exists rest, data_at (st_fs s) (Source, q) = d1 ++ rest)).
    { intros q d1 Hq. destruct (relpath_eqb_spec q p) as [->|Hqp].
      - destruct (Hcontent1 d1 Hq) as [E|[rest E]]; [now left|].
        right. split; [now left|]. exists rest. congruence.
      - destruct (Hfr1 q Hqp) as [E|(_ & E & _)]; [left|]; congruence. }
    cbn [forallb]. rewrite <- Hok1.
    destruct r1 as [[]|e]; cbn [is_ok andb].
    + assert (Hsrc1 : forall p', In p' l ->
                p' <> [] /\ exists d', kind_at (st_fs s1) (Source, p') = KFile d').
      { intros p' Hp'. destruct (Hsrc p' (or_intror Hp')) as (Hne & d' & K').
        split; trivial. exists d'. now rewrite (kind_at_same_root _ _ _ p' Hroot1). }
      destruct (IH s1 s' r Hnd Hsrc1 H) as (Hok & Hcontent & Hsame).
      split; [|split].
      * rewrite Hok. apply forallb_ext_in. intros p' Hp'.
        destruct (Hsrc p' (or_intror Hp')) as (Hne & d' & K').
        apply (@copy_unhindered_frame (st_fs s) (st_fs s1) p p' d d' Ks K'); trivial.
        intros ->. contradiction.
      * intros q d1 Hq. destruct (Hcontent q d1 Hq) as [E|(Hin & rest & E)].
        -- now apply Hfile1.
        -- right. split; [now right|]. exists rest.
           now rewrite <- (data_at_same_root _ _ _ q Hroot1).
      * intros Hr Hout.
        destruct (copy_one_out_grows _ _ Hb) as [os1 Ho1].
        destruct (copy_loop_out_grows _ _ H) as [os2 Ho2].
        assert (Hnil : os1 ++ os2 = []).
        { apply (app_inv_head (st_out s)). rewrite app_nil_r, app_assoc.
          congruence. }
        apply app_eq_nil in Hnil as [-> ->]. rewrite app_nil_r in Ho1, Ho2.
        rewrite (Hsame Hr Ho2). now apply Hsame1.
    + injection H as <- <-. cbn [is_ok]. split; [reflexivity|].
      split; [exact Hfile1|discriminate].
Qed.

(** A copy loop that returns without any record has called [os.makedirs]
    once for each source file and made no other call. *)
Lemma copy_loop_silent_calls (l : list relpath) :
  forall (s s' : state),
    (forall p, In p l ->
       p <> [] /\ exists d, kind_at (st_fs s) (Source, p) = KFile d) ->
    for_each (map (fun p => (Source, p)) l) (copy1 Source Replica) s
    = (s', Ok tt) ->
    st_out s' = st_out s ->
    st_calls s'
    = st_calls s ++ map (fun p => Makedirs (Replica, removelast p)) l.
Proof.
  induction l as [|p l IH]; intros s s' Hsrc H Hout.
  - injection H as <-. cbn [map]. now rewrite app_nil_r.
  - cbn [map for_each] in H. unfold bind in H.
    destruct (copy1 Source Replica (Source, p) s) as [s1 r1] eqn:Hb.
    destruct (Hsrc p (or_introl eq_refl)) as (Hp & d & Ks).
    destruct (copy_one_out_grows _ _ Hb) as [os1 Ho1].
    destruct r1 as [[]|e]; [|discriminate].
    destruct (copy_loop_out_grows _ _ H) as [os2 Ho2].
    assert (Hnil : os1 ++ os2 = []).
    { apply (app_inv_head (st_out s)). rewrite app_nil_r, app_assoc.
      congruence. }
    apply app_eq_nil in Hnil as [-> ->]. rewrite app_nil_r in Ho1, Ho2.
    destruct (@copy_one_spec hasher hash_new hash_update hexdigest F
                s s1 p d (Ok tt) Ks Hp Hb) as (Hroot1 & _ & _ & Hcase).
    assert (Hcalls1 : st_calls s1
                      = st_calls s ++ [Makedirs (Replica, removelast p)]).
    { destruct Hcase as [(_ & _ & _ & _ & _ & Hc)
                        |[(_ & _ & _ & Ho & _)
                         |[([e He] & _)|([e He] & _)]]];
        [exact Hc| |discriminate|discriminate].
      rewrite Ho1 in Ho. symmetry in Ho. now apply snoc_not_self in Ho. }
    rewrite (IH s1 s'); trivial.
    + rewrite Hcalls1, <- app_assoc. reflexivity.
    + intros p' Hp'. destruct (Hsrc p' (or_intror Hp')) as (Hne & d' & K').
      split; trivial. exists d'. now rewrite (kind_at_same_root _ _ _ p' Hroot1).
Qed.

Lemma stale_frame (fs fs1 : filesystem) (p p' : relpath) (d d' : list byte) :
  kind_at fs (Source, p) = KFile d -> kind_at fs (Source, p') = KFile d' ->
  p <> [] -> p' <> p ->
  root_of fs1 Source = root_of fs Source ->
  (forall q, q <> p ->
     kind_at fs1 (Replica, q) = kind_at fs (Replica, q)
     \/ (kind_at fs (Replica, q) = KNone /\ kind_at fs1 (Replica, q) = KDir
         /\ prefixb q (removelast p) = true)) ->
  stale hash_new hash_update hexdigest fs1 p'
  = stale hash_new hash_update hexdigest fs p'.
Proof.
  intros Kp Kp' Hp Hne Hroot Hfr. unfold stale.
  rewrite (data_at_same_root _ _ _ p' Hroot). f_equal.
  destruct (Hfr p' Hne) as [E|(_ & _ & Hpre)]; trivial.
  rewrite (@files_prefix_free _ _ _ _ _ _ Kp' Kp Hp) in Hpre. discriminate.
Qed.

(** The regular files of the replica that are not source files keep
    their place in the listing during the copy loop. *)
Lemma copy_loop_listing (l : list relpath) :
  forall (s s' : state) (r : result unit),
    (forall p, In p l ->
       p <> [] /\ exists d, kind_at (st_fs s) (Source, p) = KFile d) ->
    for_each (map (fun p => (Source, p)) l) (copy1 Source Replica) s = (s', r) ->
    forall P : relpath -> bool,
      (forall p, In p l -> P p = false) ->
      filter P (files_under (st_fs s') Replica)
      = filter P (files_under (st_fs s) Replica).
Proof.
  induction l as [|p l IH]; intros s s' r Hsrc H P HP.
  - now injection H as <- <-.
  - cbn [map for_each] in H. unfold bind in H.
    destruct (copy1 Source Replica (Source, p) s) as [s1 r1] eqn:Hb.
    destruct (Hsrc p (or_introl eq_refl)) as (Hp & d & Ks).
    destruct (@copy_one_spec hasher hash_new hash_update hexdigest F
                s s1 p d r1 Ks Hp Hb) as (Hroot1 & _).
    destruct (exists_last Hp) as (pp & x & Epp).
    pose proof Hb as Hb'. rewrite Epp in Hb', Ks.
    destruct (@copy_one_more s s1 pp x d r1 Ks Hb') as (_ & _ & _ & Hlist1).
    rewrite <- Epp in Hlist1.
    rewrite <- (Hlist1 P (HP p (or_introl eq_refl))).
    destruct r1 as [[]|e]; [|now injection H as <- <-].
    apply (IH s1 s' r); trivial.
    + intros p' Hp'. destruct (Hsrc p' (or_intror Hp')) as (Hne & d' & K').
      split; trivial. exists d'. now rewrite (kind_at_same_root _ _ _ p' Hroot1).
    + intros p' Hp'. apply HP. now right.
Qed.

(** The calls of a copy loop that returns: for each source file the call
    of [os.makedirs] for its directory, followed by the call of
    [shutil.copy2] when the file is stale. *)
Lemma copy_loop_calls (l : list relpath) :
  forall (s s' : state),
    NoDup l ->
    (forall p, In p l ->
       p <> [] /\ exists d, kind_at (st_fs s) (Source, p) = KFile d) ->
    for_each (map (fun p => (Source, p)) l) (copy1 Source Replica) s
    = (s', Ok tt) ->
    st_calls s'
    = st_calls s
      ++ flat_map
           (fun p =>
              Makedirs (Replica, removelast p)
              :: if stale hash_new hash_update hexdigest (st_fs s) p
                 then [Copy2 (Source, p) (Replica, p)] else [])
           l.
Proof.
  induction l as [|p l IH]; intros s s' Hnd Hsrc H.
  - injection H as <-. cbn [flat_map]. now rewrite app_nil_r.
  - cbn [map for_each] in H. unfold bind in H.
    destruct (copy1 Source Replica (Source, p) s) as [s1 r1] eqn:Hb.
    destruct (Hsrc p (or_introl eq_refl)) as (Hp & d & Ks).
    apply NoDup_cons_iff in Hnd as [Hpl Hnd].
    destruct r1 as [[]|e]; [|discriminate].
    destruct (@copy_one_spec hasher hash_new hash_update hexdigest F
                s s1 p d (Ok tt) Ks Hp Hb) as (Hroot1 & _ & Hfr1 & Hcase).
    assert (Hd : data_at (st_fs s) (Source, p) = d)
      by (unfold data_at; now rewrite Ks).
    assert (Hcalls1 :
              st_calls s1
              = st_calls s
                ++ Makedirs (Replica, removelast p)
                   :: if stale hash_new hash_update hexdigest (st_fs s) p
                      then [Copy2 (Source, p) (Replica, p)] else []).
    { unfold stale. rewrite Hd.
      destruct Hcase as [(_ & _ & Hn & _ & _ & Hc)
                        |[(_ & Hn & _ & _ & Hc)
                         |[([e He] & _)|([e He] & _)]]];
        try discriminate; now rewrite Hn. }
    rewrite (IH s1 s' Hnd); trivial.
    + cbn [flat_map]. rewrite Hcalls1, <- !app_assoc. f_equal.
      cbn [app]. f_equal. f_equal.
      assert (Hst : forall p', In p' l ->
                stale hash_new hash_update hexdigest (st_fs s1) p'
                = stale hash_new hash_update hexdigest (st_fs s) p').
      { intros p' Hp'. destruct (Hsrc p' (or_intror Hp')) as (Hne & d' & K').
        apply (@stale_frame (st_fs s) (st_fs s1) p p' d d' Ks K'); trivial.
        intros ->. contradiction. }
      apply flat_map_ext_in. intros p' Hp'. now rewrite (Hst p' Hp').
    + intros p' Hp'. destruct (Hsrc p' (or_intror Hp')) as (Hne & d' & K').
      split; trivial. exists d'. now rewrite (kind_at_same_root _ _ _ p' Hroot1).
Qed.

Lemma remove_loop_out_grows (l : list relpath) (s s' : state) (r : result unit) :
  for_each (map (fun p => (Replica, p)) l) (remove1 Replica Source) s = (s', r) ->
  exists os, st_out s' = st_out s ++ os.
Proof.
  intros H.
  assert (C : confined (fun _ _ => True) (fun _ => True) (fun _ => True)
                (for_each (map (fun p => (Replica, p)) l)
                   (remove1 Replica Source))).
  { apply confined_for_each; auto. intros rp Hrp.
    apply in_map_iff in Hrp as (p & <- & _). apply confined_remove_one; auto. }
  destruct (C _ _ _ H) as (_ & cs & os & _ & _ & Ho & _). eauto.
Qed.

(** The delete loop over replica files returns exactly when no file it
    has to unlink is denied; a loop that returns without any record has
    made no call and left the file system as it was. *)
Lemma remove_loop_more (l : list relpath) :
  forall (s s' : state) (r : result unit),
    NoDup l -> wf_fs (st_fs s) = true ->
    (forall p, In p l -> exists d, kind_at (st_fs s) (Replica, p) = KFile d) ->
    for_each (map (fun p => (Replica, p)) l) (remove1 Replica Source) s = (s', r) ->
    is_ok r = forallb (remove_unhindered F (st_fs s)) l
    /\ (r = Ok tt -> st_out s' = st_out s -> s' = s).
Proof.
  induction l as [|p l IH]; intros s s' r Hnd Hwf Hrep H.
  - injection H as <- <-. cbn [forallb is_ok]. auto.
  - cbn [map for_each] in H. unfold bind in H.
    destruct (remove1 Replica Source (Replica, p) s) as [s1 r1] eqn:Hb.
    destruct (Hrep p (or_introl eq_refl)) as (d & Kp).
    apply NoDup_cons_iff in Hnd as [Hpl Hnd].
    cbn [forallb]. unfold remove_unhindered at 1.
    destruct (@remove_one_spec F s s1 p d r1 Kp Hb)
      as [(Ho & -> & ->)
         |[(Ho & Hu & -> & Hrm & Eout & Ecalls)|(Ho & Hu & -> & ->)]];
      rewrite Ho; try rewrite Hu; cbn [andb negb].
    + apply (IH s s' r Hnd Hwf); trivial. intros q Hq. apply Hrep. now right.
    + pose proof (@kind_at_remove F (st_fs s) (st_fs s1) Replica p Hwf Hrm) as K1.
      assert (Hroot1 : root_of (st_fs s1) Source = root_of (st_fs s) Source).
      { eapply remove_root_other; eauto. discriminate. }
      assert (Hwf1 : wf_fs (st_fs s1) = true) by eauto using wf_remove.
      destruct (IH s1 s' r Hnd Hwf1) as (Hok & Hsame); [|exact H|].
      { intros q Hq. destruct (Hrep q (or_intror Hq)) as [dq Kq]. exists dq.
        rewrite K1. cbn [folder_eqb andb].
        destruct (relpath_eqb_spec q p) as [->|_]; [contradiction|exact Kq]. }
      split.
      * rewrite Hok. apply forallb_ext_in. intros q _. unfold remove_unhindered.
        now rewrite (orphan_same_root _ _ q Hroot1).
      * intros _ Hout. exfalso.
        destruct (remove_loop_out_grows _ _ H) as [os2 Ho2].
        rewrite Ho2, Eout, <- app_assoc in Hout.
        apply (f_equal (@length _)) in Hout. rewrite !length_app in Hout.
        cbn [length] in Hout. lia.
    + injection H as <- <-. cbn [is_ok]. split; [reflexivity|discriminate].
Qed.

End Obstacles.

Lemma orphan_not_source_file (fs : filesystem) (q : relpath) (d : list byte) :
  kind_at fs (Source, q) = KFile d -> orphan fs q = false.
Proof. unfold orphan. rewrite exists_b_kind. now intros ->. Qed.

Lemma no_error_map_info (g : relpath -> message) (l : list relpath) :
  no_error (map (fun p => LogInfo (g p)) l) = true.
Proof. induction l as [|p l IH]; [reflexivity|exact IH]. Qed.

Section ObstaclesInPhases.

Variable hasher : Type.
Variable hash_new : hasher.
Variable hash_update : hasher -> list byte -> hasher.
Variable hexdigest : hasher -> string.
Variable F : faults.

Local Abbreviation copy1 := (copy_one hash_new hash_update hexdigest F).
Local Abbreviation copy_phase := (copy_files hash_new hash_update hexdigest F).
Local Abbreviation remove_phase := (remove_files F).

(** The copy phase reports an error exactly when an iteration meets an
    obstacle; a regular file of the replica is afterwards the file it was
    or holds the first bytes of the source file at its path; a phase
    without any record has left the file system as it was and has only
    called [os.makedirs], once for each source file. *)
Lemma copy_files_more (s : state) :
  wf_fs (st_fs s) = true ->
  exists os,
    st_out (fst (copy_phase Source Replica s)) = st_out s ++ os
    /\ no_error os
       = forallb (copy_unhindered F (st_fs s)) (files_under (st_fs s) Source)
    /\ (forall q d1,
          kind_at (st_fs (fst (copy_phase Source Replica s))) (Replica, q)
          = KFile d1 ->
          kind_at (st_fs s) (Replica, q) = KFile d1
          \/ (In q (files_under (st_fs s) Source)
              /\ exists rest, data_at (st_fs s) (Source, q) = d1 ++ rest))
    /\ (os = [] ->
        st_fs (fst (copy_phase Source Replica s)) = st_fs s
        /\ st_calls (fst (copy_phase Source Replica s))
           = st_calls s ++ map (fun p => Makedirs (Replica, removelast p))
                              (files_under (st_fs s) Source)).
Proof.
  intros Hwf. rewrite copy_files_unfold. unfold try_except.
  destruct (for_each (map (fun p => (Source, p)) (files_under (st_fs s) Source))
              (copy1 Source Replica) s) as [s1 r] eqn:Hloop.
  destruct (@copy_loop_spec hasher hash_new hash_update hexdigest F
              (files_under (st_fs s) Source) s s1 r
              (NoDup_files_under _ Source Hwf)
              (fun p => files_under_kind _ Source p Hwf) Hloop)
    as (l1 & l2 & cs & _ & _ & _ & _ & _ & Hout & _).
  destruct (@copy_loop_more hasher hash_new hash_update hexdigest F
              (files_under (st_fs s) Source) s s1 r
              (NoDup_files_under _ Source Hwf)
              (fun p => files_under_kind _ Source p Hwf) Hloop)
    as (Hok & Hcontent & Hsame).
  rewrite <- Hok.
  destruct r as [[]|e]; cbn [fst is_ok].
  - eexists. split; [exact Hout|]. split; [apply no_error_map_info|].
    split; [exact Hcontent|]. intros E.
    assert (Ho : st_out s1 = st_out s) by now rewrite Hout, E, app_nil_r.
    split; [now apply Hsame|].
    apply (@copy_loop_silent_calls hasher hash_new hash_update hexdigest F
             (files_under (st_fs s) Source) s s1
             (fun p => files_under_kind _ Source p Hwf) Hloop Ho).
  - unfold copy_handler, bind, print, logging_error.
    cbn [fst st_fs st_out emit].
    exists (map (fun p => LogInfo (FileCopied p))
              (filter (stale hash_new hash_update hexdigest (st_fs s)) l1)
            ++ [Print (CopyFailed e); LogError (CopyFailed e)]).
    split; [rewrite Hout, <- !app_assoc; reflexivity|].
    split; [rewrite no_error_app, andb_comm; reflexivity|].
    split; [exact Hcontent|]. intros E. apply app_eq_nil in E as [_ E].
    discriminate.
Qed.

(** The delete phase reports an error exactly when a file it has to
    unlink is denied; a phase without any record has made no call and left
    the file system as it was. *)
Lemma remove_files_more (s : state) :
  wf_fs (st_fs s) = true ->
  exists os,
    st_out (fst (remove_phase Replica Source s)) = st_out s ++ os
    /\ no_error os
       = forallb (remove_unhindered F (st_fs s)) (files_under (st_fs s) Replica)
    /\ (os = [] -> fst (remove_phase Replica Source s) = s).
Proof.
  intros Hwf. rewrite remove_files_unfold. unfold try_except.
  destruct (for_each (map (fun p => (Replica, p)) (files_under (st_fs s) Replica))
              (remove_one F Replica Source) s) as [s1 r] eqn:Hloop.
  assert (Hrep : forall p, In p (files_under (st_fs s) Replica) ->
                   exists d, kind_at (st_fs s) (Replica, p) = KFile d).
  { intros p Hp. now destruct (files_under_kind _ Replica p Hwf Hp). }
  destruct (@remove_loop_spec F (files_under (st_fs s) Replica) s s1 r
              (NoDup_files_under _ Replica Hwf) Hwf Hrep Hloop)
    as (l1 & l2 & _ & _ & _ & _ & _ & Hout & _).
  destruct (@remove_loop_more F (files_under (st_fs s) Replica) s s1 r
              (NoDup_files_under _ Replica Hwf) Hwf Hrep Hloop)
    as (Hok & Hsame).
  rewrite <- Hok.
  destruct r as [[]|e]; cbn [fst is_ok].
  - eexists. split; [exact Hout|]. split; [apply no_error_map_info|].
    intros E. apply Hsame; trivial. now rewrite Hout, E, app_nil_r.
  - unfold remove_handler, bind, print, logging_error.
    cbn [fst st_fs st_out emit].
    exists (map (fun p => LogInfo (FileDeleted p))
              (filter (orphan (st_fs s)) l1)
            ++ [Print (RemoveFailed e); LogError (RemoveFailed e)]).
    split; [rewrite Hout, <- !app_assoc; reflexivity|].
    split; [rewrite no_error_app, andb_comm; reflexivity|].
    intros E. apply app_eq_nil in E as [_ E]. discriminate.
Qed.

(** A copy phase that meets no obstacle: its records, its calls, and the
    listing of the replica files the delete phase will unlink. *)
Lemma copy_files_clean (s : state) :
  wf_fs (st_fs s) = true ->
  forallb (copy_unhindered F (st_fs s)) (files_under (st_fs s) Source) = true ->
  st_out (fst (copy_phase Source Replica s))
  = st_out s
    ++ map (fun p => LogInfo (FileCopied p))
         (filter (stale hash_new hash_update hexdigest (st_fs s))
            (files_under (st_fs s) Source))
  /\ st_calls (fst (copy_phase Source Replica s))
     = st_calls s
       ++ flat_map
            (fun p =>
               Makedirs (Replica, removelast p)
               :: if stale hash_new hash_update hexdigest (st_fs s) p
                  then [Copy2 (Source, p) (Replica, p)] else [])
            (files_under (st_fs s) Source)
  /\ filter (orphan (st_fs s))
       (files_under (st_fs (fst (copy_phase Source Replica s))) Replica)
     = filter (orphan (st_fs s)) (files_under (st_fs s) Replica).
Proof.
  intros Hwf Hun. rewrite copy_files_unfold. unfold try_except.
  destruct (for_each (map (fun p => (Source, p)) (files_under (st_fs s) Source))
              (copy1 Source Replica) s) as [s1 r] eqn:Hloop.
  pose proof (NoDup_files_under _ Source Hwf) as Hnd.
  pose proof (fun p => files_under_kind (st_fs s) Source p Hwf) as Hsrc.
  destruct (@copy_loop_spec hasher hash_new hash_update hexdigest F
              (files_under (st_fs s) Source) s s1 r Hnd Hsrc Hloop)
    as (l1 & l2 & cs & Hl & Hok & _ & _ & _ & Hout & _).
  destruct (@copy_loop_more hasher hash_new hash_update hexdigest F
              (files_under (st_fs s) Source) s s1 r Hnd Hsrc Hloop)
    as (Hisok & _).
  rewrite Hun in Hisok. destruct r as [[]|e]; [|discriminate]. cbn [fst].
  assert (l2 = []) by now apply Hok. subst l2. rewrite app_nil_r in Hl.
  subst l1. split; [exact Hout|]. split.
  - apply (@copy_loop_calls hasher hash_new hash_update hexdigest F
             (files_under (st_fs s) Source) s s1 Hnd Hsrc Hloop).
  - apply (@copy_loop_listing hasher hash_new hash_update hexdigest F
             (files_under (st_fs s) Source) s s1 (Ok tt) Hsrc Hloop).
    intros p Hp. destruct (Hsrc p Hp) as (_ & d & Kd).
    now apply (orphan_not_source_file _ _ Kd).
Qed.

End ObstaclesInPhases.

Section ObstaclesInCycle.

Variable hasher : Type.
Variable hash_new : hasher.
Variable hash_update : hasher -> list byte -> hasher.
Variable hexdigest : hasher -> string.
Variable F : faults.

Local Abbreviation cycle_ := (run_cycle hash_new hash_update hexdigest F).

Lemma cycle_errors (fs : filesystem) :
  wf_fs fs = true ->
  no_error (st_out (cycle_ fs)) = cycle_unhindered F fs.
Proof.
  intros Hwf. unfold run_cycle. rewrite synchronize_folders_run.
  cbn [fst emit st_out].
  destruct (copy_files_spec hash_new hash_update hexdigest F (initial fs) Hwf)
    as (s1 & l1 & l2 & cs & ec & Hrun1 & Hl & Hec & Hroot1 & Hwf1 & Hout1
        & Hdone & Hrest & _).
  destruct (copy_files_more hash_new hash_update hexdigest F (initial fs) Hwf)
    as (os1 & Ho1 & Hne1 & Hcontent1 & _).
  rewrite Hrun1 in *. cbn [fst] in *.
  destruct (remove_files_more F s1 Hwf1) as (os2 & Ho2 & Hne2 & _).
  cbn [initial st_fs st_out app] in *.
  rewrite Ho2, Ho1, !no_error_app, Hne1, Hne2. cbn [no_error forallb is_error negb].
  rewrite andb_true_r. unfold cycle_unhindered.
  destruct (forallb (copy_unhindered F fs) (files_under fs Source)) eqn:Hc;
    cbn [andb]; trivial.
  assert (Hnone : ec = None).
  { rewrite Ho1 in Hout1. rewrite Hout1, no_error_app in Hne1.
    apply andb_prop in Hne1 as [_ Hne1]. now apply no_error_report in Hne1. }
  assert (l2 = []) by now apply Hec. subst l2. rewrite app_nil_r in *.
  assert (Hor1 : forall q, orphan (st_fs s1) q = orphan fs q)
    by (intros q; now apply orphan_same_root).
  apply eq_iff_eq_true. rewrite !forallb_forall.
  split; intros H q Hq; unfold remove_unhindered in *.
  - destruct (orphan fs q) eqn:Ho; [|reflexivity].
    specialize (H q). rewrite Hor1, Ho in H. apply H.
    destruct (files_under_kind fs Replica q Hwf Hq) as (Hne & d & Kq).
    apply (@kind_files_under (st_fs s1) Replica q d Hne).
    assert (Hnin : ~ In q l1).
    { rewrite <- Hl. intros Hin.
      destruct (files_under_kind fs Source q Hwf Hin) as (_ & a & Ka).
      now rewrite (orphan_not_source_file _ _ Ka) in Ho. }
    destruct (Hrest q Hnin) as [E|[(E1 & _)|(E & _)]];
      [congruence|congruence|discriminate].
  - rewrite Hor1. destruct (orphan fs q) eqn:Ho; [|reflexivity].
    specialize (H q). rewrite Ho in H. apply H.
    destruct (files_under_kind (st_fs s1) Replica q Hwf1 Hq) as (Hne & d & Kq).
    apply (@kind_files_under fs Replica q d Hne).
    destruct (Hcontent1 q d Kq) as [E|(Hin & _)]; trivial.
    destruct (files_under_kind fs Source q Hwf Hin) as (_ & a & Ka).
    now rewrite (orphan_not_source_file _ _ Ka) in Ho.
Qed.

(** The records and the calls of a cycle without error, read off the
    file system as it stood before the cycle. *)
Lemma clean_cycle_trace (fs : filesystem) :
  wf_fs fs = true ->
  no_error (st_out (cycle_ fs)) = true ->
  st_out (cycle_ fs)
  = map (fun p => LogInfo (FileCopied p))
      (filter (stale hash_new hash_update hexdigest fs) (files_under fs Source))
    ++ map (fun q => LogInfo (FileDeleted q))
         (filter (orphan fs) (files_under fs Replica))
    ++ [LogInfo SyncCompleted]
  /\ st_calls (cycle_ fs)
     = flat_map
         (fun p =>
            Makedirs (Replica, removelast p)
            :: if stale hash_new hash_update hexdigest fs p
               then [Copy2 (Source, p) (Replica, p)] else [])
         (files_under fs Source)
       ++ map (fun q => Remove (Replica, q))
            (filter (orphan fs) (files_under fs Replica)).
Proof.
  intros Hwf Hne. pose proof Hne as Hun. rewrite cycle_errors in Hun by trivial.
  apply andb_prop in Hun as [Hun1 _]. revert Hne.
  unfold run_cycle. rewrite synchronize_folders_run.
  cbn [fst emit st_out st_calls].
  destruct (copy_files_spec hash_new hash_update hexdigest F (initial fs) Hwf)
    as (s1 & l1 & l2 & cs & ec & Hrun1 & _ & _ & Hroot1 & Hwf1 & _).
  destruct (copy_files_clean hash_new hash_update hexdigest F (initial fs) Hwf Hun1)
    as (Hout1 & Hcalls1 & Hlist1).
  rewrite Hrun1 in *. cbn [fst] in *.
  destruct (remove_files_spec F s1 Hwf1)
    as (s2 & m1 & m2 & er & Hrun2 & Hm & Her & _ & _ & _ & Hout2
        & Hcalls2 & _).
  rewrite Hrun2. cbn [fst]. cbn [initial st_fs st_out st_calls app] in *.
  rewrite Hout2, Hout1, !no_error_app. intros Hne.
  apply andb_prop in Hne as [Hne _]. apply andb_prop in Hne as [_ Hne].
  apply andb_prop in Hne as [_ Hne]. apply no_error_report in Hne. subst er.
  assert (m2 = []) by now apply Her. subst m2. rewrite app_nil_r in Hm.
  subst m1.
  assert (Hf : filter (orphan (st_fs s1)) (files_under (st_fs s1) Replica)
               = filter (orphan fs) (files_under fs Replica)).
  { rewrite <- Hlist1. apply filter_ext. intros q.
    now apply orphan_same_root. }
  rewrite Hcalls2, Hcalls1, Hf. cbn [report]. rewrite !app_nil_r.
  split; [now rewrite <- !app_assoc|reflexivity].
Qed.

End ObstaclesInCycle.

(** ** A cycle in an environment without faults *)

Lemma cycle_unhindered_no_faults (fs : filesystem) :
  cycle_unhindered no_faults fs = conflict_free fs.
Proof.
  unfold cycle_unhindered, conflict_free.
  assert (H : forallb (remove_unhindered no_faults fs) (files_under fs Replica)
              = true).
  { apply forallb_forall. intros q _. unfold remove_unhindered.
    cbn [no_faults unlink_denied]. now rewrite andb_false_r. }
  rewrite H, andb_true_r. apply forallb_ext_in. intros p _.
  unfold copy_unhindered, readable. cbn [no_faults open_denied bad_offset negb andb].
  rewrite andb_true_r. now destruct (kind_at fs (Replica, p)); rewrite andb_true_r.
Qed.

Section Mirror.

Variable hasher : Type.
Variable hash_new : hasher.
Variable hash_update : hasher -> list byte -> hasher.
Variable hexdigest : hasher -> string.
Variable F : faults.

Local Abbreviation cycle_ := (run_cycle hash_new hash_update hexdigest F).

(** After a cycle without error the replica holds the files of the source
    and no other, provided no replica file sat at the path of a source
    directory and the digests do not collide on the files compared. *)
Lemma mirror_after_clean_cycle (fs : filesystem) :
  wf_fs fs = true ->
  no_error (st_out (cycle_ fs)) = true ->
  clear_of_dirs fs = true ->
  collision_free hash_new hash_update hexdigest fs = true ->
  forall p d, file_at (st_fs (cycle_ fs)) Replica p d <-> file_at fs Source p d.
Proof.
  intros Hwf Hne Hclear Hfree.
  destruct (clean_cycle hash_new hash_update hexdigest F fs Hwf Hne)
    as (_ & Hsame & Hsrc & Hrest).
  intros p d. unfold file_at.
  assert (Hcopied : forall a, In p (files_under fs Source) ->
            kind_at fs (Source, p) = KFile a ->
            kind_at (st_fs (cycle_ fs)) (Replica, p) = KFile a).
  { intros a Hp Ka. destruct (Hsrc p Hp) as [Hnd E]. rewrite E.
    assert (Hd : data_at fs (Source, p) = a) by (unfold data_at; now rewrite Ka).
    destruct (stale hash_new hash_update hexdigest fs p) eqn:Hs;
      [now rewrite Hd|].
    destruct (kind_at fs (Replica, p)) as [|b|] eqn:Kb.
    - unfold stale in Hs. rewrite Kb in Hs. discriminate.
    - rewrite <- Hd. f_equal. symmetry.
      now apply (collision_free_spec hash_new hash_update hexdigest fs p).
    - now elim Hnd. }
  split.
  - intros [Hp K]. split; [exact Hp|].
    destruct (in_dec (list_eq_dec string_dec) p (files_under fs Source))
      as [Hin|Hnin].
    + destruct (files_under_kind fs Source p Hwf Hin) as (_ & a & Ka).
      rewrite (Hcopied a Hin Ka) in K. congruence.
    + apply (Hrest p d Hnin Hp) in K as [K Ho]. exfalso.
      destruct (kind_at fs (Source, p)) as [|a|] eqn:Ks.
      * revert Ho. unfold orphan. rewrite exists_b_kind, Ks. discriminate.
      * apply Hnin. eapply kind_files_under; eauto.
      * apply (clear_of_dirs_spec fs p Hclear); trivial.
        eapply kind_files_under; eauto.
  - intros [Hp K]. split; [exact Hp|]. apply Hcopied; trivial.
    eapply kind_files_under; eauto.
Qed.

End Mirror.

(** ** What a run makes of the replica *)


Lemma evolved_trans (a b c : filesystem) :
  evolved a b -> evolved b c -> evolved a c.
Proof.
  intros Hab Hbc Hwf.
  destruct (Hab Hwf) as (Hwfb & Hsb & Hfb & Hdb & Hkb & Hnb).
  destruct (Hbc Hwfb) as (Hwfc & Hsc & Hfc & Hdc & Hkc & Hnc).
  unfold same_source in *.
  assert (Hks : forall q, kind_at b (Source, q) = kind_at a (Source, q))
    by (intros q; now apply kind_at_same_root).
  split; [exact Hwfc|]. split; [congruence|]. split; [|split; [|split]].
  - intros q d Hq. destruct (Hfc q d Hq) as [E|[rest E]]; [auto|].
    right. exists rest. now rewrite <- Hks.
  - intros q Hq. destruct (Hdc q Hq) as [E|(p & Hp & Hqp)]; [auto|].
    right. exists p. split; [|exact Hqp].
    now rewrite <- (files_under_same_root a b Source Hsb).
  - auto.
  - intros q d Kq Ho. destruct (Hnb q d Kq Ho) as [d' Kb].
    apply (Hnc q d' Kb). now rewrite (orphan_same_root a b q Hsb).
Qed.

Section Evolution.

Variable hasher : Type.
Variable hash_new : hasher.
Variable hash_update : hasher -> list byte -> hasher.
Variable hexdigest : hasher -> string.
Variable F : faults.

Local Abbreviation copy_phase := (copy_files hash_new hash_update hexdigest F).
Local Abbreviation remove_phase := (remove_files F).
Local Abbreviation cycle := (synchronize_folders hash_new hash_update hexdigest F).

Lemma evolved_copy_files (s : state) :
  evolved (st_fs s) (st_fs (fst (copy_phase Source Replica s))).
Proof.
  intros Hwf.
  destruct (copy_files_spec hash_new hash_update hexdigest F s Hwf)
    as (s1 & l1 & l2 & cs & ec & Hrun1 & Hl & Hec & Hroot1 & Hwf1 & Hout1
        & Hdone & Hrest & _).
  destruct (copy_files_more hash_new hash_update hexdigest F s Hwf)
    as (os1 & _ & _ & Hcontent1 & _).
  rewrite Hrun1 in *. cbn [fst] in *.
  assert (Hin1 : forall q, In q l1 -> In q (files_under (st_fs s) Source))
    by (intros q Hq; rewrite Hl; apply in_or_app; now left).
  split; [exact Hwf1|]. split; [exact Hroot1|]. split; [|split; [|split]].
  - intros q d Hq. destruct (Hcontent1 q d Hq) as [E|(Hin & rest & E)]; [auto|].
    right. exists rest.
    destruct (files_under_kind _ Source q Hwf Hin) as (_ & a & Ka).
    unfold data_at in E. rewrite Ka in E. now rewrite Ka, E.
  - intros q Hq.
    destruct (in_dec (list_eq_dec string_dec) q l1) as [Hin|Hnin].
    + destruct (Hdone q Hin) as [Hnd E]. rewrite Hq in E.
      destruct (stale _ _ _ _ q); [discriminate|]. now elim Hnd.
    + destruct (Hrest q Hnin) as [E|[(_ & _ & p & Hp & Hpre)|(_ & _ & part & E)]].
      * left. congruence.
      * right. exists p. rewrite Hl. split; [exact Hp|].
        rewrite <- Hl in Hp.
        destruct (files_under_kind _ Source p Hwf Hp) as (Hne & _).
        destruct (exists_last Hne) as (pp & x & ->).
        rewrite removelast_last in Hpre. now apply ancestors_snoc.
      * congruence.
  - intros q Hq.
    destruct (in_dec (list_eq_dec string_dec) q l1) as [Hin|Hnin].
    + destruct (Hdone q Hin) as [Hnd _]. now elim Hnd.
    + destruct (Hrest q Hnin) as [E|[(E & _)|(_ & Hst & _)]];
        [congruence|congruence|].
      unfold stale in Hst. rewrite Hq in Hst. discriminate.
  - intros q d Kq _.
    destruct (in_dec (list_eq_dec string_dec) q l1) as [Hin|Hnin].
    + destruct (Hdone q Hin) as [_ E]. rewrite E.
      destruct (stale _ _ _ _ q); eauto.
    + destruct (Hrest q Hnin) as [E|[(E & _)|(_ & _ & part & E)]];
        [rewrite E; eauto|congruence|eauto].
Qed.

Lemma evolved_remove_files (s : state) :
  evolved (st_fs s) (st_fs (fst (remove_phase Replica Source s))).
Proof.
  intros Hwf.
  destruct (remove_files_spec F s Hwf)
    as (s2 & m1 & m2 & er & Hrun2 & Hm & Her & _ & Hroot2 & Hwf2 & _
        & _ & Hgone & Hkept).
  rewrite Hrun2. cbn [fst].
  assert (Hcase : forall q,
            kind_at (st_fs s2) (Replica, q) = kind_at (st_fs s) (Replica, q)
            \/ (kind_at (st_fs s2) (Replica, q) = KNone
                /\ orphan (st_fs s) q = true
                /\ exists d, kind_at (st_fs s) (Replica, q) = KFile d)).
  { intros q. destruct (orphan (st_fs s) q) eqn:Ho.
    - destruct (in_dec (list_eq_dec string_dec) q m1) as [Hin|Hnin].
      + right. split; [now apply Hgone|]. split; [reflexivity|].
        assert (Hq : In q (files_under (st_fs s) Replica))
          by (rewrite Hm; apply in_or_app; now left).
        now destruct (files_under_kind _ Replica q Hwf Hq).
      + left. apply Hkept. now intros [Hin _].
    - left. apply Hkept. intros [_ E]. congruence. }
  split; [exact Hwf2|]. split; [exact Hroot2|]. split; [|split; [|split]].
  - intros q d Hq. left. destruct (Hcase q) as [E|(E & _)]; congruence.
  - intros q Hq. left. destruct (Hcase q) as [E|(E & _)]; congruence.
  - intros q Hq. destruct (Hcase q) as [E|(_ & _ & d & E)]; congruence.
  - intros q d Kq Ho. exists d.
    destruct (Hcase q) as [E|(_ & E & _)]; congruence.
Qed.

Lemma evolved_synchronize_folders (s : state) :
  evolved (st_fs s) (st_fs (fst (cycle Source Replica s))).
Proof.
  rewrite synchronize_folders_run. cbn [fst emit st_fs].
  eapply evolved_trans; [apply evolved_copy_files|apply evolved_remove_files].
Qed.



End Evolution.

Lemma ancestors_removelast (q p : relpath) :
  In q (ancestors p) <-> p <> [] /\ prefixb q (removelast p) = true.
Proof.
  destruct p as [|a p'];
    [cbn [ancestors In]; split; [intros []|intros [H _]; now elim H]|].
  assert (Hne : a :: p' <> []) by discriminate.
  destruct (exists_last Hne) as (pp & x & ->).
  rewrite removelast_last, ancestors_snoc.
  split; [intros H; split; [now destruct pp|exact H]|now intros [_ H]].
Qed.

(** No file lies above a file. *)
Lemma no_file_above_a_file (fs : filesystem) (f : folder) (p q : relpath)
      (d d' : list byte) :
  kind_at fs (f, p) = KFile d -> kind_at fs (f, q) = KFile d' ->
  ~ In q (ancestors p).
Proof.
  intros Kp Kq Hq. apply ancestors_removelast in Hq as [Hne Hpre].
  rewrite (@files_prefix_free _ _ _ _ _ _ Kq Kp Hne) in Hpre. discriminate.
Qed.

Lemma evolved_conflict_free (fs fs' : filesystem) :
  wf_fs fs = true -> evolved fs fs' ->
  conflict_free fs = true -> conflict_free fs' = true.
Proof.
  intros Hwf He Hc. destruct (He Hwf) as (_ & Hs & Hf & Hd & _).
  unfold conflict_free in *. rewrite forallb_forall in *.
  rewrite (files_under_same_root fs fs' Source Hs).
  intros p Hp. specialize (Hc p Hp).
  destruct (files_under_kind fs Source p Hwf Hp) as (Hne & a & Ka).
  apply negb_true_iff in Hc. apply negb_true_iff.
  unfold in_the_way in *. apply orb_false_iff in Hc as [Hc1 Hc2].
  apply orb_false_iff. split.
  - rewrite isdir_b_kind in *.
    destruct (kind_at fs' (Replica, p)) eqn:K'; trivial.
    destruct (Hd p K') as [E|(p0 & Hp0 & Hin)].
    + now rewrite E in Hc1.
    + destruct (files_under_kind fs Source p0 Hwf Hp0) as (_ & a0 & Ka0).
      now elim (@no_file_above_a_file fs Source p0 p a0 a Ka0 Ka).
  - destruct (existsb (fun q => isfile_b fs' (Replica, q)) (ancestors p)) eqn:E;
      trivial.
    exfalso. apply existsb_exists in E as (q & Hq & Hfq).
    rewrite isfile_b_kind in Hfq.
    destruct (kind_at fs' (Replica, q)) as [|d|] eqn:K'; try discriminate.
    destruct (Hf q d K') as [E|[rest E]].
    + assert (Hex : existsb (fun q => isfile_b fs (Replica, q)) (ancestors p)
                    = true); [|congruence].
      apply existsb_exists. exists q. split; trivial.
      now rewrite isfile_b_kind, E.
    + now elim (@no_file_above_a_file fs Source p q a (d ++ rest) Ka E).
Qed.


(** ** A source that is not a directory *)


(** ** A cycle that logs nothing but its completion *)

Section Silence.

Variable hasher : Type.
Variable hash_new : hasher.
Variable hash_update : hasher -> list byte -> hasher.
Variable hexdigest : hasher -> string.
Variable F : faults.

Local Abbreviation cycle_ := (run_cycle hash_new hash_update hexdigest F).

Lemma silent_cycle (fs : filesystem) :
  wf_fs fs = true ->
  st_out (cycle_ fs) = [LogInfo SyncCompleted] ->
  st_fs (cycle_ fs) = fs
  /\ st_calls (cycle_ fs)
     = map (fun p => Makedirs (Replica, removelast p)) (files_under fs Source).
Proof.
  intros Hwf. unfold run_cycle. rewrite synchronize_folders_run.
  cbn [fst emit st_fs st_out st_calls].
  destruct (copy_files_spec hash_new hash_update hexdigest F (initial fs) Hwf)
    as (s1 & l1 & l2 & cs & ec & Hrun1 & _ & _ & _ & Hwf1 & _).
  destruct (copy_files_more hash_new hash_update hexdigest F (initial fs) Hwf)
    as (os1 & Ho1 & _ & _ & Hsame1).
  rewrite Hrun1 in *. cbn [fst] in *.
  destruct (remove_files_more F s1 Hwf1) as (os2 & Ho2 & _ & Hsame2).
  cbn [initial st_fs st_out app] in *.
  rewrite Ho2, Ho1. intros Hout.
  assert (Hnil : os1 ++ os2 = []).
  { apply (app_inv_tail [LogInfo SyncCompleted]). exact Hout. }
  apply app_eq_nil in Hnil as [-> ->].
  rewrite (Hsame2 eq_refl). now apply Hsame1.
Qed.

End Silence.

(** ** The digest of a file *)

Section Streaming.

Variable hasher : Type.
Variable hash_new : hasher.
Variable hash_update : hasher -> list byte -> hasher.
Variable hexdigest : hasher -> string.

Hypothesis update_app :
  forall h a b, hash_update (hash_update h a) b = hash_update h (a ++ b).

Lemma fold_left_update (cs : list (list byte)) :
  forall c h,
    fold_left hash_update cs (hash_update h c) = hash_update h (c ++ concat cs).
Proof.
  induction cs as [|c' cs IH]; intros c h; cbn [fold_left concat].
  - now rewrite app_nil_r.
  - now rewrite update_app, IH, app_assoc.
Qed.

(** Feeding the content in pieces gives the digest of the content fed at
    once; the empty content gives the digest of the fresh hasher. *)
Lemma fingerprint_whole (d : list byte) :
  fingerprint hash_new hash_update hexdigest d
  = match d with
    | [] => hexdigest hash_new
    | _ :: _ => hexdigest (hash_update hash_new d)
    end.
Proof.
  unfold fingerprint.
  pose proof (@chunks_concat chunk_size (S (length d)) chunk_size_pos d
                (Nat.lt_succ_diag_r _)) as Hc.
  destruct (chunks (S (length d)) chunk_size d) as [|c cs] eqn:E.
  - cbn [concat] in Hc. subst d. reflexivity.
  - cbn [fold_left]. rewrite fold_left_update. cbn [concat] in Hc. rewrite Hc.
    destruct d as [|b d']; [|reflexivity].
    cbn [length chunks] in E. rewrite firstn_nil in E. discriminate.
Qed.

End Streaming.

(** ** The calls of [main] besides those on the replica *)

Section MainCalls.

Variable hasher : Type.
Variable hash_new : hasher.
Variable hash_update : hasher -> list byte -> hasher.
Variable hexdigest : hasher -> string.
Variable F : faults.

Local Abbreviation cycle := (synchronize_folders hash_new hash_update hexdigest F).

(** A cycle neither sets up logging nor sleeps, and the handler of
    [synchronize_folders] writes nothing. *)
Lemma cycle_calls (s : state) :
  exists cs os,
    st_calls (fst (cycle Source Replica s)) = st_calls s ++ cs
    /\ Forall (fun c => is_setup_or_sleep c = false) cs
    /\ st_out (fst (cycle Source Replica s)) = st_out s ++ os
    /\ Forall (fun o => is_sync_failed o = false) os.
Proof.
  rewrite synchronize_folders_run. cbn [fst emit st_calls st_out].
  destruct (copy_files hash_new hash_update hexdigest F Source Replica s)
    as [s1 r1] eqn:H1.
  cbn [fst].
  destruct (remove_files F Replica Source s1) as [s2 r2] eqn:H2. cbn [fst].
  assert (C1 : confined (fun _ _ => True) (fun c => is_setup_or_sleep c = false)
                 (fun o => is_sync_failed o = false)
                 (copy_files hash_new hash_update hexdigest F Source Replica)).
  { apply confined_copy_files; auto. }
  assert (C2 : confined (fun _ _ => True) (fun c => is_setup_or_sleep c = false)
                 (fun o => is_sync_failed o = false)
                 (remove_files F Replica Source)).
  { apply confined_remove_files; auto. }
  destruct (C1 _ _ _ H1) as (_ & cs1 & os1 & Hc1 & HP1 & Ho1 & HQ1).
  destruct (C2 _ _ _ H2) as (_ & cs2 & os2 & Hc2 & HP2 & Ho2 & HQ2).
  exists (cs1 ++ cs2), (os1 ++ os2 ++ [LogInfo SyncCompleted]).
  rewrite Hc2, Hc1, Ho2, Ho1, <- !app_assoc.
  split; [reflexivity|]. split; [apply Forall_app; auto|].
  split; [reflexivity|]. apply Forall_app. split; trivial.
  apply Forall_app. split; trivial. now constructor.
Qed.

Lemma loop_calls (interval cycles : nat) :
  forall s,
    exists s',
      while_true cycles
        (cycle Source Replica ;; time_sleep (interval * 60)) s = (s', Ok tt)
      /\ filter is_setup_or_sleep (st_calls s')
         = filter is_setup_or_sleep (st_calls s)
           ++ repeat (Sleep (interval * 60)) cycles
      /\ (0 < cycles -> exists cs, st_calls s' = cs ++ [Sleep (interval * 60)])
      /\ (existsb is_sync_failed (st_out s) = false ->
          existsb is_sync_failed (st_out s') = false).
Proof.
  induction cycles as [|n IH]; intros s; cbn [while_true repeat].
  - exists s. rewrite app_nil_r. repeat split; auto. lia.
  - unfold bind at 1. unfold bind at 1.
    destruct (cycle_calls s) as (cs & os & Hc & HP & Ho & HQ).
    rewrite synchronize_folders_run in *. cbn [fst] in *.
    unfold time_sleep at 1.
    set (s1 := note (Sleep (interval * 60)) _).
    destruct (IH s1) as (s' & Hrun & Hf & Hlast & Hnf).
    exists s'. split; [exact Hrun|].
    assert (Hcs : filter is_setup_or_sleep cs = []).
    { apply filter_none. now apply Forall_forall. }
    split; [|split].
    + rewrite Hf. cbn [s1 note st_calls]. rewrite Hc, !filter_app, Hcs.
      cbn [filter is_setup_or_sleep app]. now rewrite app_nil_r, <- app_assoc.
    + intros _. destruct n as [|n].
      * cbn [while_true] in Hrun. injection Hrun as <-.
        cbn [s1 note st_calls]. eauto.
      * apply Hlast. lia.
    + intros Hs. apply Hnf. cbn [s1 note st_out]. rewrite Ho, existsb_app, Hs.
      cbn [orb]. apply not_true_is_false. intros E.
      apply existsb_exists in E as (o & Hin & Hsf).
      rewrite Forall_forall in HQ. now rewrite (HQ o Hin) in Hsf.
Qed.

End MainCalls.

(** ** The first obstacle of the copy phase *)

Section FirstObstacle.

Variable hasher : Type.
Variable hash_new : hasher.
Variable hash_update : hasher -> list byte -> hasher.
Variable hexdigest : hasher -> string.
Variable F : faults.

Local Abbreviation copy1 := (copy_one hash_new hash_update hexdigest F).
Local Abbreviation stale_ := (stale hash_new hash_update hexdigest).



End FirstObstacle.

(** ** Two cycles in a row *)

Section Twice.

Variable hasher : Type.
Variable hash_new : hasher.
Variable hash_update : hasher -> list byte -> hasher.
Variable hexdigest : hasher -> string.

Lemma clean_cycle_twice (F : faults) (fs : filesystem) :
  wf_fs fs = true ->
  no_error (st_out (run_cycle hash_new hash_update hexdigest F fs)) = true ->
  no_error
    (st_out (run_cycle hash_new hash_update hexdigest F
               (st_fs (run_cycle hash_new hash_update hexdigest F fs)))) = true ->
  st_out (run_cycle hash_new hash_update hexdigest F
            (st_fs (run_cycle hash_new hash_update hexdigest F fs)))
  = [LogInfo SyncCompleted]
  /\ st_fs (run_cycle hash_new hash_update hexdigest F
              (st_fs (run_cycle hash_new hash_update hexdigest F fs)))
     = st_fs (run_cycle hash_new hash_update hexdigest F fs).
Proof.
  intros Hwf Hne1 Hne2.
  destruct (clean_cycle hash_new hash_update hexdigest F fs Hwf Hne1)
    as (Hwf1 & Hsame & Hsrc & Hrest).
  set (fs1 := st_fs (run_cycle hash_new hash_update hexdigest F fs)) in *.
  assert (Hfiles : files_under fs1 Source = files_under fs Source)
    by (now apply files_under_same_root).
  assert (Hout : st_out (run_cycle hash_new hash_update hexdigest F fs1)
                 = [LogInfo SyncCompleted]).
  { destruct (clean_cycle_trace hash_new hash_update hexdigest F fs1 Hwf1 Hne2)
      as [-> _].
    rewrite Hfiles, !filter_none; [reflexivity| |].
    - intros q Hq.
      destruct (files_under_kind fs1 Replica q Hwf1 Hq) as (Hq0 & d & Kd).
      rewrite (orphan_same_root _ _ q Hsame).
      destruct (in_dec (list_eq_dec string_dec) q (files_under fs Source))
        as [Hin|Hnin].
      + destruct (files_under_kind fs Source q Hwf Hin) as (_ & a & Ka).
        now apply (orphan_not_source_file _ _ Ka).
      + now apply (Hrest q d Hnin Hq0).
    - intros p Hp. destruct (Hsrc p Hp) as [Hnd E].
      unfold stale in *. rewrite E, (data_at_same_root _ _ _ p Hsame).
      destruct (needs_copy hash_new hash_update hexdigest
                  (kind_at fs (Replica, p)) (data_at fs (Source, p))) eqn:Hs;
        [|exact Hs].
      cbn [needs_copy]. now rewrite String.eqb_refl. }
  split; [exact Hout|].
  now apply (silent_cycle hash_new hash_update hexdigest F fs1 Hwf1 Hout).
Qed.

Lemma fault_free_cycle_twice (fs : filesystem) :
  wf_fs fs = true ->
  conflict_free fs = true ->
  st_out (run_cycle hash_new hash_update hexdigest no_faults
            (st_fs (run_cycle hash_new hash_update hexdigest no_faults fs)))
  = [LogInfo SyncCompleted]
  /\ st_fs (run_cycle hash_new hash_update hexdigest no_faults
              (st_fs (run_cycle hash_new hash_update hexdigest no_faults fs)))
     = st_fs (run_cycle hash_new hash_update hexdigest no_faults fs).
Proof.
  intros Hwf Hcf.
  assert (Hne1 : no_error
                   (st_out (run_cycle hash_new hash_update hexdigest no_faults fs))
                 = true).
  { now rewrite cycle_errors, cycle_unhindered_no_faults. }
  apply clean_cycle_twice; trivial.
  destruct (clean_cycle hash_new hash_update hexdigest no_faults fs Hwf Hne1)
    as (Hwf1 & _).
  rewrite cycle_errors, cycle_unhindered_no_faults by trivial.
  apply (@evolved_conflict_free fs _ Hwf); trivial.
  unfold run_cycle.
  apply (evolved_synchronize_folders hash_new hash_update hexdigest no_faults
           (initial fs)).
Qed.

End Twice.

(** ** Computations that do not read the log *)

Lemma rebase_initial (s : state) : rebase s (initial (st_fs s)) = s.
Proof. destruct s. unfold rebase, initial. cbn. now rewrite !app_nil_r. Qed.

Lemma rebase_rebase (s t u : state) :
  rebase (rebase s t) u = rebase s (rebase t u).
Proof. unfold rebase. cbn. now rewrite !app_assoc. Qed.

Lemma oblivious_ret {A : Type} (a : A) : oblivious (ret a).
Proof. intros s. unfold ret. cbn [fst snd]. now rewrite rebase_initial. Qed.

Lemma oblivious_bind {A B : Type} (m : M A) (k : A -> M B) :
  oblivious m -> (forall a, oblivious (k a)) -> oblivious (bind m k).
Proof.
  intros Hm Hk s. unfold bind. rewrite (Hm s).
  destruct (m (initial (st_fs s))) as [t [a|e]]; cbn [fst snd]; trivial.
  rewrite (Hk a (rebase s t)), (Hk a t). cbn [rebase st_fs].
  destruct (k a (initial (st_fs t))) as [u r]. cbn [fst snd].
  now rewrite rebase_rebase.
Qed.

Lemma oblivious_try_except {A : Type} (m : M A) (handler : exn -> M A) :
  oblivious m -> (forall e, oblivious (handler e)) ->
  oblivious (try_except m handler).
Proof.
  intros Hm Hh s. unfold try_except. rewrite (Hm s).
  destruct (m (initial (st_fs s))) as [t [a|e]]; cbn [fst snd]; trivial.
  rewrite (Hh e (rebase s t)), (Hh e t). cbn [rebase st_fs].
  destruct (handler e (initial (st_fs t))) as [u r]. cbn [fst snd].
  now rewrite rebase_rebase.
Qed.

Lemma oblivious_for_each {A : Type} (l : list A) (body : A -> M unit) :
  (forall x, oblivious (body x)) -> oblivious (for_each l body).
Proof.
  intros H. induction l as [|x l IH]; cbn [for_each].
  - apply oblivious_ret.
  - apply oblivious_bind; auto.
Qed.

Section ObliviousProgram.

Variable hasher : Type.
Variable hash_new : hasher.
Variable hash_update : hasher -> list byte -> hasher.
Variable hexdigest : hasher -> string.
Variable F : faults.

Lemma oblivious_emit (o : output) : oblivious (fun s => (emit o s, Ok tt)).
Proof.
  intros s. unfold rebase, emit, initial. cbn. now rewrite app_nil_r.
Qed.

Lemma oblivious_read {A : Type} (f : filesystem -> result A) :
  oblivious (fun s => (s, f (st_fs s))).
Proof. intros s. cbn [fst snd initial st_fs]. now rewrite rebase_initial. Qed.

Lemma oblivious_os_makedirs (p : path) : oblivious (os_makedirs p).
Proof.
  intros s. unfold os_makedirs. cbn [note st_fs initial].
  destruct (makedirs (st_fs s) p) as [fs'|e]; cbn [fst snd]; unfold rebase, with_fs, note;
    cbn [st_fs st_out st_calls initial app]; now rewrite app_nil_r.
Qed.

Lemma oblivious_shutil_copy2 (src dst : path) : oblivious (shutil_copy2 F src dst).
Proof.
  intros s. unfold shutil_copy2. cbn [note st_fs initial].
  destruct (copy2 F (st_fs s) src dst) as [fs' r]; cbn [fst snd]; unfold rebase, with_fs, note;
    cbn [st_fs st_out st_calls initial app]; now rewrite app_nil_r.
Qed.

Lemma oblivious_os_remove (p : path) : oblivious (os_remove F p).
Proof.
  intros s. unfold os_remove. cbn [note st_fs initial].
  destruct (remove F (st_fs s) p) as [fs'|e]; cbn [fst snd]; unfold rebase, with_fs, note;
    cbn [st_fs st_out st_calls initial app]; now rewrite app_nil_r.
Qed.

Lemma oblivious_hash_loop (fuel : nat) :
  forall h file, oblivious (hash_loop hash_update F fuel h file).
Proof.
  induction fuel as [|fuel IH]; intros h file; cbn [hash_loop].
  - apply oblivious_ret.
  - apply oblivious_bind.
    + unfold read_. apply (oblivious_read (fun _ => file_read F chunk_size file)).
    + intros r. destruct (fst r); [apply oblivious_ret|apply IH].
Qed.

Lemma oblivious_calculate_hash (p : path) :
  oblivious (calculate_hash hash_new hash_update hexdigest F p).
Proof.
  unfold calculate_hash. apply oblivious_bind.
  - unfold open_. apply (oblivious_read (fun fs => open_rb F fs p)).
  - intros file. apply oblivious_bind; [apply oblivious_hash_loop|].
    intros h. apply oblivious_ret.
Qed.

Lemma oblivious_are_files_different (a b : path) :
  oblivious (are_files_different hash_new hash_update hexdigest F a b).
Proof.
  unfold are_files_different.
  apply oblivious_bind; [apply oblivious_calculate_hash|]. intros ha.
  apply oblivious_bind; [apply oblivious_calculate_hash|]. intros hb.
  apply oblivious_ret.
Qed.

Lemma oblivious_copy_files (sf rf : folder) :
  oblivious (copy_files hash_new hash_update hexdigest F sf rf).
Proof.
  unfold copy_files. apply oblivious_try_except.
  - apply oblivious_bind.
    + unfold os_walk. apply (oblivious_read (fun fs => Ok (walk fs (sf, [])))).
    + intros triples. apply oblivious_for_each. intros [[root dirs] files].
      apply oblivious_for_each. intros file.
      apply oblivious_bind; [apply oblivious_os_makedirs|]. intros _.
      apply oblivious_bind.
      { unfold os_path_exists.
        apply (oblivious_read (fun fs => Ok (exists_b fs _))). }
      intros present. apply oblivious_bind.
      { destruct (negb present);
          [apply oblivious_ret|apply oblivious_are_files_different]. }
      intros [|]; [|apply oblivious_ret].
      apply oblivious_bind; [apply oblivious_shutil_copy2|]. intros _.
      apply oblivious_emit.
  - intros e. apply oblivious_bind; [apply oblivious_emit|]. intros _.
    apply oblivious_emit.
Qed.

Lemma oblivious_remove_files (rf sf : folder) :
  oblivious (remove_files F rf sf).
Proof.
  unfold remove_files. apply oblivious_try_except.
  - apply oblivious_bind.
    + unfold os_walk. apply (oblivious_read (fun fs => Ok (walk fs (rf, [])))).
    + intros triples. apply oblivious_for_each. intros [[root dirs] files].
      apply oblivious_for_each. intros file.
      apply oblivious_bind.
      { unfold os_path_exists.
        apply (oblivious_read (fun fs => Ok (exists_b fs _))). }
      intros present. destruct (negb present); [|apply oblivious_ret].
      apply oblivious_bind; [apply oblivious_os_remove|]. intros _.
      apply oblivious_emit.
  - intros e. apply oblivious_bind; [apply oblivious_emit|]. intros _.
    apply oblivious_emit.
Qed.

Lemma oblivious_synchronize_folders (sf rf : folder) :
  oblivious (synchronize_folders hash_new hash_update hexdigest F sf rf).
Proof.
  unfold synchronize_folders. apply oblivious_try_except.
  - apply oblivious_bind; [apply oblivious_copy_files|]. intros _.
    apply oblivious_bind; [apply oblivious_remove_files|]. intros _.
    apply oblivious_emit.
  - intros e. apply oblivious_bind; [apply oblivious_emit|]. intros _.
    apply oblivious_emit.
Qed.

End ObliviousProgram.

(** ** The loop of [main], one more iteration *)

Lemma while_true_snoc (body : M unit) (n : nat) :
  forall s, while_true (S n) body s = (while_true n body ;; body) s.
Proof.
  induction n as [|n IH]; intros s.
  - cbn [while_true]. unfold bind, ret. now destruct (body s) as [s1 [[]|e]].
  - cbn [while_true] in *.
    assert (E : forall m1 m2 m3 : M unit,
              ((m1 ;; m2) ;; m3) s = (m1 ;; (m2 ;; m3)) s).
    { intros m1 m2 m3. unfold bind. now destruct (m1 s) as [s1 [[]|e]]. }
    rewrite E. unfold bind at 1 3.
    destruct (body s) as [s1 [[]|e]]; [|reflexivity].
    apply IH.
Qed.

Section MainStep.

Variable hasher : Type.
Variable hash_new : hasher.
Variable hash_update : hasher -> list byte -> hasher.
Variable hexdigest : hasher -> string.
Variable F : faults.

Local Abbreviation run_main_ := (run_main hash_new hash_update hexdigest F).
Local Abbreviation run_cycle_ := (run_cycle hash_new hash_update hexdigest F).

Lemma run_main_loop (interval n : nat) (fs : filesystem) :
  exists_b fs (Source, []) = true -> exists_b fs (Replica, []) = true ->
  run_main_ interval n fs
  = fst (while_true n
           (synchronize_folders hash_new hash_update hexdigest F Source Replica ;;
            time_sleep (interval * 60))
           (note SetupLogging (initial fs))).
Proof.
  intros H1 H2.
  destruct (loop_completes hash_new hash_update hexdigest F interval n
              (note SetupLogging (initial fs)))
    as (s' & cs & Hrun & _).
  rewrite Hrun.
  unfold run_main, main, bind, os_path_exists, setup_logging, ret.
  cbn [initial st_fs]. rewrite H1. cbn [negb st_fs initial]. rewrite H2.
  cbn [negb]. unfold bind in Hrun. now rewrite Hrun.
Qed.

(** One more iteration of the loop: a cycle run on the file system the
    iterations before have left, then the sleep. *)
Lemma run_main_succ (interval n : nat) (fs : filesystem) :
  exists_b fs (Source, []) = true -> exists_b fs (Replica, []) = true ->
  run_main_ interval (S n) fs
  = note (Sleep (interval * 60))
      (rebase (run_main_ interval n fs)
         (run_cycle_ (st_fs (run_main_ interval n fs)))).
Proof.
  intros H1 H2. rewrite !run_main_loop by trivial.
  rewrite while_true_snoc. unfold bind at 1.
  destruct (loop_completes hash_new hash_update hexdigest F interval n
              (note SetupLogging (initial fs)))
    as (s' & cs & Hrun & _).
  rewrite Hrun. cbn [fst]. unfold bind at 1.
  rewrite (oblivious_synchronize_folders hash_new hash_update hexdigest F
             Source Replica s').
  rewrite synchronize_folders_run. cbn [fst snd]. unfold time_sleep.
  cbn [fst]. unfold run_cycle. rewrite synchronize_folders_run. reflexivity.
Qed.

End MainStep.

(** * Further theorems *)















(** X9. For a hasher whose state only depends on the bytes fed so far,
    however they are cut, [calculate_hash] returns the digest of the
    content of the file fed at once: reading in pieces of 64 KiB does not
    show in the result.  An empty file gets the digest of the fresh
    hasher.  The call leaves the state as it was. *)
Theorem calculate_hash_does_not_depend_on_the_chunks (hasher : Type)
    (hash_new : hasher) (hash_update : hasher -> list byte -> hasher)
    (hexdigest : hasher -> string) (F : faults) (s : state) (p : path)
    (d : list byte) :
  (forall h a b, hash_update (hash_update h a) b = hash_update h (a ++ b)) ->
  kind_at (st_fs s) p = KFile d ->
  readable F p d = true ->
  calculate_hash hash_new hash_update hexdigest F p s
  = (s, Ok match d with
           | [] => hexdigest hash_new
           | _ :: _ => hexdigest (hash_update hash_new d)
           end).
Proof.
  intros Happ Hk Hr.
  rewrite (calculate_hash_ok hash_new hash_update hexdigest F p s Hk Hr).
  now rewrite fingerprint_whole.
Qed.

Lemma calculate_hash_does_not_depend_on_the_chunks_witness :
  let s := initial {| source_root := Some (Dir [("a"%string, File [x01; x02])]);
                      replica_root := None |} in
  calculate_hash [] plain_update plain_digest no_faults (Source, ["a"%string]) s
  = (s, Ok (plain_digest (plain_update [] [x01; x02]))).
Proof.
  intros s.
  apply (@calculate_hash_does_not_depend_on_the_chunks (list byte) []
           plain_update plain_digest no_faults s (Source, ["a"%string])
           [x01; x02]).
  - intros h a b. unfold plain_update. symmetry. apply app_assoc.
  - reflexivity.
  - reflexivity.
Defined.

(** X10. [are_files_different] answers [True] only for two regular files
    that both could be read to their end and whose contents differ; it
    never changes the state; and when it returns, it returns the same
    answer with its two arguments exchanged. *)
Theorem are_files_different_is_sound (hasher : Type) (hash_new : hasher)
    (hash_update : hasher -> list byte -> hasher) (hexdigest : hasher -> string)
    (F : faults) (s s' : state) (a b : path) (v : bool) :
  are_files_different hash_new hash_update hexdigest F a b s = (s', Ok v) ->
  s' = s
  /\ are_files_different hash_new hash_update hexdigest F b a s = (s, Ok v)
  /\ exists da db,
       kind_at (st_fs s) a = KFile da /\ kind_at (st_fs s) b = KFile db
       /\ readable F a da = true /\ readable F b db = true
       /\ (v = true -> da <> db).
Proof.
  intros H.
  destruct (are_files_different_cases hash_new hash_update hexdigest F a b s)
    as [(da & db & Ka & Kb & Ra & Rb & Hd)|[e He]]; [|congruence].
  rewrite Hd in H. injection H as <- <-. split; [reflexivity|]. split.
  - destruct (are_files_different_run hash_new hash_update hexdigest F b a s Kb Ka)
      as [Hboth _].
    rewrite Hboth by (now rewrite Ra, Rb). now rewrite String.eqb_sym.
  - exists da, db. repeat split; trivial.
    intros Hv ->. now rewrite String.eqb_refl in Hv.
Qed.

Lemma are_files_different_is_sound_witness :
  let s := initial {| source_root := Some (Dir [("a"%string, File [x01; x02])]);
                      replica_root := Some (Dir [("a"%string, File [x01])]) |} in
  s = s
  /\ are_files_different [] plain_update plain_digest no_faults
       (Replica, ["a"%string]) (Source, ["a"%string]) s = (s, Ok true)
  /\ exists da db,
       kind_at (st_fs s) (Source, ["a"%string]) = KFile da
       /\ kind_at (st_fs s) (Replica, ["a"%string]) = KFile db
       /\ readable no_faults (Source, ["a"%string]) da = true
       /\ readable no_faults (Replica, ["a"%string]) db = true
       /\ (true = true -> da <> db).
Proof.
  intros s.
  apply (@are_files_different_is_sound (list byte) [] plain_update plain_digest
           no_faults s s (Source, ["a"%string]) (Replica, ["a"%string]) true).
  vm_compute. reflexivity.
Defined.

(** X11. When both folders exist, [main] calls [setup_logging] once,
    before the first cycle, and [time.sleep] once after every cycle,
    whether the cycle reported errors or not, each time for [interval]
    times sixty seconds; the last call of the run is such a sleep.  The
    handler of [synchronize_folders] never writes anything: no run prints
    or logs its message. *)
Theorem main_sleeps_after_every_cycle (hasher : Type) (hash_new : hasher)
    (hash_update : hasher -> list byte -> hasher) (hexdigest : hasher -> string)
    (F : faults) (interval cycles : nat) (fs : filesystem) :
  exists_b fs (Source, []) = true ->
  exists_b fs (Replica, []) = true ->
  filter is_setup_or_sleep
    (st_calls (run_main hash_new hash_update hexdigest F interval cycles fs))
  = SetupLogging :: repeat (Sleep (interval * 60)) cycles
  /\ (0 < cycles ->
      exists cs,
        st_calls (run_main hash_new hash_update hexdigest F interval cycles fs)
        = cs ++ [Sleep (interval * 60)])
  /\ existsb is_sync_failed
       (st_out (run_main hash_new hash_update hexdigest F interval cycles fs))
     = false.
Proof.
  intros H1 H2.
  unfold run_main, main, bind, os_path_exists, print, setup_logging, ret.
  cbn [initial st_fs]. rewrite H1. cbn [negb st_fs initial]. rewrite H2.
  cbn [negb].
  destruct (loop_calls hash_new hash_update hexdigest F interval cycles
              (note SetupLogging (initial fs)))
    as (s' & Hrun & Hf & Hlast & Hnf).
  unfold bind in Hrun. rewrite Hrun. cbn [fst snd].
  split; [exact Hf|]. split; [exact Hlast|]. now apply Hnf.
Qed.

Lemma main_sleeps_after_every_cycle_witness :
  let fs := {| source_root := Some (Dir [("a"%string, File [x01])]);
               replica_root := Some (Dir [("a"%string, Dir [])]) |} in
  filter is_setup_or_sleep
    (st_calls (run_main [] plain_update plain_digest no_faults 5 3 fs))
  = SetupLogging :: repeat (Sleep (5 * 60)) 3
  /\ (0 < 3 ->
      exists cs,
        st_calls (run_main [] plain_update plain_digest no_faults 5 3 fs)
        = cs ++ [Sleep (5 * 60)])
  /\ existsb is_sync_failed
       (st_out (run_main [] plain_update plain_digest no_faults 5 3 fs))
     = false.
Proof.
  intros fs.
  apply (@main_sleeps_after_every_cycle (list byte) [] plain_update plain_digest
           no_faults 5 3 fs); reflexivity.
Defined.











(** ** A replica file that equals its source file *)

Section UpToDate.

Variable hasher : Type.
Variable hash_new : hasher.
Variable hash_update : hasher -> list byte -> hasher.
Variable hexdigest : hasher -> string.
Variable F : faults.

Local Abbreviation cycle := (synchronize_folders hash_new hash_update hexdigest F).



End UpToDate.



(** X18. Nothing but the file system is carried from one cycle of [main]
    to the next: the iteration after [n] iterations does to the file
    system, prints, logs and calls what a call of [synchronize_folders]
    does on the file system these iterations have left, whatever has been
    printed, logged and called before, and then sleeps. *)
Theorem main_repeats_the_cycle (hasher : Type) (hash_new : hasher)
    (hash_update : hasher -> list byte -> hasher) (hexdigest : hasher -> string)
    (F : faults) (interval n : nat) (fs : filesystem) :
  exists_b fs (Source, []) = true ->
  exists_b fs (Replica, []) = true ->
  run_main hash_new hash_update hexdigest F interval 0 fs
  = {| st_fs := fs; st_out := []; st_calls := [SetupLogging] |}
  /\ st_fs (run_main hash_new hash_update hexdigest F interval (S n) fs)
     = st_fs (run_cycle hash_new hash_update hexdigest F
                (st_fs (run_main hash_new hash_update hexdigest F interval n fs)))
  /\ st_out (run_main hash_new hash_update hexdigest F interval (S n) fs)
     = st_out (run_main hash_new hash_update hexdigest F interval n fs)
       ++ st_out (run_cycle hash_new hash_update hexdigest F
                    (st_fs (run_main hash_new hash_update hexdigest F
                              interval n fs)))
  /\ st_calls (run_main hash_new hash_update hexdigest F interval (S n) fs)
     = st_calls (run_main hash_new hash_update hexdigest F interval n fs)
       ++ st_calls (run_cycle hash_new hash_update hexdigest F
                      (st_fs (run_main hash_new hash_update hexdigest F
                                interval n fs)))
       ++ [Sleep (interval * 60)].
Proof.
  intros H1 H2. split.
  - rewrite run_main_loop by trivial. reflexivity.
  - rewrite (run_main_succ hash_new hash_update hexdigest F interval n fs H1 H2).
    cbn [note rebase st_fs st_out st_calls]. rewrite <- app_assoc. auto.
Qed.

Lemma main_repeats_the_cycle_witness :
  let fs := {| source_root := Some (Dir [("a"%string, File [x01]);
                                         ("b"%string, File [x02])]);
               replica_root := Some (Dir [("b"%string, Dir []);
                                          ("old"%string, File [x03])]) |} in
  run_main [] plain_update plain_digest no_faults 2 0 fs
  = {| st_fs := fs; st_out := []; st_calls := [SetupLogging] |}
  /\ st_fs (run_main [] plain_update plain_digest no_faults 2 3 fs)
     = st_fs (run_cycle [] plain_update plain_digest no_faults
                (st_fs (run_main [] plain_update plain_digest no_faults 2 2 fs)))
  /\ st_out (run_main [] plain_update plain_digest no_faults 2 3 fs)
     = st_out (run_main [] plain_update plain_digest no_faults 2 2 fs)
       ++ st_out (run_cycle [] plain_update plain_digest no_faults
                    (st_fs (run_main [] plain_update plain_digest no_faults
                              2 2 fs)))
  /\ st_calls (run_main [] plain_update plain_digest no_faults 2 3 fs)
     = st_calls (run_main [] plain_update plain_digest no_faults 2 2 fs)
       ++ st_calls (run_cycle [] plain_update plain_digest no_faults
                      (st_fs (run_main [] plain_update plain_digest no_faults
                                2 2 fs)))
       ++ [Sleep (2 * 60)].
Proof.
  intros fs.
  apply (@main_repeats_the_cycle (list byte) [] plain_update plain_digest
           no_faults 2 2 fs); reflexivity.
Defined.

(** * The program on any two folders *)

(** [main] takes any two existing paths as its folders.  This part is
    about [Anywhere], the program on any two paths: what it changes lies
    below the replica folder, and on two folders that lie apart, whose
    directories can all be listed, it does what the program of the first
    part does on the two trees. *)

(** ** Paths that are not comparable *)

Lemma crossing_cons (x y : name) (p q : relpath) :
  crossing (x :: p) (y :: q) = String.eqb x y && crossing p q.
Proof.
  unfold crossing. cbn [prefixb]. rewrite (String.eqb_sym y x).
  now destruct (String.eqb x y).
Qed.

Lemma lookup_fresh_dirs_apart (p q : relpath) :
  crossing p q = false -> lookup (fresh_dirs p) q = None.
Proof.
  revert q. induction p as [|x p IH]; intros [|y q]; try (now cbn).
  rewrite crossing_cons. cbn [fresh_dirs lookup entry].
    destruct (String.eqb_spec x y) as [->|Hxy]; cbn [andb].
    + rewrite String.eqb_refl. apply IH.
    + intros _. rewrite (proj2 (String.eqb_neq y x)) by congruence. reflexivity.
Qed.

Lemma lookup_mkdirs_apart (who : path) (p : relpath) :
  forall n n' q, mkdirs who n p = Ok n' -> crossing p q = false ->
  lookup n' q = lookup n q.
Proof.
  induction p as [|x p IH]; intros n n' q H Hq.
  - now cbn in Hq.
  - destruct q as [|y q]; [now cbn in Hq|]. rewrite crossing_cons in Hq.
    cbn [mkdirs] in H. destruct n as [d|es]; [discriminate|].
    destruct (entry x es) as [c|] eqn:Ex.
    + destruct (mkdirs who c p) as [c'|e] eqn:Hc; [|discriminate].
      injection H as <-. cbn [lookup].
      destruct (String.eqb_spec x y) as [->|Hxy]; cbn [andb] in Hq.
      * rewrite entry_set_entry_same, Ex. eauto.
      * rewrite entry_set_entry_other by congruence. reflexivity.
    + injection H as <-. cbn [lookup].
      destruct (String.eqb_spec x y) as [->|Hxy]; cbn [andb] in Hq.
      * rewrite entry_set_entry_same, Ex. now apply lookup_fresh_dirs_apart.
      * rewrite entry_set_entry_other by congruence. reflexivity.
Qed.

Lemma lookup_write_node_apart (who : path) (d : list byte) (p : relpath) :
  forall n n' q, write_node who n p d = Ok n' -> crossing p q = false ->
  lookup n' q = lookup n q.
Proof.
  induction p as [|x p IH]; intros n n' q H Hq.
  - now cbn in Hq.
  - destruct q as [|y q]; [now cbn in Hq|]. rewrite crossing_cons in Hq.
    cbn [write_node] in H. destruct n as [d0|es]; [discriminate|].
    destruct (entry x es) as [c|] eqn:Ex.
    + destruct (write_node who c p d) as [c'|e] eqn:Hc; [|discriminate].
      injection H as <-. cbn [lookup].
      destruct (String.eqb_spec x y) as [->|Hxy]; cbn [andb] in Hq.
      * rewrite entry_set_entry_same, Ex. eauto.
      * rewrite entry_set_entry_other by congruence. reflexivity.
    + destruct p as [|z p]; [|discriminate]. injection H as <-. cbn [lookup].
      destruct (String.eqb_spec x y) as [->|Hxy]; cbn [andb] in Hq.
      * discriminate.
      * rewrite entry_set_entry_other by congruence. reflexivity.
Qed.

Lemma lookup_remove_at_apart (p : relpath) :
  forall n q, crossing p q = false -> lookup (remove_at n p) q = lookup n q.
Proof.
  induction p as [|x p IH]; intros n q Hq.
  - now cbn in Hq.
  - destruct q as [|y q]; [now cbn in Hq|]. rewrite crossing_cons in Hq.
    cbn [remove_at]. destruct n as [d0|es]; trivial.
    destruct p as [|z p].
    + cbn [lookup]. destruct (String.eqb_spec x y) as [->|Hxy]; cbn [andb] in Hq.
      * discriminate.
      * rewrite entry_del_entry_other by congruence. reflexivity.
    + destruct (entry x es) as [c|] eqn:Ex; trivial. cbn [lookup].
      destruct (String.eqb_spec x y) as [->|Hxy]; cbn [andb] in Hq.
      * rewrite entry_set_entry_same, Ex. now apply IH.
      * rewrite entry_set_entry_other by congruence. reflexivity.
Qed.

(** ** What a call leaves alone *)

Lemma stat_set_root_apart (fs : filesystem) (f : folder) (n' : node) (q : path) :
  (fst q = f ->
   match root_of fs f with
   | Some n => lookup n' (snd q) = lookup n (snd q)
   | None => lookup n' (snd q) = None
   end) ->
  stat (set_root fs f (Some n')) q = stat fs q.
Proof.
  intros H. unfold stat. rewrite root_of_set_root.
  destruct (folder_eqb_spec (fst q) f) as [E|E]; trivial.
  specialize (H E). rewrite E. now destruct (root_of fs f).
Qed.

Lemma comparable_false (p q : path) :
  comparable p q = false -> fst q = fst p -> crossing (snd p) (snd q) = false.
Proof.
  unfold comparable. intros H E. rewrite E in H.
  now destruct (folder_eqb_spec (fst p) (fst p)).
Qed.

Lemma stat_makedirs_apart (fs fs' : filesystem) (p q : path) :
  makedirs fs p = Ok fs' -> comparable p q = false -> stat fs' q = stat fs q.
Proof.
  unfold makedirs. intros H Hq.
  destruct (root_of fs (fst p)) as [n|] eqn:Hn.
  - destruct (mkdirs p n (snd p)) as [n'|e] eqn:Hm; [|discriminate].
    injection H as <-. apply stat_set_root_apart. intros E. rewrite Hn.
    eapply lookup_mkdirs_apart; eauto. now apply comparable_false.
  - injection H as <-. apply stat_set_root_apart. intros E. rewrite Hn.
    apply lookup_fresh_dirs_apart. now apply comparable_false.
Qed.

Lemma stat_write_file_apart (fs fs' : filesystem) (p q : path) (d : list byte) :
  write_file fs p d = Ok fs' -> comparable p q = false -> stat fs' q = stat fs q.
Proof.
  unfold write_file. intros H Hq.
  destruct (root_of fs (fst p)) as [n|] eqn:Hn.
  - destruct (write_node p n (snd p) d) as [n'|e] eqn:Hm; [|discriminate].
    injection H as <-. apply stat_set_root_apart. intros E. rewrite Hn.
    eapply lookup_write_node_apart; eauto. now apply comparable_false.
  - destruct (snd p) as [|x r] eqn:Hp; [|discriminate].
    injection H as <-. apply stat_set_root_apart. intros E.
    apply comparable_false in Hq; trivial. rewrite Hp in Hq. discriminate.
Qed.

Lemma stat_remove_apart (F : faults) (fs fs' : filesystem) (p q : path) :
  remove F fs p = Ok fs' -> comparable p q = false -> stat fs' q = stat fs q.
Proof.
  unfold remove. intros H Hq.
  destruct (stat fs p) as [[d|es]|] eqn:Hs; try discriminate.
  destruct (unlink_denied F p); [discriminate|].
  destruct (root_of fs (fst p)) as [n|] eqn:Hn.
  - destruct (snd p) as [|x r] eqn:Hp.
    + injection H as <-. unfold stat. rewrite root_of_set_root.
      destruct (folder_eqb_spec (fst q) (fst p)) as [E|E]; trivial.
      apply comparable_false in Hq; trivial. rewrite Hp in Hq. discriminate.
    + injection H as <-. apply stat_set_root_apart. intros E. rewrite Hn.
      apply (lookup_remove_at_apart (x :: r)). rewrite <- Hp.
      now apply comparable_false.
  - unfold stat in Hs. rewrite Hn in Hs. discriminate.
Qed.

Lemma prefixb_app_cases (q p r t : relpath) :
  q ++ t = p ++ r -> prefixb q p = true \/ prefixb p q = true.
Proof.
  revert p. induction q as [|y q IH]; intros [|x p] H; cbn [prefixb]; auto.
  cbn [app] in H. injection H as -> H. rewrite String.eqb_refl. cbn [andb].
  eauto.
Qed.

Lemma crossing_below (p r q : relpath) :
  crossing p q = false -> crossing (p ++ r) q = false.
Proof.
  unfold crossing. intros H. apply orb_false_iff in H as [H1 H2].
  apply orb_false_iff. split.
  - destruct (prefixb (p ++ r) q) eqn:E; trivial.
    apply prefixb_spec in E as [t ->]. rewrite <- H1. symmetry.
    apply prefixb_spec. exists (r ++ t). now rewrite app_assoc.
  - destruct (prefixb q (p ++ r)) eqn:E; trivial.
    apply prefixb_spec in E as [t E]. symmetry in E.
    destruct (prefixb_app_cases _ _ _ _ E); congruence.
Qed.

Lemma comparable_below (top p q : path) :
  below top p = true -> comparable top q = false -> comparable p q = false.
Proof.
  unfold below, comparable. intros H Hq. apply andb_prop in H as [Hf Hp].
  destruct (folder_eqb_spec (fst top) (fst p)) as [E|]; [|discriminate].
  rewrite <- E. destruct (folder_eqb (fst top) (fst q)); trivial. cbn [andb] in *.
  apply prefixb_spec in Hp as [r ->]. now apply crossing_below.
Qed.

Lemma below_refl (p : path) : below p p = true.
Proof.
  unfold below. rewrite prefixb_refl.
  now destruct (folder_eqb_spec (fst p) (fst p)).
Qed.

Lemma below_join (top p : path) (x : name) :
  below top p = true -> below top (os_path_join p x) = true.
Proof.
  unfold below, os_path_join. cbn [fst snd]. intros H.
  apply andb_prop in H as [-> H]. cbn [andb].
  apply prefixb_spec in H as [r ->]. apply prefixb_spec. exists (r ++ [x]).
  now rewrite app_assoc.
Qed.

Lemma stat_copy2_apart (F : faults) (fs fs' : filesystem) (r : result unit)
      (src dst q : path) :
  copy2 F fs src dst = (fs', r) -> comparable dst q = false ->
  stat fs' q = stat fs q.
Proof.
  unfold copy2. intros H Hq.
  set (dst' := if isdir_b fs dst then os_path_join dst (os_path_basename src)
               else dst) in H.
  assert (Hd : comparable dst' q = false).
  { unfold dst'. destruct (isdir_b fs dst); trivial.
    eapply comparable_below; eauto. apply below_join, below_refl. }
  destruct (open_rb F fs src) as [fsrc|e]; [|now injection H as <- <-].
  destruct (read_all F (S (length (fo_data fsrc))) fsrc []) as [copied failure].
  destruct (write_file fs dst' copied) as [fs1|e] eqn:Hw;
    [|now injection H as <- <-].
  injection H as <- <-. eapply stat_write_file_apart; eauto.
Qed.

(** ** Every change is made below the replica folder *)

Section ConfinedAnywhere.

Variable hasher : Type.
Variable hash_new : hasher.
Variable hash_update : hasher -> list byte -> hasher.
Variable hexdigest : hasher -> string.
Variable F : faults.
Variable unlistable : path -> bool.
Variable source replica : path.

Let I := same_outside replica.
Let P := targets_below replica.
Let Q := fun _ : output => True.

Lemma same_outside_refl (fs : filesystem) : I fs fs.
Proof. now intros q Hq. Qed.

Lemma same_outside_trans (a b c : filesystem) : I a b -> I b c -> I a c.
Proof. intros H1 H2 q Hq. rewrite H2, H1; trivial. Qed.

Lemma confined_for_os_walk (body : path * list name * list name -> M unit)
      (top0 : path) (depth : nat) :
  (forall root dirs files, below top0 root = true ->
     confined I P Q (body (root, dirs, files))) ->
  forall top, below top0 top = true ->
  confined I P Q (Anywhere.for_os_walk unlistable depth top body).
Proof.
  intros Hbody. induction depth as [|depth IH]; intros top Htop s s' r H;
    cbn [Anywhere.for_os_walk] in H;
    destruct (Anywhere.scandir unlistable (st_fs s) top) as [[dirs files]|];
    revert H.
  - apply confined_bind; [exact same_outside_trans|now apply Hbody|].
    intros _. apply confined_ret. apply same_outside_refl.
  - apply confined_ret. apply same_outside_refl.
  - apply confined_bind; [exact same_outside_trans|now apply Hbody|].
    intros _.
    apply confined_for_each; [exact same_outside_refl|exact same_outside_trans|].
    intros d _. apply IH. now apply below_join.
  - apply confined_ret. apply same_outside_refl.
Qed.

Lemma below_inv (top root : path) :
  below top root = true -> exists r, root = Anywhere.os_path_join_rel top r.
Proof.
  unfold below, Anywhere.os_path_join_rel. intros H.
  apply andb_prop in H as [Hf Hp].
  destruct (folder_eqb_spec (fst top) (fst root)) as [E|]; [|discriminate].
  apply prefixb_spec in Hp as [r Hr]. exists r. rewrite E, <- Hr.
  now destruct root.
Qed.

Lemma relpath_join (top : path) (r : relpath) (file : name) :
  Anywhere.os_path_relpath (os_path_join (Anywhere.os_path_join_rel top r) file) top
  = r ++ [file].
Proof.
  unfold Anywhere.os_path_relpath, Anywhere.os_path_join_rel, os_path_join.
  cbn [fst snd]. rewrite <- app_assoc.
  rewrite skipn_app, skipn_all, Nat.sub_diag. reflexivity.
Qed.

Lemma below_join_rel (top : path) (r : relpath) :
  below top (Anywhere.os_path_join_rel top r) = true.
Proof.
  unfold below, Anywhere.os_path_join_rel. cbn [fst snd].
  destruct (folder_eqb_spec (fst top) (fst top)); [|congruence].
  apply prefixb_spec. eauto.
Qed.

Lemma dirname_join_rel (top : path) (r : relpath) (file : name) :
  os_path_dirname (Anywhere.os_path_join_rel top (r ++ [file]))
  = Anywhere.os_path_join_rel top r.
Proof.
  unfold os_path_dirname, Anywhere.os_path_join_rel. cbn [fst snd].
  now rewrite app_assoc, removelast_last.
Qed.

Lemma confined_copy_files_anywhere (depth : nat) :
  confined I P Q
    (Anywhere.copy_files hash_new hash_update hexdigest F unlistable depth
       source replica).
Proof.
  unfold Anywhere.copy_files.
  apply confined_try_except; [exact same_outside_trans| |].
  - apply confined_for_os_walk with (top0 := source); [|apply below_refl].
    intros root dirs files Hroot. apply below_inv in Hroot as [r ->].
    apply confined_for_each; [exact same_outside_refl|exact same_outside_trans|].
    intros file _. rewrite relpath_join, dirname_join_rel.
    apply confined_bind; [exact same_outside_trans| |].
    { apply confined_os_makedirs; [exact same_outside_refl| |].
      - unfold P, targets_below. cbn [target]. apply below_join_rel.
      - intros fs fs' H q Hq. eapply stat_makedirs_apart; eauto.
        eapply comparable_below; eauto. apply below_join_rel. }
    intros _. apply confined_bind; [exact same_outside_trans| |].
    { apply confined_unchanged; [exact same_outside_refl|reflexivity]. }
    intros present. apply confined_bind; [exact same_outside_trans| |].
    { destruct (negb present).
      - apply confined_ret. exact same_outside_refl.
      - apply confined_are_files_different;
          [exact same_outside_refl|exact same_outside_trans]. }
    intros [|]; [|apply confined_ret; exact same_outside_refl].
    apply confined_bind; [exact same_outside_trans| |].
    { apply confined_shutil_copy2.
      - unfold P, targets_below. cbn [target]. apply below_join_rel.
      - intros fs fs' r0 H q Hq. eapply stat_copy2_apart; eauto.
        eapply comparable_below; eauto. apply below_join_rel. }
    intros _. now apply (confined_emit I P Q same_outside_refl).
  - intros e. apply confined_bind; [exact same_outside_trans| |];
      [|intros _]; now apply (confined_emit I P Q same_outside_refl).
Qed.

Lemma confined_remove_files_anywhere (depth : nat) :
  confined I P Q (Anywhere.remove_files F unlistable depth replica source).
Proof.
  unfold Anywhere.remove_files.
  apply confined_try_except; [exact same_outside_trans| |].
  - apply confined_for_os_walk with (top0 := replica); [|apply below_refl].
    intros root dirs files Hroot.
    apply confined_for_each; [exact same_outside_refl|exact same_outside_trans|].
    intros file _.
    apply confined_bind; [exact same_outside_trans| |].
    { apply confined_unchanged; [exact same_outside_refl|reflexivity]. }
    intros present. destruct (negb present);
      [|apply confined_ret; exact same_outside_refl].
    apply confined_bind; [exact same_outside_trans| |].
    { apply confined_os_remove; [exact same_outside_refl| |].
      - unfold P, targets_below. cbn [target]. now apply below_join.
      - intros fs fs' H q Hq. eapply stat_remove_apart; eauto.
        eapply comparable_below; eauto. now apply below_join. }
    intros _. now apply (confined_emit I P Q same_outside_refl).
  - intros e. apply confined_bind; [exact same_outside_trans| |];
      [|intros _]; now apply (confined_emit I P Q same_outside_refl).
Qed.

Lemma confined_synchronize_folders_anywhere (depth : nat) :
  confined I P Q
    (Anywhere.synchronize_folders hash_new hash_update hexdigest F unlistable
       depth source replica).
Proof.
  unfold Anywhere.synchronize_folders.
  apply confined_try_except; [exact same_outside_trans| |].
  - apply confined_bind; [exact same_outside_trans| |].
    { apply confined_copy_files_anywhere. }
    intros _. apply confined_bind; [exact same_outside_trans| |].
    { apply confined_remove_files_anywhere. }
    intros _. now apply (confined_emit I P Q same_outside_refl).
  - intros e. apply confined_bind; [exact same_outside_trans| |];
      [|intros _]; now apply (confined_emit I P Q same_outside_refl).
Qed.

Lemma confined_main_anywhere (interval cycles depth : nat) :
  confined I P Q
    (Anywhere.main hash_new hash_update hexdigest F unlistable source replica
       interval cycles depth).
Proof.
  unfold Anywhere.main.
  apply confined_bind; [exact same_outside_trans| |].
  { apply confined_unchanged; [exact same_outside_refl|reflexivity]. }
  intros present. destruct (negb present).
  { apply confined_bind; [exact same_outside_trans| |].
    - now apply (confined_emit I P Q same_outside_refl).
    - intros _. apply confined_ret. exact same_outside_refl. }
  apply confined_bind; [exact same_outside_trans| |].
  { apply confined_unchanged; [exact same_outside_refl|reflexivity]. }
  intros present'. destruct (negb present').
  { apply confined_bind; [exact same_outside_trans| |].
    - now apply (confined_emit I P Q same_outside_refl).
    - intros _. apply confined_ret. exact same_outside_refl. }
  apply confined_bind; [exact same_outside_trans| |].
  { now apply (confined_note I P Q same_outside_refl). }
  intros _. apply confined_bind; [exact same_outside_trans| |].
  { apply confined_while_true;
      [exact same_outside_refl|exact same_outside_trans|].
    apply confined_bind; [exact same_outside_trans| |].
    - apply confined_synchronize_folders_anywhere.
    - intros _. now apply (confined_note I P Q same_outside_refl). }
  intros _. apply confined_ret. exact same_outside_refl.
Qed.

End ConfinedAnywhere.

(** ** An operation below a node is an operation on the node *)

Lemma mkdirs_who (who who' : path) (p : relpath) :
  forall n, mkdirs who n p = raised_by who (mkdirs who' n p).
Proof.
  induction p as [|x p IH]; intros [d|es]; cbn [mkdirs raised_by]; trivial.
  destruct (entry x es) as [c|]; trivial. rewrite (IH c).
  now destruct (mkdirs who' c p) as [c'|[code w]].
Qed.

Lemma write_node_who (who who' : path) (d : list byte) (p : relpath) :
  forall n, write_node who n p d = raised_by who (write_node who' n p d).
Proof.
  induction p as [|x p IH]; intros [d0|es]; cbn [write_node raised_by]; trivial.
  destruct (entry x es) as [c|].
  - rewrite (IH c). now destruct (write_node who' c p d) as [c'|[code w]].
  - now destruct p.
Qed.

Lemma mkdirs_below (who : path) (a q : relpath) :
  forall n c, lookup n a = Some c ->
  match mkdirs who n (a ++ q), mkdirs who c q with
  | Ok n', Ok c' => lookup n' a = Some c'
  | Raise e, Raise e' => e = e'
  | _, _ => False
  end.
Proof.
  induction a as [|x a IH]; intros n c H.
  - cbn [lookup] in H. injection H as ->. cbn [app lookup].
    now destruct (mkdirs who c q).
  - cbn [lookup] in H. destruct n as [d|es]; [discriminate|].
    destruct (entry x es) as [c0|] eqn:Ex; [|discriminate].
    cbn [app mkdirs]. rewrite Ex. specialize (IH c0 c H).
    destruct (mkdirs who c0 (a ++ q)) as [n1|e], (mkdirs who c q) as [c'|e'];
      trivial.
    cbn [lookup]. now rewrite entry_set_entry_same.
Qed.

Lemma write_node_below (who : path) (d : list byte) (a q : relpath) :
  forall n c, lookup n a = Some c ->
  match write_node who n (a ++ q) d, write_node who c q d with
  | Ok n', Ok c' => lookup n' a = Some c'
  | Raise e, Raise e' => e = e'
  | _, _ => False
  end.
Proof.
  induction a as [|x a IH]; intros n c H.
  - cbn [lookup] in H. injection H as ->. cbn [app lookup].
    now destruct (write_node who c q d).
  - cbn [lookup] in H. destruct n as [d0|es]; [discriminate|].
    destruct (entry x es) as [c0|] eqn:Ex; [|discriminate].
    cbn [app write_node]. rewrite Ex. specialize (IH c0 c H).
    destruct (write_node who c0 (a ++ q) d) as [n1|e],
             (write_node who c q d) as [c'|e']; trivial.
    cbn [lookup]. now rewrite entry_set_entry_same.
Qed.

Lemma remove_at_below (a q : relpath) :
  q <> [] ->
  forall n c, lookup n a = Some c ->
  lookup (remove_at n (a ++ q)) a = Some (remove_at c q).
Proof.
  intros Hq. induction a as [|x a IH]; intros n c H.
  - cbn [lookup] in H. now injection H as ->.
  - cbn [lookup] in H. destruct n as [d0|es]; [discriminate|].
    destruct (entry x es) as [c0|] eqn:Ex; [|discriminate].
    cbn [app remove_at]. destruct (a ++ q) as [|z t] eqn:E.
    + apply app_eq_nil in E as [_ E]. contradiction.
    + rewrite Ex. cbn [lookup]. rewrite entry_set_entry_same. now apply IH.
Qed.

Lemma copy2_keeps_replica_root (F : faults) (fs : filesystem) (a : path)
      (q : relpath) :
  replica_root fs <> None ->
  replica_root (fst (copy2 F fs a (Replica, q))) <> None.
Proof.
  intros H. unfold copy2.
  set (dst := if isdir_b fs (Replica, q)
              then os_path_join (Replica, q) (os_path_basename a)
              else (Replica, q)).
  assert (Hd : fst dst = Replica)
    by (unfold dst; now destruct (isdir_b fs (Replica, q))).
  destruct (open_rb F fs a) as [f|e]; trivial.
  destruct (read_all F (S (length (fo_data f))) f []) as [copied failure].
  destruct (write_file fs dst copied) as [fs'|e] eqn:Hw; trivial.
  cbn [fst]. revert Hw. unfold write_file. rewrite Hd. cbn [root_of].
  destruct (replica_root fs) as [n|]; [|congruence].
  destruct (write_node dst n (snd dst) copied); [|discriminate].
  intros [= <-]. discriminate.
Qed.

Lemma remove_keeps_replica_root (F : faults) (fs : filesystem) (q : relpath) :
  q <> [] ->
  match remove F fs (Replica, q) with
  | Ok fs' => replica_root fs' <> None
  | Raise _ => True
  end.
Proof.
  intros Hq. unfold remove.
  destruct (stat fs (Replica, q)) as [[d|es]|] eqn:Hs; trivial.
  destruct (unlink_denied F (Replica, q)); trivial.
  cbn [fst snd root_of]. unfold stat in Hs. cbn [fst snd root_of] in Hs.
  destruct (replica_root fs) as [n|]; [|discriminate].
  destruct q; [congruence|]. discriminate.
Qed.

Lemma located_source_root (source replica : path) :
  located source replica (Source, []) = source.
Proof.
  unfold located, Anywhere.os_path_join_rel. cbn [fst snd].
  rewrite app_nil_r. now destruct source.
Qed.

Lemma located_replica_root (source replica : path) :
  located source replica (Replica, []) = replica.
Proof.
  unfold located, Anywhere.os_path_join_rel. cbn [fst snd].
  rewrite app_nil_r. now destruct replica.
Qed.

(** ** The library calls on the two folders *)

Section Relocation.

Variable source replica : path.
Hypothesis folders_apart : comparable replica source = false.

Local Abbreviation loc := (located source replica).
Local Abbreviation see := (seen source replica).
Local Abbreviation loc_exn := (located_exn source replica).

Lemma stat_located (fs : filesystem) (p : path) :
  stat fs (loc p) = stat (see fs) p.
Proof.
  destruct p as [[|] q]; unfold located, Anywhere.os_path_join_rel;
    cbn [fst snd]; unfold stat at 1 2; cbn [fst snd seen root_of source_root replica_root];
    unfold stat.
  - destruct (root_of fs (fst source)) as [n|]; trivial. apply lookup_app.
  - destruct (root_of fs (fst replica)) as [n|]; trivial. apply lookup_app.
Qed.

Lemma located_replica (q : relpath) :
  loc (Replica, q) = (fst replica, snd replica ++ q).
Proof. reflexivity. Qed.

Lemma below_located_replica (q : relpath) : below replica (loc (Replica, q)) = true.
Proof. apply below_join_rel. Qed.

Lemma seen_after (fs fs' : filesystem) (c' : node) :
  stat fs' source = stat fs source -> stat fs' replica = Some c' ->
  see fs' = set_root (see fs) Replica (Some c').
Proof. unfold seen. intros -> ->. reflexivity. Qed.

Lemma replica_node (fs : filesystem) :
  replica_root (see fs) <> None ->
  exists n c, root_of fs (fst replica) = Some n /\ lookup n (snd replica) = Some c
              /\ replica_root (see fs) = Some c.
Proof.
  cbn [seen replica_root]. unfold stat. intros H.
  destruct (root_of fs (fst replica)) as [n|]; [|congruence].
  destruct (lookup n (snd replica)) as [c|] eqn:E; [|congruence]. eauto.
Qed.

Lemma makedirs_located (fs : filesystem) (q : relpath) :
  replica_root (see fs) <> None ->
  match makedirs fs (loc (Replica, q)), makedirs (see fs) (Replica, q) with
  | Ok fs', Ok fsB => fsB = see fs'
  | Raise e, Raise e' => e = loc_exn e'
  | _, _ => False
  end.
Proof.
  intros H. destruct (replica_node fs H) as (n & c & Hn & Hc & Hr).
  destruct (makedirs fs (loc (Replica, q))) as [fs'|e] eqn:Hm.
  - assert (Hs : stat fs' source = stat fs source).
    { eapply stat_makedirs_apart; eauto.
      eapply comparable_below; eauto. apply below_located_replica. }
    revert Hm. unfold makedirs. rewrite located_replica. cbn [fst snd root_of].
    rewrite Hn, Hr. rewrite <- located_replica.
    pose proof (mkdirs_below (loc (Replica, q)) (snd replica) q n Hc) as Hb.
    rewrite (mkdirs_who (Replica, q) (loc (Replica, q)) q c).
    destruct (mkdirs (loc (Replica, q)) n (snd replica ++ q)) as [n'|e];
      [|discriminate].
    destruct (mkdirs (loc (Replica, q)) c q) as [c'|e']; [|contradiction].
    intros [= <-]. cbn [raised_by]. symmetry. apply seen_after.
    + rewrite <- Hs. reflexivity.
    + unfold stat. rewrite root_of_set_root.
      destruct (folder_eqb_spec (fst replica) (fst replica)); congruence.
  - revert Hm. unfold makedirs. rewrite located_replica. cbn [fst snd root_of].
    rewrite Hn, Hr. rewrite <- located_replica.
    pose proof (mkdirs_below (loc (Replica, q)) (snd replica) q n Hc) as Hb.
    rewrite (mkdirs_who (Replica, q) (loc (Replica, q)) q c).
    destruct (mkdirs (loc (Replica, q)) n (snd replica ++ q)) as [n'|e0];
      [discriminate|].
    destruct (mkdirs (loc (Replica, q)) c q) as [c'|[code w]] eqn:Hc';
      [contradiction|].
    intros [= <-]. subst e0. cbn [raised_by located_exn].
    pose proof (mkdirs_who (loc (Replica, q)) (Replica, q) q c) as Hw.
    rewrite Hc' in Hw.
    destruct (mkdirs (Replica, q) c q) as [?|[code' w']]; [discriminate|].
    cbn [raised_by] in Hw. congruence.
Qed.

Lemma write_file_located (fs : filesystem) (q : relpath) (d : list byte) :
  replica_root (see fs) <> None ->
  match write_file fs (loc (Replica, q)) d, write_file (see fs) (Replica, q) d with
  | Ok fs', Ok fsB => fsB = see fs'
  | Raise e, Raise e' => e = loc_exn e'
  | _, _ => False
  end.
Proof.
  intros H. destruct (replica_node fs H) as (n & c & Hn & Hc & Hr).
  destruct (write_file fs (loc (Replica, q)) d) as [fs'|e] eqn:Hm.
  - assert (Hs : stat fs' source = stat fs source).
    { eapply stat_write_file_apart; eauto.
      eapply comparable_below; eauto. apply below_located_replica. }
    revert Hm. unfold write_file. rewrite located_replica. cbn [fst snd root_of].
    rewrite Hn, Hr. rewrite <- located_replica.
    pose proof (write_node_below (loc (Replica, q)) d (snd replica) q n Hc) as Hb.
    rewrite (write_node_who (Replica, q) (loc (Replica, q)) d q c).
    destruct (write_node (loc (Replica, q)) n (snd replica ++ q) d) as [n'|e];
      [|discriminate].
    destruct (write_node (loc (Replica, q)) c q d) as [c'|e']; [|contradiction].
    intros [= <-]. cbn [raised_by]. symmetry. apply seen_after.
    + rewrite <- Hs. reflexivity.
    + unfold stat. rewrite root_of_set_root.
      destruct (folder_eqb_spec (fst replica) (fst replica)); congruence.
  - revert Hm. unfold write_file. rewrite located_replica. cbn [fst snd root_of].
    rewrite Hn, Hr. rewrite <- located_replica.
    pose proof (write_node_below (loc (Replica, q)) d (snd replica) q n Hc) as Hb.
    rewrite (write_node_who (Replica, q) (loc (Replica, q)) d q c).
    destruct (write_node (loc (Replica, q)) n (snd replica ++ q) d) as [n'|e0];
      [discriminate|].
    destruct (write_node (loc (Replica, q)) c q d) as [c'|[code w]] eqn:Hc';
      [contradiction|].
    intros [= <-]. subst e0. cbn [raised_by located_exn].
    pose proof (write_node_who (loc (Replica, q)) (Replica, q) d q c) as Hw.
    rewrite Hc' in Hw.
    destruct (write_node (Replica, q) c q d) as [?|[code' w']]; [discriminate|].
    cbn [raised_by] in Hw. congruence.
Qed.

Lemma remove_located (F : faults) (fs : filesystem) (q : relpath) :
  q <> [] ->
  match remove F fs (loc (Replica, q)),
        remove (seen_faults source replica F) (see fs) (Replica, q) with
  | Ok fs', Ok fsB => fsB = see fs'
  | Raise e, Raise e' => e = loc_exn e'
  | _, _ => False
  end.
Proof.
  intros Hq.
  destruct (remove F fs (loc (Replica, q))) as [fs'|e] eqn:Hm.
  - assert (Hs : stat fs' source = stat fs source).
    { eapply stat_remove_apart; eauto.
      eapply comparable_below; eauto. apply below_located_replica. }
    revert Hm. unfold remove. rewrite stat_located.
    destruct (stat (see fs) (Replica, q)) as [[d|es]|] eqn:Hst; try discriminate.
    cbn [seen_faults unlink_denied].
    destruct (unlink_denied F (loc (Replica, q))); [discriminate|].
    assert (H : replica_root (see fs) <> None).
    { unfold stat in Hst. cbn [fst root_of] in Hst.
      destruct (replica_root (see fs)); congruence. }
    destruct (replica_node fs H) as (n & c & Hn & Hc & Hr).
    rewrite located_replica. cbn [fst snd root_of]. rewrite Hn, Hr.
    destruct q as [|y q]; [congruence|].
    destruct (snd replica ++ y :: q) as [|z t] eqn:E.
    { apply app_eq_nil in E as [_ E]. discriminate. }
    rewrite <- E. intros [= <-]. symmetry. apply seen_after.
    + rewrite <- Hs. reflexivity.
    + unfold stat. rewrite root_of_set_root.
      destruct (folder_eqb_spec (fst replica) (fst replica)); [|congruence].
      cbn [snd]. apply remove_at_below; trivial.
  - revert Hm. unfold remove. rewrite stat_located.
    destruct (stat (see fs) (Replica, q)) as [[d|es]|] eqn:Hst;
      try (now intros [= <-]).
    cbn [seen_faults unlink_denied].
    destruct (unlink_denied F (loc (Replica, q))); [now intros [= <-]|].
    destruct (root_of fs (fst (loc (Replica, q)))), (snd (loc (Replica, q)));
      discriminate.
Qed.

Lemma file_read_located (F : faults) (size : nat) (f f' : file_object) :
  file_object_at source replica f' f ->
  match file_read F size f, file_read (seen_faults source replica F) size f' with
  | Ok r, Ok r' => fst r = fst r' /\ file_object_at source replica (snd r') (snd r)
  | Raise e, Raise e' => e = loc_exn e'
  | _, _ => False
  end.
Proof.
  intros (Hn & Hd & Hp). unfold file_read. cbn [seen_faults bad_offset].
  rewrite Hn, Hd, Hp.
  destruct (bad_offset F (loc (fo_name f'))) as [o|].
  - destruct ((fo_pos f' <=? o) && (o <? fo_pos f' + _)).
    + reflexivity.
    + cbn [fst snd]. repeat split.
  - cbn [fst snd]. repeat split.
Qed.

Lemma read_all_located (F : faults) (fuel : nat) :
  forall (f f' : file_object) (acc : list byte),
  file_object_at source replica f' f ->
  fst (read_all F fuel f acc)
  = fst (read_all (seen_faults source replica F) fuel f' acc)
  /\ snd (read_all F fuel f acc)
     = option_map loc_exn (snd (read_all (seen_faults source replica F) fuel f' acc)).
Proof.
  induction fuel as [|fuel IH]; intros f f' acc Hf; cbn [read_all]; auto.
  pose proof (file_read_located F COPY_BUFSIZE Hf) as Hr.
  destruct (file_read F COPY_BUFSIZE f) as [[buf g]|e],
           (file_read (seen_faults source replica F) COPY_BUFSIZE f')
             as [[buf' g']|e']; try contradiction.
  - cbn [fst snd] in Hr. destruct Hr as [<- Hg].
    destruct buf; auto.
  - subst e. auto.
Qed.

Lemma open_rb_located (F : faults) (fs : filesystem) (p : path) :
  match open_rb F fs (loc p), open_rb (seen_faults source replica F) (see fs) p with
  | Ok f, Ok f' => file_object_at source replica f' f
  | Raise e, Raise e' => e = loc_exn e'
  | _, _ => False
  end.
Proof.
  unfold open_rb. rewrite stat_located. cbn [seen_faults open_denied].
  destruct (stat (see fs) p) as [[d|es]|]; try reflexivity.
  destruct (open_denied F (loc p)); [reflexivity|]. repeat split.
Qed.

Lemma last_app_right {A : Type} (l1 l2 : list A) (d : A) :
  l2 <> [] -> last (l1 ++ l2) d = last l2 d.
Proof.
  intros H. induction l1 as [|x l1 IH]; trivial. cbn [app last].
  rewrite IH. destruct (l1 ++ l2) eqn:E; trivial.
  apply app_eq_nil in E as [_ E]. contradiction.
Qed.

Lemma basename_located (a : path) :
  snd a <> [] -> os_path_basename (loc a) = os_path_basename a.
Proof.
  unfold os_path_basename, located, Anywhere.os_path_join_rel. intros H.
  destruct (fst a); cbn [snd]; now apply last_app_right.
Qed.

Lemma join_located (p : path) (x : name) :
  os_path_join (loc p) x = loc (os_path_join p x).
Proof.
  unfold os_path_join, located, Anywhere.os_path_join_rel. cbn [fst snd].
  destruct (fst p); cbn [fst snd]; now rewrite app_assoc.
Qed.

Lemma copy2_located (F : faults) (fs : filesystem) (a : path) (q : relpath) :
  snd a <> [] -> replica_root (see fs) <> None ->
  fst (copy2 (seen_faults source replica F) (see fs) a (Replica, q))
  = see (fst (copy2 F fs (loc a) (loc (Replica, q))))
  /\ match snd (copy2 F fs (loc a) (loc (Replica, q))),
           snd (copy2 (seen_faults source replica F) (see fs) a (Replica, q)) with
     | Ok _, Ok _ => True
     | Raise e, Raise e' => e = loc_exn e'
     | _, _ => False
     end.
Proof.
  intros Ha Hr. unfold copy2.
  assert (Hd : isdir_b fs (loc (Replica, q)) = isdir_b (see fs) (Replica, q))
    by (unfold isdir_b; now rewrite stat_located).
  rewrite Hd, (basename_located a Ha), join_located.
  set (dst := if isdir_b (see fs) (Replica, q)
              then os_path_join (Replica, q) (os_path_basename a)
              else (Replica, q)).
  assert (E : (if isdir_b (see fs) (Replica, q)
               then loc (os_path_join (Replica, q) (os_path_basename a))
               else loc (Replica, q)) = loc dst)
    by (unfold dst; now destruct (isdir_b (see fs) (Replica, q))).
  rewrite E.
  assert (Hdst : exists q', dst = (Replica, q')).
  { unfold dst, os_path_join. destruct (isdir_b (see fs) (Replica, q)); eauto. }
  destruct Hdst as [q' ->].
  pose proof (open_rb_located F fs a) as Ho.
  destruct (open_rb F fs (loc a)) as [f|e],
           (open_rb (seen_faults source replica F) (see fs) a) as [f'|e'];
    try contradiction; [|cbn [fst snd]; auto].
  assert (Hlen : fo_data f = fo_data f') by apply Ho. rewrite Hlen.
  destruct (read_all_located F (S (length (fo_data f'))) [] Ho) as [H1 H2].
  destruct (read_all F (S (length (fo_data f'))) f []) as [copied failure],
           (read_all (seen_faults source replica F) (S (length (fo_data f'))) f' [])
             as [copied' failure'].
  cbn [fst snd] in H1, H2. subst copied failure.
  pose proof (write_file_located fs q' copied' Hr) as Hw.
  destruct (write_file fs (loc (Replica, q')) copied') as [fs'|e],
           (write_file (see fs) (Replica, q') copied') as [fsB|e'];
    try contradiction; cbn [fst snd]; auto.
  split; trivial. destruct failure'; cbn [option_map]; trivial.
Qed.

(** ** The program on the two folders *)

Local Abbreviation sim := (simulates source replica).
Local Abbreviation loc_out := (located_output source replica).
Local Abbreviation loc_call := (located_call source replica).

Lemma sim_ret {A B : Type} (R : A -> B -> Prop) (a : A) (b : B) :
  R a b -> sim R (ret a) (ret b).
Proof. intros H sG sB Hs. cbn. auto. Qed.

Lemma sim_bind {A B A' B' : Type} (R : A -> B -> Prop) (R' : A' -> B' -> Prop)
      (m : M A) (m' : M B) (k : A -> M A') (k' : B -> M B') :
  sim R m m' -> (forall a b, R a b -> sim R' (k a) (k' b)) ->
  sim R' (bind m k) (bind m' k').
Proof.
  intros Hm Hk sG sB Hs. unfold bind. destruct (Hm sG sB Hs) as [H1 H2].
  destruct (m sG) as [sG1 [a|e]], (m' sB) as [sB1 [b|e']];
    cbn [fst snd] in *; try contradiction.
  - now apply Hk.
  - auto.
Qed.

Lemma sim_try_except {A B : Type} (R : A -> B -> Prop)
      (m : M A) (m' : M B) (h : exn -> M A) (h' : exn -> M B) :
  sim R m m' -> (forall e, sim R (h (loc_exn e)) (h' e)) ->
  sim R (try_except m h) (try_except m' h').
Proof.
  intros Hm Hh sG sB Hs. unfold try_except. destruct (Hm sG sB Hs) as [H1 H2].
  destruct (m sG) as [sG1 [a|e]], (m' sB) as [sB1 [b|e']];
    cbn [fst snd] in *; try contradiction.
  - auto.
  - subst e. now apply Hh.
Qed.

Lemma sim_for_each_same {A : Type} (l : list A) (body body' : A -> M unit) :
  (forall x, sim (@eq unit) (body x) (body' x)) ->
  sim (@eq unit) (for_each l body) (for_each l body').
Proof.
  intros Hb. induction l as [|x l IH]; cbn [for_each].
  - now apply sim_ret.
  - eapply sim_bind; [apply Hb|]. intros _ _ _. exact IH.
Qed.

Lemma sim_while_true (n : nat) (body body' : M unit) :
  sim (@eq unit) body body' ->
  sim (@eq unit) (while_true n body) (while_true n body').
Proof.
  intros Hb. induction n as [|n IH]; cbn [while_true].
  - now apply sim_ret.
  - eapply sim_bind; [exact Hb|]. intros _ _ _. exact IH.
Qed.

Lemma sim_emit (o : output) :
  sim (@eq unit) (fun s => (emit (loc_out o) s, Ok tt)) (fun s => (emit o s, Ok tt)).
Proof.
  intros sG sB (H1 & H2 & H3 & H4). cbn [fst snd]. split; trivial.
  unfold stands_for, emit. cbn [st_fs st_out st_calls].
  rewrite H2, map_app. auto.
Qed.

Lemma sim_note (c : call) :
  sim (@eq unit) (fun s => (note (loc_call c) s, Ok tt)) (fun s => (note c s, Ok tt)).
Proof.
  intros sG sB (H1 & H2 & H3 & H4). cbn [fst snd]. split; trivial.
  unfold stands_for, note. cbn [st_fs st_out st_calls].
  rewrite H3, map_app. auto.
Qed.

Lemma sim_os_path_exists (p : path) :
  sim (@eq bool) (os_path_exists (loc p)) (os_path_exists p).
Proof.
  intros sG sB Hs. cbn [os_path_exists fst snd]. split; trivial.
  destruct Hs as (H1 & _). unfold exists_b. now rewrite H1, stat_located.
Qed.

Lemma sim_os_makedirs (q : relpath) :
  sim (@eq unit) (os_makedirs (loc (Replica, q))) (os_makedirs (Replica, q)).
Proof.
  intros sG sB (H1 & H2 & H3 & H4). unfold os_makedirs.
  cbn [note st_fs]. rewrite H1 in *.
  pose proof (makedirs_located (st_fs sG) q H4) as Hm.
  destruct (makedirs (st_fs sG) (loc (Replica, q))) as [fs'|e],
           (makedirs (see (st_fs sG)) (Replica, q)) as [fsB|e'] eqn:HB;
    try contradiction; cbn [fst snd]; (split; trivial);
    unfold stands_for; cbn [with_fs note st_fs st_out st_calls];
    rewrite H2, H3, map_app; repeat split; trivial.
  - revert HB. unfold makedirs. cbn [fst snd root_of].
    destruct (replica_root (see (st_fs sG))); [|congruence].
    destruct (mkdirs _ _ _); [|discriminate]. intros [= <-]. discriminate.
  - now rewrite H1.
Qed.

Section RelocatedProgram.

Variable hasher : Type.
Variable hash_new : hasher.
Variable hash_update : hasher -> list byte -> hasher.
Variable hexdigest : hasher -> string.
Variable F : faults.
Variable unlistable : path -> bool.

Local Abbreviation F' := (seen_faults source replica F).

Lemma sim_open_ (p : path) :
  sim (fun f f' => file_object_at source replica f' f) (open_ F (loc p)) (open_ F' p).
Proof.
  intros sG sB Hs. unfold open_. cbn [fst snd]. split; trivial.
  destruct Hs as (-> & _). apply open_rb_located.
Qed.

Lemma sim_read_ (f f' : file_object) (size : nat) :
  file_object_at source replica f' f ->
  sim (fun r r' => fst r = fst r' /\ file_object_at source replica (snd r') (snd r))
      (read_ F f size) (read_ F' f' size).
Proof.
  intros Hf sG sB Hs. unfold read_. cbn [fst snd]. split; trivial.
  now apply file_read_located.
Qed.

Lemma sim_hash_loop (fuel : nat) :
  forall (h : hasher) (f f' : file_object),
  file_object_at source replica f' f ->
  sim (@eq hasher) (hash_loop hash_update F fuel h f)
      (hash_loop hash_update F' fuel h f').
Proof.
  induction fuel as [|fuel IH]; intros h f f' Hf; cbn [hash_loop].
  - now apply sim_ret.
  - eapply sim_bind; [now apply sim_read_|].
    intros [buf g] [buf' g'] [E Hg]. cbn [fst snd] in *. subst buf'.
    destruct buf; [now apply sim_ret|]. now apply IH.
Qed.

Lemma sim_calculate_hash (p : path) :
  sim (@eq string) (calculate_hash hash_new hash_update hexdigest F (loc p))
      (calculate_hash hash_new hash_update hexdigest F' p).
Proof.
  unfold calculate_hash. eapply sim_bind; [apply sim_open_|].
  intros f f' Hf. eapply sim_bind.
  - assert (E : fo_data f = fo_data f') by apply Hf. rewrite E.
    now apply sim_hash_loop.
  - intros h h' <-. now apply sim_ret.
Qed.

Lemma sim_are_files_different (a b : path) :
  sim (@eq bool)
      (are_files_different hash_new hash_update hexdigest F (loc a) (loc b))
      (are_files_different hash_new hash_update hexdigest F' a b).
Proof.
  unfold are_files_different. eapply sim_bind; [apply sim_calculate_hash|].
  intros ha ha' <-. eapply sim_bind; [apply sim_calculate_hash|].
  intros hb hb' <-. now apply sim_ret.
Qed.

Lemma sim_shutil_copy2 (a : path) (q : relpath) :
  snd a <> [] ->
  sim (@eq unit) (shutil_copy2 F (loc a) (loc (Replica, q)))
      (shutil_copy2 F' a (Replica, q)).
Proof.
  intros Ha sG sB (H1 & H2 & H3 & H4). unfold shutil_copy2.
  cbn [note st_fs]. rewrite H1 in *.
  destruct (@copy2_located F (st_fs sG) a q Ha H4) as [Hfs Hr].
  pose proof (@copy2_keeps_replica_root F' (see (st_fs sG)) a q) as Hk.
  destruct (copy2 F (st_fs sG) (loc a) (loc (Replica, q))) as [fs' r],
           (copy2 F' (see (st_fs sG)) a (Replica, q)) as [fsB r'] eqn:HB.
  cbn [fst snd] in *. split.
  - unfold stands_for. cbn [with_fs note st_fs st_out st_calls].
    rewrite H2, H3, map_app. repeat split; auto.
  - destruct r as [[]|e], r' as [[]|e']; trivial.
Qed.

Lemma sim_os_remove (q : relpath) :
  q <> [] ->
  sim (@eq unit) (os_remove F (loc (Replica, q))) (os_remove F' (Replica, q)).
Proof.
  intros Hq sG sB (H1 & H2 & H3 & H4). unfold os_remove.
  cbn [note st_fs]. rewrite H1 in *.
  pose proof (@remove_located F (st_fs sG) q Hq) as Hm.
  pose proof (@remove_keeps_replica_root F' (see (st_fs sG)) q Hq) as Hk.
  destruct (remove F (st_fs sG) (loc (Replica, q))) as [fs'|e],
           (remove F' (see (st_fs sG)) (Replica, q)) as [fsB|e'] eqn:HB;
    try contradiction; cbn [fst snd]; (split; trivial);
    unfold stands_for; cbn [with_fs note st_fs st_out st_calls];
    rewrite H2, H3, map_app; repeat split; auto.
  now rewrite H1.
Qed.

Lemma scandir_located (fs : filesystem) (top : path) :
  Anywhere.scandir unlistable fs (loc top)
  = Anywhere.scandir (fun p => unlistable (loc p)) (see fs) top.
Proof. unfold Anywhere.scandir. now rewrite stat_located. Qed.

Lemma sim_for_os_walk (top0 : path) (depth : nat)
      (body body' : path * list name * list name -> M unit) :
  (forall root dirs files, below top0 root = true ->
     sim (@eq unit) (body (loc root, dirs, files)) (body' (root, dirs, files))) ->
  forall top, below top0 top = true ->
  sim (@eq unit) (Anywhere.for_os_walk unlistable depth (loc top) body)
      (Anywhere.for_os_walk (fun p => unlistable (loc p)) depth top body').
Proof.
  intros Hb. induction depth as [|depth IH]; intros top Htop sG sB Hs;
    cbn [Anywhere.for_os_walk]; rewrite scandir_located;
    replace (st_fs sB) with (see (st_fs sG)) by (symmetry; apply Hs);
    destruct (Anywhere.scandir _ (see (st_fs sG)) top) as [[dirs files]|];
    try (cbn [fst snd]; now auto).
  - revert sG sB Hs. eapply sim_bind; [now apply Hb|]. intros _ _ _.
    now apply sim_ret.
  - revert sG sB Hs. eapply sim_bind; [now apply Hb|]. intros _ _ _.
    apply sim_for_each_same. intros d. rewrite join_located. apply IH.
    now apply below_join.
Qed.

Local Abbreviation U' := (fun p => unlistable (loc p)).

Lemma sim_walk_source (depth : nat)
      (body body' : path * list name * list name -> M unit) :
  (forall root dirs files, below (Source, []) root = true ->
     sim (@eq unit) (body (loc root, dirs, files)) (body' (root, dirs, files))) ->
  sim (@eq unit) (Anywhere.for_os_walk unlistable depth source body)
      (Anywhere.for_os_walk U' depth (Source, []) body').
Proof.
  intros Hb.
  pose proof (@sim_for_os_walk (Source, []) depth body body' Hb (Source, [])
                eq_refl) as H.
  now rewrite located_source_root in H.
Qed.

Lemma sim_walk_replica (depth : nat)
      (body body' : path * list name * list name -> M unit) :
  (forall root dirs files, below (Replica, []) root = true ->
     sim (@eq unit) (body (loc root, dirs, files)) (body' (root, dirs, files))) ->
  sim (@eq unit) (Anywhere.for_os_walk unlistable depth replica body)
      (Anywhere.for_os_walk U' depth (Replica, []) body').
Proof.
  intros Hb.
  pose proof (@sim_for_os_walk (Replica, []) depth body body' Hb (Replica, [])
                eq_refl) as H.
  now rewrite located_replica_root in H.
Qed.

Lemma below_source_inv (root : path) :
  below (Source, []) root = true -> exists r, root = (Source, r).
Proof.
  destruct root as [[|] r]; [eauto|discriminate].
Qed.

Lemma below_replica_inv (root : path) :
  below (Replica, []) root = true -> exists r, root = (Replica, r).
Proof.
  destruct root as [[|] r]; [discriminate|eauto].
Qed.

Lemma relpath_located_source (r : relpath) :
  Anywhere.os_path_relpath (loc (Source, r)) source = r.
Proof.
  unfold Anywhere.os_path_relpath, located, Anywhere.os_path_join_rel.
  cbn [fst snd]. now rewrite skipn_app, skipn_all, Nat.sub_diag.
Qed.

Lemma relpath_located_replica (r : relpath) :
  Anywhere.os_path_relpath (loc (Replica, r)) replica = r.
Proof.
  unfold Anywhere.os_path_relpath, located, Anywhere.os_path_join_rel.
  cbn [fst snd]. now rewrite skipn_app, skipn_all, Nat.sub_diag.
Qed.

Lemma dirname_located_replica (r : relpath) (file : name) :
  os_path_dirname (loc (Replica, r ++ [file])) = loc (Replica, r).
Proof. apply dirname_join_rel. Qed.

Lemma sim_copy_files (depth : nat) :
  sim (@eq unit)
      (Anywhere.copy_files hash_new hash_update hexdigest F unlistable depth
         source replica)
      (Anywhere.copy_files hash_new hash_update hexdigest F' U' depth
         (Source, []) (Replica, [])).
Proof.
  unfold Anywhere.copy_files. apply sim_try_except.
  - apply sim_walk_source.
    intros root dirs files Hroot. apply below_source_inv in Hroot as [r ->].
    apply sim_for_each_same. intros file. rewrite join_located.
    unfold os_path_join. cbn [fst snd].
    rewrite relpath_located_source.
    change (Anywhere.os_path_relpath (Source, r ++ [file]) (Source, []))
      with (r ++ [file]).
    change (Anywhere.os_path_join_rel replica (r ++ [file]))
      with (loc (Replica, r ++ [file])).
    change (Anywhere.os_path_join_rel (Replica, []) (r ++ [file]))
      with (Replica, r ++ [file]).
    rewrite dirname_located_replica.
    unfold os_path_dirname. cbn [fst snd]. rewrite removelast_last.
    eapply sim_bind; [apply sim_os_makedirs|]. intros _ _ _.
    eapply sim_bind; [apply sim_os_path_exists|]. intros present ? <-.
    eapply sim_bind.
    { destruct (negb present); [now apply sim_ret|].
      apply sim_are_files_different. }
    intros needed ? <-. destruct needed; [|now apply sim_ret].
    eapply sim_bind.
    { apply sim_shutil_copy2. cbn [snd]. now destruct r. }
    intros _ _ _. apply (sim_emit (LogInfo (FileCopied (r ++ [file])))).
  - intros e. eapply sim_bind.
    + apply (sim_emit (Print (CopyFailed e))).
    + intros _ _ _. apply (sim_emit (LogError (CopyFailed e))).
Qed.

Lemma sim_remove_files (depth : nat) :
  sim (@eq unit)
      (Anywhere.remove_files F unlistable depth replica source)
      (Anywhere.remove_files F' U' depth (Replica, []) (Source, [])).
Proof.
  unfold Anywhere.remove_files. apply sim_try_except.
  - apply sim_walk_replica.
    intros root dirs files Hroot. apply below_replica_inv in Hroot as [r ->].
    apply sim_for_each_same. intros file. rewrite join_located.
    unfold os_path_join. cbn [fst snd].
    rewrite relpath_located_replica.
    change (Anywhere.os_path_relpath (Replica, r ++ [file]) (Replica, []))
      with (r ++ [file]).
    change (Anywhere.os_path_join_rel source (r ++ [file]))
      with (loc (Source, r ++ [file])).
    change (Anywhere.os_path_join_rel (Source, []) (r ++ [file]))
      with (Source, r ++ [file]).
    eapply sim_bind; [apply sim_os_path_exists|]. intros present ? <-.
    destruct (negb present); [|now apply sim_ret].
    eapply sim_bind.
    { apply sim_os_remove. now destruct r. }
    intros _ _ _. apply (sim_emit (LogInfo (FileDeleted (r ++ [file])))).
  - intros e. eapply sim_bind.
    + apply (sim_emit (Print (RemoveFailed e))).
    + intros _ _ _. apply (sim_emit (LogError (RemoveFailed e))).
Qed.

Lemma sim_synchronize_folders (depth : nat) :
  sim (@eq unit)
      (Anywhere.synchronize_folders hash_new hash_update hexdigest F unlistable
         depth source replica)
      (Anywhere.synchronize_folders hash_new hash_update hexdigest F' U' depth
         (Source, []) (Replica, [])).
Proof.
  unfold Anywhere.synchronize_folders. apply sim_try_except.
  - eapply sim_bind; [apply sim_copy_files|]. intros _ _ _.
    eapply sim_bind; [apply sim_remove_files|]. intros _ _ _.
    apply (sim_emit (LogInfo SyncCompleted)).
  - intros e. eapply sim_bind.
    + apply (sim_emit (Print (SyncFailed e))).
    + intros _ _ _. apply (sim_emit (LogError (SyncFailed e))).
Qed.

Lemma sim_main_loop (interval cycles depth : nat) :
  sim (@eq status)
      (setup_logging ;;
       while_true cycles
         (Anywhere.synchronize_folders hash_new hash_update hexdigest F unlistable
            depth source replica ;;
          time_sleep (interval * 60)) ;;
       ret Looping)
      (setup_logging ;;
       while_true cycles
         (Anywhere.synchronize_folders hash_new hash_update hexdigest F' U' depth
            (Source, []) (Replica, []) ;;
          time_sleep (interval * 60)) ;;
       ret Looping).
Proof.
  eapply sim_bind; [apply (sim_note SetupLogging)|]. intros _ _ _.
  eapply sim_bind; [|intros _ _ _; now apply sim_ret].
  apply sim_while_true. eapply sim_bind; [apply sim_synchronize_folders|].
  intros _ _ _. apply (sim_note (Sleep (interval * 60))).
Qed.

End RelocatedProgram.

End Relocation.

(** ** The generator and the list of its triples *)

Lemma height_cons (x : name) (c : node) (es : list (name * node)) :
  height (Dir ((x, c) :: es))
  = Nat.max (match c with File _ => 0 | Dir _ => S (height c) end)
            (height (Dir es)).
Proof. reflexivity. Qed.

Lemma height_Dir (es : list (name * node)) (x : name) (es' : list (name * node)) :
  In (x, Dir es') es -> S (height (Dir es')) <= height (Dir es).
Proof.
  induction es as [|[y c] es IH]; [contradiction|]. rewrite height_cons.
  intros [[= -> ->]|H].
  - apply Nat.le_max_l.
  - etransitivity; [now apply IH|]. apply Nat.le_max_r.
Qed.

Lemma height_no_dirs (es : list (name * node)) :
  height (Dir es) = 0 -> dirnames es = [].
Proof.
  induction es as [|[y [d|es']] es IH]; trivial; rewrite height_cons;
    cbn [dirnames]; intros H.
  pose proof (Nat.le_max_l (S (height (Dir es'))) (height (Dir es))). lia.
Qed.

Lemma height_lookup (n : node) :
  forall q es, lookup n q = Some (Dir es) -> length q <= height n.
Proof.
  induction n as [d|es IH] using node_induction; intros q es' H.
  - destruct q; discriminate.
  - destruct q as [|x q]; [cbn; lia|]. cbn [lookup] in H.
    destruct (entry x es) as [c|] eqn:Ex; [|discriminate].
    apply entry_In in Ex. rewrite Forall_forall in IH.
    specialize (IH _ Ex q es' H). cbn [snd] in IH.
    destruct c as [d|es0].
    + destruct q; discriminate.
    + pose proof (height_Dir es x es0 Ex). cbn [length]. lia.
Qed.

Lemma walk_node_below (n : node) :
  forall top root dirs files,
  In (root, dirs, files) (walk_node top n) -> below top root = true.
Proof.
  induction n as [d|es IH] using node_induction; intros top root dirs files H.
  - contradiction.
  - rewrite walk_node_Dir in H. destruct H as [[= <- _ _]|H];
      [apply below_refl|].
    apply in_flat_map in H as ([x c] & Hin & H). cbn [fst snd] in H.
    rewrite Forall_forall in IH. specialize (IH _ Hin _ _ _ _ H).
    cbn [snd] in IH. revert IH. unfold below, os_path_join. cbn [fst snd].
    intros IH. apply andb_prop in IH as [-> IH]. cbn [andb].
    apply prefixb_spec in IH as [r E]. apply prefixb_spec.
    exists ([x] ++ r). now rewrite E, app_assoc.
Qed.

Section LazyEager.

Variable unlistable : path -> bool.
Hypothesis listable : forall p, unlistable p = false.

Variable body : path * list name * list name -> M unit.
Variable top0 : path.

(** The body leaves alone what is not one of the files of its triple. *)
Hypothesis body_keeps :
  forall root dirs files s q,
    below top0 root = true -> fst q = fst top0 ->
    (forall file, In file files -> crossing (snd root ++ [file]) (snd q) = false) ->
    stat (st_fs (fst (body (root, dirs, files) s))) q = stat (st_fs s) q.

Lemma below_trans (a b c : path) :
  below a b = true -> below b c = true -> below a c = true.
Proof.
  unfold below. intros H1 H2. apply andb_prop in H1 as [Hf1 H1].
  apply andb_prop in H2 as [Hf2 H2].
  destruct (folder_eqb_spec (fst a) (fst b)) as [->|]; [|discriminate].
  rewrite Hf2. cbn [andb]. apply prefixb_spec in H1 as [r E1].
  apply prefixb_spec in H2 as [t E2]. apply prefixb_spec. exists (r ++ t).
  now rewrite E2, E1, app_assoc.
Qed.

Lemma triples_keep (w : list (path * list name * list name)) (top : path)
      (q : path) :
  below top0 top = true -> fst q = fst top0 ->
  crossing (snd top) (snd q) = false ->
  (forall root dirs files, In (root, dirs, files) w -> below top root = true) ->
  forall s, stat (st_fs (fst (for_each w body s))) q = stat (st_fs s) q.
Proof.
  intros Htop Hq Hc. induction w as [|[[root dirs] files] w IH]; intros Hw s;
    [reflexivity|].
  cbn [for_each]. unfold bind.
  assert (Hroot : below top root = true) by (eapply Hw; now left).
  assert (Hk : stat (st_fs (fst (body (root, dirs, files) s))) q = stat (st_fs s) q).
  { apply body_keeps; trivial; [eapply below_trans; eauto|].
    intros file _. unfold below in Hroot. apply andb_prop in Hroot as [_ Hp].
    apply prefixb_spec in Hp as [r E]. rewrite E, <- app_assoc.
    now apply crossing_below. }
  destruct (body (root, dirs, files) s) as [s1 [[]|e]]; cbn [fst] in *; trivial.
  rewrite IH; trivial. intros. eapply Hw. right. eauto.
Qed.

Lemma crossing_app (p a b : relpath) : crossing (p ++ a) (p ++ b) = crossing a b.
Proof.
  induction p as [|x p IH]; trivial. cbn [app]. rewrite crossing_cons, IH.
  now rewrite String.eqb_refl.
Qed.

Lemma crossing_siblings (p : relpath) (x y : name) (r : relpath) :
  x <> y -> crossing (p ++ [x]) (p ++ y :: r) = false.
Proof.
  intros H. rewrite crossing_app, crossing_cons.
  now rewrite (proj2 (String.eqb_neq x y) H).
Qed.

Lemma stat_join (fs : filesystem) (top : path) (es : list (name * node))
      (x : name) :
  stat fs top = Some (Dir es) -> stat fs (os_path_join top x) = entry x es.
Proof.
  unfold stat, os_path_join. cbn [fst snd].
  destruct (root_of fs (fst top)) as [n|]; [|discriminate].
  rewrite lookup_app. intros ->. cbn [lookup]. now destruct (entry x es).
Qed.

Lemma no_dirs_no_triples (top : path) (es : list (name * node)) :
  dirnames es = [] ->
  flat_map (fun e => walk_node (os_path_join top (fst e)) (snd e)) es = [].
Proof.
  induction es as [|[x c] es IH]; trivial. destruct c as [d|es'].
  - cbn [dirnames flat_map snd walk_node app]. exact IH.
  - discriminate.
Qed.

Lemma sub_walks_are_eager (d : nat) (top : path) :
  below top0 top = true ->
  forall l,
  wf_node (Dir l) = true ->
  Forall (fun e => walk_is_eager unlistable body top0 (snd e)) l ->
  (forall x es', In (x, Dir es') l -> height (Dir es') <= d) ->
  forall s,
  (forall x es', In (x, Dir es') l ->
     stat (st_fs s) (os_path_join top x) = Some (Dir es')) ->
  for_each (dirnames l)
    (fun x => Anywhere.for_os_walk unlistable d (os_path_join top x) body) s
  = for_each (flat_map (fun e => walk_node (os_path_join top (fst e)) (snd e)) l)
      body s.
Proof.
  intros Htop. induction l as [|[x c] l IH]; intros Hwf HP Hh s Hs; trivial.
  apply wf_node_cons_inv in Hwf as (Hx & Hc & Hl).
  apply Forall_cons_iff in HP as [HPc HP]. cbn [snd] in HPc.
  cbn [flat_map fst snd]. destruct c as [dta|es'].
  - cbn [dirnames walk_node app]. apply IH; trivial.
    + intros y es' Hy. apply (Hh y es'). now right.
    + intros y es' Hy. apply Hs. now right.
  - cbn [dirnames for_each]. rewrite for_each_app. unfold bind.
    rewrite (HPc d (os_path_join top x) s); trivial;
      [|now apply below_join|apply Hs; now left|eapply Hh; now left].
    assert (Hk : forall y es'', In (y, Dir es'') l ->
              stat (st_fs (fst (for_each (walk_node (os_path_join top x) (Dir es'))
                                  body s)))
                (os_path_join top y) = Some (Dir es'')).
    { intros y es'' Hy. rewrite (@triples_keep _ (os_path_join top x)).
      - apply Hs. now right.
      - now apply below_join.
      - unfold below in Htop. apply andb_prop in Htop as [Hf _].
        destruct (folder_eqb_spec (fst top0) (fst top)); [|discriminate].
        cbn [os_path_join fst]. congruence.
      - cbn [os_path_join snd]. apply crossing_siblings. intros ->.
        now apply entry_None_notin with (c := Dir es'') in Hx.
      - intros root dirs files. apply walk_node_below. }
    destruct (for_each (walk_node (os_path_join top x) (Dir es')) body s)
      as [s1 [[]|e]]; cbn [fst] in *; trivial.
    apply IH; trivial. intros y es'' Hy. apply (Hh y es''). now right.
Qed.

Lemma for_os_walk_eager (n : node) : walk_is_eager unlistable body top0 n.
Proof.
  induction n as [d|es IH] using node_induction;
    intros depth top s Htop Hs Hwf Hh.
  - destruct depth; cbn [Anywhere.for_os_walk]; unfold Anywhere.scandir;
      now rewrite Hs.
  - assert (Hscan : Anywhere.scandir unlistable (st_fs s) top
                    = Some (dirnames es, filenames es)).
    { unfold Anywhere.scandir. now rewrite Hs, listable. }
    rewrite walk_node_Dir. cbn [for_each]. unfold bind.
    assert (Hk : forall x es', In (x, Dir es') es ->
              stat (st_fs (fst (body (top, dirnames es, filenames es) s)))
                (os_path_join top x) = Some (Dir es')).
    { intros x es' Hx. rewrite body_keeps; trivial.
      - rewrite (stat_join _ _ x Hs). now apply In_entry.
      - unfold below in Htop. apply andb_prop in Htop as [Hf _].
        destruct (folder_eqb_spec (fst top0) (fst top)); [|discriminate].
        cbn [os_path_join fst]. congruence.
      - intros file Hfile. cbn [os_path_join snd]. apply crossing_siblings.
        intros ->. apply In_filenames in Hfile as [dta Hfile].
        pose proof (In_entry _ _ _ Hwf Hfile). pose proof (In_entry _ _ _ Hwf Hx).
        congruence. }
    destruct depth as [|depth]; cbn [Anywhere.for_os_walk]; rewrite Hscan;
      unfold bind;
      destruct (body (top, dirnames es, filenames es) s) as [s1 [[]|e]];
      cbn [fst] in *; trivial.
    + rewrite no_dirs_no_triples; trivial. apply height_no_dirs. lia.
    + apply sub_walks_are_eager; trivial.
      intros x es' Hx. pose proof (height_Dir es x es' Hx). lia.
Qed.

End LazyEager.

Lemma height_le (n : node) :
  forall d, wf_node n = true ->
  (forall q es, lookup n q = Some (Dir es) -> length q <= d) -> height n <= d.
Proof.
  induction n as [dta|es IH] using node_induction; intros d Hwf H; [cbn; lia|].
  assert (Hall : forall x c, In (x, c) es ->
            match c with File _ => 0 | Dir _ => S (height c) end <= d).
  { intros x c Hx. destruct c as [dta|es']; [lia|].
    pose proof (In_entry _ _ _ Hwf Hx) as Ex.
    assert (H1 : 1 <= d).
    { apply (H [x] es'). cbn [lookup]. now rewrite Ex. }
    rewrite Forall_forall in IH. specialize (IH _ Hx (d - 1)). cbn [snd] in IH.
    assert (height (Dir es') <= d - 1); [|lia].
    apply IH; [eapply wf_In; eauto|]. intros q es'' Hq.
    assert (length (x :: q) <= d); [|cbn [length] in *; lia].
    apply (H (x :: q) es''). cbn [lookup]. now rewrite Ex. }
  clear H IH Hwf. induction es as [|[x c] es IHes]; [cbn; lia|].
  rewrite height_cons. apply Nat.max_lub.
  - apply (Hall x c). now left.
  - apply IHes. intros y c' Hy. apply (Hall y c'). now right.
Qed.

Lemma shallow_height (depth : nat) (fs : filesystem) :
  height_at fs (Source, []) <= depth -> height_at fs (Replica, []) <= depth ->
  shallow depth fs.
Proof.
  intros Hs Hr f q. unfold kind_at, stat. cbn [fst snd].
  assert (H : height_at fs (f, []) <= depth) by now destruct f.
  unfold height_at, stat in H. cbn [fst snd] in H.
  destruct (root_of fs f) as [n|]; [|discriminate]. cbn [lookup] in H.
  destruct (lookup n q) as [[d|es]|] eqn:E; try discriminate. intros _.
  pose proof (height_lookup n q E). lia.
Qed.

Lemma height_shallow (depth : nat) (fs : filesystem) (f : folder) :
  wf_fs fs = true -> shallow depth fs -> height_at fs (f, []) <= depth.
Proof.
  intros Hwf H. unfold height_at, stat. cbn [fst snd].
  destruct (root_of fs f) as [n|] eqn:Hn; [|lia]. cbn [lookup].
  apply height_le; [eapply wf_root_of; eauto|]. intros q es Hq.
  apply (H f q). unfold kind_at, stat. cbn [fst snd]. now rewrite Hn, Hq.
Qed.

Lemma shallow_evolved (depth : nat) (fs fs' : filesystem) :
  wf_fs fs = true -> evolved fs fs' -> shallow depth fs -> shallow depth fs'.
Proof.
  intros Hwf He H. destruct (He Hwf) as (_ & Hs & _ & Hd & _).
  intros [|] q Hq.
  - apply (H Source q). now rewrite <- (kind_at_same_root _ _ _ q Hs).
  - destruct (Hd q Hq) as [E|(p & Hp & Hqp)]; [now apply (H Replica q)|].
    destruct (files_under_kind fs Source p Hwf Hp) as (Hne & d & Kd).
    apply ancestors_removelast in Hqp as [_ Hqp].
    destruct (exists_last Hne) as (pp & x & ->).
    rewrite removelast_last in Hqp. apply prefixb_spec in Hqp as [r ->].
    pose proof (parent_is_dir _ _ _ _ Kd) as Kp.
    apply (H Source) in Kp. rewrite length_app in Kp. lia.
Qed.

Lemma bind_ext_at {A B : Type} (m m' : M A) (k k' : A -> M B) (s : state) :
  m s = m' s ->
  (forall a, snd (m' s) = Ok a -> k a (fst (m' s)) = k' a (fst (m' s))) ->
  bind m k s = bind m' k' s.
Proof.
  intros Hm Hk. unfold bind. rewrite Hm.
  destruct (m' s) as [s1 [a|e]]; cbn [fst snd] in *; auto.
Qed.

Section Eager.

Variable hasher : Type.
Variable hash_new : hasher.
Variable hash_update : hasher -> list byte -> hasher.
Variable hexdigest : hasher -> string.
Variable F : faults.
Variable unlistable : path -> bool.
Hypothesis listable : forall p, unlistable p = false.

Lemma walk_at_root (body : path * list name * list name -> M unit) (f : folder)
      (depth : nat) (s : state) :
  (forall root dirs files s q,
     below (f, []) root = true -> fst q = f ->
     (forall file, In file files -> crossing (snd root ++ [file]) (snd q) = false) ->
     stat (st_fs (fst (body (root, dirs, files) s))) q = stat (st_fs s) q) ->
  wf_fs (st_fs s) = true ->
  height_at (st_fs s) (f, []) <= depth ->
  Anywhere.for_os_walk unlistable depth (f, []) body s
  = (triples <- os_walk (f, []) ;; for_each triples body) s.
Proof.
  intros Hk Hwf Hh. unfold bind, os_walk, walk. unfold height_at in Hh.
  destruct (stat (st_fs s) (f, [])) as [n|] eqn:Hs.
  - apply (@for_os_walk_eager unlistable listable body (f, []) Hk n); trivial.
    + apply below_refl.
    + unfold stat in Hs. cbn [fst snd] in Hs.
      destruct (root_of (st_fs s) f) as [n'|] eqn:Hn; [|discriminate].
      cbn [lookup] in Hs. injection Hs as <-. eapply wf_root_of; eauto.
  - destruct depth; cbn [Anywhere.for_os_walk for_each]; unfold Anywhere.scandir;
      now rewrite Hs.
Qed.

Lemma copy_files_eager (depth : nat) (s : state) :
  wf_fs (st_fs s) = true ->
  height_at (st_fs s) (Source, []) <= depth ->
  Anywhere.copy_files hash_new hash_update hexdigest F unlistable depth
    (Source, []) (Replica, []) s
  = copy_files hash_new hash_update hexdigest F Source Replica s.
Proof.
  intros Hwf Hh. unfold Anywhere.copy_files, copy_files, try_except.
  rewrite walk_at_root; trivial.
  intros root dirs files s0 q Hroot Hq _.
  destruct root as [[|] r]; [|discriminate]. destruct q as [f q].
  cbn [fst] in Hq. subst f. unfold stat. cbn [fst snd].
  assert (H : confined same_source (fun _ => True) (fun _ => True)
                (for_each files (fun file =>
                   copy_one hash_new hash_update hexdigest F Source Replica
                     (os_path_join (Source, r) file)))).
  { apply confined_for_each; [exact same_source_refl|exact same_source_trans|].
    intros file _.
    apply confined_copy_one;
      try exact same_source_refl; try exact same_source_trans; auto.
    - intros fs fs' p H. eapply makedirs_root_other; eauto. discriminate.
    - intros fs fs' r0 a p H. eapply copy2_root_other; eauto. discriminate. }
  destruct (for_each files _ s0) as [s1 r1] eqn:E.
  destruct (H _ _ _ E) as [HI _]. cbn [fst]. now rewrite HI.
Qed.

Lemma remove_files_eager (depth : nat) (s : state) :
  wf_fs (st_fs s) = true ->
  height_at (st_fs s) (Replica, []) <= depth ->
  Anywhere.remove_files F unlistable depth (Replica, []) (Source, []) s
  = remove_files F Replica Source s.
Proof.
  intros Hwf Hh. unfold Anywhere.remove_files, remove_files, try_except.
  rewrite walk_at_root; trivial.
  intros root dirs files s0 q Hroot Hq Hc.
  set (I := fun fs fs' : filesystem => stat fs' q = stat fs q).
  assert (Irefl : forall fs, I fs fs) by reflexivity.
  assert (Itrans : forall a b c, I a b -> I b c -> I a c)
    by (unfold I; intros; congruence).
  assert (H : confined I (fun _ => True) (fun _ => True)
                (for_each files (fun file =>
                   remove_one F Replica Source (os_path_join root file)))).
  { apply confined_for_each; trivial. intros file Hfile. unfold remove_one.
    apply confined_bind; trivial.
    { now apply confined_unchanged. }
    intros present. destruct (negb present); [|now apply confined_ret].
    apply confined_bind; trivial.
    - apply confined_os_remove; trivial. intros fs fs' Hrm.
      eapply stat_remove_apart; eauto. unfold comparable.
      cbn [os_path_join fst snd]. rewrite (Hc file Hfile).
      apply andb_false_r.
    - intros _. now apply (confined_emit I _ _ Irefl). }
  destruct root as [[|] r]; [discriminate|].
  destruct (for_each files _ s0) as [s1 r1] eqn:E.
  destruct (H _ _ _ E) as [HI _]. exact HI.
Qed.

Lemma synchronize_folders_eager (depth : nat) (s : state) :
  wf_fs (st_fs s) = true -> shallow depth (st_fs s) ->
  Anywhere.synchronize_folders hash_new hash_update hexdigest F unlistable depth
    (Source, []) (Replica, []) s
  = synchronize_folders hash_new hash_update hexdigest F Source Replica s.
Proof.
  intros Hwf Hsh. unfold Anywhere.synchronize_folders, synchronize_folders.
  unfold try_except, bind.
  rewrite copy_files_eager; trivial; [|now apply height_shallow].
  pose proof (evolved_copy_files hash_new hash_update hexdigest F s) as He.
  pose proof (shallow_evolved Hwf He Hsh) as Hsh1.
  destruct (He Hwf) as (Hwf1 & _).
  destruct (copy_files hash_new hash_update hexdigest F Source Replica s)
    as [s1 [[]|e]]; cbn [fst] in *; trivial.
  rewrite remove_files_eager; trivial. now apply height_shallow.
Qed.

Lemma loop_eager (interval depth cycles : nat) :
  forall s,
  wf_fs (st_fs s) = true -> shallow depth (st_fs s) ->
  while_true cycles
    (Anywhere.synchronize_folders hash_new hash_update hexdigest F unlistable
       depth (Source, []) (Replica, []) ;;
     time_sleep (interval * 60)) s
  = while_true cycles
      (synchronize_folders hash_new hash_update hexdigest F Source Replica ;;
       time_sleep (interval * 60)) s.
Proof.
  induction cycles as [|n IH]; intros s Hwf Hsh; trivial.
  cbn [while_true]. apply bind_ext_at.
  - apply bind_ext_at; [now apply synchronize_folders_eager|reflexivity].
  - intros _ _.
    pose proof (evolved_synchronize_folders hash_new hash_update hexdigest F s)
      as He.
    pose proof (shallow_evolved Hwf He Hsh) as Hsh1.
    destruct (He Hwf) as (Hwf1 & _). unfold bind.
    destruct (synchronize_folders hash_new hash_update hexdigest F Source Replica s)
      as [s1 [[]|e]]; cbn [fst] in *; now apply IH.
Qed.

Lemma main_eager (interval cycles depth : nat) (s : state) :
  wf_fs (st_fs s) = true -> shallow depth (st_fs s) ->
  Anywhere.main hash_new hash_update hexdigest F unlistable
    (Source, []) (Replica, []) interval cycles depth s
  = main hash_new hash_update hexdigest F interval cycles s.
Proof.
  intros Hwf Hsh. unfold Anywhere.main, main.
  apply bind_ext_at; trivial. intros present _. cbn [os_path_exists fst].
  destruct (negb present); trivial.
  apply bind_ext_at; trivial. intros present' _. cbn [os_path_exists fst].
  destruct (negb present'); trivial.
  apply bind_ext_at; trivial. intros _ _. cbn [setup_logging fst].
  apply bind_ext_at; trivial. now apply loop_eager.
Qed.

End Eager.

Lemma wf_lookup (n : node) (p : relpath) :
  forall c, wf_node n = true -> lookup n p = Some c -> wf_node c = true.
Proof.
  revert n. induction p as [|x p IH]; intros n c Hwf H.
  - cbn [lookup] in H. now injection H as <-.
  - cbn [lookup] in H. destruct n as [d|es]; [discriminate|].
    destruct (entry x es) as [c0|] eqn:Ex; [|discriminate].
    apply (IH c0 c); trivial. eapply wf_entry; eauto.
Qed.

Lemma wf_stat (fs : filesystem) (p : path) :
  wf_fs fs = true -> wf_root (stat fs p) = true.
Proof.
  intros Hwf. unfold stat. destruct (root_of fs (fst p)) as [n|] eqn:Hn; trivial.
  destruct (lookup n (snd p)) as [c|] eqn:Hc; trivial. cbn [wf_root].
  eapply wf_lookup; eauto. eapply wf_root_of; eauto.
Qed.

Lemma wf_seen (source replica : path) (fs : filesystem) :
  wf_fs fs = true -> wf_fs (seen source replica fs) = true.
Proof.
  intros Hwf. unfold wf_fs, seen. cbn [source_root replica_root].
  now rewrite !wf_stat.
Qed.

Section Seen.

Variable hasher : Type.
Variable hash_new : hasher.
Variable hash_update : hasher -> list byte -> hasher.
Variable hexdigest : hasher -> string.
Variable F : faults.
Variable unlistable : path -> bool.
Variable source replica : path.

Hypothesis folders_apart : comparable replica source = false.
Hypothesis listable : forall p, unlistable (located source replica p) = false.

Local Abbreviation F' := (seen_faults source replica F).

Lemma run_cycle_seen (depth : nat) (fs : filesystem) :
  wf_fs fs = true ->
  exists_b fs replica = true ->
  shallow depth (seen source replica fs) ->
  as_seen source replica (run_cycle hash_new hash_update hexdigest F' (seen source replica fs))
          (Anywhere.run_cycle hash_new hash_update hexdigest F unlistable
             source replica depth fs).
Proof.
  intros Hwf Hr Hsh. unfold run_cycle, Anywhere.run_cycle.
  assert (H0 : stands_for source replica (initial (seen source replica fs))
                 (initial fs)).
  { repeat split. cbn [initial st_fs seen replica_root].
    unfold exists_b in Hr. destruct (stat fs replica); congruence. }
  destruct (@sim_synchronize_folders source replica folders_apart hasher hash_new
              hash_update hexdigest F unlistable depth _ _ H0) as [(H1 & H2 & H3 & _) _].
  rewrite synchronize_folders_eager in H1, H2, H3; trivial;
    try (now apply wf_seen).
  repeat split; trivial.
Qed.

Lemma exists_b_seen (fs : filesystem) :
  exists_b (seen source replica fs) (Source, []) = exists_b fs source
  /\ exists_b (seen source replica fs) (Replica, []) = exists_b fs replica.
Proof.
  unfold exists_b. rewrite <- !stat_located.
  now rewrite located_source_root, located_replica_root.
Qed.

Lemma main_cases (U : path -> bool) (E : faults) (src rep : path)
      (interval cycles depth : nat) (s : state) :
  Anywhere.main hash_new hash_update hexdigest E U src rep interval cycles depth s
  = if exists_b (st_fs s) src then
      if exists_b (st_fs s) rep then
        (setup_logging ;;
         while_true cycles
           (Anywhere.synchronize_folders hash_new hash_update hexdigest E U
              depth src rep ;;
            time_sleep (interval * 60)) ;;
         ret Looping) s
      else (emit (Print ReplicaMissing) s, Ok Returned)
    else (emit (Print SourceMissing) s, Ok Returned).
Proof.
  unfold Anywhere.main. unfold bind at 1. unfold os_path_exists at 1.
  destruct (exists_b (st_fs s) src); cbn [negb]; [|reflexivity].
  unfold bind at 1. unfold os_path_exists at 1.
  destruct (exists_b (st_fs s) rep); cbn [negb]; reflexivity.
Qed.

Lemma run_main_seen (interval cycles depth : nat) (fs : filesystem) :
  wf_fs fs = true ->
  shallow depth (seen source replica fs) ->
  as_seen source replica (run_main hash_new hash_update hexdigest F' interval cycles
             (seen source replica fs))
          (Anywhere.run_main hash_new hash_update hexdigest F unlistable
             source replica interval cycles depth fs).
Proof.
  intros Hwf Hsh. unfold run_main, Anywhere.run_main.
  rewrite <- (@main_eager hasher hash_new hash_update hexdigest F'
                (fun p => unlistable (located source replica p)) listable
                interval cycles depth);
    trivial; try (now apply wf_seen).
  rewrite !main_cases. cbn [initial st_fs].
  destruct (exists_b_seen fs) as [-> ->].
  destruct (exists_b fs source); [|repeat split].
  destruct (exists_b fs replica) eqn:Hr; [|repeat split].
  assert (H0 : stands_for source replica (initial (seen source replica fs))
                 (initial fs)).
  { repeat split. cbn [initial st_fs seen replica_root].
    unfold exists_b in Hr. destruct (stat fs replica); congruence. }
  destruct (@sim_main_loop source replica folders_apart hasher hash_new
              hash_update hexdigest F unlistable interval cycles depth _ _ H0)
    as [(H1 & H2 & H3 & _) _].
  split; [exact H1|split; [exact H2|exact H3]].
Qed.

End Seen.

Lemma no_error_located (source replica : path) (l : list output) :
  no_error (map (located_output source replica) l) = no_error l.
Proof.
  unfold no_error. induction l as [|o l IH]; trivial. cbn [map forallb].
  rewrite IH. now destruct o.
Qed.

Lemma height_at_seen (source replica : path) (fs : filesystem) :
  height_at (seen source replica fs) (Source, []) = height_at fs source
  /\ height_at (seen source replica fs) (Replica, []) = height_at fs replica.
Proof.
  unfold height_at.
  rewrite <- (stat_located source replica fs (Source, [])).
  rewrite <- (stat_located source replica fs (Replica, [])).
  now rewrite located_source_root, located_replica_root.
Qed.

Lemma shallow_seen (source replica : path) (depth : nat) (fs : filesystem) :
  height_at fs source <= depth -> height_at fs replica <= depth ->
  shallow depth (seen source replica fs).
Proof.
  intros Hs Hr. destruct (height_at_seen source replica fs) as [Es Er].
  apply shallow_height; congruence.
Qed.

Section InSync.

Variable hasher : Type.
Variable hash_new : hasher.
Variable hash_update : hasher -> list byte -> hasher.
Variable hexdigest : hasher -> string.

Lemma main_stays_in_sync (interval n : nat) (fs : filesystem) :
  wf_fs fs = true ->
  exists_b fs (Source, []) = true ->
  exists_b fs (Replica, []) = true ->
  conflict_free fs = true ->
  clear_of_dirs fs = true ->
  collision_free hash_new hash_update hexdigest fs = true ->
  (forall p d,
     file_at (st_fs (run_main hash_new hash_update hexdigest no_faults
                       interval (S n) fs)) Replica p d
     <-> file_at fs Source p d)
  /\ same_source fs
       (st_fs (run_main hash_new hash_update hexdigest no_faults interval (S n) fs))
  /\ st_out (run_main hash_new hash_update hexdigest no_faults interval (S n) fs)
     = st_out (run_cycle hash_new hash_update hexdigest no_faults fs)
       ++ repeat (LogInfo SyncCompleted) n.
Proof.
  intros Hwf H1 H2 Hcf Hclear Hfree.
  assert (Hne : no_error
                  (st_out (run_cycle hash_new hash_update hexdigest no_faults fs))
                = true).
  { now rewrite cycle_errors, cycle_unhindered_no_faults. }
  destruct (fault_free_cycle_twice hash_new hash_update hexdigest fs Hwf Hcf)
    as [Hout2 Hfs2].
  assert (Hn : st_fs (run_main hash_new hash_update hexdigest no_faults
                        interval (S n) fs)
               = st_fs (run_cycle hash_new hash_update hexdigest no_faults fs)
               /\ st_out (run_main hash_new hash_update hexdigest no_faults
                            interval (S n) fs)
                  = st_out (run_cycle hash_new hash_update hexdigest no_faults fs)
                    ++ repeat (LogInfo SyncCompleted) n).
  { induction n as [|n [IHfs IHout]];
      rewrite (run_main_succ hash_new hash_update hexdigest no_faults interval
                 _ fs H1 H2);
      cbn [note rebase st_fs st_out].
    - rewrite run_main_loop by trivial. cbn [while_true ret fst note initial
                                              st_fs st_out repeat app].
      now rewrite app_nil_r.
    - rewrite IHfs, IHout, Hout2, Hfs2. split; [reflexivity|].
      rewrite <- app_assoc. f_equal. cbn [repeat]. symmetry. apply repeat_cons. }
  destruct Hn as [-> ->].
  destruct (clean_cycle hash_new hash_update hexdigest no_faults fs Hwf Hne)
    as (_ & Hsame & _).
  split; [|split; [exact Hsame|reflexivity]].
  now apply mirror_after_clean_cycle.
Qed.

End InSync.

Lemma map_located_repeat (source replica : path) (n : nat) :
  map (located_output source replica) (repeat (LogInfo SyncCompleted) n)
  = repeat (LogInfo SyncCompleted) n.
Proof. induction n as [|n IH]; trivial. cbn [repeat map]. now rewrite IH. Qed.

(** ** MD5 *)

(** The test suite of RFC 1321, and an update in two pieces. *)
Lemma md5_test_suite :
  md5_hexdigest (md5_update md5_new (list_byte_of_string ""))
  = "d41d8cd98f00b204e9800998ecf8427e"%string
  /\ md5_hexdigest (md5_update md5_new (list_byte_of_string "a"))
     = "0cc175b9c0f1b6a831c399e269772661"%string
  /\ md5_hexdigest (md5_update md5_new (list_byte_of_string "abc"))
     = "900150983cd24fb0d6963f7d28e17f72"%string
  /\ md5_hexdigest (md5_update md5_new (list_byte_of_string "message digest"))
     = "f96b697d7cb7938d525a2f31aaf161d0"%string
  /\ md5_hexdigest
       (md5_update md5_new (list_byte_of_string "abcdefghijklmnopqrstuvwxyz"))
     = "c3fcd3d76192e4007dfb496cca67e13b"%string
  /\ md5_hexdigest
       (md5_update md5_new
          (list_byte_of_string
             "ABCDEFGHIJKLMNOPQRSTUVWXYZabcdefghijklmnopqrstuvwxyz0123456789"))
     = "d174ab98d277d9f5a5611c2c9f419d9f"%string
  /\ md5_hexdigest
       (md5_update (md5_update md5_new (list_byte_of_string "message "))
          (list_byte_of_string "digest"))
     = "f96b697d7cb7938d525a2f31aaf161d0"%string.
Proof. repeat split; vm_compute; reflexivity. Qed.

(** The two contents differ and have one digest. *)
Lemma md5_collision :
  md5_hexdigest (md5_update md5_new collision_a)
  = "79054025255fb1a26e4bc422aef54eb4"%string
  /\ md5_hexdigest (md5_update md5_new collision_b)
     = "79054025255fb1a26e4bc422aef54eb4"%string
  /\ collision_a <> collision_b.
Proof. repeat split; try (vm_compute; reflexivity). discriminate. Qed.

(** * Theorems on any two folders *)

(** C6 (amended). Every call that creates, writes or removes something
    ([os.makedirs], [shutil.copy2], [os.remove]) is given a path below the
    replica folder, and what lies neither in the replica folder nor above
    it is left as it was: after any number of cycles of [main] and after
    one call of [synchronize_folders], for any two folders, every file
    system, every hasher, every pattern of failures and every depth of the
    walks.  When neither folder lies inside the other, the source tree,
    content and structure, is therefore the tree the run started with. *)
Theorem changes_are_confined_to_the_replica (hasher : Type) (hash_new : hasher)
    (hash_update : hasher -> list byte -> hasher) (hexdigest : hasher -> string)
    (F : faults) (unlistable : path -> bool) (source replica : path)
    (interval cycles depth : nat) (fs : filesystem) :
  (Forall (targets_below replica)
     (st_calls (Anywhere.run_main hash_new hash_update hexdigest F unlistable
                  source replica interval cycles depth fs))
   /\ same_outside replica fs
        (st_fs (Anywhere.run_main hash_new hash_update hexdigest F unlistable
                  source replica interval cycles depth fs))
   /\ (comparable replica source = false ->
       stat (st_fs (Anywhere.run_main hash_new hash_update hexdigest F unlistable
                      source replica interval cycles depth fs)) source
       = stat fs source))
  /\ (Forall (targets_below replica)
        (st_calls (Anywhere.run_cycle hash_new hash_update hexdigest F unlistable
                     source replica depth fs))
      /\ same_outside replica fs
           (st_fs (Anywhere.run_cycle hash_new hash_update hexdigest F unlistable
                     source replica depth fs))
      /\ (comparable replica source = false ->
          stat (st_fs (Anywhere.run_cycle hash_new hash_update hexdigest F
                         unlistable source replica depth fs)) source
          = stat fs source)).
Proof.
  split.
  - unfold Anywhere.run_main.
    destruct (Anywhere.main hash_new hash_update hexdigest F unlistable source
                replica interval cycles depth (initial fs)) as [s' r] eqn:H.
    destruct (@confined_main_anywhere hasher hash_new hash_update hexdigest F
                unlistable source replica interval cycles depth _ _ _ H)
      as (HI & cs & os & Hc & HP & _).
    cbn [fst]. split; [now rewrite Hc|]. split; [exact HI|]. apply HI.
  - unfold Anywhere.run_cycle.
    destruct (Anywhere.synchronize_folders hash_new hash_update hexdigest F
                unlistable depth source replica (initial fs)) as [s' r] eqn:H.
    destruct (@confined_synchronize_folders_anywhere hasher hash_new hash_update
                hexdigest F unlistable source replica depth _ _ _ H)
      as (HI & cs & os & Hc & HP & _).
    cbn [fst]. split; [now rewrite Hc|]. split; [exact HI|]. apply HI.
Qed.

Lemma changes_are_confined_to_the_replica_witness :
  let fs := {| source_root := None;
               replica_root :=
                 Some (Dir [("home"%string,
                             Dir [("a.txt"%string, File [x68; x65; x6c; x6c; x6f]);
                                  ("sub"%string,
                                   Dir [("b.txt"%string, File [x77; x6f])])]);
                            ("backup"%string,
                             Dir [("a.txt"%string, File [x68; x69]);
                                  ("old.txt"%string, File [x73])])]) |} in
  let source := (Replica, ["home"%string]) in
  let replica := (Replica, ["backup"%string]) in
  let F := deny_unlink (Replica, ["backup"%string; "old.txt"%string]) in
  comparable replica source = false
  /\ stat (st_fs (Anywhere.run_main [] plain_update plain_digest F all_listable
                    source replica 1 2 1 fs)) source
     = stat fs source
  /\ st_out (Anywhere.run_main [] plain_update plain_digest F all_listable
               source replica 1 1 1 fs)
     = [LogInfo (FileCopied ["a.txt"%string]);
        LogInfo (FileCopied ["sub"%string; "b.txt"%string]);
        Print (RemoveFailed
                 (OSError EACCES (Replica, ["backup"%string; "old.txt"%string])));
        LogError (RemoveFailed
                    (OSError EACCES (Replica, ["backup"%string; "old.txt"%string])));
        LogInfo SyncCompleted].
Proof.
  intros fs source replica F. split; [reflexivity|]. split.
  - apply (proj2 (proj2 (proj1
             (@changes_are_confined_to_the_replica (list byte) [] plain_update
                plain_digest F all_listable source replica 1 2 1 fs)))).
    reflexivity.
  - vm_compute. reflexivity.
Defined.

(** The source folder lies inside the replica folder: the delete phase
    finds the source file below the replica folder, finds nothing at the
    path it makes of it in the source folder, and removes it. *)
Lemma source_inside_the_replica_is_emptied :
  let fs := {| source_root := None;
               replica_root :=
                 Some (Dir [("src"%string,
                             Dir [("f.txt"%string, File [x01])])]) |} in
  let source := (Replica, ["src"%string]) in
  let replica := (Replica, []) in
  let s' := Anywhere.run_main [] plain_update plain_digest no_faults all_listable
              source replica 1 1 2 fs in
  wf_fs fs = true
  /\ stat fs source = Some (Dir [("f.txt"%string, File [x01])])
  /\ stat (st_fs s') source = Some (Dir [])
  /\ st_out s' = [LogInfo (FileCopied ["f.txt"%string]);
                  LogInfo (FileDeleted ["src"%string; "f.txt"%string]);
                  LogInfo SyncCompleted]
  /\ st_calls s' = [SetupLogging; Makedirs (Replica, []);
                    Copy2 (Replica, ["src"%string; "f.txt"%string])
                      (Replica, ["f.txt"%string]);
                    Remove (Replica, ["src"%string; "f.txt"%string]);
                    Sleep 60].
Proof. cbv zeta. repeat split; vm_compute; reflexivity. Qed.

(** C1 (amended). For every source tree and every replica tree of which
    neither lies inside the other, if every directory of the two folders
    can be listed, one call of [synchronize_folders] completes without any
    error, no replica file sat at the relative path of a source directory
    and the fingerprints do not collide on the files the call compares,
    then afterwards the source is unchanged and the replica holds exactly
    the files of the source: the same relative paths with the same
    contents.  The replica folder exists, and [depth], the depth to which
    the walks are observed, is at least the height of the two trees. *)
Theorem clean_cycle_converges (hasher : Type) (hash_new : hasher)
    (hash_update : hasher -> list byte -> hasher) (hexdigest : hasher -> string)
    (F : faults) (unlistable : path -> bool) (source replica : path)
    (depth : nat) (fs : filesystem) :
  wf_fs fs = true ->
  comparable replica source = false ->
  exists_b fs replica = true ->
  (forall p, unlistable (located source replica p) = false) ->
  height_at fs source <= depth ->
  height_at fs replica <= depth ->
  no_error (st_out (Anywhere.run_cycle hash_new hash_update hexdigest F unlistable
                      source replica depth fs)) = true ->
  clear_of_dirs (seen source replica fs) = true ->
  collision_free hash_new hash_update hexdigest (seen source replica fs) = true ->
  stat (st_fs (Anywhere.run_cycle hash_new hash_update hexdigest F unlistable
                 source replica depth fs)) source
  = stat fs source
  /\ forall p d,
       file_at (seen source replica
                  (st_fs (Anywhere.run_cycle hash_new hash_update hexdigest F
                            unlistable source replica depth fs)))
         Replica p d
       <-> file_at (seen source replica fs) Source p d.
Proof.
  intros Hwf Hapart Hrep Hlist Hhs Hhr Hne Hclear Hfree.
  destruct (@run_cycle_seen hasher hash_new hash_update hexdigest F unlistable
              source replica Hapart Hlist depth fs Hwf Hrep
              (@shallow_seen source replica depth fs Hhs Hhr))
    as (Hfs & Hout & _).
  rewrite Hout, no_error_located in Hne.
  pose proof (@wf_seen source replica fs Hwf) as Hwf'.
  destruct (clean_cycle hash_new hash_update hexdigest
              (seen_faults source replica F) (seen source replica fs) Hwf' Hne)
    as (_ & Hsame & _).
  split.
  - unfold same_source in Hsame. rewrite Hfs in Hsame. exact Hsame.
  - rewrite <- Hfs. now apply mirror_after_clean_cycle.
Qed.

Lemma clean_cycle_converges_witness :
  let fs := {| source_root := None;
               replica_root :=
                 Some (Dir [("home"%string,
                             Dir [("a.txt"%string, File [x68; x65; x6c; x6c; x6f]);
                                  ("sub"%string,
                                   Dir [("b.txt"%string, File [x77; x6f])])]);
                            ("backup"%string,
                             Dir [("a.txt"%string, File [x68; x69]);
                                  ("old.txt"%string, File [x73])])]) |} in
  let source := (Replica, ["home"%string]) in
  let replica := (Replica, ["backup"%string]) in
  stat (st_fs (Anywhere.run_cycle [] plain_update plain_digest no_faults
                 all_listable source replica 1 fs)) source
  = stat fs source
  /\ forall p d,
       file_at (seen source replica
                  (st_fs (Anywhere.run_cycle [] plain_update plain_digest
                            no_faults all_listable source replica 1 fs)))
         Replica p d
       <-> file_at (seen source replica fs) Source p d.
Proof.
  intros fs source replica.
  apply (@clean_cycle_converges (list byte) [] plain_update plain_digest
           no_faults all_listable source replica 1 fs);
    try (vm_compute; reflexivity); try (intros p; reflexivity);
    vm_compute; lia.
Defined.

(** Four cycles without error after which the replica differs from the
    source: a replica file at the path of a source directory survives; a
    replica file whose content has the MD5 digest of the differing source
    file is not replaced; the file of a source directory that cannot be
    listed is not copied; with the replica folder inside the source folder
    the copies are copied again and the source is changed. *)
Lemma clean_cycle_can_leave_differences :
  (let fs := {| source_root := Some (Dir [("d"%string, Dir [])]);
                replica_root := Some (Dir [("d"%string, File [x78])]) |} in
   let s' := Anywhere.run_cycle [] plain_update plain_digest no_faults
               all_listable (Source, []) (Replica, []) 1 fs in
   wf_fs fs = true
   /\ no_error (st_out s') = true
   /\ file_at (st_fs s') Replica ["d"%string] [x78]
   /\ kind_at (st_fs s') (Source, ["d"%string]) = KDir)
  /\ (let fs := {| source_root := Some (Dir [("a.bin"%string, File collision_a)]);
                   replica_root := Some (Dir [("a.bin"%string, File collision_b)]) |} in
      let s' := Anywhere.run_cycle md5_new md5_update md5_hexdigest no_faults
                  all_listable (Source, []) (Replica, []) 1 fs in
      wf_fs fs = true
      /\ bytes_eqb collision_a collision_b = false
      /\ no_error (st_out s') = true
      /\ file_at (st_fs s') Source ["a.bin"%string] collision_a
      /\ file_at (st_fs s') Replica ["a.bin"%string] collision_b)
  /\ (let fs := {| source_root :=
                     Some (Dir [("d"%string, Dir [("f"%string, File [x01])])]);
                   replica_root := Some (Dir []) |} in
      let s' := Anywhere.run_cycle [] plain_update plain_digest no_faults
                  (unlistable_at (Source, ["d"%string]))
                  (Source, []) (Replica, []) 1 fs in
      wf_fs fs = true
      /\ no_error (st_out s') = true
      /\ file_at (st_fs s') Source ["d"%string; "f"%string] [x01]
      /\ kind_at (st_fs s') (Replica, ["d"%string; "f"%string]) = KNone)
  /\ (let fs := {| source_root :=
                     Some (Dir [("a"%string, Dir [("f"%string, File [x01])]);
                                ("r"%string, Dir [])]);
                   replica_root := None |} in
      let source := (Source, []) in
      let replica := (Source, ["r"%string]) in
      let s' := Anywhere.run_cycle [] plain_update plain_digest no_faults
                  all_listable source replica 3 fs in
      wf_fs fs = true
      /\ no_error (st_out s') = true
      /\ file_at (seen source replica (st_fs s')) Replica
           ["r"%string; "a"%string; "f"%string] [x01]
      /\ kind_at (seen source replica fs)
           (Source, ["r"%string; "a"%string; "f"%string]) = KNone
      /\ stat (st_fs s') source <> stat fs source).
Proof.
  repeat split; try discriminate; vm_compute; try reflexivity; discriminate.
Qed.

(** X2. In an environment without faults, for two folders of which neither
    lies inside the other, when the replica folder exists, nothing of the
    replica stands in the way of a source file, no replica file sits at
    the path of a source directory and the digests do not collide on the
    files compared, one cycle reports no error, leaves the source as it
    was and leaves in the replica exactly the files of the source, with
    their contents. *)
Theorem fault_free_cycle_mirrors_the_source (hasher : Type) (hash_new : hasher)
    (hash_update : hasher -> list byte -> hasher) (hexdigest : hasher -> string)
    (source replica : path) (depth : nat) (fs : filesystem) :
  wf_fs fs = true ->
  comparable replica source = false ->
  exists_b fs replica = true ->
  height_at fs source <= depth ->
  height_at fs replica <= depth ->
  conflict_free (seen source replica fs) = true ->
  clear_of_dirs (seen source replica fs) = true ->
  collision_free hash_new hash_update hexdigest (seen source replica fs) = true ->
  no_error (st_out (Anywhere.run_cycle hash_new hash_update hexdigest no_faults
                      all_listable source replica depth fs)) = true
  /\ stat (st_fs (Anywhere.run_cycle hash_new hash_update hexdigest no_faults
                    all_listable source replica depth fs)) source
     = stat fs source
  /\ forall p d,
       file_at (seen source replica
                  (st_fs (Anywhere.run_cycle hash_new hash_update hexdigest
                            no_faults all_listable source replica depth fs)))
         Replica p d
       <-> file_at (seen source replica fs) Source p d.
Proof.
  intros Hwf Hapart Hrep Hhs Hhr Hcf Hclear Hfree.
  destruct (@run_cycle_seen hasher hash_new hash_update hexdigest no_faults
              all_listable source replica Hapart (fun _ => eq_refl) depth fs
              Hwf Hrep (@shallow_seen source replica depth fs Hhs Hhr))
    as (Hfs & Hout & _).
  change (seen_faults source replica no_faults) with no_faults in *.
  pose proof (@wf_seen source replica fs Hwf) as Hwf'.
  assert (Hne : no_error
                  (st_out (run_cycle hash_new hash_update hexdigest no_faults
                             (seen source replica fs))) = true).
  { now rewrite cycle_errors, cycle_unhindered_no_faults. }
  destruct (clean_cycle hash_new hash_update hexdigest no_faults
              (seen source replica fs) Hwf' Hne) as (_ & Hsame & _).
  split; [now rewrite Hout, no_error_located|]. split.
  - unfold same_source in Hsame. rewrite Hfs in Hsame. exact Hsame.
  - rewrite <- Hfs. now apply mirror_after_clean_cycle.
Qed.

Lemma fault_free_cycle_mirrors_the_source_witness :
  let fs := {| source_root := None;
               replica_root :=
                 Some (Dir [("home"%string,
                             Dir [("a.txt"%string, File [x68; x65; x6c; x6c; x6f]);
                                  ("sub"%string,
                                   Dir [("b.txt"%string, File [x77; x6f])])]);
                            ("backup"%string,
                             Dir [("a.txt"%string, File [x68; x69]);
                                  ("old"%string,
                                   Dir [("c.txt"%string, File [x73])])])]) |} in
  let source := (Replica, ["home"%string]) in
  let replica := (Replica, ["backup"%string]) in
  no_error (st_out (Anywhere.run_cycle [] plain_update plain_digest no_faults
                      all_listable source replica 1 fs)) = true
  /\ stat (st_fs (Anywhere.run_cycle [] plain_update plain_digest no_faults
                    all_listable source replica 1 fs)) source
     = stat fs source
  /\ forall p d,
       file_at (seen source replica
                  (st_fs (Anywhere.run_cycle [] plain_update plain_digest
                            no_faults all_listable source replica 1 fs)))
         Replica p d
       <-> file_at (seen source replica fs) Source p d.
Proof.
  intros fs source replica.
  apply (@fault_free_cycle_mirrors_the_source (list byte) [] plain_update
           plain_digest source replica 1 fs);
    try (vm_compute; reflexivity); vm_compute; lia.
Defined.

(** X19. [main] keeps the replica in sync.  In an environment without
    faults, for two existing folders of which neither lies inside the
    other, when nothing of the replica stands in the way of a source file,
    no replica file sits at the path of a source directory and the digests
    do not collide on the files the first cycle compares, then after every
    number of cycles but zero the replica holds exactly the files of the
    source, with their contents, the source is as it was, and the log is
    the log of the first cycle followed by one completion record for each
    later cycle. *)
Theorem main_keeps_the_replica_in_sync (hasher : Type) (hash_new : hasher)
    (hash_update : hasher -> list byte -> hasher) (hexdigest : hasher -> string)
    (source replica : path) (interval n depth : nat) (fs : filesystem) :
  wf_fs fs = true ->
  comparable replica source = false ->
  exists_b fs source = true ->
  exists_b fs replica = true ->
  height_at fs source <= depth ->
  height_at fs replica <= depth ->
  conflict_free (seen source replica fs) = true ->
  clear_of_dirs (seen source replica fs) = true ->
  collision_free hash_new hash_update hexdigest (seen source replica fs) = true ->
  (forall p d,
     file_at (seen source replica
                (st_fs (Anywhere.run_main hash_new hash_update hexdigest no_faults
                          all_listable source replica interval (S n) depth fs)))
       Replica p d
     <-> file_at (seen source replica fs) Source p d)
  /\ stat (st_fs (Anywhere.run_main hash_new hash_update hexdigest no_faults
                    all_listable source replica interval (S n) depth fs)) source
     = stat fs source
  /\ st_out (Anywhere.run_main hash_new hash_update hexdigest no_faults
               all_listable source replica interval (S n) depth fs)
     = st_out (Anywhere.run_cycle hash_new hash_update hexdigest no_faults
                 all_listable source replica depth fs)
       ++ repeat (LogInfo SyncCompleted) n.
Proof.
  intros Hwf Hapart Hsrc Hrep Hhs Hhr Hcf Hclear Hfree.
  pose proof (@shallow_seen source replica depth fs Hhs Hhr) as Hsh.
  destruct (@run_main_seen hasher hash_new hash_update hexdigest no_faults
              all_listable source replica Hapart (fun _ => eq_refl)
              interval (S n) depth fs Hwf Hsh) as (Hfs & Hout & _).
  destruct (@run_cycle_seen hasher hash_new hash_update hexdigest no_faults
              all_listable source replica Hapart (fun _ => eq_refl) depth fs
              Hwf Hrep Hsh) as (_ & Hout1 & _).
  change (seen_faults source replica no_faults) with no_faults in *.
  destruct (exists_b_seen source replica fs) as [Es Er].
  destruct (@main_stays_in_sync hasher hash_new hash_update hexdigest interval n
              (seen source replica fs) (@wf_seen source replica fs Hwf))
    as (Hmirror & Hsame & Hlog); trivial; try congruence.
  split; [|split].
  - rewrite <- Hfs. exact Hmirror.
  - unfold same_source in Hsame. rewrite Hfs in Hsame. exact Hsame.
  - rewrite Hout, Hlog, map_app, map_located_repeat, <- Hout1. reflexivity.
Qed.

Lemma main_keeps_the_replica_in_sync_witness :
  let fs := {| source_root := None;
               replica_root :=
                 Some (Dir [("home"%string,
                             Dir [("a.txt"%string, File [x68; x65; x6c; x6c; x6f]);
                                  ("sub"%string,
                                   Dir [("b.txt"%string, File [x77; x6f])])]);
                            ("backup"%string,
                             Dir [("a.txt"%string, File [x68; x69]);
                                  ("old.txt"%string, File [x73])])]) |} in
  let source := (Replica, ["home"%string]) in
  let replica := (Replica, ["backup"%string]) in
  (forall p d,
     file_at (seen source replica
                (st_fs (Anywhere.run_main [] plain_update plain_digest no_faults
                          all_listable source replica 1 3 1 fs)))
       Replica p d
     <-> file_at (seen source replica fs) Source p d)
  /\ stat (st_fs (Anywhere.run_main [] plain_update plain_digest no_faults
                    all_listable source replica 1 3 1 fs)) source
     = stat fs source
  /\ st_out (Anywhere.run_main [] plain_update plain_digest no_faults
               all_listable source replica 1 3 1 fs)
     = st_out (Anywhere.run_cycle [] plain_update plain_digest no_faults
                 all_listable source replica 1 fs)
       ++ repeat (LogInfo SyncCompleted) 2.
Proof.
  intros fs source replica.
  apply (@main_keeps_the_replica_in_sync (list byte) [] plain_update plain_digest
           source replica 1 2 1 fs);
    try (vm_compute; reflexivity); vm_compute; lia.
Defined.

(** * A failing file, and what is left of it *)


